(** * Path Hunter: grid search engine and maze generators

    A shallow embedding of [script.js]: the cell grid ([gridArray]), the
    neighbour lookup, the three searches (BFS, DFS, A-star), the path
    reconstruction of [animate], the wall editing handlers and the three
    maze generators, followed by the properties of the specification.

    Conventions of the embedding.
    - A cell object is addressed by its grid position [(r, c)]: the heap of
      node objects is the finite map [gridArray : gmap (Z * Z) Node], and a
      reference to a node ([previousNode], the entries of a queue) is its
      key.  Reading [gridArray[r][c]] outside the grid gives [undefined],
      and using a field of [undefined] raises a [TypeError].
    - JavaScript numbers are integers here ([Z]); [Infinity] is a separate
      constructor of [num].
    - [while] loops and the recursion of [recursiveDivision] carry a fuel
      argument; running out of fuel is the outcome [OutOfFuel], distinct
      from a raised exception.
    - [Math.random()] is an oracle [nat -> Z] read through a call counter:
      [Math.floor(Math.random() * k)] is the next raw draw modulo [k]. *)

From stdpp Require Import gmap list sorting strings.
From Stdlib Require Import ZArith Lia.

Local Open Scope Z_scope.

(** ** Outcomes of a computation *)

Inductive outcome (A : Type) : Type :=
  | Ok (a : A)
  | TypeError
  | OutOfFuel.
Arguments Ok {A} a.
Arguments TypeError {A}.
Arguments OutOfFuel {A}.

#[global] Instance outcome_ret : MRet outcome := λ A a, Ok a.
#[global] Instance outcome_bind : MBind outcome := λ A B f m,
  match m with
  | Ok a => f a
  | TypeError => TypeError
  | OutOfFuel => OutOfFuel
  end.

(** Dereference of a possibly [undefined] value. *)
Definition deref {A : Type} (o : option A) : outcome A :=
  match o with
  | Some a => Ok a
  | None => TypeError
  end.

(** ** Numbers with [Infinity] *)

Inductive num : Type :=
  | Fin (z : Z)
  | Infinity.

(** [a < b] on numbers. *)
Definition num_lt (a b : num) : bool :=
  match a, b with
  | Fin x, Fin y => bool_decide (x < y)
  | Fin _, Infinity => true
  | Infinity, _ => false
  end.

(** [a + k] for a finite [k]. *)
Definition num_add (a : num) (k : Z) : num :=
  match a with
  | Fin x => Fin (x + k)
  | Infinity => Infinity
  end.

(** ** Cells *)

Abbreviation Pos := (Z * Z)%type.

Record Node : Type := mkNode {
  r : Z;
  c : Z;
  isWall : bool;
  isVisited : bool;
  previousNode : option Pos;
  distance : num;
  fCost : num;
  gCost : num
}.

Definition set_isWall (b : bool) (n : Node) : Node :=
  mkNode n.(r) n.(c) b n.(isVisited) n.(previousNode) n.(distance) n.(fCost) n.(gCost).
Definition set_isVisited (b : bool) (n : Node) : Node :=
  mkNode n.(r) n.(c) n.(isWall) b n.(previousNode) n.(distance) n.(fCost) n.(gCost).
Definition set_previousNode (p : option Pos) (n : Node) : Node :=
  mkNode n.(r) n.(c) n.(isWall) n.(isVisited) p n.(distance) n.(fCost) n.(gCost).
Definition set_gCost (x : num) (n : Node) : Node :=
  mkNode n.(r) n.(c) n.(isWall) n.(isVisited) n.(previousNode) n.(distance) n.(fCost) x.
Definition set_fCost (x : num) (n : Node) : Node :=
  mkNode n.(r) n.(c) n.(isWall) n.(isVisited) n.(previousNode) n.(distance) x n.(gCost).

(** The object pushed by [createGrid] at row [i], column [j]. *)
Definition newNode (i j : Z) : Node :=
  mkNode i j false false None Infinity Infinity Infinity.

(** [createGrid]: [rows] rows of [cols] fresh cells. *)
Definition createGrid (rows cols : Z) : gmap Pos Node :=
  foldl (λ g i, foldl (λ g j, <[(i, j) := newNode i j]> g) g (seqZ 0 cols))
        ∅ (seqZ 0 rows).

(** ** Neighbour lookup *)

(** [getNeighbors(node)]: up, right, down, left, each behind its bounds
    check. *)
Definition getNeighbors (rows cols : Z) (node : Node) : list Pos :=
  let i := node.(r) in
  let j := node.(c) in
  let neighbors := [] in
  let neighbors := if decide (i > 0) then neighbors ++ [(i - 1, j)] else neighbors in
  let neighbors := if decide (j < cols - 1) then neighbors ++ [(i, j + 1)] else neighbors in
  let neighbors := if decide (i < rows - 1) then neighbors ++ [(i + 1, j)] else neighbors in
  let neighbors := if decide (j > 0) then neighbors ++ [(i, j - 1)] else neighbors in
  neighbors.

(** [heuristic(a, b)]: Manhattan distance. *)
Definition heuristic (a b : Node) : Z :=
  Z.abs (a.(r) - b.(r)) + Z.abs (a.(c) - b.(c)).

(** A position lies inside a [rows] by [cols] grid. *)
Definition inBounds (rows cols : Z) (p : Pos) : Prop :=
  0 ≤ p.1 < rows ∧ 0 ≤ p.2 < cols.

#[global] Instance inBounds_dec rows cols p : Decision (inBounds rows cols p).
Proof. unfold inBounds. apply _. Defined.

(** ** Search engine *)

(** Which [return] of a search was taken: the one inside the loop
    ([current === end]) or the one after the loop (frontier exhausted). *)
Inductive Exit : Type :=
  | FoundEnd
  | FrontierEmpty.

#[global] Instance Exit_eq_dec : EqDecision Exit.
Proof. solve_decision. Defined.

(** What a search leaves behind: the returned array and the mutated heap. *)
Record SearchResult : Type := mkSearchResult {
  visitedNodes : list Pos;
  exit : Exit;
  heap : gmap Pos Node
}.

(** [stack.pop()]: the last element of the array. *)
Definition pop {A : Type} (l : list A) : option (A * list A) :=
  match reverse l with
  | [] => None
  | x :: l' => Some (x, reverse l')
  end.

(** The [for (const n of neighbors)] loop shared, with the same text, by
    [bfs] and [dfs]: an unvisited non-wall neighbour is marked, linked to
    [current] and pushed on the frontier. *)
Fixpoint visitNeighbors (current : Pos) (neighbors : list Pos)
    (g : gmap Pos Node) (frontier : list Pos) : outcome (gmap Pos Node * list Pos) :=
  match neighbors with
  | [] => Ok (g, frontier)
  | n :: rest =>
      nd ← deref (g !! n);
      if negb nd.(isVisited) && negb nd.(isWall)
      then visitNeighbors current rest
             (<[n := set_previousNode (Some current) (set_isVisited true nd)]> g)
             (frontier ++ [n])
      else visitNeighbors current rest g frontier
  end.

(** The [while (queue.length)] loop of [bfs]. *)
Fixpoint bfs_loop (fuel : nat) (rows cols : Z) (end_ : Pos)
    (g : gmap Pos Node) (queue visitedOrder : list Pos) : outcome SearchResult :=
  match fuel with
  | O => OutOfFuel
  | S fuel' =>
      match queue with
      | [] => Ok (mkSearchResult visitedOrder FrontierEmpty g)
      | current :: queue' =>
          let visitedOrder := visitedOrder ++ [current] in
          if decide (current = end_)
          then Ok (mkSearchResult visitedOrder FoundEnd g)
          else
            cur ← deref (g !! current);
            '(g', queue'') ← visitNeighbors current (getNeighbors rows cols cur) g queue';
            bfs_loop fuel' rows cols end_ g' queue'' visitedOrder
      end
  end.

Definition bfs (fuel : nat) (rows cols : Z) (g : gmap Pos Node)
    (start end_ : Pos) : outcome SearchResult :=
  s ← deref (g !! start);
  let g := <[start := set_isVisited true s]> g in
  bfs_loop fuel rows cols end_ g [start] [].

(** The [while (stack.length)] loop of [dfs]. *)
Fixpoint dfs_loop (fuel : nat) (rows cols : Z) (end_ : Pos)
    (g : gmap Pos Node) (stack visited : list Pos) : outcome SearchResult :=
  match fuel with
  | O => OutOfFuel
  | S fuel' =>
      match pop stack with
      | None => Ok (mkSearchResult visited FrontierEmpty g)
      | Some (current, stack') =>
          let visited := visited ++ [current] in
          if decide (current = end_)
          then Ok (mkSearchResult visited FoundEnd g)
          else
            cur ← deref (g !! current);
            '(g', stack'') ← visitNeighbors current (getNeighbors rows cols cur) g stack';
            dfs_loop fuel' rows cols end_ g' stack'' visited
      end
  end.

Definition dfs (fuel : nat) (rows cols : Z) (g : gmap Pos Node)
    (start end_ : Pos) : outcome SearchResult :=
  s ← deref (g !! start);
  let g := <[start := set_isVisited true s]> g in
  dfs_loop fuel rows cols end_ g [start] [].

(** [openSet.sort((a, b) => a.fCost - b.fCost)]: a stable sort; [x] goes
    before the first entry that it is strictly smaller than. *)
Fixpoint insertByCost (x : Pos * num) (l : list (Pos * num)) : list (Pos * num) :=
  match l with
  | [] => [x]
  | y :: l' => if num_lt x.2 y.2 then x :: y :: l' else y :: insertByCost x l'
  end.

Definition sortByCost (l : list (Pos * num)) : list (Pos * num) :=
  foldl (λ acc x, insertByCost x acc) [] l.

(** Reads the [fCost] of every entry of the open set. *)
Fixpoint readCosts (g : gmap Pos Node) (l : list Pos) : outcome (list (Pos * num)) :=
  match l with
  | [] => Ok []
  | p :: l' =>
      nd ← deref (g !! p);
      rest ← readCosts g l';
      Ok ((p, nd.(fCost)) :: rest)
  end.

Definition sortOpenSet (g : gmap Pos Node) (openSet : list Pos) : outcome (list Pos) :=
  costs ← readCosts g openSet;
  Ok ((sortByCost costs).*1).

(** The [for (const n of neighbors)] loop of [astar]. *)
Fixpoint relaxNeighbors (current end_ : Pos) (neighbors : list Pos)
    (g : gmap Pos Node) (openSet : list Pos) : outcome (gmap Pos Node * list Pos) :=
  match neighbors with
  | [] => Ok (g, openSet)
  | n :: rest =>
      nd ← deref (g !! n);
      if nd.(isWall) || nd.(isVisited)
      then relaxNeighbors current end_ rest g openSet
      else
        cur ← deref (g !! current);
        let tentativeG := num_add cur.(gCost) 1 in
        if num_lt tentativeG nd.(gCost)
        then
          e ← deref (g !! end_);
          let nd' := set_fCost (num_add tentativeG (heuristic nd e))
                       (set_gCost tentativeG
                          (set_previousNode (Some current) nd)) in
          let g := <[n := nd']> g in
          let openSet := if decide (n ∈ openSet) then openSet else openSet ++ [n] in
          relaxNeighbors current end_ rest g openSet
        else relaxNeighbors current end_ rest g openSet
  end.

(** The [while (openSet.length)] loop of [astar]. *)
Fixpoint astar_loop (fuel : nat) (rows cols : Z) (end_ : Pos)
    (g : gmap Pos Node) (openSet visitedOrder : list Pos) : outcome SearchResult :=
  match fuel with
  | O => OutOfFuel
  | S fuel' =>
      match openSet with
      | [] => Ok (mkSearchResult visitedOrder FrontierEmpty g)
      | _ :: _ =>
          sorted ← sortOpenSet g openSet;
          match sorted with
          | [] => TypeError
          | current :: openSet' =>
              cur ← deref (g !! current);
              if cur.(isVisited)
              then astar_loop fuel' rows cols end_ g openSet' visitedOrder
              else
                let g := <[current := set_isVisited true cur]> g in
                let visitedOrder := visitedOrder ++ [current] in
                if decide (current = end_)
                then Ok (mkSearchResult visitedOrder FoundEnd g)
                else
                  '(g', openSet'') ←
                    relaxNeighbors current end_ (getNeighbors rows cols cur) g openSet';
                  astar_loop fuel' rows cols end_ g' openSet'' visitedOrder
          end
      end
  end.

Definition astar (fuel : nat) (rows cols : Z) (g : gmap Pos Node)
    (start end_ : Pos) : outcome SearchResult :=
  s ← deref (g !! start);
  let g := <[start := set_gCost (Fin 0) s]> g in
  s ← deref (g !! start);
  e ← deref (g !! end_);
  let g := <[start := set_fCost (Fin (heuristic s e)) s]> g in
  astar_loop fuel rows cols end_ g [start] [].

(** The value of the algorithm selector. *)
Inductive Algo : Type :=
  | Bfs
  | Dfs
  | Astar.

Definition search (algo : Algo) (fuel : nat) (rows cols : Z) (g : gmap Pos Node)
    (start end_ : Pos) : outcome SearchResult :=
  match algo with
  | Bfs => bfs fuel rows cols g start end_
  | Dfs => dfs fuel rows cols g start end_
  | Astar => astar fuel rows cols g start end_
  end.

(** ** Path reconstruction and results *)

(** The [while (curr)] loop of [animate]: [path.unshift(curr)] and a step
    along [previousNode]. *)
Fixpoint reconstruct (fuel : nat) (g : gmap Pos Node) (curr : option Pos)
    (path : list Pos) : outcome (list Pos) :=
  match curr with
  | None => Ok path
  | Some p =>
      match fuel with
      | O => OutOfFuel
      | S fuel' =>
          nd ← deref (g !! p);
          reconstruct fuel' g nd.(previousNode) (p :: path)
      end
  end.

(** The fields that [showResults] writes to the panel: the visited count,
    the path length ([Infinity] stands for the text of the failure case) and
    whether the status line reports success. *)
Record Panel : Type := mkPanel {
  visitedCount : nat;
  pathLength : num;
  statusSuccess : bool
}.

Definition showResults (visited pathLen : nat) (success : bool) : Panel :=
  mkPanel visited (if success then Fin (Z.of_nat pathLen) else Infinity) success.

(** What [animate] computes after the playback of the trace. *)
Record Run : Type := mkRun {
  trace : list Pos;
  exitKind : Exit;
  path : list Pos;
  success : bool;
  pathLen : nat;
  panel : Panel;
  finalHeap : gmap Pos Node
}.

Definition animate (fuel : nat) (res : SearchResult) (start end_ : Pos) : outcome Run :=
  let g := res.(heap) in
  path ← reconstruct fuel g (Some end_) [];
  endNode ← deref (g !! end_);
  let success :=
    bool_decide (1 ≤ length path)%nat
    && bool_decide (head path = Some start)
    && negb endNode.(isWall)
    && endNode.(isVisited) in
  let pathLen := if success then length path else 0%nat in
  Ok (mkRun res.(visitedNodes) res.(exit) path success pathLen
        (showResults (length res.(visitedNodes)) pathLen success) g).

(** [resetVisuals]: the per-run fields of every cell. *)
Definition resetNode (n : Node) : Node :=
  mkNode n.(r) n.(c) n.(isWall) false None Infinity Infinity Infinity.

Definition resetVisuals (g : gmap Pos Node) : gmap Pos Node := resetNode <$> g.

(** ** Global state of the page *)

Inductive Tool : Type :=
  | Pointer
  | Pencil
  | Eraser.

Inductive Drag : Type :=
  | DragStart
  | DragEnd.

(** The mutable globals of the script.  [rngCalls] counts the calls of
    [Math.random()] made so far. *)
Record State : Type := mkState {
  ROWS : Z;
  COLS : Z;
  gridArray : gmap Pos Node;
  isMousePressed : bool;
  isRunning : bool;
  currentTool : Tool;
  draggingNode : option Drag;
  startPos : Pos;
  endPos : Pos;
  rngCalls : nat
}.

Definition set_gridArray (g : gmap Pos Node) (st : State) : State :=
  mkState st.(ROWS) st.(COLS) g st.(isMousePressed) st.(isRunning)
    st.(currentTool) st.(draggingNode) st.(startPos) st.(endPos) st.(rngCalls).
Definition set_isMousePressed (b : bool) (st : State) : State :=
  mkState st.(ROWS) st.(COLS) st.(gridArray) b st.(isRunning)
    st.(currentTool) st.(draggingNode) st.(startPos) st.(endPos) st.(rngCalls).
Definition set_isRunning (b : bool) (st : State) : State :=
  mkState st.(ROWS) st.(COLS) st.(gridArray) st.(isMousePressed) b
    st.(currentTool) st.(draggingNode) st.(startPos) st.(endPos) st.(rngCalls).
Definition set_currentTool (t : Tool) (st : State) : State :=
  mkState st.(ROWS) st.(COLS) st.(gridArray) st.(isMousePressed) st.(isRunning)
    t st.(draggingNode) st.(startPos) st.(endPos) st.(rngCalls).
Definition set_draggingNode (d : option Drag) (st : State) : State :=
  mkState st.(ROWS) st.(COLS) st.(gridArray) st.(isMousePressed) st.(isRunning)
    st.(currentTool) d st.(startPos) st.(endPos) st.(rngCalls).
Definition set_startPos (p : Pos) (st : State) : State :=
  mkState st.(ROWS) st.(COLS) st.(gridArray) st.(isMousePressed) st.(isRunning)
    st.(currentTool) st.(draggingNode) p st.(endPos) st.(rngCalls).
Definition set_endPos (p : Pos) (st : State) : State :=
  mkState st.(ROWS) st.(COLS) st.(gridArray) st.(isMousePressed) st.(isRunning)
    st.(currentTool) st.(draggingNode) st.(startPos) p st.(rngCalls).
Definition set_rngCalls (k : nat) (st : State) : State :=
  mkState st.(ROWS) st.(COLS) st.(gridArray) st.(isMousePressed) st.(isRunning)
    st.(currentTool) st.(draggingNode) st.(startPos) st.(endPos) k.

(** The globals as the script initialises them, before the first
    [calculateGridSize]. *)
Definition initialState : State :=
  mkState 15 30 ∅ false false Pointer None (5, 5) (5, 25) 0.

(** ** Grid creation *)

(** [calculateGridSize].  [viewportCols] and [viewportRows] are the values
    of [Math.floor(maxWidth / CELL_SIZE)] and [Math.floor(height / CELL_SIZE)],
    which depend on the window only. *)
Definition calculateGridSize (viewportCols viewportRows : Z) (st : State) : State :=
  let COLS := viewportCols in
  let ROWS := viewportRows in
  let ROWS := if decide (ROWS < 5) then 5 else ROWS in
  let COLS := if decide (COLS < 5) then 5 else COLS in
  let startPos := (Z.min st.(startPos).1 (ROWS - 1), Z.min st.(startPos).2 (COLS - 1)) in
  let endPos := (Z.min st.(endPos).1 (ROWS - 1), Z.min st.(endPos).2 (COLS - 1)) in
  mkState ROWS COLS (createGrid ROWS COLS) st.(isMousePressed) st.(isRunning)
    st.(currentTool) st.(draggingNode) startPos endPos st.(rngCalls).

Definition isStartOrEnd (st : State) (i j : Z) : bool :=
  (bool_decide (i = st.(startPos).1) && bool_decide (j = st.(startPos).2))
  || (bool_decide (i = st.(endPos).1) && bool_decide (j = st.(endPos).2)).

(** ** Wall editing *)

Definition addWall (i j : Z) (state : bool) (st : State) : outcome State :=
  if isStartOrEnd st i j then Ok st
  else
    node ← deref (st.(gridArray) !! (i, j));
    Ok (set_gridArray (<[(i, j) := set_isWall state node]> st.(gridArray)) st).

Definition handleMouseDown (i j : Z) (st : State) : outcome State :=
  if st.(isRunning) then Ok st
  else
    let st := set_isMousePressed true st in
    if bool_decide (i = st.(startPos).1) && bool_decide (j = st.(startPos).2)
    then Ok (set_draggingNode (Some DragStart) st)
    else if bool_decide (i = st.(endPos).1) && bool_decide (j = st.(endPos).2)
    then Ok (set_draggingNode (Some DragEnd) st)
    else
      match st.(currentTool) with
      | Pencil => addWall i j true st
      | Eraser => addWall i j false st
      | Pointer => Ok st
      end.

Definition handleMouseEnter (i j : Z) (st : State) : outcome State :=
  if negb st.(isMousePressed) || st.(isRunning) then Ok st
  else
    match st.(draggingNode) with
    | Some DragStart =>
        if bool_decide (i ≠ st.(endPos).1) || bool_decide (j ≠ st.(endPos).2)
        then
          node ← deref (st.(gridArray) !! (i, j));
          if negb node.(isWall) then Ok (set_startPos (i, j) st) else Ok st
        else Ok st
    | Some DragEnd =>
        if bool_decide (i ≠ st.(startPos).1) || bool_decide (j ≠ st.(startPos).2)
        then
          node ← deref (st.(gridArray) !! (i, j));
          if negb node.(isWall) then Ok (set_endPos (i, j) st) else Ok st
        else Ok st
    | None =>
        match st.(currentTool) with
        | Pencil => addWall i j true st
        | Eraser => addWall i j false st
        | Pointer => Ok st
        end
    end.

Definition handleMouseUp (st : State) : State :=
  set_draggingNode None (set_isMousePressed false st).

Definition setTool (tool : Tool) (st : State) : State := set_currentTool tool st.

(** [resetBoard]: the per-run fields and the walls of every cell. *)
Definition resetBoard (st : State) : State :=
  if st.(isRunning) then st
  else set_gridArray (set_isWall false <$> resetVisuals st.(gridArray)) st.

(** ** Maze and pattern generation *)

(** A [for] loop over the values of [l], threading the state. *)
Fixpoint forEach {A S : Type} (l : list A) (body : A → S → outcome S) (s : S)
    : outcome S :=
  match l with
  | [] => Ok s
  | x :: l' => s' ← body x s; forEach l' body s'
  end.

(** The values of [for (let x = lo; x <= hi; x++)]. *)
Definition upTo (lo hi : Z) : list Z := seqZ lo (hi - lo + 1).

(** The values of [for (let x = hi; x >= lo; x--)]. *)
Definition downTo (hi lo : Z) : list Z := reverse (seqZ lo (hi - lo + 1)).

(** [Math.floor(Math.random() * k)]: the next draw of the oracle, reduced
    to the range of [k] values. *)
Definition randomInt (rnd : nat → Z) (k : Z) (st : State) : Z * State :=
  (rnd st.(rngCalls) `mod` k, set_rngCalls (S st.(rngCalls)) st).

Fixpoint recursiveDivision (fuel : nat) (rnd : nat → Z)
    (rStart rEnd cStart cEnd : Z) (st : State) : outcome State :=
  match fuel with
  | O => OutOfFuel
  | S fuel' =>
      if decide (rEnd - rStart < 2 ∨ cEnd - cStart < 2) then Ok st
      else if decide (rEnd - rStart > cEnd - cStart)
      then
        let '(x, st) := randomInt rnd (rEnd - rStart - 1) st in
        let wallR := x + rStart + 1 in
        let '(y, st) := randomInt rnd (cEnd - cStart + 1) st in
        let gapC := y + cStart in
        st ← forEach (upTo cStart cEnd)
               (λ j st, if bool_decide (j ≠ gapC) && negb (isStartOrEnd st wallR j)
                        then addWall wallR j true st else Ok st) st;
        st ← recursiveDivision fuel' rnd rStart (wallR - 1) cStart cEnd st;
        recursiveDivision fuel' rnd (wallR + 1) rEnd cStart cEnd st
      else
        let '(x, st) := randomInt rnd (cEnd - cStart - 1) st in
        let wallC := x + cStart + 1 in
        let '(y, st) := randomInt rnd (rEnd - rStart + 1) st in
        let gapR := y + rStart in
        st ← forEach (upTo rStart rEnd)
               (λ i st, if bool_decide (i ≠ gapR) && negb (isStartOrEnd st i wallC)
                        then addWall i wallC true st else Ok st) st;
        st ← recursiveDivision fuel' rnd rStart rEnd cStart (wallC - 1) st;
        recursiveDivision fuel' rnd rStart rEnd (wallC + 1) cEnd st
  end.

Definition clearNeighbors (pos : Pos) (st : State) : outcome State :=
  forEach [(0, 1); (0, -1); (1, 0); (-1, 0)]
    (λ '(dr, dc) st,
       let i := pos.1 + dr in
       let j := pos.2 + dc in
       if decide (i >= 0 ∧ i < st.(ROWS) ∧ j >= 0 ∧ j < st.(COLS))
       then addWall i j false st else Ok st) st.

(** The body of the four edge loops of the spiral. *)
Definition wallUnlessSpecial (i j : Z) (st : State) : outcome State :=
  if negb (isStartOrEnd st i j) then addWall i j true st else Ok st.

(** The [while (rStart <= rEnd && cStart <= cEnd)] loop of
    [generateSpiralPattern]. *)
Fixpoint spiralLoop (fuel : nat) (rStart rEnd cStart cEnd : Z) (st : State)
    : outcome State :=
  match fuel with
  | O => OutOfFuel
  | S fuel' =>
      if decide (rStart ≤ rEnd ∧ cStart ≤ cEnd)
      then
        st ← forEach (upTo cStart cEnd) (λ j, wallUnlessSpecial rStart j) st;
        let rStart := rStart + 2 in
        st ← forEach (upTo (rStart - 2) rEnd) (λ i, wallUnlessSpecial i cEnd) st;
        let cEnd := cEnd - 2 in
        '(st, rEnd) ←
          (if decide (rStart ≤ rEnd)
           then st ← forEach (downTo (cEnd + 2) cStart) (λ j, wallUnlessSpecial rEnd j) st;
                Ok (st, rEnd - 2)
           else Ok (st, rEnd));
        '(st, cStart) ←
          (if decide (cStart ≤ cEnd)
           then st ← forEach (downTo (rEnd + 2) rStart) (λ i, wallUnlessSpecial i cStart) st;
                Ok (st, cStart + 2)
           else Ok (st, cStart));
        spiralLoop fuel' rStart rEnd cStart cEnd st
      else Ok st
  end.

Definition generateSpiralPattern (fuel : nat) (st : State) : outcome State :=
  st ← spiralLoop fuel 1 (st.(ROWS) - 2) 1 (st.(COLS) - 2) st;
  st ← clearNeighbors st.(startPos) st;
  clearNeighbors st.(endPos) st.

(** [getMazeNeighbors]: the cells two steps away, inside the grid and not
    yet in [visited].  The keys of [visited] are the texts [r,c], one per
    position. *)
Definition getMazeNeighbors (rows cols : Z) (i j : Z) (visited : gset Pos) : list Pos :=
  foldl (λ neighbors '(dr, dc),
           let nr := i + dr in
           let nc := j + dc in
           if decide (nr >= 0 ∧ nr < rows ∧ nc >= 0 ∧ nc < cols)
           then (if decide ((nr, nc) ∈ visited) then neighbors
                 else neighbors ++ [(nr, nc)])
           else neighbors)
        [] [(0, -2); (0, 2); (-2, 0); (2, 0)].

(** [x / 2] as an array index: a number that is not an integer indexes
    nothing. *)
Definition half (x : Z) : option Z :=
  if decide (x `mod` 2 = 0) then Some (x `div` 2) else None.

(** The [while (stack.length > 0)] loop of [generateDFSMaze]. *)
Fixpoint mazeLoop (fuel : nat) (rnd : nat → Z) (stack : list Pos)
    (visited : gset Pos) (st : State) : outcome State :=
  match fuel with
  | O => OutOfFuel
  | S fuel' =>
      match pop stack with
      | None => Ok st
      | Some (curr, stack) =>
          let neighbors := getMazeNeighbors st.(ROWS) st.(COLS) curr.1 curr.2 visited in
          if decide (0 < length neighbors)%nat
          then
            let stack := stack ++ [curr] in
            let '(k, st) := randomInt rnd (Z.of_nat (length neighbors)) st in
            next ← deref (neighbors !! Z.to_nat k);
            wallR ← deref (half (curr.1 + next.1));
            wallC ← deref (half (curr.2 + next.2));
            st ← addWall wallR wallC false st;
            st ← addWall next.1 next.2 false st;
            let visited := visited ∪ {[next]} in
            let stack := stack ++ [next] in
            mazeLoop fuel' rnd stack visited st
          else mazeLoop fuel' rnd stack visited st
      end
  end.

Definition generateDFSMaze (fuel : nat) (rnd : nat → Z) (st : State) : outcome State :=
  st ← forEach (upTo 0 (st.(ROWS) - 1))
         (λ i st, forEach (upTo 0 (st.(COLS) - 1)) (λ j, wallUnlessSpecial i j) st) st;
  st ← mazeLoop fuel rnd [st.(startPos)] {[st.(startPos)]} st;
  st ← addWall st.(startPos).1 st.(startPos).2 false st;
  addWall st.(endPos).1 st.(endPos).2 false st.

(** The value of the maze selector. *)
Inductive MazeType : Type :=
  | MazeRandom
  | MazeSpiral
  | MazeRecursive.

Definition handleMazeGen (fuel : nat) (rnd : nat → Z) (type : option MazeType)
    (st : State) : outcome State :=
  if st.(isRunning) then Ok st
  else
    match type with
    | None => Ok st
    | Some type =>
        let st := resetBoard st in
        match type with
        | MazeRandom => generateDFSMaze fuel rnd st
        | MazeSpiral => generateSpiralPattern fuel st
        | MazeRecursive =>
            recursiveDivision fuel rnd 1 (st.(ROWS) - 2) 1 (st.(COLS) - 2) st
        end
    end.

(** ** Visualisation entry *)

(** The body of [startVisualization]: reset, search, reconstruction.  The
    state returned has the heap the run left and [isRunning] cleared. *)
Definition startVisualization (fuel : nat) (algo : Algo) (st : State)
    : outcome (State * option Run) :=
  if st.(isRunning) then Ok (st, None)
  else
    let g := resetVisuals st.(gridArray) in
    res ← search algo fuel st.(ROWS) st.(COLS) g st.(startPos) st.(endPos);
    run ← animate fuel res st.(startPos) st.(endPos);
    Ok (set_isRunning false (set_gridArray run.(finalHeap) st), Some run).

(** ** Events *)

Inductive Event : Type :=
  | MouseDown (i j : Z)
  | MouseEnter (i j : Z)
  | MouseUp
  | SetTool (tool : Tool)
  | Resize (viewportCols viewportRows : Z)
  | ResetBoard
  | MazeGen (type : option MazeType)
  | Visualize (algo : Algo).

Definition handle (fuel : nat) (rnd : nat → Z) (ev : Event) (st : State)
    : outcome State :=
  match ev with
  | MouseDown i j => handleMouseDown i j st
  | MouseEnter i j => handleMouseEnter i j st
  | MouseUp => Ok (handleMouseUp st)
  | SetTool tool => Ok (setTool tool st)
  | Resize vc vr => Ok (if st.(isRunning) then st else calculateGridSize vc vr st)
  | ResetBoard => Ok (resetBoard st)
  | MazeGen type => handleMazeGen fuel rnd type st
  | Visualize algo => '(st', _) ← startVisualization fuel algo st; Ok st'
  end.

(** ** Theme (persistent) *)

(** The part of the browser that the theme code touches: [localStorage],
    the [data-theme] attribute of the root element ([None] when the
    attribute is absent), and the [checked] property of the theme switch
    ([None] when the page has no such element). *)
Record Browser : Type := mkBrowser {
  localStorage : gmap string string;
  dataTheme : option string;
  themeSwitch : option bool
}.

(** [initTheme]: the saved theme decides the attribute and the switch. *)
Definition initTheme (b : Browser) : Browser :=
  let saved := b.(localStorage) !! "ph-theme"%string in
  if decide (saved = Some "dark"%string)
  then mkBrowser b.(localStorage) (Some "dark"%string) ((λ _, true) <$> b.(themeSwitch))
  else mkBrowser b.(localStorage) None ((λ _, false) <$> b.(themeSwitch)).

(** The [change] listener of the theme switch, installed only when the
    switch exists; [checked] is the state the click has given the switch. *)
Definition themeChange (checked : bool) (b : Browser) : Browser :=
  match b.(themeSwitch) with
  | None => b
  | Some _ =>
      if checked
      then mkBrowser (<["ph-theme"%string := "dark"%string]> b.(localStorage))
             (Some "dark"%string) (Some checked)
      else mkBrowser (<["ph-theme"%string := "light"%string]> b.(localStorage))
             None (Some checked)
  end.

(** * Specification vocabulary *)

(** ** Views of the heap *)

Definition wallAt (g : gmap Pos Node) (p : Pos) : bool :=
  match g !! p with Some n => n.(isWall) | None => false end.

Definition visitedAt (g : gmap Pos Node) (p : Pos) : bool :=
  match g !! p with Some n => n.(isVisited) | None => false end.

Definition prevAt (g : gmap Pos Node) (p : Pos) : option Pos :=
  match g !! p with Some n => n.(previousNode) | None => None end.

Definition gAt (g : gmap Pos Node) (p : Pos) : num :=
  match g !! p with Some n => n.(gCost) | None => Infinity end.

Definition fAt (g : gmap Pos Node) (p : Pos) : num :=
  match g !! p with Some n => n.(fCost) | None => Infinity end.

(** ** Well-formed grids and states *)

(** The heap holds exactly the cells of a [rows] by [cols] grid, each
    carrying its own coordinates. *)
Definition wfGrid (rows cols : Z) (g : gmap Pos Node) : Prop :=
  ∀ p, match g !! p with
       | Some n => inBounds rows cols p ∧ (n.(r), n.(c)) = p
       | None => ¬ inBounds rows cols p
       end.

(** Every position of a [rows] by [cols] grid, row by row. *)
Definition cellsOf (rows cols : Z) : list Pos :=
  i ← seqZ 0 rows; (λ j, (i, j)) <$> seqZ 0 cols.

(** A state between two events: a grid of the current dimensions with the
    start and the end inside it, and no run in progress. *)
Definition wellFormed (st : State) : Prop :=
  wfGrid st.(ROWS) st.(COLS) st.(gridArray)
  ∧ inBounds st.(ROWS) st.(COLS) st.(startPos)
  ∧ inBounds st.(ROWS) st.(COLS) st.(endPos)
  ∧ st.(isRunning) = false.

(** The invariant of the page: a well-formed state of at least 5 by 5
    cells whose start and end cells are not walls. *)
Definition invariant (st : State) : Prop :=
  wellFormed st
  ∧ 5 ≤ st.(ROWS) ∧ 5 ≤ st.(COLS)
  ∧ wallAt st.(gridArray) st.(startPos) = false
  ∧ wallAt st.(gridArray) st.(endPos) = false.

(** Fuel that is enough for every loop on a [rows] by [cols] grid. *)
Definition enoughFuel (rows cols : Z) : nat := 5 * Z.to_nat (rows * cols) + 2.

(** ** Four-directional movement *)

Definition manhattan (u v : Pos) : Z := Z.abs (u.1 - v.1) + Z.abs (u.2 - v.2).

(** A cell one may stand on. *)
Definition freeCell (rows cols : Z) (g : gmap Pos Node) (p : Pos) : Prop :=
  inBounds rows cols p ∧ wallAt g p = false.

(** A sequence of free cells, each one step away from the one before. *)
Fixpoint gridPath (rows cols : Z) (g : gmap Pos Node) (l : list Pos) : Prop :=
  match l with
  | [] => True
  | x :: l' =>
      freeCell rows cols g x
      ∧ match l' with [] => True | y :: _ => manhattan x y = 1 end
      ∧ gridPath rows cols g l'
  end.

(** [l] leads from [s] to [e]. *)
Definition connects (rows cols : Z) (g : gmap Pos Node) (s e : Pos) (l : list Pos) : Prop :=
  gridPath rows cols g l ∧ head l = Some s ∧ last l = Some e.

(** [d] is the least number of steps of a path from [s] to [e]. *)
Definition shortestDistance (rows cols : Z) (g : gmap Pos Node) (s e : Pos) (d : nat) : Prop :=
  (∃ l, connects rows cols g s e l ∧ length l = S d)
  ∧ (∀ l, connects rows cols g s e l → (S d ≤ length l)%nat).

(** ** The search graph *)

(** The moves a search makes: from any cell to a neighbour given by
    [getNeighbors] that is not a wall. *)
Definition edge (rows cols : Z) (walls : Pos → bool) (u v : Pos) : Prop :=
  v ∈ getNeighbors rows cols (newNode u.1 u.2) ∧ walls v = false.

Inductive walk (E : Pos → Pos → Prop) (u : Pos) : Pos → nat → Prop :=
  | walk_here : walk E u u 0
  | walk_step v w n : walk E u v n → E v w → walk E u w (S n).

(** [d] is the length of a shortest walk from [u] to [v]. *)
Definition dist (E : Pos → Pos → Prop) (u v : Pos) (d : nat) : Prop :=
  walk E u v d ∧ ∀ n, walk E u v n → (d ≤ n)%nat.

(** ** Measures and invariants of the searches *)

(** The number of entries of [L] not yet marked visited. *)
Definition unvisited (g : gmap Pos Node) (L : list Pos) : nat :=
  length (filter (λ p, visitedAt g p = false) L).

(** Backpointers lead to cells finalised earlier: the target of the
    [previousNode] of [x] occurs in the trace, and [x] does not occur at or
    before that occurrence. *)
Definition backward (g : gmap Pos Node) (T : list Pos) : Prop :=
  ∀ x p, prevAt g x = Some p →
    ∃ j, T !! j = Some p ∧ ∀ k, (k ≤ j)%nat → T !! k ≠ Some x.

(** The neighbours whose [gCost] the relaxation loop of A-star lowers when
    it runs from [cur] on the heap [g]. *)
Definition improves (ns : list Pos) (g : gmap Pos Node) (cur p : Pos) : Prop :=
  p ∈ ns ∧ wallAt g p = false ∧ visitedAt g p = false
  ∧ num_lt (num_add (gAt g cur) 1) (gAt g p) = true.

(** The invariant of the loops of [bfs] and [dfs], at the loop head, for
    the frontier [F] (queue or stack) and the trace [T] built so far. *)
Definition frontierInv (rows cols : Z) (walls : Pos → bool) (s e : Pos)
    (g : gmap Pos Node) (F T : list Pos) : Prop :=
  wfGrid rows cols g
  ∧ (∀ p, wallAt g p = walls p)
  ∧ (∀ p, visitedAt g p = true ↔ p ∈ T ∨ p ∈ F)
  ∧ NoDup (T ++ F)
  ∧ (e ∉ T)
  ∧ backward g T
  ∧ prevAt g s = None
  ∧ visitedAt g s = true
  ∧ (∀ x, visitedAt g x = true → x ≠ s →
       ∃ p, prevAt g x = Some p ∧ p ∈ T ∧ edge rows cols walls p x)
  ∧ (∀ x, visitedAt g x = false → prevAt g x = None)
  ∧ (∀ x y, x ∈ T → edge rows cols walls x y → visitedAt g y = true).

(** The part of the invariant of [bfs] that speaks of distances: the queue
    holds at most two consecutive levels, in order, behind the trace. *)
Definition levelInv (rows cols : Z) (walls : Pos → bool) (s : Pos)
    (g : gmap Pos Node) (Q T : list Pos) : Prop :=
  let D := dist (edge rows cols walls) s in
  (∀ x, visitedAt g x = true → ∃ d, D x d)
  ∧ StronglySorted (λ x y, ∀ dx dy, D x dx → D y dy → (dx ≤ dy)%nat) Q
  ∧ (∀ x y dx dy, x ∈ Q → y ∈ Q → D x dx → D y dy → (dy ≤ dx + 1)%nat)
  ∧ (∀ x y dx dy, x ∈ T → y ∈ Q → D x dx → D y dy → (dx ≤ dy)%nat)
  ∧ (∀ x p, prevAt g x = Some p → ∃ d, D p d ∧ D x (S d)).

Definition bfsInv (rows cols : Z) (walls : Pos → bool) (s e : Pos)
    (g : gmap Pos Node) (Q T : list Pos) : Prop :=
  frontierInv rows cols walls s e g Q T ∧ levelInv rows cols walls s g Q T.

(** The invariant of the loop of [astar], at the loop head, for the open
    set [O] and the trace [T] built so far. *)
Definition astarInv (rows cols : Z) (walls : Pos → bool) (s e : Pos)
    (g : gmap Pos Node) (O T : list Pos) : Prop :=
  let E := edge rows cols walls in
  wfGrid rows cols g
  ∧ inBounds rows cols s
  ∧ inBounds rows cols e
  ∧ (∀ p, wallAt g p = walls p)
  ∧ (∀ p, visitedAt g p = true ↔ p ∈ T)
  ∧ NoDup T
  ∧ (e ∉ T)
  ∧ backward g T
  ∧ gAt g s = Fin 0
  ∧ prevAt g s = None
  ∧ (∀ x z, gAt g x = Fin z →
       ∃ k : nat, z = Z.of_nat k ∧ walk E s x k
         ∧ fAt g x = Fin (z + manhattan x e)
         ∧ (x ∈ T ∨ x ∈ O)
         ∧ (x ≠ s → ∃ p (k' : nat), prevAt g x = Some p ∧ p ∈ T
                      ∧ gAt g p = Fin (Z.of_nat k') ∧ k = S k'))
  ∧ (∀ x, x ∈ T →
       ∃ k : nat, gAt g x = Fin (Z.of_nat k) ∧ dist E s x k
         ∧ ∀ d, dist E s e d → Z.of_nat k + manhattan x e ≤ Z.of_nat d)
  ∧ (∀ x y, x ∈ T → E x y →
       ∃ kx ky, gAt g x = Fin kx ∧ gAt g y = Fin ky ∧ ky ≤ kx + 1)
  ∧ (∀ x, x ∈ O → ∃ z, gAt g x = Fin z).

(** What every search leaves behind: a well-formed heap with the walls
    untouched, backpointers that lead backward along a duplicate-free list
    of cells of the grid, and the end cell in the trace, marked visited,
    exactly at the exit from inside the loop. *)
Definition searchPost (rows cols : Z) (g0 : gmap Pos Node) (e : Pos)
    (res : SearchResult) : Prop :=
  wfGrid rows cols res.(heap)
  ∧ (∀ p, wallAt res.(heap) p = wallAt g0 p)
  ∧ (∃ T, backward res.(heap) T ∧ NoDup T ∧ ∀ p, p ∈ T → inBounds rows cols p)
  ∧ (res.(exit) = FoundEnd →
       e ∈ res.(visitedNodes) ∧ visitedAt res.(heap) e = true)
  ∧ (res.(exit) = FrontierEmpty →
       (e ∉ res.(visitedNodes)) ∧ visitedAt res.(heap) e = false).

(** The least a loop of [bfs] or [dfs] needs to go on: a well-formed heap
    and a frontier inside the grid. *)
Definition frontierInGrid (rows cols : Z) (g : gmap Pos Node) (F T : list Pos) : Prop :=
  wfGrid rows cols g ∧ ∀ p, p ∈ F → inBounds rows cols p.

(** ** Events and generators *)

(** The grid dimensions and the two special positions are those of [st0]. *)
Definition sameSetting (st0 st : State) : Prop :=
  st.(ROWS) = st0.(ROWS) ∧ st.(COLS) = st0.(COLS)
  ∧ st.(startPos) = st0.(startPos) ∧ st.(endPos) = st0.(endPos).

(** [st] satisfies the invariant of the page in the setting of [st0]. *)
Definition keeps (st0 st : State) : Prop := invariant st ∧ sameSetting st0 st.

(** A mouse event comes from a cell of the current grid. *)
Definition eventInGrid (st : State) (ev : Event) : Prop :=
  match ev with
  | MouseDown i j | MouseEnter i j => inBounds st.(ROWS) st.(COLS) (i, j)
  | _ => True
  end.

(** The cells of the grid as a set. *)
Definition cellSet (rows cols : Z) : gset Pos := list_to_set (cellsOf rows cols).

(** * Further vocabulary: backpointer trees, frames, lattices *)

(** ** The tree of backpointers *)

(** Every backpointer is a move of the search: [previousNode] of [x] is a
    cell from which [x] is one step away, and [x] is not a wall. *)
Definition linkInv (rows cols : Z) (walls : Pos → bool) (g : gmap Pos Node) : Prop :=
  ∀ x p, prevAt g x = Some p → edge rows cols walls p x.

(** Consecutive entries of [l] are related by [E]. *)
Definition linked (E : Pos → Pos → Prop) (l : list Pos) : Prop :=
  ∀ (i : nat) a b, l !! i = Some a → l !! S i = Some b → E a b.

(** What the heap and the trace of a finished search have in common for
    the three algorithms: the backpointers are moves that lead backward
    along the trace, only the start has none among the cells of the trace,
    the trace lists reachable cells without repetition, and all of them
    when the frontier ran empty. *)
Definition searchTree (rows cols : Z) (g0 : gmap Pos Node) (s : Pos)
    (res : SearchResult) : Prop :=
  let E := edge rows cols (wallAt g0) in
  backward res.(heap) res.(visitedNodes)
  ∧ linkInv rows cols (wallAt g0) res.(heap)
  ∧ (∀ x, x ∈ res.(visitedNodes) → prevAt res.(heap) x = None → x = s)
  ∧ (∀ x, x ∈ res.(visitedNodes) → ∃ n, walk E s x n)
  ∧ (res.(exit) = FrontierEmpty → ∀ x n, walk E s x n → x ∈ res.(visitedNodes))
  ∧ NoDup res.(visitedNodes).

(** The entries of [T] come in the order of their distance from [s]. *)
Definition levelSorted (rows cols : Z) (walls : Pos → bool) (s : Pos)
    (T : list Pos) : Prop :=
  StronglySorted
    (λ x y, ∀ dx dy, dist (edge rows cols walls) s x dx →
                     dist (edge rows cols walls) s y dy → (dx ≤ dy)%nat) T.

(** ** Regions of the grid *)

(** [p] lies in the rectangle of rows [rStart..rEnd] and columns
    [cStart..cEnd]. *)
Definition inRect (rStart rEnd cStart cEnd : Z) (p : Pos) : Prop :=
  rStart ≤ p.1 ≤ rEnd ∧ cStart ≤ p.2 ≤ cEnd.

(** [p] lies on the outer ring of a [rows] by [cols] grid. *)
Definition onBorder (rows cols : Z) (p : Pos) : Prop :=
  inBounds rows cols p
  ∧ (p.1 = 0 ∨ p.1 = rows - 1 ∨ p.2 = 0 ∨ p.2 = cols - 1).

(** [p] is an even number of rows and an even number of columns away from
    [o]: the cells that the depth-first maze can carve from [o]. *)
Definition onLattice (o p : Pos) : Prop :=
  (p.1 - o.1) `mod` 2 = 0 ∧ (p.2 - o.2) `mod` 2 = 0.

(** [p] is an odd number of rows and an odd number of columns away from
    [o]. *)
Definition offLattice (o p : Pos) : Prop :=
  (p.1 - o.1) `mod` 2 = 1 ∧ (p.2 - o.2) `mod` 2 = 1.

(** [q] is two steps from [v] along a row or a column. *)
Definition twoSteps (v q : Pos) : Prop :=
  (q.1 = v.1 ∧ (q.2 = v.2 - 2 ∨ q.2 = v.2 + 2))
  ∨ (q.2 = v.2 ∧ (q.1 = v.1 - 2 ∨ q.1 = v.1 + 2)).

(** The invariant of the loop of [generateDFSMaze], for the stack, the
    set of carved cells and the state: the carved cells lie on the lattice
    of the start, each is free and joined to the start by a path of free
    cells, each is on the stack or has all its lattice neighbours carved,
    and the cells off the lattice in both coordinates are as the walling
    pass left them ([walls1]). *)
Definition mazeInv (st0 : State) (walls1 : Pos → bool)
    (stack : list Pos) (visited : gset Pos) (st : State) : Prop :=
  let rows := st0.(ROWS) in
  let cols := st0.(COLS) in
  let s := st0.(startPos) in
  keeps st0 st
  ∧ (∀ p, p ∈ stack → p ∈ visited)
  ∧ s ∈ visited
  ∧ (∀ v, v ∈ visited →
       inBounds rows cols v ∧ onLattice s v
       ∧ ∃ l, connects rows cols st.(gridArray) s v l)
  ∧ (∀ v, v ∈ visited →
       v ∈ stack ∨ ∀ q, inBounds rows cols q → twoSteps v q → q ∈ visited)
  ∧ (∀ p, offLattice s p → wallAt st.(gridArray) p = walls1 p).

(** ** Frames *)

(** From [st] to [st'] nothing changed but the wall flag of cells in [A],
    which was set: the dimensions and the two special positions are the
    same, and every cell is as it was or is a cell of [A] with [isWall]
    set. *)
Definition addsWalls (A : Pos → Prop) (st st' : State) : Prop :=
  sameSetting st st'
  ∧ ∀ p, st'.(gridArray) !! p = st.(gridArray) !! p
         ∨ (A p ∧ ∃ n, st.(gridArray) !! p = Some n
                       ∧ st'.(gridArray) !! p = Some (set_isWall true n)).

(** ** Costs *)

#[global] Instance num_eq_dec : EqDecision num.
Proof. solve_decision. Defined.


(** * Basic facts *)

(** ** Outcomes *)

Lemma bind_Ok {A B : Type} (m : outcome A) (f : A → outcome B) (b : B) :
  m ≫= f = Ok b ↔ ∃ a, m = Ok a ∧ f a = Ok b.
Proof.
  destruct m as [a| |]; simpl; split.
  - intros H. by exists a.
  - intros (a' & Ha & H). by inversion Ha; subst.
  - done.
  - intros (a' & Ha & _). done.
  - done.
  - intros (a' & Ha & _). done.
Qed.

Lemma deref_Ok {A : Type} (o : option A) (a : A) : deref o = Ok a ↔ o = Some a.
Proof. destruct o; simpl; split; intros H; by inversion H. Qed.

Lemma deref_Some {A : Type} (o : option A) (a : A) : o = Some a → deref o = Ok a.
Proof. by intros ->. Qed.

(** ** Positions of a grid *)

Lemma elem_of_cellsOf rows cols p : p ∈ cellsOf rows cols ↔ inBounds rows cols p.
Proof.
  unfold cellsOf, inBounds. destruct p as [i j]; simpl.
  rewrite list_elem_of_bind. split.
  - intros (x & Hj & Hi). apply list_elem_of_fmap in Hj as (y & Heq & Hy).
    inversion Heq; subst. apply elem_of_seqZ in Hi, Hy. lia.
  - intros [Hi Hj]. exists i. split.
    + apply list_elem_of_fmap. exists j. split; [done|]. apply elem_of_seqZ. lia.
    + apply elem_of_seqZ. lia.
Qed.

Lemma length_cellsOf rows cols :
  length (cellsOf rows cols) = (Z.to_nat rows * Z.to_nat cols)%nat.
Proof.
  unfold cellsOf.
  assert (H : ∀ l : list Z,
    length (l ≫= λ i, (λ j, (i, j)) <$> seqZ 0 cols) = (length l * Z.to_nat cols)%nat).
  { induction l as [|x l IH]; [done|].
    rewrite bind_cons, length_app, IH, length_fmap, length_seqZ. simpl. lia. }
  rewrite H, length_seqZ. done.
Qed.

Lemma NoDup_cellsOf rows cols : NoDup (cellsOf rows cols).
Proof.
  unfold cellsOf. apply NoDup_bind.
  - intros i1 i2 p _ _ H1 H2.
    apply list_elem_of_fmap in H1 as (j1 & -> & _).
    apply list_elem_of_fmap in H2 as (j2 & Heq & _). by inversion Heq.
  - intros i _. apply NoDup_fmap_2; [|apply NoDup_seqZ].
    intros j1 j2 Heq. by inversion Heq.
  - apply NoDup_seqZ.
Qed.

(** ** Views *)

Lemma wfGrid_lookup rows cols g p :
  wfGrid rows cols g → inBounds rows cols p →
  ∃ n, g !! p = Some n ∧ (n.(r), n.(c)) = p.
Proof.
  intros Hwf Hp. specialize (Hwf p). destruct (g !! p) as [n|]; [|done].
  exists n. tauto.
Qed.

Lemma wfGrid_inBounds rows cols g p n :
  wfGrid rows cols g → g !! p = Some n → inBounds rows cols p ∧ (n.(r), n.(c)) = p.
Proof. intros Hwf Hp. specialize (Hwf p). by rewrite Hp in Hwf. Qed.

Lemma wfGrid_insert rows cols g p n n' :
  wfGrid rows cols g → g !! p = Some n → n'.(r) = n.(r) → n'.(c) = n.(c) →
  wfGrid rows cols (<[p := n']> g).
Proof.
  intros Hwf Hp Hr Hc q. destruct (decide (p = q)) as [->|Hne].
  - rewrite lookup_insert_eq. rewrite Hr, Hc. by eapply wfGrid_inBounds.
  - rewrite lookup_insert_ne by done. apply Hwf.
Qed.

Lemma wfGrid_fmap rows cols g (f : Node → Node) :
  (∀ n, (f n).(r) = n.(r) ∧ (f n).(c) = n.(c)) →
  wfGrid rows cols g → wfGrid rows cols (f <$> g).
Proof.
  intros Hf Hwf p. rewrite lookup_fmap. specialize (Hwf p).
  destruct (g !! p) as [n|]; simpl; [|done].
  destruct (Hf n) as [-> ->]. done.
Qed.

(** ** [createGrid] *)

Lemma createGrid_row (i : Z) (l : list Z) (g : gmap Pos Node) (a b : Z) :
  foldl (λ g j, <[(i, j) := newNode i j]> g) g l !! (a, b) =
  if decide (a = i ∧ b ∈ l) then Some (newNode i b) else g !! (a, b).
Proof.
  revert g. induction l as [|j l IH]; intros g; simpl.
  - case_decide as H; [|done]. destruct H as [_ H]. by apply elem_of_nil in H.
  - rewrite IH. case_decide as H1; case_decide as H2; try done.
    + exfalso. apply H2. destruct H1 as [-> H1]. split; [done|]. by right.
    + destruct H2 as [-> H2]. apply elem_of_cons in H2 as [->|H2].
      * by rewrite lookup_insert_eq.
      * exfalso. apply H1. done.
    + rewrite lookup_insert_ne; [done|]. intros Heq. inversion Heq; subst.
      apply H2. split; [done|]. by left.
Qed.

Lemma createGrid_rows (cols : Z) (l : list Z) (g : gmap Pos Node) (a b : Z) :
  foldl (λ g i, foldl (λ g j, <[(i, j) := newNode i j]> g) g (seqZ 0 cols)) g l !! (a, b) =
  if decide (a ∈ l ∧ 0 ≤ b < cols) then Some (newNode a b) else g !! (a, b).
Proof.
  revert g. induction l as [|i l IH]; intros g; cbn [foldl].
  - destruct (decide (a ∈ [] ∧ 0 ≤ b < cols)) as [[H _]|_]; [|done].
    by apply elem_of_nil in H.
  - rewrite IH, createGrid_row.
    destruct (decide (a ∈ l ∧ 0 ≤ b < cols)) as [H1|H1];
      destruct (decide (a ∈ i :: l ∧ 0 ≤ b < cols)) as [H2|H2];
      destruct (decide (a = i ∧ b ∈ seqZ 0 cols)) as [H3|H3];
      rewrite ?elem_of_cons, ?elem_of_seqZ in *;
      try done; try (exfalso; intuition lia).
    by destruct H3 as [-> _].
Qed.

Lemma createGrid_lookup rows cols p :
  createGrid rows cols !! p =
  if decide (inBounds rows cols p) then Some (newNode p.1 p.2) else None.
Proof.
  destruct p as [a b]. unfold createGrid. rewrite createGrid_rows, lookup_empty.
  unfold inBounds; simpl.
  case_decide as H1; case_decide as H2; try done.
  - exfalso. apply H2. destruct H1 as [H1 ?]. apply elem_of_seqZ in H1. lia.
  - exfalso. apply H1. split; [apply elem_of_seqZ|]; lia.
Qed.

Lemma wfGrid_createGrid rows cols : wfGrid rows cols (createGrid rows cols).
Proof.
  intros p. rewrite createGrid_lookup. case_decide; [|done].
  split; [done|]. by destruct p.
Qed.

Lemma wallAt_createGrid rows cols p : wallAt (createGrid rows cols) p = false.
Proof. unfold wallAt. rewrite createGrid_lookup. by case_decide. Qed.

(** ** [resetVisuals] *)

Lemma wfGrid_resetVisuals rows cols g :
  wfGrid rows cols g → wfGrid rows cols (resetVisuals g).
Proof. apply wfGrid_fmap. done. Qed.

Lemma wallAt_resetVisuals g p : wallAt (resetVisuals g) p = wallAt g p.
Proof. unfold wallAt, resetVisuals. rewrite lookup_fmap. by destruct (g !! p). Qed.

Lemma visitedAt_resetVisuals g p : visitedAt (resetVisuals g) p = false.
Proof. unfold visitedAt, resetVisuals. rewrite lookup_fmap. by destruct (g !! p). Qed.

Lemma prevAt_resetVisuals g p : prevAt (resetVisuals g) p = None.
Proof. unfold prevAt, resetVisuals. rewrite lookup_fmap. by destruct (g !! p). Qed.

Lemma gAt_resetVisuals g p : gAt (resetVisuals g) p = Infinity.
Proof. unfold gAt, resetVisuals. rewrite lookup_fmap. by destruct (g !! p). Qed.

(** ** Neighbours *)

Lemma getNeighbors_coords rows cols n n' :
  n.(r) = n'.(r) → n.(c) = n'.(c) → getNeighbors rows cols n = getNeighbors rows cols n'.
Proof. unfold getNeighbors. by intros -> ->. Qed.

Lemma getNeighbors_filter rows cols n :
  inBounds rows cols (n.(r), n.(c)) →
  getNeighbors rows cols n =
    filter (inBounds rows cols)
      [(n.(r) - 1, n.(c)); (n.(r), n.(c) + 1); (n.(r) + 1, n.(c)); (n.(r), n.(c) - 1)].
Proof.
  intros [Hr Hc]; simpl in Hr, Hc.
  unfold getNeighbors. rewrite !filter_cons, filter_nil.
  repeat case_decide; unfold inBounds in *; simpl in *; try reflexivity; lia.
Qed.

Lemma elem_of_getNeighbors rows cols n q :
  inBounds rows cols (n.(r), n.(c)) →
  q ∈ getNeighbors rows cols n ↔ inBounds rows cols q ∧ manhattan (n.(r), n.(c)) q = 1.
Proof.
  intros Hn. rewrite getNeighbors_filter by done.
  rewrite list_elem_of_filter, !elem_of_cons, elem_of_nil.
  destruct q as [a b]. unfold manhattan, inBounds in *; simpl in *.
  split.
  - intros [Hq [H|[H|[H|[H|[]]]]]]; inversion H; subst; lia.
  - intros [Hq Hm]. split; [done|].
    assert (Hcases : (a = r n - 1 ∧ b = c n) ∨ (a = r n ∧ b = c n + 1)
                     ∨ (a = r n + 1 ∧ b = c n) ∨ (a = r n ∧ b = c n - 1)) by lia.
    destruct Hcases as [[-> ->]|[[-> ->]|[[-> ->]|[-> ->]]]]; tauto.
Qed.

Lemma getNeighbors_inBounds rows cols n q :
  inBounds rows cols (n.(r), n.(c)) → q ∈ getNeighbors rows cols n → inBounds rows cols q.
Proof. intros Hn Hq. by apply elem_of_getNeighbors in Hq as [? _]. Qed.

Lemma NoDup_getNeighbors rows cols n : NoDup (getNeighbors rows cols n).
Proof.
  unfold getNeighbors.
  repeat case_decide; simpl; repeat (apply NoDup_cons; split);
    rewrite ?elem_of_cons, ?elem_of_nil; try apply NoDup_nil_2;
    intros Hx; repeat (destruct Hx as [Hx|Hx]); try done; inversion Hx; lia.
Qed.

(** * The search loops: frames, measures, generic invariants *)

Lemma pop_nil {A : Type} (l : list A) : pop l = None ↔ l = [].
Proof.
  unfold pop. destruct (reverse l) as [|x l'] eqn:H; split; try done.
  - intros _. apply (f_equal reverse) in H. by rewrite reverse_involutive in H.
  - intros ->. done.
Qed.

Lemma pop_snoc {A : Type} (l l' : list A) (x : A) :
  pop l = Some (x, l') ↔ l = l' ++ [x].
Proof.
  unfold pop. split.
  - destruct (reverse l) as [|y k] eqn:H; [done|]. intros Heq. inversion Heq; subst.
    apply (f_equal reverse) in H. rewrite reverse_involutive in H.
    by rewrite H, reverse_cons.
  - intros ->. rewrite reverse_app. simpl. by rewrite reverse_involutive.
Qed.

(** ** Views under an update of one cell *)

Lemma visitedAt_insert g p n q :
  visitedAt (<[p := n]> g) q = if decide (p = q) then n.(isVisited) else visitedAt g q.
Proof.
  unfold visitedAt. case_decide as H.
  - subst. by rewrite lookup_insert_eq.
  - by rewrite lookup_insert_ne.
Qed.

Lemma wallAt_insert g p n q :
  wallAt (<[p := n]> g) q = if decide (p = q) then n.(isWall) else wallAt g q.
Proof.
  unfold wallAt. case_decide as H.
  - subst. by rewrite lookup_insert_eq.
  - by rewrite lookup_insert_ne.
Qed.

Lemma prevAt_insert g p n q :
  prevAt (<[p := n]> g) q = if decide (p = q) then n.(previousNode) else prevAt g q.
Proof.
  unfold prevAt. case_decide as H.
  - subst. by rewrite lookup_insert_eq.
  - by rewrite lookup_insert_ne.
Qed.

Lemma gAt_insert g p n q :
  gAt (<[p := n]> g) q = if decide (p = q) then n.(gCost) else gAt g q.
Proof.
  unfold gAt. case_decide as H.
  - subst. by rewrite lookup_insert_eq.
  - by rewrite lookup_insert_ne.
Qed.

Lemma fAt_insert g p n q :
  fAt (<[p := n]> g) q = if decide (p = q) then n.(fCost) else fAt g q.
Proof.
  unfold fAt. case_decide as H.
  - subst. by rewrite lookup_insert_eq.
  - by rewrite lookup_insert_ne.
Qed.

(** ** The measure *)

Lemma unvisited_mono g g' L :
  (∀ p, visitedAt g p = true → visitedAt g' p = true) →
  (unvisited g' L ≤ unvisited g L)%nat.
Proof.
  intros Hm. unfold unvisited. induction L as [|x L IH]; [done|].
  rewrite !filter_cons.
  destruct (decide (visitedAt g' x = false)) as [H'|H'];
    destruct (decide (visitedAt g x = false)) as [H|H]; simpl; try lia.
  apply not_false_is_true in H. apply Hm in H. congruence.
Qed.

Lemma unvisited_mark g g' L n :
  n ∈ L → visitedAt g n = false → visitedAt g' n = true →
  (∀ p, visitedAt g p = true → visitedAt g' p = true) →
  (unvisited g' L < unvisited g L)%nat.
Proof.
  intros Hn Hf Ht Hm. induction L as [|x L IH]; [by apply elem_of_nil in Hn|].
  pose proof (unvisited_mono g g' L Hm) as Hle.
  unfold unvisited in *. rewrite !filter_cons.
  destruct (decide (x = n)) as [->|Hne].
  - rewrite decide_False by congruence. rewrite decide_True by done. simpl. lia.
  - apply elem_of_cons in Hn as [->|Hn]; [done|]. specialize (IH Hn).
    destruct (decide (visitedAt g' x = false)) as [H'|H'];
      destruct (decide (visitedAt g x = false)) as [H|H]; simpl; try lia.
    apply not_false_is_true in H. apply Hm in H. congruence.
Qed.

Lemma unvisited_le_length g L : (unvisited g L ≤ length L)%nat.
Proof. unfold unvisited. apply length_filter. Qed.

(** ** The neighbour loop of BFS and DFS *)

Lemma visitNeighbors_spec rows cols (L : list Pos) cur ns g F :
  wfGrid rows cols g →
  (∀ n, n ∈ ns → inBounds rows cols n ∧ n ∈ L) →
  ∃ g' new,
    visitNeighbors cur ns g F = Ok (g', F ++ new)
    ∧ wfGrid rows cols g'
    ∧ NoDup new
    ∧ (∀ p, p ∈ new ↔ p ∈ ns ∧ visitedAt g p = false ∧ wallAt g p = false)
    ∧ (∀ p, p ∈ new → visitedAt g' p = true ∧ prevAt g' p = Some cur)
    ∧ (∀ p, p ∉ new → g' !! p = g !! p)
    ∧ (∀ p, wallAt g' p = wallAt g p)
    ∧ (length new + unvisited g' L ≤ unvisited g L)%nat.
Proof.
  revert g F. induction ns as [|n ns IH]; intros g F Hwf Hns.
  - exists g, []. simpl. rewrite app_nil_r. split_and!; try done.
    + apply NoDup_nil_2.
    + intros p. rewrite !elem_of_nil. tauto.
    + intros p Hp. by apply elem_of_nil in Hp.
  - destruct (Hns n) as [Hn HnL]; [by left|].
    destruct (wfGrid_lookup _ _ _ _ Hwf Hn) as (nd & Hnd & Hrc).
    assert (Hns' : ∀ m, m ∈ ns → inBounds rows cols m ∧ m ∈ L).
    { intros m Hm. apply Hns. by right. }
    cbn [visitNeighbors]. rewrite Hnd. cbn [deref mbind outcome_bind].
    destruct (negb (isVisited nd) && negb (isWall nd)) eqn:Hc.
    + apply andb_true_iff in Hc as [Hv Hw].
      apply negb_true_iff in Hv, Hw.
      set (nd' := set_previousNode (Some cur) (set_isVisited true nd)).
      assert (Hwf' : wfGrid rows cols (<[n := nd']> g)).
      { by eapply wfGrid_insert. }
      destruct (IH (<[n := nd']> g) (F ++ [n]) Hwf' Hns')
        as (g' & new & Hrun & Hwf'' & Hnd' & Hin & Hmark & Hframe & Hwall & Hcount).
      assert (Hnn : n ∉ new).
      { intros Hx. apply Hin in Hx as (_ & Hx & _).
        rewrite visitedAt_insert, decide_True in Hx by done. done. }
      exists g', (n :: new). split_and!.
      * rewrite Hrun. by rewrite <- app_assoc.
      * done.
      * by apply NoDup_cons.
      * intros p. rewrite !elem_of_cons, Hin.
        rewrite visitedAt_insert, wallAt_insert.
        destruct (decide (n = p)) as [->|Hne].
        -- unfold visitedAt, wallAt. rewrite Hnd. simpl. split; [|tauto].
           intros [_|(_ & Hx & _)]; [tauto|done].
        -- split; [intros [->|(? & ? & ?)]; [done|tauto]|].
           intros ([->|?] & ? & ?); [done|]. right. tauto.
      * intros p [->|Hp]%elem_of_cons; [|by apply Hmark].
        unfold visitedAt, prevAt. rewrite (Hframe _ Hnn), lookup_insert_eq. done.
      * intros p [Hpn Hp]%not_elem_of_cons.
        rewrite (Hframe _ Hp). by rewrite lookup_insert_ne.
      * intros p. rewrite Hwall, wallAt_insert. case_decide as Hp; [|done].
        subst. unfold wallAt. by rewrite Hnd.
      * assert (unvisited (<[n := nd']> g) L < unvisited g L)%nat; [|simpl; lia].
        apply (unvisited_mark _ _ _ n); try done.
        -- unfold visitedAt. by rewrite Hnd.
        -- by rewrite visitedAt_insert, decide_True.
        -- intros p Hp. rewrite visitedAt_insert. case_decide; [done|done].
    + destruct (IH g F Hwf Hns')
        as (g' & new & Hrun & Hwf'' & Hnd' & Hin & Hmark & Hframe & Hwall & Hcount).
      exists g', new. split_and!; try done.
      intros p. rewrite Hin, elem_of_cons. split; [tauto|].
      intros ([->|?] & Hv & Hw); [|tauto].
      unfold visitedAt, wallAt in Hv, Hw. rewrite Hnd in Hv, Hw.
      rewrite Hv, Hw in Hc. done.
Qed.

(** ** Loop rules for BFS and DFS

    An invariant [I] of the loop head that implies a well-formed heap with
    the frontier inside the grid, and that one iteration preserves, holds at
    the exit; the loop ends within [length frontier + unvisited] iterations. *)

Section LoopRules.
Variables (rows cols : Z) (end_ : Pos).
Variable I : gmap Pos Node → list Pos → list Pos → Prop.

Hypothesis I_wf : ∀ g F T, I g F T →
  wfGrid rows cols g ∧ ∀ p, p ∈ F → inBounds rows cols p.

Lemma neighbours_of_cell g cur nd :
  wfGrid rows cols g → g !! cur = Some nd →
  ∀ n, n ∈ getNeighbors rows cols nd →
    inBounds rows cols n ∧ n ∈ cellsOf rows cols.
Proof.
  intros Hwf Hcur n Hn.
  destruct (wfGrid_inBounds _ _ _ _ _ Hwf Hcur) as [Hb Hrc].
  assert (inBounds rows cols n).
  { eapply getNeighbors_inBounds; [|done]. by rewrite Hrc. }
  split; [done|]. by apply elem_of_cellsOf.
Qed.

Lemma bfs_loop_rule :
  (∀ g cur Q T nd g' Q',
      I g (cur :: Q) T → cur ≠ end_ → g !! cur = Some nd →
      visitNeighbors cur (getNeighbors rows cols nd) g Q = Ok (g', Q') →
      I g' Q' (T ++ [cur])) →
  ∀ fuel g Q T,
    I g Q T →
    (length Q + unvisited g (cellsOf rows cols) < fuel)%nat →
    ∃ res, bfs_loop fuel rows cols end_ g Q T = Ok res
      ∧ match res.(exit) with
        | FrontierEmpty => I res.(heap) [] res.(visitedNodes)
        | FoundEnd => ∃ Q' T', I res.(heap) (end_ :: Q') T'
                               ∧ res.(visitedNodes) = T' ++ [end_]
        end.
Proof.
  intros Hstep. induction fuel as [|fuel IH]; intros g Q T HI Hfuel; [lia|].
  destruct (I_wf _ _ _ HI) as [Hwf HQ].
  cbn [bfs_loop]. destruct Q as [|cur Q].
  - eexists. split; [done|]. done.
  - destruct (decide (cur = end_)) as [->|Hne].
    + eexists. split; [done|]. simpl. eauto.
    + destruct (wfGrid_lookup _ _ _ _ Hwf (HQ cur ltac:(by left)))
        as (nd & Hnd & Hrc).
      rewrite Hnd. cbn [deref mbind outcome_bind].
      destruct (visitNeighbors_spec rows cols (cellsOf rows cols) cur
                  (getNeighbors rows cols nd) g Q Hwf
                  (neighbours_of_cell g cur nd Hwf Hnd))
        as (g' & new & Hrun & _ & _ & _ & _ & _ & _ & Hcount).
      rewrite Hrun. apply IH.
      * eapply Hstep; done.
      * rewrite length_app. simpl in Hfuel. lia.
Qed.

Lemma dfs_loop_rule :
  (∀ g cur S T nd g' S',
      I g (S ++ [cur]) T → cur ≠ end_ → g !! cur = Some nd →
      visitNeighbors cur (getNeighbors rows cols nd) g S = Ok (g', S') →
      I g' S' (T ++ [cur])) →
  ∀ fuel g S T,
    I g S T →
    (length S + unvisited g (cellsOf rows cols) < fuel)%nat →
    ∃ res, dfs_loop fuel rows cols end_ g S T = Ok res
      ∧ match res.(exit) with
        | FrontierEmpty => I res.(heap) [] res.(visitedNodes)
        | FoundEnd => ∃ S' T', I res.(heap) (S' ++ [end_]) T'
                               ∧ res.(visitedNodes) = T' ++ [end_]
        end.
Proof.
  intros Hstep. induction fuel as [|fuel IH]; intros g S T HI Hfuel; [lia|].
  destruct (I_wf _ _ _ HI) as [Hwf HS].
  cbn [dfs_loop]. destruct (pop S) as [[cur S']|] eqn:Hpop.
  - apply pop_snoc in Hpop. subst S.
    destruct (decide (cur = end_)) as [->|Hne].
    + eexists. split; [done|]. simpl. eauto.
    + destruct (wfGrid_lookup _ _ _ _ Hwf (HS cur ltac:(apply elem_of_app; right; by left)))
        as (nd & Hnd & Hrc).
      rewrite Hnd. cbn [deref mbind outcome_bind].
      destruct (visitNeighbors_spec rows cols (cellsOf rows cols) cur
                  (getNeighbors rows cols nd) g S' Hwf
                  (neighbours_of_cell g cur nd Hwf Hnd))
        as (g' & new & Hrun & _ & _ & _ & _ & _ & _ & Hcount).
      rewrite Hrun. apply IH.
      * eapply Hstep; done.
      * rewrite length_app in *. simpl in Hfuel. lia.
  - apply pop_nil in Hpop. subst S.
    eexists. split; [done|]. done.
Qed.
End LoopRules.

(** ** Sorting the open set *)

Lemma num_lt_irrefl a : num_lt a a = false.
Proof. destruct a; simpl; [|done]. apply bool_decide_eq_false. lia. Qed.

Lemma num_le_trans a b c :
  num_lt b a = false → num_lt c b = false → num_lt c a = false.
Proof.
  destruct a, b, c; simpl; try done;
    rewrite ?bool_decide_eq_false; lia.
Qed.

Lemma num_lt_le a b : num_lt a b = true → num_lt b a = false.
Proof.
  destruct a, b; simpl; try done.
  rewrite bool_decide_eq_true, bool_decide_eq_false. lia.
Qed.

Lemma insertByCost_perm x l : insertByCost x l ≡ₚ x :: l.
Proof.
  induction l as [|y l IH]; simpl; [done|].
  destruct (num_lt x.2 y.2); [done|]. rewrite IH. apply Permutation_swap.
Qed.

Lemma insertByCost_sorted x l :
  StronglySorted (λ a b : Pos * num, num_lt b.2 a.2 = false) l →
  StronglySorted (λ a b : Pos * num, num_lt b.2 a.2 = false) (insertByCost x l).
Proof.
  induction 1 as [|y l Hs IH Hy]; simpl.
  - repeat constructor.
  - destruct (num_lt x.2 y.2) eqn:Hxy.
    + constructor; [by constructor|]. constructor.
      * by apply num_lt_le.
      * eapply Forall_impl; [exact Hy|]. simpl. intros z Hz.
        eapply num_le_trans; [|exact Hz]. by apply num_lt_le.
    + constructor; [done|]. rewrite insertByCost_perm. by constructor.
Qed.

Lemma sortByCost_spec l :
  sortByCost l ≡ₚ l
  ∧ StronglySorted (λ a b : Pos * num, num_lt b.2 a.2 = false) (sortByCost l).
Proof.
  unfold sortByCost.
  assert (H : ∀ acc,
    StronglySorted (λ a b : Pos * num, num_lt b.2 a.2 = false) acc →
    foldl (λ acc x, insertByCost x acc) acc l ≡ₚ acc ++ l
    ∧ StronglySorted (λ a b : Pos * num, num_lt b.2 a.2 = false)
        (foldl (λ acc x, insertByCost x acc) acc l)).
  { induction l as [|x l IH]; intros acc Hacc; simpl.
    - by rewrite app_nil_r.
    - destruct (IH (insertByCost x acc) (insertByCost_sorted x acc Hacc)) as [Hp Hs].
      split; [|done]. rewrite Hp, insertByCost_perm.
      simpl. apply Permutation_middle. }
  destruct (H [] ltac:(constructor)) as [Hp Hs]. done.
Qed.

Lemma readCosts_spec rows cols g l :
  wfGrid rows cols g → (∀ p, p ∈ l → inBounds rows cols p) →
  readCosts g l = Ok ((λ p, (p, fAt g p)) <$> l).
Proof.
  intros Hwf. induction l as [|p l IH]; intros Hl; [done|].
  destruct (wfGrid_lookup _ _ _ _ Hwf (Hl p ltac:(by left))) as (nd & Hnd & _).
  cbn [readCosts]. rewrite Hnd. cbn [deref mbind outcome_bind].
  rewrite IH by (intros q Hq; apply Hl; by right).
  cbn [mbind outcome_bind]. rewrite fmap_cons. unfold fAt at 2. by rewrite Hnd.
Qed.

(** The sorted open set is a rearrangement of the open set whose first
    entry has the least [fCost]. *)
Lemma sortOpenSet_spec rows cols g O :
  wfGrid rows cols g → (∀ p, p ∈ O → inBounds rows cols p) →
  ∃ S, sortOpenSet g O = Ok S ∧ S ≡ₚ O
       ∧ match S with
         | [] => True
         | cur :: _ => ∀ y, y ∈ O → num_lt (fAt g y) (fAt g cur) = false
         end.
Proof.
  intros Hwf HO. unfold sortOpenSet.
  rewrite (readCosts_spec rows cols) by done. cbn [mbind outcome_bind].
  destruct (sortByCost_spec ((λ p, (p, fAt g p)) <$> O)) as [Hp Hs].
  eexists. split; [done|].
  assert (Hperm : (sortByCost ((λ p, (p, fAt g p)) <$> O)).*1 ≡ₚ O).
  { rewrite Hp. rewrite <- list_fmap_compose.
    replace ((fst ∘ (λ p, (p, fAt g p))) <$> O) with O; [done|].
    clear. induction O as [|x O IH]; [done|]. rewrite fmap_cons. simpl.
    by rewrite <- IH. }
  split; [done|].
  destruct (sortByCost ((λ p, (p, fAt g p)) <$> O)) as [|[cur fc] S] eqn:Hsort;
    [done|]. simpl.
  assert (Hcur : fc = fAt g cur).
  { assert (Hin : (cur, fc) ∈ (λ p, (p, fAt g p)) <$> O).
    { rewrite <- Hp. by left. }
    apply list_elem_of_fmap in Hin as (q & Heq & _). by inversion Heq. }
  intros y Hy.
  assert (Hin : (y, fAt g y) ∈ (cur, fc) :: S).
  { rewrite Hp. apply list_elem_of_fmap. eauto. }
  apply StronglySorted_inv in Hs as [_ Hall].
  apply elem_of_cons in Hin as [Heq|Hin].
  - inversion Heq; subst. apply num_lt_irrefl.
  - rewrite Forall_forall in Hall. specialize (Hall _ Hin). simpl in Hall.
    by rewrite <- Hcur.
Qed.

(** ** The neighbour loop of A-star *)

Lemma improves_skip n ns g cur p :
  ¬ (wallAt g n = false ∧ visitedAt g n = false
     ∧ num_lt (num_add (gAt g cur) 1) (gAt g n) = true) →
  improves (n :: ns) g cur p ↔ improves ns g cur p.
Proof.
  intros Hn. unfold improves. rewrite elem_of_cons. split; [|tauto].
  intros ([->|Hp] & H); [tauto|done].
Qed.

Lemma heuristic_manhattan rows cols g p q np nq :
  wfGrid rows cols g → g !! p = Some np → g !! q = Some nq →
  heuristic np nq = manhattan p q.
Proof.
  intros Hwf Hp Hq.
  destruct (wfGrid_inBounds _ _ _ _ _ Hwf Hp) as [_ <-].
  destruct (wfGrid_inBounds _ _ _ _ _ Hwf Hq) as [_ <-]. done.
Qed.

Lemma relaxNeighbors_spec rows cols cur e ns g O :
  wfGrid rows cols g → inBounds rows cols cur → inBounds rows cols e →
  (∀ n, n ∈ ns → inBounds rows cols n) →
  visitedAt g cur = true →
  ∃ g' O',
    relaxNeighbors cur e ns g O = Ok (g', O')
    ∧ wfGrid rows cols g'
    ∧ (∀ p, wallAt g' p = wallAt g p)
    ∧ (∀ p, visitedAt g' p = visitedAt g p)
    ∧ (∀ p, improves ns g cur p →
          gAt g' p = num_add (gAt g cur) 1
          ∧ fAt g' p = num_add (num_add (gAt g cur) 1) (manhattan p e)
          ∧ prevAt g' p = Some cur ∧ p ∈ O')
    ∧ (∀ p, ¬ improves ns g cur p → g' !! p = g !! p)
    ∧ (∀ p, p ∈ O → p ∈ O')
    ∧ (∀ p, p ∈ O' → p ∈ O ∨ improves ns g cur p)
    ∧ (length O' ≤ length O + length ns)%nat.
Proof.
  intros Hwf Hcur He. revert g O Hwf.
  induction ns as [|n ns IH]; intros g O Hwf Hns Hvis.
  - exists g, O. simpl. split_and!; try done.
    + intros p (Hp & _). by apply elem_of_nil in Hp.
    + tauto.
    + lia.
  - destruct (wfGrid_lookup _ _ _ _ Hwf (Hns n ltac:(by left))) as (nd & Hnd & Hrc).
    destruct (wfGrid_lookup _ _ _ _ Hwf Hcur) as (cnd & Hcnd & _).
    destruct (wfGrid_lookup _ _ _ _ Hwf He) as (end' & Hend & _).
    assert (Hns' : ∀ m, m ∈ ns → inBounds rows cols m).
    { intros m Hm. apply Hns. by right. }
    assert (Hskip : ¬ (wallAt g n = false ∧ visitedAt g n = false
                       ∧ num_lt (num_add (gAt g cur) 1) (gAt g n) = true) →
      ∃ g' O',
        relaxNeighbors cur e ns g O = Ok (g', O')
        ∧ wfGrid rows cols g'
        ∧ (∀ p, wallAt g' p = wallAt g p)
        ∧ (∀ p, visitedAt g' p = visitedAt g p)
        ∧ (∀ p, improves (n :: ns) g cur p →
              gAt g' p = num_add (gAt g cur) 1
              ∧ fAt g' p = num_add (num_add (gAt g cur) 1) (manhattan p e)
              ∧ prevAt g' p = Some cur ∧ p ∈ O')
        ∧ (∀ p, ¬ improves (n :: ns) g cur p → g' !! p = g !! p)
        ∧ (∀ p, p ∈ O → p ∈ O')
        ∧ (∀ p, p ∈ O' → p ∈ O ∨ improves (n :: ns) g cur p)
        ∧ (length O' ≤ length O + length (n :: ns))%nat).
    { intros Hno.
      destruct (IH g O Hwf Hns' Hvis)
        as (g' & O' & Hrun & Hwf' & Hw & Hv & Hupd & Hframe & Hsub & Hsup & Hlen).
      exists g', O'. split_and!; try done.
      - intros p Hp. apply Hupd. by apply (improves_skip n ns g cur p Hno).
      - intros p Hp. apply Hframe. by rewrite <- (improves_skip n ns g cur p Hno).
      - intros p Hp. destruct (Hsup p Hp) as [?|?]; [by left|right].
        by apply (improves_skip n ns g cur p Hno).
      - simpl. lia. }
    cbn [relaxNeighbors]. rewrite Hnd. cbn [deref mbind outcome_bind].
    destruct (isWall nd || isVisited nd) eqn:Hc.
    { apply Hskip. intros (Hw & Hv & _).
      unfold wallAt, visitedAt in Hw, Hv. rewrite Hnd in Hw, Hv.
      rewrite Hw, Hv in Hc. done. }
    apply orb_false_iff in Hc as [Hw Hv].
    rewrite Hcnd. cbn [deref mbind outcome_bind].
    assert (HgAt : gAt g cur = gCost cnd) by (unfold gAt; by rewrite Hcnd).
    assert (HgAtn : gAt g n = gCost nd) by (unfold gAt; by rewrite Hnd).
    rewrite <- HgAt.
    destruct (num_lt (num_add (gAt g cur) 1) (gCost nd)) eqn:Hlt.
    2:{ apply Hskip. intros (_ & _ & Hx). rewrite HgAtn in Hx. congruence. }
    rewrite Hend. cbn [deref mbind outcome_bind].
    rewrite (heuristic_manhattan rows cols g n e nd end' Hwf Hnd Hend).
    set (tg := num_add (gAt g cur) 1) in *.
    set (nd' := set_fCost (num_add tg (manhattan n e))
                  (set_gCost tg (set_previousNode (Some cur) nd))).
    set (O1 := if decide (n ∈ O) then O else O ++ [n]).
    assert (Hne : cur ≠ n).
    { intros ->. unfold visitedAt in Hvis. rewrite Hnd in Hvis. congruence. }
    assert (Hwf1 : wfGrid rows cols (<[n := nd']> g)) by (by eapply wfGrid_insert).
    assert (Hvis1 : visitedAt (<[n := nd']> g) cur = true).
    { rewrite visitedAt_insert, decide_False by done. done. }
    assert (Hg1 : gAt (<[n := nd']> g) cur = gAt g cur).
    { rewrite gAt_insert, decide_False by done. done. }
    destruct (IH (<[n := nd']> g) O1 Hwf1 Hns' Hvis1)
      as (g' & O' & Hrun & Hwf' & Hw' & Hv' & Hupd & Hframe & Hsub & Hsup & Hlen).
    rewrite Hg1 in *. fold tg in Hupd.
    assert (Himp_n : improves (n :: ns) g cur n).
    { unfold improves. split_and!; [by left| | |].
      - unfold wallAt. by rewrite Hnd.
      - unfold visitedAt. by rewrite Hnd.
      - by rewrite HgAtn. }
    assert (Hnot_n : ¬ improves ns (<[n := nd']> g) cur n).
    { intros (_ & _ & _ & Hx). rewrite Hg1, gAt_insert, decide_True in Hx by done.
      simpl in Hx. fold tg in Hx. rewrite num_lt_irrefl in Hx. done. }
    assert (Hother : ∀ p, p ≠ n →
      improves (n :: ns) g cur p ↔ improves ns (<[n := nd']> g) cur p).
    { intros p Hp. unfold improves.
      rewrite Hg1, elem_of_cons, wallAt_insert, visitedAt_insert, gAt_insert.
      rewrite !decide_False by done. tauto. }
    assert (HnO1 : n ∈ O1).
    { unfold O1. case_decide; [done|]. apply elem_of_app. right. by left. }
    assert (HO1 : ∀ p, p ∈ O → p ∈ O1).
    { intros p Hp. unfold O1. case_decide; [done|]. apply elem_of_app. by left. }
    assert (HO1' : ∀ p, p ∈ O1 → p ∈ O ∨ p = n).
    { intros p. unfold O1. case_decide; [tauto|].
      rewrite elem_of_app, elem_of_cons, elem_of_nil. tauto. }
    exists g', O'. split_and!.
    + done.
    + done.
    + intros p. rewrite Hw', wallAt_insert. case_decide as Hp; [|done].
      subst. unfold wallAt. by rewrite Hnd.
    + intros p. rewrite Hv', visitedAt_insert. case_decide as Hp; [|done].
      subst. unfold visitedAt. by rewrite Hnd.
    + intros p Hp. destruct (decide (p = n)) as [-> | Hpn].
      * unfold gAt, fAt, prevAt. rewrite (Hframe n Hnot_n), lookup_insert_eq.
        simpl. split_and!; try done. by apply Hsub.
      * by apply Hupd, Hother.
    + intros p Hp. destruct (decide (p = n)) as [-> | Hpn]; [done|].
      rewrite Hframe; [by rewrite lookup_insert_ne|].
      by rewrite <- Hother.
    + intros p Hp. by apply Hsub, HO1.
    + intros p Hp. destruct (Hsup p Hp) as [Hx|Hx].
      * destruct (HO1' p Hx) as [Hy | ->]; [by left|by right].
      * right. destruct (decide (p = n)) as [-> | Hpn]; [done|]. by apply Hother.
    + assert (length O1 ≤ length O + 1)%nat.
      { unfold O1. case_decide; [lia|]. rewrite length_app. simpl. lia. }
      simpl. lia.
Qed.

Lemma length_getNeighbors rows cols n : (length (getNeighbors rows cols n) ≤ 4)%nat.
Proof. unfold getNeighbors. repeat case_decide; simpl; lia. Qed.

(** ** Loop rule for A-star *)

Section AstarRule.
Variables (rows cols : Z) (end_ : Pos).
Variable I : gmap Pos Node → list Pos → list Pos → Prop.

Hypothesis I_wf : ∀ g O T, I g O T →
  wfGrid rows cols g ∧ inBounds rows cols end_
  ∧ ∀ p, p ∈ O → inBounds rows cols p.

Lemma astar_loop_rule :
  (∀ g O T cur O',
      I g O T → sortOpenSet g O = Ok (cur :: O') →
      visitedAt g cur = true → I g O' T) →
  (∀ g O T cur O' nd g' O'',
      I g O T → sortOpenSet g O = Ok (cur :: O') →
      g !! cur = Some nd → nd.(isVisited) = false → cur ≠ end_ →
      relaxNeighbors cur end_ (getNeighbors rows cols nd)
        (<[cur := set_isVisited true nd]> g) O' = Ok (g', O'') →
      I g' O'' (T ++ [cur])) →
  ∀ fuel g O T,
    I g O T →
    (5 * unvisited g (cellsOf rows cols) + length O < fuel)%nat →
    ∃ res, astar_loop fuel rows cols end_ g O T = Ok res
      ∧ match res.(exit) with
        | FrontierEmpty => I res.(heap) [] res.(visitedNodes)
        | FoundEnd =>
            ∃ g' O' O'' T' nd,
              I g' O' T' ∧ sortOpenSet g' O' = Ok (end_ :: O'')
              ∧ g' !! end_ = Some nd ∧ nd.(isVisited) = false
              ∧ res.(heap) = <[end_ := set_isVisited true nd]> g'
              ∧ res.(visitedNodes) = T' ++ [end_]
        end.
Proof.
  intros Hstale Hexpand.
  induction fuel as [|fuel IH]; intros g O T HI Hfuel; [lia|].
  destruct (I_wf _ _ _ HI) as (Hwf & He & HO).
  cbn [astar_loop]. destruct O as [|o O].
  { eexists. split; [done|]. done. }
  destruct (sortOpenSet_spec rows cols g (o :: O) Hwf HO) as (S & Hsort & Hperm & _).
  rewrite Hsort. cbn [mbind outcome_bind].
  destruct S as [|cur O'].
  { apply Permutation_length in Hperm. done. }
  assert (Hcur : inBounds rows cols cur).
  { apply HO. rewrite <- Hperm. by left. }
  assert (Hlen : length (o :: O) = S (length O')).
  { apply Permutation_length in Hperm. by rewrite <- Hperm. }
  destruct (wfGrid_lookup _ _ _ _ Hwf Hcur) as (nd & Hnd & Hrc).
  rewrite Hnd. cbn [deref mbind outcome_bind].
  destruct (isVisited nd) eqn:Hv.
  - apply IH.
    + eapply Hstale; [done..|]. unfold visitedAt. by rewrite Hnd.
    + lia.
  - destruct (decide (cur = end_)) as [->|Hne].
    + eexists. split; [done|]. simpl.
      exists g, (o :: O), O', T, nd. done.
    + set (g1 := <[cur := set_isVisited true nd]> g).
      assert (Hwf1 : wfGrid rows cols g1) by (by eapply wfGrid_insert).
      assert (Hv1 : visitedAt g1 cur = true).
      { unfold g1. rewrite visitedAt_insert, decide_True by done. done. }
      assert (Hns : ∀ n, n ∈ getNeighbors rows cols nd → inBounds rows cols n).
      { intros n Hn. eapply getNeighbors_inBounds; [|done]. by rewrite Hrc. }
      destruct (relaxNeighbors_spec rows cols cur end_ (getNeighbors rows cols nd)
                  g1 O' Hwf1 Hcur He Hns Hv1)
        as (g' & O'' & Hrun & _ & _ & Hvis & _ & _ & _ & _ & Hlen').
      rewrite Hrun. apply IH.
      * eapply Hexpand; done.
      * assert (unvisited g' (cellsOf rows cols) < unvisited g (cellsOf rows cols))%nat.
        { apply (unvisited_mark _ _ _ cur).
          - by apply elem_of_cellsOf.
          - unfold visitedAt. by rewrite Hnd.
          - by rewrite Hvis.
          - intros p Hp. rewrite Hvis. unfold g1. rewrite visitedAt_insert.
            by case_decide. }
        pose proof (length_getNeighbors rows cols nd). lia.
Qed.
End AstarRule.

(** * Walks and distances in the search graph *)

Section Walks.
Variable E : Pos → Pos → Prop.

Lemma walk_app u v w a b :
  walk E u v a → walk E v w b → walk E u w (a + b).
Proof.
  intros Ha Hb. induction Hb as [|x y n Hb IH Hxy].
  - by rewrite Nat.add_0_r.
  - rewrite Nat.add_succ_r. by eapply walk_step.
Qed.

Lemma walk_cons u v w n : E u v → walk E v w n → walk E u w (S n).
Proof.
  intros Huv Hw. change (S n) with (1 + n)%nat.
  eapply walk_app; [|done]. eapply walk_step; [constructor|done].
Qed.

Lemma walk_zero u v : walk E u v 0 → u = v.
Proof. by inversion 1. Qed.

Lemma dist_unique u v d d' : dist E u v d → dist E u v d' → d = d'.
Proof.
  intros [Hw Hm] [Hw' Hm']. apply Hm in Hw'. apply Hm' in Hw. lia.
Qed.

Lemma dist_self u : dist E u u 0.
Proof. split; [constructor|]. intros; lia. Qed.

(** A walk that leaves a set crosses its border somewhere. *)
Lemma walk_split (P : Pos → Prop) s t m :
  (∀ x, P x ∨ ¬ P x) →
  walk E s t m → P s → ¬ P t →
  ∃ v w i j, walk E s v i ∧ E v w ∧ walk E w t j
             ∧ m = (i + 1 + j)%nat ∧ P v ∧ ¬ P w.
Proof.
  intros Hdec Hwalk Hs. induction Hwalk as [|v t n Hwalk IH Hvt]; intros Ht.
  - done.
  - destruct (Hdec v) as [Hv|Hv].
    + exists v, t, n, 0%nat. split_and!; try done; try lia. constructor.
    + destruct (IH Hv) as (v' & w' & i & j & H1 & H2 & H3 & -> & H4 & H5).
      exists v', w', i, (S j). split_and!; try done; try lia.
      by eapply walk_step.
Qed.

(** A set that contains [s] and is closed under moves contains every
    cell a walk from [s] reaches. *)
Lemma walk_closed (P : Pos → Prop) s t m :
  P s → (∀ x y, P x → E x y → P y) → walk E s t m → P t.
Proof. intros Hs Hcl. induction 1; eauto. Qed.
End Walks.

(** ** Moves on the grid *)

Section GridMoves.
Variables (rows cols : Z) (walls : Pos → bool).

Lemma edge_spec u v :
  inBounds rows cols u →
  edge rows cols walls u v ↔
    inBounds rows cols v ∧ manhattan u v = 1 ∧ walls v = false.
Proof.
  intros Hu. unfold edge.
  rewrite (elem_of_getNeighbors rows cols (newNode u.1 u.2)) by (by destruct u).
  simpl. destruct u. simpl. tauto.
Qed.

Lemma edge_node g u v nd :
  wfGrid rows cols g → g !! u = Some nd →
  edge rows cols walls u v ↔ v ∈ getNeighbors rows cols nd ∧ walls v = false.
Proof.
  intros Hwf Hu. destruct (wfGrid_inBounds _ _ _ _ _ Hwf Hu) as [Hb Hrc].
  unfold edge. rewrite (getNeighbors_coords rows cols (newNode u.1 u.2) nd); [done|..].
  - simpl. by inversion Hrc.
  - simpl. by inversion Hrc.
Qed.

Lemma walk_inBounds u v n :
  inBounds rows cols u → walk (edge rows cols walls) u v n → inBounds rows cols v.
Proof.
  intros Hu. induction 1 as [|x y n Hw IH Hxy]; [done|].
  apply edge_spec in Hxy; tauto.
Qed.

(** The Manhattan heuristic drops by at most one per move. *)
Lemma heuristic_consistent (e u v : Pos) (n : nat) :
  inBounds rows cols u → walk (edge rows cols walls) u v n →
  manhattan u e ≤ Z.of_nat n + manhattan v e.
Proof.
  intros Hu. induction 1 as [|x y n Hw IH Hxy]; [lia|].
  apply edge_spec in Hxy; [|by eapply walk_inBounds].
  destruct Hxy as (_ & Hm & _). unfold manhattan in *. lia.
Qed.
End GridMoves.

(** ** Walks and paths *)

Lemma gridPath_app rows cols g l x y :
  gridPath rows cols g (l ++ [x]) → freeCell rows cols g y → manhattan x y = 1 →
  gridPath rows cols g ((l ++ [x]) ++ [y]).
Proof.
  intros Hp Hy Hm. induction l as [|z l IH]; simpl in *.
  - tauto.
  - destruct Hp as (Hz & Hstep & Hp). split_and!; [done| |by apply IH].
    by destruct l.
Qed.

(** A walk of the search that starts on a free cell is a path. *)
Lemma walk_path rows cols g s t n :
  freeCell rows cols g s → walk (edge rows cols (wallAt g)) s t n →
  ∃ l, connects rows cols g s t l ∧ length l = S n.
Proof.
  intros Hs. induction 1 as [|v w n Hw IH Hvw].
  - exists [s]. unfold connects. simpl. tauto.
  - destruct IH as (l & (Hp & Hh & Hl) & Hlen).
    assert (Hv : inBounds rows cols v).
    { eapply walk_inBounds; [|done]. apply Hs. }
    apply edge_spec in Hvw as (Hw1 & Hw2 & Hw3); [|done].
    destruct (last_Some l v) as [(l' & ->) _]; [done|].
    exists ((l' ++ [v]) ++ [w]). split; [split_and!|].
    + apply gridPath_app; [done| |done]. by split.
    + rewrite <- app_assoc. by destruct l'.
    + by rewrite last_snoc.
    + rewrite !length_app in *. simpl in *. lia.
Qed.

(** A path is a walk of the search. *)
Lemma path_walk rows cols g l s t :
  connects rows cols g s t l →
  walk (edge rows cols (wallAt g)) s t (length l - 1).
Proof.
  intros (Hp & Hh & Hl). revert s Hh. induction l as [|x l IH]; intros s Hh; [done|].
  simpl in Hh. inversion Hh; subst x. destruct l as [|y l].
  - simpl in Hl. inversion Hl; subst. constructor.
  - destruct Hp as (Hs & Hm & Hp).
    replace (length (s :: y :: l) - 1)%nat with (S (length (y :: l) - 1)) by (simpl; lia).
    eapply walk_cons.
    + apply edge_spec; [apply Hs|]. destruct Hp as ((? & ?) & _). done.
    + apply IH; [done|done|done].
Qed.

Lemma connects_length rows cols g s t l : connects rows cols g s t l → (1 ≤ length l)%nat.
Proof. intros (_ & Hh & _). destruct l; [done|simpl; lia]. Qed.

Lemma connects_free rows cols g s t l : connects rows cols g s t l → freeCell rows cols g s.
Proof. intros (Hp & Hh & _). destruct l; [done|]. inversion Hh; subst. apply Hp. Qed.

(** Shortest walks of the search from a free cell measure the shortest
    paths. *)
Lemma dist_shortestDistance rows cols g s t d :
  freeCell rows cols g s → dist (edge rows cols (wallAt g)) s t d →
  shortestDistance rows cols g s t d.
Proof.
  intros Hs [Hw Hmin]. split.
  - by apply walk_path.
  - intros l Hl. pose proof (connects_length _ _ _ _ _ _ Hl).
    apply path_walk in Hl. apply Hmin in Hl. lia.
Qed.

(** * The invariant shared by BFS and DFS *)

Lemma backward_snoc_new g g' T cur (N : Pos → Prop) :
  (∀ p, N p ∨ ¬ N p) →
  backward g T →
  (∀ p, N p → prevAt g' p = Some cur) →
  (∀ p, ¬ N p → prevAt g' p = prevAt g p) →
  (∀ p, N p → p ∉ T ++ [cur]) →
  backward g' (T ++ [cur]).
Proof.
  intros Hdec Hb Hnew Hold Hfresh x p Hx.
  destruct (Hdec x) as [Hin|Hnin].
  - rewrite (Hnew x Hin) in Hx. inversion Hx; subst p.
    exists (length T). split.
    + by rewrite lookup_app_r, Nat.sub_diag by lia.
    + intros k _ Hk. apply (Hfresh x Hin). by eapply list_elem_of_lookup_2.
  - rewrite (Hold x Hnin) in Hx. destruct (Hb x p Hx) as (j & Hj & Hbefore).
    exists j. split.
    + by apply lookup_app_l_Some.
    + intros k Hk Hxk. apply (Hbefore k Hk).
      rewrite lookup_app_l in Hxk; [done|].
      apply lookup_lt_Some in Hj. lia.
Qed.

Section Frontier.
Variables (rows cols : Z) (walls : Pos → bool) (s e : Pos).

Lemma frontierInv_wf g F T :
  frontierInv rows cols walls s e g F T →
  wfGrid rows cols g ∧ ∀ p, p ∈ F → inBounds rows cols p.
Proof.
  intros (Hwf & _ & Hvis & _). split; [done|].
  intros p Hp. assert (Hv : visitedAt g p = true) by (apply Hvis; by right).
  unfold visitedAt in Hv. destruct (g !! p) as [n|] eqn:Hn; [|done].
  by destruct (wfGrid_inBounds _ _ _ _ _ Hwf Hn).
Qed.

Lemma frontierInv_step g F F' F'' T cur nd g' :
  frontierInv rows cols walls s e g F T →
  F ≡ₚ cur :: F' → cur ≠ e → g !! cur = Some nd →
  visitNeighbors cur (getNeighbors rows cols nd) g F' = Ok (g', F'') →
  frontierInv rows cols walls s e g' F'' (T ++ [cur]).
Proof.
  intros (Hwf & Hwalls & Hvis & Hnd & He & Hback & Hps & Hvs & Hprev & Hnone & Hclosed)
    HF Hne Hcur Hrun.
  destruct (visitNeighbors_spec rows cols (cellsOf rows cols) cur
              (getNeighbors rows cols nd) g F' Hwf
              (neighbours_of_cell rows cols g cur nd Hwf Hcur))
    as (g1 & new & Hrun' & Hwf' & Hndnew & Hin & Hmark & Hframe & Hwall & _).
  rewrite Hrun in Hrun'. inversion Hrun'; subst g1 F''. clear Hrun'.
  assert (HcurF : cur ∈ F) by (rewrite HF; by left).
  assert (HF' : ∀ p, p ∈ F ↔ p = cur ∨ p ∈ F').
  { intros p. by rewrite HF, elem_of_cons. }
  assert (Hvis' : ∀ p, visitedAt g' p = true ↔ visitedAt g p = true ∨ p ∈ new).
  { intros p. destruct (decide (p ∈ new)) as [Hp|Hp].
    - split; [by right|]. intros _. by apply Hmark.
    - unfold visitedAt. rewrite (Hframe p Hp). tauto. }
  assert (Hprev' : ∀ p, p ∉ new → prevAt g' p = prevAt g p).
  { intros p Hp. unfold prevAt. by rewrite (Hframe p Hp). }
  assert (Hfresh : ∀ p, p ∈ new → visitedAt g p = false).
  { intros p Hp. by apply Hin in Hp as (_ & ? & _). }
  assert (Hedge : ∀ y, edge rows cols walls cur y ↔
                       y ∈ getNeighbors rows cols nd ∧ walls y = false).
  { intros y. apply (edge_node rows cols walls g cur y nd Hwf Hcur). }
  split_and!.
  - done.
  - intros p. by rewrite Hwall.
  - intros p. rewrite Hvis', Hvis, HF', !elem_of_app, elem_of_cons, elem_of_nil. tauto.
  - assert (H1 : NoDup ((T ++ [cur]) ++ F')).
    { rewrite <- app_assoc. simpl. by rewrite <- HF. }
    rewrite app_assoc. apply NoDup_app. split_and!; [done| |done].
    intros p Hp Hpn. apply Hfresh in Hpn.
    assert (visitedAt g p = true); [|congruence].
    apply Hvis. rewrite HF'. rewrite !elem_of_app, elem_of_cons, elem_of_nil in Hp. tauto.
  - rewrite elem_of_app, elem_of_cons, elem_of_nil. intros [?|[?|[]]]; [done|].
    by apply Hne.
  - eapply (backward_snoc_new g g' T cur (λ p, p ∈ new)); [|done| | |].
    + intros p. destruct (decide (p ∈ new)); [by left|by right].
    + intros p Hp. by apply Hmark.
    + done.
    + intros p Hp Hx. apply Hfresh in Hp.
      assert (visitedAt g p = true); [|congruence].
      apply Hvis. rewrite elem_of_app, elem_of_cons, elem_of_nil in Hx.
      destruct Hx as [?|[->|[]]]; [by left|by right].
  - rewrite Hprev'; [done|]. intros Hx. apply Hfresh in Hx. congruence.
  - apply Hvis'. by left.
  - intros x Hx Hxs. destruct (decide (x ∈ new)) as [Hn|Hn].
    + exists cur. split_and!.
      * by apply Hmark.
      * apply elem_of_app. right. by left.
      * apply Hedge. apply Hin in Hn as (? & _ & Hw). split; [done|].
        by rewrite <- Hwalls.
    + apply Hvis' in Hx as [Hx|Hx]; [|done].
      destruct (Hprev x Hx Hxs) as (p & Hp1 & Hp2 & Hp3).
      exists p. rewrite Hprev' by done. split_and!; [done| |done].
      apply elem_of_app. by left.
  - intros x Hx.
    assert (Hxn : x ∉ new).
    { intros Hn. apply Hmark in Hn as [Hn _]. congruence. }
    rewrite Hprev' by done. apply Hnone.
    destruct (visitedAt g x) eqn:Hv; [|done].
    assert (visitedAt g' x = true) by (apply Hvis'; by left). congruence.
  - intros x y Hx Hxy. apply Hvis'.
    rewrite elem_of_app, elem_of_cons, elem_of_nil in Hx.
    destruct Hx as [Hx|[->|[]]].
    + left. by eapply Hclosed.
    + apply Hedge in Hxy as [Hy Hw].
      destruct (visitedAt g y) eqn:Hv; [by left|right].
      apply Hin. split_and!; [done|done|]. by rewrite Hwalls.
Qed.

(** The state in which the loops of [bfs] and [dfs] are entered. *)
Lemma frontierInv_init g0 sn :
  wfGrid rows cols g0 → inBounds rows cols s →
  (∀ p, wallAt g0 p = walls p) →
  resetVisuals g0 !! s = Some sn →
  frontierInv rows cols walls s e
    (<[s := set_isVisited true sn]> (resetVisuals g0)) [s] [].
Proof.
  intros Hwf Hs Hw Hsn.
  assert (Hwf' : wfGrid rows cols (resetVisuals g0)) by by apply wfGrid_resetVisuals.
  assert (Hprev : ∀ x, prevAt (<[s := set_isVisited true sn]> (resetVisuals g0)) x = None).
  { intros x. rewrite prevAt_insert. case_decide as Hx.
    - simpl. pose proof (prevAt_resetVisuals g0 s) as H.
      unfold prevAt in H. by rewrite Hsn in H.
    - apply prevAt_resetVisuals. }
  split_and!.
  - by eapply wfGrid_insert.
  - intros p. rewrite wallAt_insert. case_decide as Hp.
    + subst. simpl. rewrite <- Hw, <- (wallAt_resetVisuals g0).
      unfold wallAt. by rewrite Hsn.
    + by rewrite wallAt_resetVisuals.
  - intros p. rewrite visitedAt_insert, elem_of_nil, elem_of_cons, elem_of_nil.
    case_decide as Hp.
    + simpl. split; [intros _; right; by left|done].
    + rewrite visitedAt_resetVisuals. split; [done|]. intros [[]|[->|[]]]. done.
  - simpl. apply NoDup_singleton.
  - apply not_elem_of_nil.
  - intros x p Hx. by rewrite Hprev in Hx.
  - apply Hprev.
  - by rewrite visitedAt_insert, decide_True.
  - intros x. rewrite visitedAt_insert. case_decide as Hx; [by subst|].
    by rewrite visitedAt_resetVisuals.
  - intros x _. apply Hprev.
  - intros x y Hx. by apply elem_of_nil in Hx.
Qed.
End Frontier.

(** * Breadth-first search *)

Lemma StronglySorted_all {A : Type} (R : A → A → Prop) (l : list A) :
  (∀ x y, x ∈ l → y ∈ l → R x y) → StronglySorted R l.
Proof.
  induction l as [|a l IH]; intros H; constructor.
  - apply IH. intros x y Hx Hy. apply H; by right.
  - apply Forall_forall. intros y Hy. apply H; [by left|by right].
Qed.

Lemma reconstruct_None fuel g acc : reconstruct fuel g None acc = Ok acc.
Proof. by destruct fuel. Qed.

Section Levels.
Variables (rows cols : Z) (walls : Pos → bool) (s e : Pos).
Local Abbreviation E := (edge rows cols walls).
Local Abbreviation D := (dist (edge rows cols walls) s).

(** The cells discovered from the head of the queue lie one level
    further than the head. *)
Lemma level_of_new g cur Q T n dc :
  frontierInv rows cols walls s e g (cur :: Q) T →
  levelInv rows cols walls s g (cur :: Q) T →
  D cur dc → E cur n → visitedAt g n = false →
  D n (S dc).
Proof.
  intros (Hwf & Hwalls & Hvis & Hnd & He & Hback & Hps & Hvs & Hprev & Hnone & Hclosed)
    (Hd & Hsorted & Hnear & Hbefore & Hpd) Hdc Hedge Hn.
  split.
  - eapply walk_step; [apply Hdc|done].
  - intros m Hm.
    destruct (walk_split E (λ x, visitedAt g x = true) s n m) as
      (v & w & i & j & Hsv & Hvw & Hwn & -> & Hv & Hw); try done.
    { intros x. destruct (visitedAt g x); [by left|by right]. }
    { congruence. }
    destruct (Hd v Hv) as (dv & Hdv).
    assert (dv ≤ i)%nat by (by apply Hdv).
    apply Hvis in Hv as [Hv|Hv].
    + exfalso. apply Hw. by eapply Hclosed.
    + assert (dc ≤ dv)%nat; [|lia].
      apply elem_of_cons in Hv as [->|Hv].
      * by rewrite (dist_unique E s cur dc dv).
      * apply StronglySorted_inv in Hsorted as [_ Hall].
        rewrite Forall_forall in Hall. by apply (Hall v Hv).
Qed.

Lemma levelInv_step g cur Q T nd g' Q' :
  frontierInv rows cols walls s e g (cur :: Q) T →
  levelInv rows cols walls s g (cur :: Q) T →
  cur ≠ e → g !! cur = Some nd →
  visitNeighbors cur (getNeighbors rows cols nd) g Q = Ok (g', Q') →
  levelInv rows cols walls s g' Q' (T ++ [cur]).
Proof.
  intros HF HL Hne Hcur Hrun.
  pose proof HF as
    (Hwf & Hwalls & Hvis & Hnd & He & Hback & Hps & Hvs & Hprev & Hnone & Hclosed).
  pose proof HL as (Hd & Hsorted & Hnear & Hbefore & Hpd).
  destruct (visitNeighbors_spec rows cols (cellsOf rows cols) cur
              (getNeighbors rows cols nd) g Q Hwf
              (neighbours_of_cell rows cols g cur nd Hwf Hcur))
    as (g1 & new & Hrun' & Hwf' & Hndnew & Hin & Hmark & Hframe & Hwall & _).
  rewrite Hrun in Hrun'. inversion Hrun'; subst g1 Q'. clear Hrun'.
  assert (Hcurv : visitedAt g cur = true) by (apply Hvis; right; by left).
  destruct (Hd cur Hcurv) as (dc & Hdc).
  assert (Hnew : ∀ n, n ∈ new → D n (S dc)).
  { intros n Hn. apply Hin in Hn as (Hn1 & Hn2 & Hn3).
    eapply level_of_new; try done.
    apply (edge_node rows cols walls g cur n nd Hwf Hcur). split; [done|].
    by rewrite <- Hwalls. }
  assert (Hvis' : ∀ p, visitedAt g' p = true → visitedAt g p = true ∨ p ∈ new).
  { intros p. destruct (decide (p ∈ new)) as [Hp|Hp]; [by right|].
    unfold visitedAt. rewrite (Hframe p Hp). by left. }
  assert (HQ : ∀ x dx, x ∈ Q → D x dx → (dc ≤ dx)%nat).
  { intros x dx Hx Hdx. apply StronglySorted_inv in Hsorted as [_ Hall].
    rewrite Forall_forall in Hall. by apply (Hall x Hx). }
  assert (Huniq : ∀ n dn, n ∈ new → D n dn → dn = S dc).
  { intros n dn Hn Hdn. eapply dist_unique; [exact Hdn|by apply Hnew]. }
  unfold levelInv. split_and!.
  - intros x Hx. destruct (Hvis' x Hx) as [Hx'|Hx']; [by apply Hd|].
    exists (S dc). by apply Hnew.
  - apply StronglySorted_app_2.
    + intros x y Hx Hy dx dy Hdx Hdy.
      rewrite (Huniq y dy Hy Hdy).
      assert (dx ≤ dc + 1)%nat; [|lia].
      eapply (Hnear cur x dc dx); [by left|by right|done|done].
    + by apply StronglySorted_inv in Hsorted as [? _].
    + apply StronglySorted_all. intros x y Hx Hy dx dy Hdx Hdy.
      rewrite (Huniq x dx Hx Hdx), (Huniq y dy Hy Hdy). done.
  - intros x y dx dy Hx Hy Hdx Hdy.
    apply elem_of_app in Hx as [Hx|Hx]; apply elem_of_app in Hy as [Hy|Hy].
    + eapply (Hnear x y); [by right|by right|done|done].
    + rewrite (Huniq y dy Hy Hdy). specialize (HQ x dx Hx Hdx). lia.
    + rewrite (Huniq x dx Hx Hdx).
      assert (dy ≤ dc + 1)%nat; [|lia].
      eapply (Hnear cur y dc dy); [by left|by right|done|done].
    + rewrite (Huniq x dx Hx Hdx), (Huniq y dy Hy Hdy). lia.
  - intros x y dx dy Hx Hy Hdx Hdy.
    assert (Hxc : (dx ≤ dc)%nat).
    { apply elem_of_app in Hx as [Hx|Hx].
      - eapply (Hbefore x cur); [done|by left|done|done].
      - apply elem_of_cons in Hx as [->|Hx]; [|by apply elem_of_nil in Hx].
        by rewrite (dist_unique E s cur dx dc). }
    apply elem_of_app in Hy as [Hy|Hy].
    + specialize (HQ y dy Hy Hdy). lia.
    + rewrite (Huniq y dy Hy Hdy). lia.
  - intros x p Hx. destruct (decide (x ∈ new)) as [Hn|Hn].
    + destruct (Hmark x Hn) as [_ Hp]. rewrite Hp in Hx. inversion Hx; subst p.
      exists dc. split; [done|by apply Hnew].
    + unfold prevAt in Hx. rewrite (Hframe x Hn) in Hx. by apply Hpd.
Qed.

Lemma bfsInv_step g cur Q T nd g' Q' :
  bfsInv rows cols walls s e g (cur :: Q) T →
  cur ≠ e → g !! cur = Some nd →
  visitNeighbors cur (getNeighbors rows cols nd) g Q = Ok (g', Q') →
  bfsInv rows cols walls s e g' Q' (T ++ [cur]).
Proof.
  intros [HF HL] Hne Hcur Hrun. split.
  - eapply frontierInv_step; done.
  - eapply levelInv_step; done.
Qed.

Lemma levelInv_init g :
  (∀ x, visitedAt g x = true → x = s) →
  (∀ x, prevAt g x = None) →
  levelInv rows cols walls s g [s] [].
Proof.
  intros Hv Hp. unfold levelInv. split_and!.
  - intros x Hx. apply Hv in Hx as ->. exists 0%nat. apply dist_self.
  - repeat constructor.
  - intros x y dx dy Hx Hy Hdx Hdy.
    apply list_elem_of_singleton in Hx, Hy. subst.
    rewrite (dist_unique E s s dx dy Hdx Hdy). lia.
  - intros x y dx dy Hx. by apply elem_of_nil in Hx.
  - intros x p Hx. by rewrite Hp in Hx.
Qed.

(** Following the backpointers from a visited cell at distance [d]
    collects [d + 1] cells, the first of which is the start. *)
Lemma bfs_chain g Q T :
  bfsInv rows cols walls s e g Q T →
  ∀ (d : nat) x acc fuel,
    visitedAt g x = true → D x d → (d < fuel)%nat →
    ∃ l, reconstruct fuel g (Some x) acc = Ok (l ++ acc)
         ∧ length l = S d ∧ head l = Some s.
Proof.
  intros [(Hwf & Hwalls & Hvis & Hnd & He & Hback & Hps & Hvs & Hprev & Hnone & Hclosed)
          (Hd & Hsorted & Hnear & Hbefore & Hpd)].
  induction d as [|d IH]; intros x acc fuel Hx Hdx Hfuel;
    (destruct fuel as [|fuel]; [lia|]);
    cbn [reconstruct];
    pose proof Hx as Hx'; unfold visitedAt in Hx';
    destruct (g !! x) as [nd|] eqn:Hnd'; try done;
    cbn [deref mbind outcome_bind].
  - destruct (decide (x = s)) as [->|Hxs].
    + unfold prevAt in Hps. rewrite Hnd' in Hps. rewrite Hps.
      exists [s]. by rewrite reconstruct_None.
    + destruct (Hprev x Hx Hxs) as (p & Hp & _).
      destruct (Hpd x p Hp) as (d' & _ & Hd').
      pose proof (dist_unique E s x _ _ Hdx Hd'). lia.
  - destruct (decide (x = s)) as [->|Hxs].
    + pose proof (dist_unique E s s _ _ Hdx (dist_self E s)). lia.
    + destruct (Hprev x Hx Hxs) as (p & Hp & HpT & _).
      destruct (Hpd x p Hp) as (d' & Hdp & Hd').
      pose proof (dist_unique E s x _ _ Hdx Hd') as Heq. inversion Heq; subst d'.
      unfold prevAt in Hp. rewrite Hnd' in Hp. rewrite Hp.
      destruct (IH p (x :: acc) fuel) as (l & Hl & Hlen & Hhead); [|done|lia|].
      { apply Hvis. by left. }
      exists (l ++ [x]). split_and!.
      * by rewrite <- app_assoc.
      * rewrite length_app. simpl. lia.
      * destruct l; [done|]. done.
Qed.
End Levels.

(** * Complete runs of BFS and DFS, and the reconstruction *)

Lemma trace_bound rows cols (T : list Pos) :
  NoDup T → (∀ p, p ∈ T → inBounds rows cols p) →
  (length T ≤ Z.to_nat rows * Z.to_nat cols)%nat.
Proof.
  intros Hnd Hin. rewrite <- length_cellsOf.
  apply submseteq_length, NoDup_submseteq; [done|].
  intros p Hp. by apply elem_of_cellsOf, Hin.
Qed.

Lemma enoughFuel_cells rows cols p :
  inBounds rows cols p →
  enoughFuel rows cols = (5 * (Z.to_nat rows * Z.to_nat cols) + 2)%nat.
Proof.
  intros [Hr Hc]. unfold enoughFuel. rewrite Z2Nat.inj_mul by lia. done.
Qed.

Lemma backward_app g T T' : backward g T → backward g (T ++ T').
Proof.
  intros Hb x p Hx. destruct (Hb x p Hx) as (j & Hj & Hbefore).
  exists j. split; [by apply lookup_app_l_Some|].
  intros k Hk Hxk. apply (Hbefore k Hk).
  rewrite lookup_app_l in Hxk; [done|]. apply lookup_lt_Some in Hj. lia.
Qed.

(** ** The reconstruction loop terminates *)

Lemma reconstruct_backward rows cols g T :
  wfGrid rows cols g → backward g T → (∀ p, p ∈ T → inBounds rows cols p) →
  ∀ (n j : nat) x acc,
    T !! j = Some x → (j < n)%nat →
    ∃ l, reconstruct n g (Some x) acc = Ok (l ++ acc) ∧ last l = Some x.
Proof.
  intros Hwf Hback HT. induction n as [|n IH]; intros j x acc Hj Hlt; [lia|].
  assert (Hx : inBounds rows cols x).
  { apply HT. by eapply list_elem_of_lookup_2. }
  destruct (wfGrid_lookup _ _ _ _ Hwf Hx) as (nd & Hnd & _).
  cbn [reconstruct]. rewrite Hnd. cbn [deref mbind outcome_bind].
  destruct (previousNode nd) as [p|] eqn:Hp.
  - destruct (Hback x p) as (j' & Hj' & Hbefore).
    { unfold prevAt. by rewrite Hnd. }
    assert (j' < j)%nat.
    { destruct (decide (j' < j)%nat); [done|]. exfalso.
      apply (Hbefore j); [lia|done]. }
    destruct (IH j' p (x :: acc) Hj' ltac:(lia)) as (l & Hl & _).
    exists (l ++ [x]). split; [by rewrite <- app_assoc|]. by rewrite last_snoc.
  - exists [x]. by rewrite reconstruct_None.
Qed.

Lemma reconstruct_total rows cols g T e fuel :
  wfGrid rows cols g → backward g T → (∀ p, p ∈ T → inBounds rows cols p) →
  inBounds rows cols e → (length T + 1 < fuel)%nat →
  ∃ l, reconstruct fuel g (Some e) [] = Ok l ∧ last l = Some e.
Proof.
  intros Hwf Hback HT He Hfuel.
  destruct fuel as [|fuel]; [lia|].
  destruct (wfGrid_lookup _ _ _ _ Hwf He) as (nd & Hnd & _).
  cbn [reconstruct]. rewrite Hnd. cbn [deref mbind outcome_bind].
  destruct (previousNode nd) as [p|] eqn:Hp.
  - destruct (Hback e p) as (j & Hj & _).
    { unfold prevAt. by rewrite Hnd. }
    destruct (reconstruct_backward rows cols g T Hwf Hback HT fuel j p [e] Hj)
      as (l & Hl & _).
    { apply lookup_lt_Some in Hj. lia. }
    exists (l ++ [e]). split; [done|]. by rewrite last_snoc.
  - exists [e]. by rewrite reconstruct_None.
Qed.

(** ** What [animate] reports *)

Lemma animate_total rows cols res s e fuel T :
  wfGrid rows cols res.(heap) → backward res.(heap) T →
  (∀ p, p ∈ T → inBounds rows cols p) →
  inBounds rows cols e → (length T + 1 < fuel)%nat →
  ∃ run, animate fuel res s e = Ok run
    ∧ run.(trace) = res.(visitedNodes)
    ∧ run.(exitKind) = res.(exit)
    ∧ run.(finalHeap) = res.(heap)
    ∧ reconstruct fuel res.(heap) (Some e) [] = Ok run.(path)
    ∧ last run.(path) = Some e
    ∧ run.(success) =
        bool_decide (head run.(path) = Some s)
        && negb (wallAt res.(heap) e) && visitedAt res.(heap) e
    ∧ run.(pathLen) = (if run.(success) then length run.(path) else 0%nat)
    ∧ run.(panel) = showResults (length res.(visitedNodes)) run.(pathLen) run.(success).
Proof.
  intros Hwf Hback HT He Hfuel.
  destruct (reconstruct_total rows cols _ T e fuel Hwf Hback HT He Hfuel)
    as (l & Hl & Hlast).
  destruct (wfGrid_lookup _ _ _ _ Hwf He) as (nd & Hnd & _).
  unfold animate. rewrite Hl. cbn [mbind outcome_bind].
  rewrite Hnd. cbn [deref mbind outcome_bind].
  eexists. split; [done|]. simpl. split_and!; try done.
  unfold wallAt, visitedAt. rewrite Hnd.
  rewrite bool_decide_eq_true_2; [done|].
  destruct l; [done|simpl; lia].
Qed.

(** ** Complete runs *)

Section Runs.
Variables (rows cols : Z) (g0 : gmap Pos Node) (s e : Pos) (fuel : nat).
Hypothesis Hwf : wfGrid rows cols g0.
Hypothesis Hs : inBounds rows cols s.
Hypothesis He : inBounds rows cols e.
Hypothesis Hfuel : (enoughFuel rows cols ≤ fuel)%nat.

Local Abbreviation E := (edge rows cols (wallAt g0)).

Lemma start_state sn :
  resetVisuals g0 !! s = Some sn →
  (length [s] + unvisited (<[s := set_isVisited true sn]> (resetVisuals g0))
                  (cellsOf rows cols) < fuel)%nat.
Proof.
  intros _. pose proof (unvisited_le_length
    (<[s := set_isVisited true sn]> (resetVisuals g0)) (cellsOf rows cols)) as H.
  rewrite length_cellsOf in H. rewrite (enoughFuel_cells rows cols s Hs) in Hfuel.
  simpl. lia.
Qed.

Lemma bfs_total :
  ∃ res, bfs fuel rows cols (resetVisuals g0) s e = Ok res
    ∧ match res.(exit) with
      | FrontierEmpty =>
          bfsInv rows cols (wallAt g0) s e res.(heap) [] res.(visitedNodes)
      | FoundEnd =>
          ∃ Q T, bfsInv rows cols (wallAt g0) s e res.(heap) (e :: Q) T
                 ∧ res.(visitedNodes) = T ++ [e]
      end.
Proof.
  destruct (wfGrid_lookup _ _ _ _ (wfGrid_resetVisuals _ _ _ Hwf) Hs) as (sn & Hsn & _).
  unfold bfs. rewrite Hsn. cbn [deref mbind outcome_bind].
  apply (bfs_loop_rule rows cols e (bfsInv rows cols (wallAt g0) s e)).
  - intros g F T [HF _]. by eapply frontierInv_wf.
  - intros g cur Q T nd g' Q' HI Hne Hcur Hrun. by eapply bfsInv_step.
  - split; [by apply frontierInv_init|].
    apply levelInv_init.
    + intros x. rewrite visitedAt_insert. case_decide; [done|].
      by rewrite visitedAt_resetVisuals.
    + intros x. rewrite prevAt_insert. case_decide as Hx; [|apply prevAt_resetVisuals].
      simpl. pose proof (prevAt_resetVisuals g0 s) as H.
      unfold prevAt in H. by rewrite Hsn in H.
  - by apply start_state.
Qed.

Lemma dfs_total :
  ∃ res, dfs fuel rows cols (resetVisuals g0) s e = Ok res
    ∧ match res.(exit) with
      | FrontierEmpty =>
          frontierInv rows cols (wallAt g0) s e res.(heap) [] res.(visitedNodes)
      | FoundEnd =>
          ∃ S T, frontierInv rows cols (wallAt g0) s e res.(heap) (S ++ [e]) T
                 ∧ res.(visitedNodes) = T ++ [e]
      end.
Proof.
  destruct (wfGrid_lookup _ _ _ _ (wfGrid_resetVisuals _ _ _ Hwf) Hs) as (sn & Hsn & _).
  unfold dfs. rewrite Hsn. cbn [deref mbind outcome_bind].
  apply (dfs_loop_rule rows cols e (frontierInv rows cols (wallAt g0) s e)).
  - intros g F T HF. by eapply frontierInv_wf.
  - intros g cur S T nd g' S' HI Hne Hcur Hrun.
    eapply frontierInv_step; [exact HI| |done..].
    by rewrite Permutation_app_comm.
  - by apply frontierInv_init.
  - by apply start_state.
Qed.
End Runs.

(** ** What the invariant says at the two exits *)

Section Exits.
Variables (rows cols : Z) (walls : Pos → bool) (s e : Pos).
Local Abbreviation E := (edge rows cols walls).

(** With an empty frontier the trace holds every reachable cell. *)
Lemma frontierInv_exhausted g T :
  frontierInv rows cols walls s e g [] T →
  (∀ x n, walk E s x n → x ∈ T)
  ∧ visitedAt g e = false.
Proof.
  intros (Hwf & Hwalls & Hvis & Hnd & He & Hback & Hps & Hvs & Hprev & Hnone & Hclosed).
  assert (HT : ∀ x, visitedAt g x = true ↔ x ∈ T).
  { intros x. rewrite Hvis, elem_of_nil. tauto. }
  split.
  - intros x n Hw. eapply (walk_closed E (λ x, x ∈ T)); [|  |exact Hw].
    + by apply HT.
    + intros a b Ha Hab. apply HT. by eapply Hclosed.
  - destruct (visitedAt g e) eqn:Hv; [|done]. by apply HT in Hv.
Qed.

(** Every cell of the trace is reachable. *)
Lemma frontierInv_reach g F T x :
  frontierInv rows cols walls s e g F T →
  visitedAt g x = true → ∃ n, walk E s x n.
Proof.
  intros (Hwf & Hwalls & Hvis & Hnd & He & Hback & Hps & Hvs & Hprev & Hnone & Hclosed).
  assert (Hall : ∀ (n : nat) j y, (j < n)%nat → T !! j = Some y → ∃ k, walk E s y k).
  { induction n as [|n IH]; intros j y Hj Hy; [lia|].
    destruct (decide (y = s)) as [->|Hys]; [exists 0%nat; constructor|].
    destruct (Hprev y) as (p & Hp & HpT & Hedge); [|done|].
    { apply Hvis. left. by eapply list_elem_of_lookup_2. }
    destruct (Hback y p Hp) as (j' & Hj' & Hbefore).
    assert (j' < j)%nat.
    { destruct (decide (j' < j)%nat); [done|]. exfalso.
      apply (Hbefore j); [lia|done]. }
    destruct (IH j' p ltac:(lia) Hj') as (k & Hk).
    exists (S k). by eapply walk_step. }
  intros Hx. destruct (decide (x = s)) as [->|Hxs]; [exists 0%nat; constructor|].
  destruct (Hprev x Hx Hxs) as (p & Hp & HpT & Hedge).
  apply list_elem_of_lookup in HpT as (j & Hj).
  destruct (Hall (S j) j p ltac:(lia) Hj) as (k & Hk).
  exists (S k). by eapply walk_step.
Qed.

(** When the end is at the head of the queue, its level is known and
    every cell of a lower level is in the trace. *)
Lemma bfsInv_found g Q T :
  bfsInv rows cols walls s e g (e :: Q) T →
  ∃ d, dist E s e d ∧ visitedAt g e = true
       ∧ ∀ x dx, dist E s x dx → (dx < d)%nat → x ∈ T.
Proof.
  intros [(Hwf & Hwalls & Hvis & Hnd & He & Hback & Hps & Hvs & Hprev & Hnone & Hclosed)
          (Hd & Hsorted & Hnear & Hbefore & Hpd)].
  assert (Hev : visitedAt g e = true) by (apply Hvis; right; by left).
  destruct (Hd e Hev) as (d & Hde). exists d. split_and!; [done|done|].
  assert (Hmin : ∀ v dv, v ∈ e :: Q → dist E s v dv → (d ≤ dv)%nat).
  { intros v dv Hv Hdv. apply elem_of_cons in Hv as [->|Hv].
    - by rewrite (dist_unique E s e d dv).
    - apply StronglySorted_inv in Hsorted as [_ Hall].
      rewrite Forall_forall in Hall. by apply (Hall v Hv). }
  intros x dx Hdx Hlt.
  destruct (visitedAt g x) eqn:Hx.
  - apply Hvis in Hx as [Hx|Hx]; [done|].
    specialize (Hmin x dx Hx Hdx). lia.
  - exfalso. destruct Hdx as [Hwalk _].
    destruct (walk_split E (λ x, visitedAt g x = true) s x dx) as
      (v & w & i & j & Hsv & Hvw & Hwn & -> & Hv & Hw); try done.
    { intros y. destruct (visitedAt g y); [by left|by right]. }
    { congruence. }
    destruct (Hd v Hv) as (dv & Hdv).
    assert (dv ≤ i)%nat by (by apply Hdv).
    apply Hvis in Hv as [Hv|Hv].
    + apply Hw. by eapply Hclosed.
    + specialize (Hmin v dv Hv Hdv). lia.
Qed.
End Exits.

(** * A-star *)

Lemma num_lt_Fin_false a b : num_lt (Fin a) (Fin b) = false ↔ b ≤ a.
Proof. simpl. rewrite bool_decide_eq_false. lia. Qed.

Lemma manhattan_nonneg u v : 0 ≤ manhattan u v.
Proof. unfold manhattan. lia. Qed.

Lemma manhattan_self u : manhattan u u = 0.
Proof. unfold manhattan. lia. Qed.

Lemma manhattan_pos u v : u ≠ v → 1 ≤ manhattan u v.
Proof.
  intros Hne. unfold manhattan. destruct u as [a b], v as [a' b']. simpl.
  destruct (decide (a = a')) as [->|]; [|lia].
  destruct (decide (b = b')) as [->|]; [done|lia].
Qed.

Section Astar.
Variables (rows cols : Z) (walls : Pos → bool) (s e : Pos).
Local Abbreviation E := (edge rows cols walls).
Local Abbreviation Inv := (astarInv rows cols walls s e).

Lemma astarInv_wf g O T :
  Inv g O T →
  wfGrid rows cols g ∧ inBounds rows cols e ∧ ∀ p, p ∈ O → inBounds rows cols p.
Proof.
  intros (Hwf & Hs & He & _ & _ & _ & _ & _ & _ & _ & _ & _ & _ & HO).
  split_and!; [done|done|].
  intros p Hp. destruct (HO p Hp) as (z & Hz). unfold gAt in Hz.
  destruct (g !! p) as [n|] eqn:Hn; [|done].
  by destruct (wfGrid_inBounds _ _ _ _ _ Hwf Hn).
Qed.

(** The entry of least [fCost] bounds, from below, the length plus
    heuristic of every walk that ends outside the trace. *)
Lemma astar_least g O T cur (k : nat) :
  Inv g O T →
  (∀ y, y ∈ O → num_lt (fAt g y) (fAt g cur) = false) →
  gAt g cur = Fin (Z.of_nat k) →
  ∀ t (m : nat), walk E s t m → t ∉ T →
    Z.of_nat k + manhattan cur e ≤ Z.of_nat m + manhattan t e.
Proof.
  intros (Hwf & Hs & He & Hwalls & Hvis & Hnd & HeT & Hback & Hgs & Hps
          & Hfin & Hclosed & Hrelax & HO) Hmin Hk t m Hwalk Ht.
  destruct (Hfin cur _ Hk) as (k0 & _ & _ & Hfcur & _).
  assert (Hbound : ∀ w (kw : Z), w ∈ O → gAt g w = Fin kw →
            Z.of_nat k + manhattan cur e ≤ kw + manhattan w e).
  { intros w kw Hw Hkw. destruct (Hfin w _ Hkw) as (k1 & _ & _ & Hfw & _).
    specialize (Hmin w Hw). rewrite Hfw, Hfcur in Hmin.
    by apply num_lt_Fin_false in Hmin. }
  destruct (decide (s ∈ T)) as [HsT|HsT].
  - destruct (walk_split E (λ x, x ∈ T) s t m) as
      (v & w & i & j & Hsv & Hvw & Hwt & -> & Hv & Hw); try done.
    { intros x. destruct (decide (x ∈ T)); [by left|by right]. }
    destruct (Hclosed v Hv) as (kv & Hkv & Hdv & _).
    assert (kv ≤ i)%nat by (by apply Hdv).
    destruct (Hrelax v w Hv Hvw) as (kv' & kw & Hkv' & Hkw & Hle).
    rewrite Hkv in Hkv'. inversion Hkv'; subst kv'.
    destruct (Hfin w _ Hkw) as (k1 & _ & _ & _ & [HwT|HwO] & _); [done|].
    specialize (Hbound w kw HwO Hkw).
    assert (Hwb : inBounds rows cols w).
    { eapply walk_inBounds; [exact Hs|]. by eapply walk_step. }
    pose proof (heuristic_consistent rows cols walls e w t j Hwb Hwt). lia.
  - destruct (Hfin s _ Hgs) as (k1 & _ & _ & _ & [HsT'|HsO] & _); [done|].
    specialize (Hbound s 0 HsO Hgs).
    pose proof (heuristic_consistent rows cols walls e s t m Hs Hwalk). lia.
Qed.

Lemma astarInv_stale g O T cur O' :
  Inv g O T → sortOpenSet g O = Ok (cur :: O') →
  visitedAt g cur = true → Inv g O' T.
Proof.
  intros HI Hsort Hv.
  destruct (astarInv_wf g O T HI) as (Hwf' & _ & HOb).
  destruct (sortOpenSet_spec rows cols g O Hwf' HOb) as (S & Hsort' & Hperm & _).
  rewrite Hsort in Hsort'. inversion Hsort'; subst S. clear Hsort'.
  destruct HI as (Hwf & Hs & He & Hwalls & Hvis & Hnd & HeT & Hback & Hgs & Hps
                  & Hfin & Hclosed & Hrelax & HO).
  unfold astarInv. split_and!; try done.
  - intros x z Hz. destruct (Hfin x z Hz) as (k & H1 & H2 & H3 & H4 & H5).
    exists k. split_and!; try done.
    destruct H4 as [H4|H4]; [by left|].
    rewrite <- Hperm in H4. apply elem_of_cons in H4 as [->|H4]; [|by right].
    left. by apply Hvis.
  - intros x Hx. apply HO. rewrite <- Hperm. by right.
Qed.

Lemma astarInv_expand g O T cur O' nd g' O'' :
  Inv g O T → sortOpenSet g O = Ok (cur :: O') →
  g !! cur = Some nd → nd.(isVisited) = false → cur ≠ e →
  relaxNeighbors cur e (getNeighbors rows cols nd)
    (<[cur := set_isVisited true nd]> g) O' = Ok (g', O'') →
  Inv g' O'' (T ++ [cur]).
Proof.
  intros HI Hsort Hcur Hunv Hne Hrun.
  destruct (astarInv_wf g O T HI) as (Hwf' & _ & HOb).
  destruct (sortOpenSet_spec rows cols g O Hwf' HOb) as (S & Hsort' & Hperm & Hmin).
  rewrite Hsort in Hsort'. inversion Hsort'; subst S. clear Hsort'.
  pose proof HI as (Hwf & Hs & He & Hwalls & Hvis & Hnd & HeT & Hback & Hgs & Hps
                    & Hfin & Hclosed & Hrelax & HO).
  set (g1 := <[cur := set_isVisited true nd]> g) in *.
  set (ns := getNeighbors rows cols nd) in *.
  destruct (wfGrid_inBounds _ _ _ _ _ Hwf Hcur) as [Hcurb Hrc].
  assert (Hwf1 : wfGrid rows cols g1) by (by eapply wfGrid_insert).
  assert (Hv1 : visitedAt g1 cur = true).
  { unfold g1. by rewrite visitedAt_insert, decide_True. }
  assert (Hns : ∀ n, n ∈ ns → inBounds rows cols n).
  { intros n Hn. eapply getNeighbors_inBounds; [|done]. by rewrite Hrc. }
  destruct (relaxNeighbors_spec rows cols cur e ns g1 O' Hwf1 Hcurb He Hns Hv1)
    as (g2 & O2 & Hrun' & Hwf2 & Hw2 & Hvis2 & Hupd & Hframe & Hsub & Hsup & _).
  rewrite Hrun in Hrun'. inversion Hrun'; subst g2 O2. clear Hrun'.
  (* the heap after marking [cur] *)
  assert (Hg1 : ∀ p, gAt g1 p = gAt g p).
  { intros p. unfold g1. rewrite gAt_insert. case_decide; [|done].
    subst. unfold gAt. by rewrite Hcur. }
  assert (Hf1 : ∀ p, fAt g1 p = fAt g p).
  { intros p. unfold g1. rewrite fAt_insert. case_decide; [|done].
    subst. unfold fAt. by rewrite Hcur. }
  assert (Hp1 : ∀ p, prevAt g1 p = prevAt g p).
  { intros p. unfold g1. rewrite prevAt_insert. case_decide; [|done].
    subst. unfold prevAt. by rewrite Hcur. }
  assert (Hwall1 : ∀ p, wallAt g1 p = wallAt g p).
  { intros p. unfold g1. rewrite wallAt_insert. case_decide; [|done].
    subst. unfold wallAt. by rewrite Hcur. }
  assert (HcurT : cur ∉ T).
  { intros Hx. apply Hvis in Hx. unfold visitedAt in Hx. rewrite Hcur in Hx. congruence. }
  assert (Hvis1 : ∀ p, visitedAt g1 p = true ↔ p ∈ T ++ [cur]).
  { intros p. unfold g1. rewrite visitedAt_insert, elem_of_app, elem_of_cons, elem_of_nil.
    case_decide as Hp; [subst; simpl; tauto|]. rewrite Hvis. split; [tauto|].
    intros [?|[?|[]]]; [done|]. by subst. }
  assert (HcurO : cur ∈ O) by (rewrite <- Hperm; by left).
  destruct (HO cur HcurO) as (zc & Hzc).
  destruct (Hfin cur zc Hzc) as (k & -> & Hwalkcur & Hfcur & _ & _).
  assert (Htg : num_add (gAt g1 cur) 1 = Fin (Z.of_nat k + 1)).
  { by rewrite Hg1, Hzc. }
  rewrite Htg in Hupd.
  set (imp := improves ns g1 cur) in *.
  assert (Himp_dec : ∀ p, imp p ∨ ¬ imp p).
  { intros p. unfold imp, improves.
    destruct (decide (p ∈ ns)); [|right; tauto].
    destruct (wallAt g1 p); [right; intros (_ & ? & _); done|].
    destruct (visitedAt g1 p); [right; intros (_ & _ & ? & _); done|].
    destruct (num_lt (num_add (gAt g1 cur) 1) (gAt g1 p));
      [left; done|right; intros (_ & _ & _ & ?); done]. }
  assert (Himp_unv : ∀ p, imp p → p ∉ T ++ [cur]).
  { intros p (_ & _ & Hp & _) Hx. apply Hvis1 in Hx. congruence. }
  assert (Himp_edge : ∀ p, imp p → E cur p).
  { intros p (Hp & Hw & _). apply (edge_node rows cols walls g cur p nd Hwf Hcur).
    split; [done|]. by rewrite <- Hwalls, <- Hwall1. }
  assert (Hsame : ∀ p, ¬ imp p →
            gAt g' p = gAt g p ∧ fAt g' p = fAt g p ∧ prevAt g' p = prevAt g p).
  { intros p Hp. unfold gAt, fAt, prevAt. rewrite (Hframe p Hp).
    fold (gAt g1 p) (fAt g1 p) (prevAt g1 p). by rewrite Hg1, Hf1, Hp1. }
  assert (Hvisited_same : ∀ p, p ∈ T ++ [cur] → ¬ imp p).
  { intros p Hp Hi. by apply (Himp_unv p Hi). }
  assert (Hcur_g' : gAt g' cur = Fin (Z.of_nat k)).
  { destruct (Hsame cur) as [-> _]; [|done].
    apply Hvisited_same, elem_of_app. right. by left. }
  assert (Hleast := astar_least g O T cur k HI Hmin Hzc).
  assert (Hdcur : dist E s cur k).
  { split; [done|]. intros m Hm. specialize (Hleast cur m Hm HcurT). lia. }
  unfold astarInv. split_and!.
  - done.
  - done.
  - done.
  - intros p. by rewrite Hw2, Hwall1.
  - intros p. by rewrite Hvis2.
  - apply NoDup_app. split_and!; [done| |apply NoDup_singleton].
    intros x Hx Hx'. apply list_elem_of_singleton in Hx'. by subst.
  - rewrite elem_of_app, elem_of_cons, elem_of_nil. intros [?|[?|[]]]; [done|].
    by apply Hne.
  - eapply (backward_snoc_new g g' T cur imp); [done|done| | |done].
    + intros p Hp. by apply Hupd.
    + intros p Hp. by apply Hsame.
  - destruct (Hsame s) as [-> _]; [|done].
    intros (_ & _ & _ & Hx). rewrite Htg, Hg1, Hgs in Hx. simpl in Hx.
    apply bool_decide_eq_true in Hx. lia.
  - destruct (Hsame s) as (_ & _ & ->); [|done].
    intros (_ & _ & _ & Hx). rewrite Htg, Hg1, Hgs in Hx. simpl in Hx.
    apply bool_decide_eq_true in Hx. lia.
  - intros x z Hz. destruct (Himp_dec x) as [Hi|Hi].
    + destruct (Hupd x Hi) as (Hgx & Hfx & Hpx & HxO).
      rewrite Hgx in Hz. inversion Hz; subst z.
      exists (S k). split_and!.
      * lia.
      * eapply walk_step; [exact Hwalkcur|by apply Himp_edge].
      * rewrite Hfx. done.
      * by right.
      * intros _. exists cur, k. split_and!; try done.
        apply elem_of_app. right. by left.
    + destruct (Hsame x Hi) as (Hgx & Hfx & Hpx).
      rewrite Hgx in Hz. destruct (Hfin x z Hz) as (kx & H1 & H2 & H3 & H4 & H5).
      exists kx. split_and!; try done.
      * by rewrite Hfx.
      * destruct H4 as [H4|H4]; [left; apply elem_of_app; by left|].
        rewrite <- Hperm in H4. apply elem_of_cons in H4 as [->|H4].
        -- left. apply elem_of_app. right. by left.
        -- right. by apply Hsub.
      * intros Hxs. destruct (H5 Hxs) as (p & k' & Hp & HpT & Hgp & Hk').
        exists p, k'. rewrite Hpx. split_and!; try done.
        -- apply elem_of_app. by left.
        -- destruct (Hsame p) as [-> _]; [|done].
           apply Hvisited_same, elem_of_app. by left.
  - intros x Hx.
    destruct (Hsame x (Hvisited_same x Hx)) as (Hgx & _).
    rewrite Hgx. apply elem_of_app in Hx as [Hx|Hx]; [by apply Hclosed|].
    apply list_elem_of_singleton in Hx. subst x.
    exists k. split_and!; [done|done|].
    intros d Hd. specialize (Hleast e d (proj1 Hd) HeT).
    rewrite manhattan_self in Hleast. lia.
  - intros x y Hx Hxy.
    destruct (Hsame x (Hvisited_same x Hx)) as (Hgx & _). rewrite Hgx.
    apply elem_of_app in Hx as [Hx|Hx].
    + destruct (Hrelax x y Hx Hxy) as (kx & ky & Hkx & Hky & Hle).
      destruct (Himp_dec y) as [Hi|Hi].
      * destruct (Hupd y Hi) as (Hgy & _). exists kx, (Z.of_nat k + 1).
        split_and!; [done|done|].
        destruct Hi as (_ & _ & _ & Hlt). rewrite Htg, Hg1, Hky in Hlt.
        simpl in Hlt. apply bool_decide_eq_true in Hlt. lia.
      * destruct (Hsame y Hi) as (Hgy & _). exists kx, ky. by rewrite Hgy.
    + apply list_elem_of_singleton in Hx. subst x.
      apply (edge_node rows cols walls g cur y nd Hwf Hcur) in Hxy as [Hy Hwy].
      destruct (Himp_dec y) as [Hi|Hi].
      * destruct (Hupd y Hi) as (Hgy & _). exists (Z.of_nat k), (Z.of_nat k + 1).
        split_and!; [done|done|lia].
      * destruct (Hsame y Hi) as (Hgy & _). rewrite Hgy.
        destruct (visitedAt g1 y) eqn:Hvy.
        -- apply Hvis1 in Hvy. apply elem_of_app in Hvy as [Hvy|Hvy].
           ++ destruct (Hclosed y Hvy) as (ky & Hky & Hdy & _).
              exists (Z.of_nat k), (Z.of_nat ky). split_and!; [done|done|].
              assert (ky ≤ S k)%nat; [|lia].
              apply Hdy. eapply walk_step; [exact Hwalkcur|].
              apply (edge_node rows cols walls g cur y nd Hwf Hcur). done.
           ++ apply list_elem_of_singleton in Hvy. subst y.
              exists (Z.of_nat k), (Z.of_nat k). split_and!; [done|done|lia].
        -- destruct (gAt g y) as [ky|] eqn:Hky.
           ++ exists (Z.of_nat k), ky. split_and!; [done|done|].
              destruct (decide (ky ≤ Z.of_nat k + 1)); [done|]. exfalso.
              apply Hi. unfold imp, improves. split_and!; [done| |done|].
              ** by rewrite Hwall1, Hwalls.
              ** rewrite Htg, Hg1, Hky. simpl. apply bool_decide_eq_true. lia.
           ++ exfalso. apply Hi. unfold imp, improves. split_and!; [done| |done|].
              ** by rewrite Hwall1, Hwalls.
              ** by rewrite Htg, Hg1, Hky.
  - intros x Hx. destruct (Himp_dec x) as [Hi|Hi].
    + destruct (Hupd x Hi) as (Hgx & _). eauto.
    + destruct (Hsame x Hi) as (Hgx & _). rewrite Hgx.
      destruct (Hsup x Hx) as [Hx'|Hx']; [|done].
      apply HO. rewrite <- Hperm. by right.
Qed.

(** With an empty open set the trace holds exactly the reachable
    cells. *)
Lemma astarInv_exhausted g T :
  Inv g [] T →
  (∀ x n, walk E s x n → x ∈ T) ∧ visitedAt g e = false.
Proof.
  intros (Hwf & Hs & He & Hwalls & Hvis & Hnd & HeT & Hback & Hgs & Hps
          & Hfin & Hclosed & Hrelax & HO).
  assert (Hin : ∀ x z, gAt g x = Fin z → x ∈ T).
  { intros x z Hz. destruct (Hfin x z Hz) as (_ & _ & _ & _ & [?|Hx] & _); [done|].
    by apply elem_of_nil in Hx. }
  split.
  - intros x n Hw. eapply (walk_closed E (λ x, x ∈ T)); [| |exact Hw].
    + by eapply Hin.
    + intros a b Ha Hab. destruct (Hrelax a b Ha Hab) as (_ & kb & _ & Hkb & _).
      by eapply Hin.
  - destruct (visitedAt g e) eqn:Hv; [|done]. by apply Hvis in Hv.
Qed.

Lemma astarInv_reach g O T x :
  Inv g O T → x ∈ T → ∃ n, walk E s x n.
Proof.
  intros (Hwf & Hs & He & Hwalls & Hvis & Hnd & HeT & Hback & Hgs & Hps
          & Hfin & Hclosed & Hrelax & HO) Hx.
  destruct (Hclosed x Hx) as (k & _ & [Hw _] & _). eauto.
Qed.

(** When the end is the entry of least [fCost], its [gCost] is its
    distance and every cell of the trace is strictly nearer. *)
Lemma astarInv_found g O T O' nd :
  Inv g O T → sortOpenSet g O = Ok (e :: O') →
  g !! e = Some nd → nd.(isVisited) = false →
  ∃ k : nat, gAt g e = Fin (Z.of_nat k) ∧ dist E s e k
    ∧ ∀ x, x ∈ T → ∃ kx : nat, dist E s x kx ∧ (kx < k)%nat.
Proof.
  intros HI Hsort Hend Hunv.
  destruct (astarInv_wf g O T HI) as (Hwf' & _ & HOb).
  destruct (sortOpenSet_spec rows cols g O Hwf' HOb) as (S & Hsort' & Hperm & Hmin).
  rewrite Hsort in Hsort'. inversion Hsort'; subst S. clear Hsort'.
  pose proof HI as (Hwf & Hs & He & Hwalls & Hvis & Hnd & HeT & Hback & Hgs & Hps
                    & Hfin & Hclosed & Hrelax & HO).
  assert (HeO : e ∈ O) by (rewrite <- Hperm; by left).
  destruct (HO e HeO) as (z & Hz).
  destruct (Hfin e z Hz) as (k & -> & Hwalk & _).
  assert (Hleast := astar_least g O T e k HI Hmin Hz).
  assert (Hd : dist E s e k).
  { split; [done|]. intros m Hm. specialize (Hleast e m Hm HeT). lia. }
  exists k. split_and!; [done|done|].
  intros x Hx. destruct (Hclosed x Hx) as (kx & _ & Hdx & Hbound).
  exists kx. split; [done|]. specialize (Hbound k Hd).
  assert (x ≠ e) by (intros ->; done).
  pose proof (manhattan_pos x e ltac:(done)). lia.
Qed.

(** Following the backpointers from a cell of finite [gCost] [k]
    collects [k + 1] cells, the first of which is the start. *)
Lemma astar_chain g O T h :
  Inv g O T → wfGrid rows cols h → (∀ x, prevAt h x = prevAt g x) →
  ∀ (k : nat) x acc fuel,
    gAt g x = Fin (Z.of_nat k) → (k < fuel)%nat →
    ∃ l, reconstruct fuel h (Some x) acc = Ok (l ++ acc)
         ∧ length l = S k ∧ head l = Some s.
Proof.
  intros (Hwf & Hs & He & Hwalls & Hvis & Hnd & HeT & Hback & Hgs & Hps
          & Hfin & Hclosed & Hrelax & HO) Hwfh Hprev.
  assert (Hderef : ∀ x z, gAt g x = Fin z →
            ∃ n, h !! x = Some n ∧ n.(previousNode) = prevAt g x).
  { intros x z Hz. unfold gAt in Hz. destruct (g !! x) as [n|] eqn:Hn; [|done].
    destruct (wfGrid_inBounds _ _ _ _ _ Hwf Hn) as [Hb _].
    destruct (wfGrid_lookup _ _ _ _ Hwfh Hb) as (n' & Hn' & _).
    exists n'. split; [done|]. rewrite <- Hprev. unfold prevAt. by rewrite Hn'. }
  induction k as [|k IH]; intros x acc fuel Hx Hfuel;
    (destruct fuel as [|fuel]; [lia|]);
    cbn [reconstruct];
    destruct (Hderef x _ Hx) as (n & Hn & Hpn);
    rewrite Hn; cbn [deref mbind outcome_bind]; rewrite Hpn;
    destruct (Hfin x _ Hx) as (k0 & Hk0 & _ & _ & _ & Hpx).
  - destruct (decide (x = s)) as [->|Hxs].
    + rewrite Hps. exists [s]. by rewrite reconstruct_None.
    + destruct (Hpx Hxs) as (p & k' & _ & _ & _ & Hk'). lia.
  - destruct (decide (x = s)) as [->|Hxs].
    + rewrite Hgs in Hx. exfalso. inversion Hx; lia.
    + destruct (Hpx Hxs) as (p & k' & Hp & _ & Hgp & Hk').
      assert (k' = k) by lia. subst k'. rewrite Hp.
      destruct (IH p (x :: acc) fuel Hgp ltac:(lia)) as (l & Hl & Hlen & Hhead).
      exists (l ++ [x]). split_and!.
      * by rewrite <- app_assoc.
      * rewrite length_app. simpl. lia.
      * by destruct l.
Qed.
End Astar.

(** ** Complete runs of A-star *)

Section AstarRun.
Variables (rows cols : Z) (g0 : gmap Pos Node) (s e : Pos) (fuel : nat).
Hypothesis Hwf : wfGrid rows cols g0.
Hypothesis Hs : inBounds rows cols s.
Hypothesis He : inBounds rows cols e.
Hypothesis Hfuel : (enoughFuel rows cols ≤ fuel)%nat.

Lemma astar_total :
  ∃ res, astar fuel rows cols (resetVisuals g0) s e = Ok res
    ∧ match res.(exit) with
      | FrontierEmpty =>
          astarInv rows cols (wallAt g0) s e res.(heap) [] res.(visitedNodes)
      | FoundEnd =>
          ∃ g' O' O'' T' nd,
            astarInv rows cols (wallAt g0) s e g' O' T'
            ∧ sortOpenSet g' O' = Ok (e :: O'')
            ∧ g' !! e = Some nd ∧ nd.(isVisited) = false
            ∧ res.(heap) = <[e := set_isVisited true nd]> g'
            ∧ res.(visitedNodes) = T' ++ [e]
      end.
Proof.
  pose proof (wfGrid_resetVisuals _ _ _ Hwf) as Hwfr.
  destruct (wfGrid_lookup _ _ _ _ Hwfr Hs) as (sn & Hsn & Hsrc).
  set (ga := <[s := set_gCost (Fin 0) sn]> (resetVisuals g0)).
  assert (Hwfa : wfGrid rows cols ga) by (by eapply wfGrid_insert).
  destruct (wfGrid_lookup _ _ _ _ Hwfa He) as (en & Hen & Herc).
  assert (Hsa : ga !! s = Some (set_gCost (Fin 0) sn)) by apply lookup_insert_eq.
  unfold astar. rewrite Hsn. cbn [deref mbind outcome_bind].
  fold ga. rewrite Hsa. cbn [deref mbind outcome_bind].
  rewrite Hen. cbn [deref mbind outcome_bind].
  rewrite (heuristic_manhattan rows cols ga s e _ _ Hwfa Hsa Hen).
  set (gb := <[s := set_fCost (Fin (manhattan s e)) (set_gCost (Fin 0) sn)]> ga).
  assert (Hsn_reset : sn.(isVisited) = false ∧ sn.(previousNode) = None
                      ∧ sn.(isWall) = wallAt g0 s).
  { pose proof (visitedAt_resetVisuals g0 s) as H1.
    pose proof (prevAt_resetVisuals g0 s) as H2.
    pose proof (wallAt_resetVisuals g0 s) as H3.
    unfold visitedAt, prevAt, wallAt in H1, H2, H3. rewrite Hsn in H1, H2, H3.
    done. }
  destruct Hsn_reset as (Hsv & Hsp & Hsw).
  assert (Hvb : ∀ p, visitedAt gb p = false).
  { intros p. unfold gb, ga. rewrite !visitedAt_insert.
    case_decide; [done|]. apply visitedAt_resetVisuals. }
  assert (Hpb : ∀ p, prevAt gb p = None).
  { intros p. unfold gb, ga. rewrite !prevAt_insert.
    case_decide; [done|]. apply prevAt_resetVisuals. }
  assert (Hgb : ∀ p, gAt gb p = if decide (s = p) then Fin 0 else Infinity).
  { intros p. unfold gb, ga. rewrite !gAt_insert.
    case_decide; [done|]. apply gAt_resetVisuals. }
  apply (astar_loop_rule rows cols e (astarInv rows cols (wallAt g0) s e)).
  - intros g O T HI. by eapply astarInv_wf.
  - intros g O T cur O' HI Hsort Hv. by eapply astarInv_stale.
  - intros g O T cur O' nd g' O'' HI Hsort Hcur Hv Hne Hrun.
    by eapply astarInv_expand.
  - unfold astarInv. split_and!; try done.
    + by eapply wfGrid_insert.
    + intros p. unfold gb, ga. rewrite !wallAt_insert.
      case_decide as Hp; [by subst|]. apply wallAt_resetVisuals.
    + intros p. rewrite Hvb. split; [done|]. intros Hp. by apply elem_of_nil in Hp.
    + apply NoDup_nil_2.
    + apply not_elem_of_nil.
    + intros x p Hx. by rewrite Hpb in Hx.
    + by rewrite Hgb, decide_True.
    + intros x z Hz. rewrite Hgb in Hz. case_decide as Hx; [|done].
      subst x. inversion Hz; subst z. exists 0%nat. split_and!; try done.
      * constructor.
      * unfold gb. by rewrite fAt_insert, decide_True.
      * right. by left.
    + intros x Hx. by apply elem_of_nil in Hx.
    + intros x y Hx. by apply elem_of_nil in Hx.
    + intros x Hx. apply list_elem_of_singleton in Hx. subst.
      exists 0. by rewrite Hgb, decide_True.
  - pose proof (unvisited_le_length gb (cellsOf rows cols)) as H.
    rewrite length_cellsOf in H. rewrite (enoughFuel_cells rows cols s Hs) in Hfuel.
    simpl. lia.
Qed.
End AstarRun.

(** * Summaries of the three searches and of a whole visualisation *)

Lemma reconstruct_mono g (n m : nat) x acc l :
  reconstruct n g x acc = Ok l → (n ≤ m)%nat → reconstruct m g x acc = Ok l.
Proof.
  revert m x acc. induction n as [|n IH]; intros m x acc Hrun Hle.
  - destruct x; [done|]. simpl in Hrun. by rewrite reconstruct_None.
  - destruct x as [p|]; [|simpl in Hrun; by rewrite reconstruct_None].
    destruct m as [|m]; [lia|]. cbn [reconstruct] in *.
    destruct (g !! p) as [nd|]; [|done]. cbn [deref mbind outcome_bind] in *.
    apply IH; [done|lia].
Qed.

Lemma visited_inBounds rows cols g p :
  wfGrid rows cols g → visitedAt g p = true → inBounds rows cols p.
Proof.
  intros Hwf Hv. unfold visitedAt in Hv. destruct (g !! p) as [n|] eqn:Hn; [|done].
  by destruct (wfGrid_inBounds _ _ _ _ _ Hwf Hn).
Qed.

Section Summaries.
Variables (rows cols : Z) (g0 : gmap Pos Node) (s e : Pos) (fuel : nat).
Hypothesis Hwf : wfGrid rows cols g0.
Hypothesis Hs : inBounds rows cols s.
Hypothesis He : inBounds rows cols e.
Hypothesis Hfuel : (enoughFuel rows cols ≤ fuel)%nat.

Local Abbreviation E := (edge rows cols (wallAt g0)).

Lemma frontierInv_post res :
  match res.(exit) with
  | FrontierEmpty =>
      frontierInv rows cols (wallAt g0) s e res.(heap) [] res.(visitedNodes)
  | FoundEnd =>
      ∃ F T, frontierInv rows cols (wallAt g0) s e res.(heap) F T
             ∧ e ∈ F ∧ res.(visitedNodes) = T ++ [e]
  end →
  searchPost rows cols g0 e res.
Proof.
  destruct (exit res) eqn:Hexit.
  - intros (F & T & HI & HeF & Htrace).
    pose proof HI as
      (Hwf' & Hwalls & Hvis & Hnd & HeT & Hback & Hps & Hvs & Hprev & Hnone & Hclosed).
    unfold searchPost. rewrite Hexit. split_and!; try done.
    + exists T. split_and!; [done| |].
      * by apply NoDup_app in Hnd as (? & _).
      * intros p Hp. apply (visited_inBounds rows cols (heap res)); [done|].
        apply Hvis. by left.
    + intros _. split.
      * rewrite Htrace. apply elem_of_app. right. by left.
      * apply Hvis. by right.
  - intros HI.
    pose proof HI as
      (Hwf' & Hwalls & Hvis & Hnd & HeT & Hback & Hps & Hvs & Hprev & Hnone & Hclosed).
    unfold searchPost. rewrite Hexit. split_and!; try done.
    + exists (visitedNodes res). split_and!; [done| |].
      * by rewrite app_nil_r in Hnd.
      * intros p Hp. apply (visited_inBounds rows cols (heap res)); [done|].
        apply Hvis. by left.
    + intros _. split; [done|].
      by destruct (frontierInv_exhausted rows cols (wallAt g0) s e _ _ HI).
Qed.

Lemma dfs_summary :
  ∃ res, dfs fuel rows cols (resetVisuals g0) s e = Ok res
         ∧ searchPost rows cols g0 e res.
Proof.
  destruct (dfs_total rows cols g0 s e fuel Hwf Hs Hfuel) as (res & Hrun & Hpost).
  exists res. split; [done|]. apply frontierInv_post.
  destruct (exit res); [|done].
  destruct Hpost as (S & T & HI & Htrace). exists (S ++ [e]), T.
  split_and!; [done| |done]. apply elem_of_app. right. by left.
Qed.

Lemma bfs_summary :
  ∃ res, bfs fuel rows cols (resetVisuals g0) s e = Ok res
    ∧ searchPost rows cols g0 e res
    ∧ NoDup res.(visitedNodes)
    ∧ match res.(exit) with
      | FoundEnd =>
          ∃ d, dist E s e d
            ∧ (∀ x dx, dist E s x dx → (dx < d)%nat → x ∈ res.(visitedNodes))
            ∧ (∀ fuel' acc, (d < fuel')%nat →
                 ∃ l, reconstruct fuel' res.(heap) (Some e) acc = Ok (l ++ acc)
                      ∧ length l = S d ∧ head l = Some s)
      | FrontierEmpty => ∀ x n, walk E s x n → x ∈ res.(visitedNodes)
      end.
Proof.
  destruct (bfs_total rows cols g0 s e fuel Hwf Hs Hfuel) as (res & Hrun & Hpost).
  exists res. split; [done|]. destruct (exit res) eqn:Hexit.
  - destruct Hpost as (Q & T & HI & Htrace). split_and!.
    + apply frontierInv_post. rewrite Hexit. exists (e :: Q), T.
      split_and!; [apply HI|by left|done].
    + rewrite Htrace. destruct HI as [(_ & _ & _ & Hnd & _) _].
      rewrite <- (Permutation_middle T Q e) in Hnd.
      apply NoDup_cons in Hnd as [Hne Hnd].
      apply NoDup_app in Hnd as (Hnd & _).
      apply NoDup_app. split_and!; [done| |apply NoDup_singleton].
      intros x Hx Hx'. apply list_elem_of_singleton in Hx'. subst.
      apply Hne. apply elem_of_app. by left.
    + destruct (bfsInv_found rows cols (wallAt g0) s e _ _ _ HI) as (d & Hd & Hv & Hlow).
      exists d. split_and!; [done| |].
      * intros x dx Hdx Hlt. rewrite Htrace. apply elem_of_app. left. by eapply Hlow.
      * intros fuel' acc Hfuel'.
        by eapply (bfs_chain rows cols (wallAt g0) s e (heap res) (e :: Q) T HI).
  - split_and!.
    + apply frontierInv_post. rewrite Hexit. apply Hpost.
    + destruct Hpost as [(_ & _ & _ & Hnd & _) _]. by rewrite app_nil_r in Hnd.
    + destruct Hpost as [HI _].
      by destruct (frontierInv_exhausted rows cols (wallAt g0) s e _ _ HI).
Qed.

Lemma astar_summary :
  ∃ res, astar fuel rows cols (resetVisuals g0) s e = Ok res
    ∧ searchPost rows cols g0 e res
    ∧ NoDup res.(visitedNodes)
    ∧ match res.(exit) with
      | FoundEnd =>
          ∃ d, dist E s e d
            ∧ (∀ x, x ∈ res.(visitedNodes) →
                 x = e ∨ ∃ dx, dist E s x dx ∧ (dx < d)%nat)
            ∧ (∀ fuel' acc, (d < fuel')%nat →
                 ∃ l, reconstruct fuel' res.(heap) (Some e) acc = Ok (l ++ acc)
                      ∧ length l = S d ∧ head l = Some s)
      | FrontierEmpty =>
          (∀ x n, walk E s x n → x ∈ res.(visitedNodes))
          ∧ (∀ x, x ∈ res.(visitedNodes) → ∃ n, walk E s x n)
      end.
Proof.
  destruct (astar_total rows cols g0 s e fuel Hwf Hs He Hfuel) as (res & Hrun & Hpost).
  exists res. split; [done|]. destruct (exit res) eqn:Hexit.
  - destruct Hpost as (g' & O' & O'' & T' & nd & HI & Hsort & Hnd & Hunv & Hheap & Htrace).
    pose proof HI as (Hwf' & _ & _ & Hwalls & Hvis & HndT & HeT & Hback & Hgs & Hps
                      & Hfin & Hclosed & Hrelax & HO).
    assert (Hwfh : wfGrid rows cols (heap res)).
    { rewrite Hheap. by eapply wfGrid_insert. }
    assert (Hprevh : ∀ x, prevAt (heap res) x = prevAt g' x).
    { intros x. rewrite Hheap, prevAt_insert. case_decide; [|done].
      subst. unfold prevAt. by rewrite Hnd. }
    split_and!.
    + unfold searchPost. rewrite Hexit. split_and!; try done.
      * intros p. rewrite Hheap, wallAt_insert. case_decide as Hp; [|apply Hwalls].
        subst. simpl. rewrite <- Hwalls. unfold wallAt. by rewrite Hnd.
      * exists T'. split_and!; [|done|].
        -- intros x p Hx. rewrite Hprevh in Hx. by apply Hback.
        -- intros p Hp. apply (visited_inBounds rows cols g'); [done|]. by apply Hvis.
      * intros _. split.
        -- rewrite Htrace. apply elem_of_app. right. by left.
        -- by rewrite Hheap, visitedAt_insert, decide_True.
    + rewrite Htrace. apply NoDup_app. split_and!; [done| |apply NoDup_singleton].
      intros x Hx Hx'. apply list_elem_of_singleton in Hx'. by subst.
    + destruct (astarInv_found rows cols (wallAt g0) s e g' O' T' O'' nd HI Hsort Hnd Hunv)
        as (k & Hk & Hd & Hlow).
      exists k. split_and!; [done| |].
      * intros x Hx. rewrite Htrace in Hx. apply elem_of_app in Hx as [Hx|Hx].
        -- right. by apply Hlow.
        -- left. by apply list_elem_of_singleton in Hx.
      * intros fuel' acc Hfuel'.
        by eapply (astar_chain rows cols (wallAt g0) s e g' O' T' (heap res) HI Hwfh Hprevh).
  - pose proof Hpost as (Hwf' & _ & _ & Hwalls & Hvis & HndT & HeT & Hback & Hgs & Hps
                         & Hfin & Hclosed & Hrelax & HO).
    destruct (astarInv_exhausted rows cols (wallAt g0) s e _ _ Hpost) as [Hall Hev].
    split_and!.
    + unfold searchPost. rewrite Hexit. split_and!; try done.
      exists (visitedNodes res). split_and!; [done|done|].
      intros p Hp. apply (visited_inBounds rows cols (heap res)); [done|]. by apply Hvis.
    + done.
    + done.
    + intros x Hx. by eapply astarInv_reach.
Qed.

(** All three searches end, with the common postcondition. *)
Lemma search_summary algo :
  ∃ res, search algo fuel rows cols (resetVisuals g0) s e = Ok res
         ∧ searchPost rows cols g0 e res.
Proof.
  destruct algo; simpl.
  - destruct bfs_summary as (res & ? & ? & _). eauto.
  - apply dfs_summary.
  - destruct astar_summary as (res & ? & ? & _). eauto.
Qed.

(** The reconstruction that follows a search ends too. *)
Lemma animate_after_search res :
  searchPost rows cols g0 e res →
  ∃ run, animate fuel res s e = Ok run
    ∧ run.(trace) = res.(visitedNodes)
    ∧ run.(exitKind) = res.(exit)
    ∧ run.(finalHeap) = res.(heap)
    ∧ reconstruct fuel res.(heap) (Some e) [] = Ok run.(path)
    ∧ last run.(path) = Some e
    ∧ run.(success) =
        bool_decide (head run.(path) = Some s)
        && negb (wallAt g0 e) && visitedAt res.(heap) e
    ∧ run.(pathLen) = (if run.(success) then length run.(path) else 0%nat)
    ∧ run.(panel) = showResults (length res.(visitedNodes)) run.(pathLen) run.(success).
Proof.
  intros (Hwfh & Hwalls & (T & Hback & Hnd & HT) & _ & _).
  destruct (animate_total rows cols res s e fuel T Hwfh Hback HT He) as (run & H).
  { pose proof (trace_bound rows cols T Hnd HT).
    rewrite (enoughFuel_cells rows cols s Hs) in Hfuel. lia. }
  exists run. rewrite <- Hwalls. exact H.
Qed.
End Summaries.

(** ** The whole visualisation *)

Lemma startVisualization_spec fuel algo st res :
  wellFormed st →
  (enoughFuel st.(ROWS) st.(COLS) ≤ fuel)%nat →
  search algo fuel st.(ROWS) st.(COLS) (resetVisuals st.(gridArray))
    st.(startPos) st.(endPos) = Ok res →
  searchPost st.(ROWS) st.(COLS) st.(gridArray) st.(endPos) res →
  ∃ run,
    startVisualization fuel algo st
      = Ok (set_isRunning false (set_gridArray res.(heap) st), Some run)
    ∧ run.(trace) = res.(visitedNodes)
    ∧ run.(exitKind) = res.(exit)
    ∧ reconstruct fuel res.(heap) (Some st.(endPos)) [] = Ok run.(path)
    ∧ last run.(path) = Some st.(endPos)
    ∧ run.(success) =
        bool_decide (head run.(path) = Some st.(startPos))
        && negb (wallAt st.(gridArray) st.(endPos)) && visitedAt res.(heap) st.(endPos)
    ∧ run.(pathLen) = (if run.(success) then length run.(path) else 0%nat)
    ∧ run.(panel) = showResults (length res.(visitedNodes)) run.(pathLen) run.(success).
Proof.
  intros (Hwf & Hs & He & Hidle) Hfuel Hsearch Hpost.
  destruct (animate_after_search _ _ _ _ _ fuel Hs He Hfuel res Hpost)
    as (run & Hrun & H1 & H2 & H3 & H4 & H5 & H6 & H7 & H8).
  exists run. unfold startVisualization. rewrite Hidle, Hsearch.
  cbn [mbind outcome_bind]. rewrite Hrun. cbn [mbind outcome_bind].
  rewrite H3. split_and!; done.
Qed.

(** * Properties of the search engine *)

(** C4: for a cell (i,j) of a grid of the given dimensions, getNeighbors
    returns exactly the candidates up, right, down, left that lie within
    bounds, in that order; in particular no returned position lies outside
    the grid. *)
Theorem getNeighbors_exact (rows cols : Z) (node : Node) :
  inBounds rows cols (node.(r), node.(c)) →
  getNeighbors rows cols node =
    filter (inBounds rows cols)
      [(node.(r) - 1, node.(c)); (node.(r), node.(c) + 1);
       (node.(r) + 1, node.(c)); (node.(r), node.(c) - 1)]
  ∧ Forall (inBounds rows cols) (getNeighbors rows cols node).
Proof.
  intros Hn. split; [by apply getNeighbors_filter|].
  apply Forall_forall. intros x Hx. by eapply getNeighbors_inBounds.
Qed.

Lemma getNeighbors_exact_witness :
  getNeighbors 5 5 (newNode 0 4) = [(1, 4); (0, 3)]
  ∧ Forall (inBounds 5 5) (getNeighbors 5 5 (newNode 0 4)).
Proof.
  destruct (getNeighbors_exact 5 5 (newNode 0 4)) as [H1 H2].
  - unfold inBounds; simpl; lia.
  - split; [reflexivity | exact H2].
Defined.

(** ** Termination on an arbitrary heap *)

Section Termination.
Variables (rows cols : Z) (g : gmap Pos Node) (s e : Pos) (fuel : nat).
Hypothesis Hwf : wfGrid rows cols g.
Hypothesis Hs : inBounds rows cols s.
Hypothesis He : inBounds rows cols e.
Hypothesis Hfuel : (enoughFuel rows cols ≤ fuel)%nat.

Local Abbreviation I := (frontierInGrid rows cols).

Lemma frontier_step h cur F T nd h' F' :
  I h F T → h !! cur = Some nd →
  visitNeighbors cur (getNeighbors rows cols nd) h F = Ok (h', F') →
  I h' F' (T ++ [cur]).
Proof.
  intros [Hwfh HF] Hcur Hrun.
  destruct (visitNeighbors_spec rows cols (cellsOf rows cols) cur
              (getNeighbors rows cols nd) h F Hwfh
              (neighbours_of_cell rows cols h cur nd Hwfh Hcur))
    as (h1 & new & Hrun' & Hwf' & _ & Hin & _).
  rewrite Hrun in Hrun'. inversion Hrun'; subst h1 F'. split; [done|].
  intros p [Hp|Hp]%elem_of_app; [by apply HF|].
  apply Hin in Hp as (Hp & _).
  by apply (neighbours_of_cell rows cols h cur nd Hwfh Hcur).
Qed.

Lemma fuel_at_start h :
  (length [s] + unvisited h (cellsOf rows cols) < fuel)%nat
  ∧ (5 * unvisited h (cellsOf rows cols) + length [s] < fuel)%nat.
Proof.
  pose proof (unvisited_le_length h (cellsOf rows cols)) as H.
  rewrite length_cellsOf in H. rewrite (enoughFuel_cells rows cols s Hs) in Hfuel.
  simpl. lia.
Qed.

Lemma bfs_terminates : ∃ res, bfs fuel rows cols g s e = Ok res.
Proof.
  destruct (wfGrid_lookup _ _ _ _ Hwf Hs) as (sn & Hsn & _).
  unfold bfs. rewrite Hsn. cbn [deref mbind outcome_bind].
  destruct (bfs_loop_rule rows cols e I (λ _ _ _ H, H)) with
    (fuel := fuel) (g := <[s := set_isVisited true sn]> g) (Q := [s]) (T := @nil Pos)
    as (res & Hres & _).
  - intros h cur Q T nd h' Q' [Hwfh HQ] _ Hcur Hrun.
    eapply frontier_step; [|done|done].
    split; [done|]. intros p Hp. apply HQ. by right.
  - split; [by eapply wfGrid_insert|].
    intros p Hp. apply list_elem_of_singleton in Hp. by subst.
  - apply fuel_at_start.
  - eauto.
Qed.

Lemma dfs_terminates : ∃ res, dfs fuel rows cols g s e = Ok res.
Proof.
  destruct (wfGrid_lookup _ _ _ _ Hwf Hs) as (sn & Hsn & _).
  unfold dfs. rewrite Hsn. cbn [deref mbind outcome_bind].
  destruct (dfs_loop_rule rows cols e I (λ _ _ _ H, H)) with
    (fuel := fuel) (g := <[s := set_isVisited true sn]> g) (S := [s]) (T := @nil Pos)
    as (res & Hres & _).
  - intros h cur S T nd h' S' [Hwfh HS] _ Hcur Hrun.
    eapply frontier_step; [|done|done].
    split; [done|]. intros p Hp. apply HS. apply elem_of_app. by left.
  - split; [by eapply wfGrid_insert|].
    intros p Hp. apply list_elem_of_singleton in Hp. by subst.
  - apply fuel_at_start.
  - eauto.
Qed.

Lemma astar_terminates : ∃ res, astar fuel rows cols g s e = Ok res.
Proof.
  destruct (wfGrid_lookup _ _ _ _ Hwf Hs) as (sn & Hsn & _).
  set (ga := <[s := set_gCost (Fin 0) sn]> g).
  assert (Hwfa : wfGrid rows cols ga) by (by eapply wfGrid_insert).
  destruct (wfGrid_lookup _ _ _ _ Hwfa He) as (en & Hen & _).
  assert (Hsa : ga !! s = Some (set_gCost (Fin 0) sn)) by apply lookup_insert_eq.
  unfold astar. rewrite Hsn. cbn [deref mbind outcome_bind]. fold ga.
  rewrite Hsa. cbn [deref mbind outcome_bind].
  rewrite Hen. cbn [deref mbind outcome_bind].
  set (gb := <[s := _]> ga).
  destruct (astar_loop_rule rows cols e
              (λ h O T, wfGrid rows cols h ∧ inBounds rows cols e
                        ∧ ∀ p, p ∈ O → inBounds rows cols p) (λ _ _ _ H, H)) with
    (fuel := fuel) (g := gb) (O := [s]) (T := @nil Pos)
    as (res & Hres & _).
  - intros h O T cur O' (Hwfh & _ & HO) Hsort _.
    destruct (sortOpenSet_spec rows cols h O Hwfh HO) as (S & Hsort' & Hperm & _).
    rewrite Hsort in Hsort'. inversion Hsort'; subst S.
    split_and!; [done|done|]. intros p Hp. apply HO. rewrite <- Hperm. by right.
  - intros h O T cur O' nd h' O'' (Hwfh & _ & HO) Hsort Hcur Hunv Hne Hrun.
    destruct (sortOpenSet_spec rows cols h O Hwfh HO) as (S & Hsort' & Hperm & _).
    rewrite Hsort in Hsort'. inversion Hsort'; subst S.
    destruct (wfGrid_inBounds _ _ _ _ _ Hwfh Hcur) as [Hcurb Hrc].
    assert (Hwf1 : wfGrid rows cols (<[cur := set_isVisited true nd]> h))
      by (by eapply wfGrid_insert).
    assert (Hns : ∀ n, n ∈ getNeighbors rows cols nd → inBounds rows cols n).
    { intros n Hn. eapply getNeighbors_inBounds; [|done]. by rewrite Hrc. }
    destruct (relaxNeighbors_spec rows cols cur e (getNeighbors rows cols nd)
                (<[cur := set_isVisited true nd]> h) O' Hwf1 Hcurb He Hns)
      as (h2 & O2 & Hrun' & Hwf2 & _ & _ & _ & _ & _ & Hsup & _).
    { by rewrite visitedAt_insert, decide_True. }
    rewrite Hrun in Hrun'. inversion Hrun'; subst h2 O2.
    split_and!; [done|done|]. intros p Hp.
    destruct (Hsup p Hp) as [Hp'|(Hp' & _)]; [|by apply Hns].
    apply HO. rewrite <- Hperm. by right.
  - split_and!; [by eapply wfGrid_insert|done|].
    intros p Hp. apply list_elem_of_singleton in Hp. by subst.
  - apply fuel_at_start.
  - eauto.
Qed.
End Termination.

Section NoRepeat.
Variables (rows cols : Z) (g0 : gmap Pos Node) (s e : Pos) (fuel : nat).
Hypothesis Hwf : wfGrid rows cols g0.
Hypothesis Hs : inBounds rows cols s.
Hypothesis He : inBounds rows cols e.
Hypothesis Hfuel : (enoughFuel rows cols ≤ fuel)%nat.

(** On a reset grid no cell enters the trace twice. *)
Lemma search_trace_NoDup algo :
  ∃ res, search algo fuel rows cols (resetVisuals g0) s e = Ok res
         ∧ NoDup res.(visitedNodes).
Proof.
  destruct algo; simpl.
  - destruct (bfs_summary rows cols g0 s e fuel Hwf Hs Hfuel) as (res & ? & _ & ? & _).
    eauto.
  - destruct (dfs_total rows cols g0 s e fuel Hwf Hs Hfuel) as (res & Hrun & Hpost).
    exists res. split; [done|]. destruct (exit res).
    + destruct Hpost as (S & T & (_ & _ & _ & Hnd & _) & ->).
      rewrite app_assoc in Hnd. apply NoDup_app in Hnd as (Hnd & Hdis & _).
      apply NoDup_app in Hnd as (Hnd & _ & _).
      apply NoDup_app. split_and!; [done| |apply NoDup_singleton].
      intros x Hx Hx'. apply (Hdis x); [|done]. apply elem_of_app. by left.
    + destruct Hpost as (_ & _ & _ & Hnd & _). by rewrite app_nil_r in Hnd.
  - destruct (astar_summary rows cols g0 s e fuel Hwf Hs He Hfuel) as (res & ? & _ & ? & _).
    eauto.
Qed.
End NoRepeat.

(** C9: on every well-formed grid, whatever the walls and the marks left
    on the cells, and for every start and end inside the grid, each of
    the three searches returns once it is given fuel for [enoughFuel]
    iterations: it neither runs out of fuel nor raises an exception.  On
    a reset grid, as every run starts, no cell enters the trace twice. *)
Theorem search_terminates (algo : Algo) (rows cols : Z) (g : gmap Pos Node)
    (s e : Pos) (fuel : nat) :
  wfGrid rows cols g → inBounds rows cols s → inBounds rows cols e →
  (enoughFuel rows cols ≤ fuel)%nat →
  (∃ res, search algo fuel rows cols g s e = Ok res)
  ∧ (∃ res, search algo fuel rows cols (resetVisuals g) s e = Ok res
            ∧ NoDup res.(visitedNodes)).
Proof.
  intros Hwf Hs He Hfuel. split.
  - destruct algo; simpl.
    + by apply bfs_terminates.
    + by apply dfs_terminates.
    + by apply astar_terminates.
  - by apply search_trace_NoDup.
Qed.

(** ** A run whose start is its end *)

Lemma sortOpenSet_singleton g p nd : g !! p = Some nd → sortOpenSet g [p] = Ok [p].
Proof. intros Hp. unfold sortOpenSet. cbn. rewrite Hp. done. Qed.

Lemma search_same_cell algo (fuel : nat) rows cols g0 s :
  wfGrid rows cols g0 → inBounds rows cols s → (2 ≤ fuel)%nat →
  ∃ res, search algo fuel rows cols (resetVisuals g0) s s = Ok res
    ∧ res.(visitedNodes) = [s]
    ∧ res.(exit) = FoundEnd
    ∧ wfGrid rows cols res.(heap)
    ∧ visitedAt res.(heap) s = true
    ∧ prevAt res.(heap) s = None
    ∧ wallAt res.(heap) s = wallAt g0 s.
Proof.
  intros Hwf Hs Hfuel. destruct fuel as [|fuel]; [lia|].
  pose proof (wfGrid_resetVisuals _ _ _ Hwf) as Hwfr.
  destruct (wfGrid_lookup _ _ _ _ Hwfr Hs) as (sn & Hsn & Hsrc).
  assert (Hsn_reset : sn.(isVisited) = false ∧ sn.(previousNode) = None
                      ∧ sn.(isWall) = wallAt g0 s).
  { pose proof (visitedAt_resetVisuals g0 s) as H1.
    pose proof (prevAt_resetVisuals g0 s) as H2.
    pose proof (wallAt_resetVisuals g0 s) as H3.
    unfold visitedAt, prevAt, wallAt in H1, H2, H3. rewrite Hsn in H1, H2, H3. done. }
  destruct Hsn_reset as (Hsv & Hsp & Hsw).
  destruct algo; simpl.
  - unfold bfs. rewrite Hsn. cbn [deref mbind outcome_bind bfs_loop].
    rewrite decide_True by done. eexists. split; [done|]. simpl.
    split_and!; try done.
    + by eapply wfGrid_insert.
    + by rewrite visitedAt_insert, decide_True.
    + by rewrite prevAt_insert, decide_True.
    + by rewrite wallAt_insert, decide_True.
  - unfold dfs. rewrite Hsn. cbn [deref mbind outcome_bind dfs_loop].
    replace (pop [s]) with (Some (s, @nil Pos)) by done. cbn iota beta.
    rewrite decide_True by done. eexists. split; [done|]. simpl.
    split_and!; try done.
    + by eapply wfGrid_insert.
    + by rewrite visitedAt_insert, decide_True.
    + by rewrite prevAt_insert, decide_True.
    + by rewrite wallAt_insert, decide_True.
  - set (ga := <[s := set_gCost (Fin 0) sn]> (resetVisuals g0)).
    assert (Hwfa : wfGrid rows cols ga) by (by eapply wfGrid_insert).
    assert (Hsa : ga !! s = Some (set_gCost (Fin 0) sn)) by apply lookup_insert_eq.
    unfold astar. rewrite Hsn. cbn [deref mbind outcome_bind]. fold ga.
    rewrite Hsa. cbn [deref mbind outcome_bind].
    set (gb := <[s := _]> ga).
    assert (Hsb : gb !! s = Some (set_fCost
              (Fin (heuristic (set_gCost (Fin 0) sn) (set_gCost (Fin 0) sn)))
              (set_gCost (Fin 0) sn))) by apply lookup_insert_eq.
    cbn [astar_loop]. rewrite (sortOpenSet_singleton gb s _ Hsb).
    cbn [mbind outcome_bind]. rewrite Hsb. cbn [deref mbind outcome_bind].
    simpl isVisited. rewrite Hsv. rewrite decide_True by done.
    eexists. split; [done|]. simpl. split_and!; try done.
    + eapply wfGrid_insert; [|exact Hsb|done|done]. by eapply wfGrid_insert.
    + by rewrite visitedAt_insert, decide_True.
    + by rewrite prevAt_insert, decide_True.
    + by rewrite wallAt_insert, decide_True.
Qed.

(** C10: clamping on resize can put the start and the end on one cell
    (it does so when the page opens in a five by five viewport); and in
    every state of the page in which they coincide, each of the three
    algorithms returns the one-element trace holding that cell, and the run
    is reported successful with path length 1. *)
Theorem same_cell_run :
  (calculateGridSize 5 5 initialState).(startPos)
    = (calculateGridSize 5 5 initialState).(endPos)
  ∧ ∀ (st : State) (algo : Algo) (fuel : nat),
      invariant st → st.(startPos) = st.(endPos) →
      (enoughFuel st.(ROWS) st.(COLS) ≤ fuel)%nat →
      ∃ st' run,
        startVisualization fuel algo st = Ok (st', Some run)
        ∧ run.(trace) = [st.(startPos)]
        ∧ run.(success) = true
        ∧ run.(pathLen) = 1%nat
        ∧ run.(panel) = mkPanel 1 (Fin 1) true.
Proof.
  split; [reflexivity|].
  intros st algo fuel ((Hwf & Hs & He & Hidle) & _ & _ & Hws & _) Heq Hfuel.
  assert (Hfuel2 : (2 ≤ fuel)%nat) by (unfold enoughFuel in Hfuel; lia).
  destruct (search_same_cell algo fuel _ _ _ _ Hwf Hs Hfuel2)
    as (res & Hres & Htrace & Hexit & Hwfh & Hv & Hp & Hw).
  destruct (wfGrid_lookup _ _ _ _ Hwfh Hs) as (nd & Hnd & _).
  unfold startVisualization. rewrite Hidle, <- Heq, Hres.
  cbn [mbind outcome_bind]. unfold animate.
  destruct fuel as [|fuel]; [lia|]. cbn [reconstruct].
  rewrite !Hnd. cbn [deref mbind outcome_bind].
  unfold prevAt in Hp. rewrite Hnd in Hp. rewrite Hp, reconstruct_None.
  cbn [mbind outcome_bind].
  unfold visitedAt in Hv. rewrite Hnd in Hv.
  unfold wallAt in Hw at 1. rewrite Hnd in Hw. rewrite Hw, Hws, Hv.
  rewrite Htrace. simpl. rewrite bool_decide_eq_true_2 by done. simpl.
  eexists _, _. split; [done|]. done.
Qed.

Lemma same_cell_run_witness :
  ∃ st' run,
    startVisualization 127 Astar (calculateGridSize 5 5 initialState) = Ok (st', Some run)
    ∧ run.(trace) = [(4, 4)]
    ∧ run.(success) = true
    ∧ run.(pathLen) = 1%nat
    ∧ run.(panel) = mkPanel 1 (Fin 1) true.
Proof.
  destruct same_cell_run as [_ H].
  apply (H (calculateGridSize 5 5 initialState) Astar 127%nat).
  - unfold invariant, wellFormed. simpl.
    split_and!; try (unfold inBounds; simpl; lia); try reflexivity.
    apply wfGrid_createGrid.
  - reflexivity.
  - vm_compute. lia.
Defined.

(** ** Success, failure and the failure signal *)

(** C5: after any of the three searches has run from a state of the page
    (the run resets the cells first), no exception has been raised; the run
    is reported successful iff the sequence rebuilt from the backpointers
    starts at the start cell, the end cell is not a wall and the end cell
    is marked visited; otherwise the reported path length is 0 (shown as
    unbounded); and the end cell is absent from the trace exactly when the
    search returned by exhausting its frontier. *)
Theorem run_outcome (st : State) (algo : Algo) (fuel : nat) :
  wellFormed st →
  (enoughFuel st.(ROWS) st.(COLS) ≤ fuel)%nat →
  ∃ st' run,
    startVisualization fuel algo st = Ok (st', Some run)
    ∧ reconstruct fuel st'.(gridArray) (Some st.(endPos)) [] = Ok run.(path)
    ∧ (run.(success) = true ↔
         head run.(path) = Some st.(startPos)
         ∧ wallAt st'.(gridArray) st.(endPos) = false
         ∧ visitedAt st'.(gridArray) st.(endPos) = true)
    ∧ (run.(success) = false →
         run.(pathLen) = 0%nat ∧ run.(panel).(pathLength) = Infinity)
    ∧ (st.(endPos) ∉ run.(trace) ↔ run.(exitKind) = FrontierEmpty).
Proof.
  intros Hst Hfuel. pose proof Hst as (Hwf & Hs & He & Hidle).
  destruct (search_summary _ _ _ _ _ fuel Hwf Hs He Hfuel algo) as (res & Hres & Hpost).
  destruct (startVisualization_spec fuel algo st res Hst Hfuel Hres Hpost)
    as (run & Hrun & Htrace & Hexit & Hpath & Hlast & Hsucc & Hlen & Hpanel).
  destruct Hpost as (Hwfh & Hwalls & _ & Hfound & Hempty).
  eexists _, run. split; [exact Hrun|]. simpl. split_and!.
  - done.
  - rewrite Hsucc, !andb_true_iff, bool_decide_eq_true, negb_true_iff, Hwalls. tauto.
  - intros Hf. rewrite Hlen, Hpanel, Hf. done.
  - rewrite Htrace, Hexit. destruct (exit res).
    + split; [|done]. intros Hx. by destruct Hfound.
    + split; [done|]. intros _. by destruct Hempty.
Qed.

Lemma run_outcome_witness :
  ∃ st' run,
    startVisualization 127 Dfs (calculateGridSize 5 5 initialState) = Ok (st', Some run)
    ∧ reconstruct 127 st'.(gridArray) (Some (4, 4)) [] = Ok run.(path)
    ∧ (run.(success) = true ↔
         head run.(path) = Some (4, 4)
         ∧ wallAt st'.(gridArray) (4, 4) = false
         ∧ visitedAt st'.(gridArray) (4, 4) = true)
    ∧ (run.(success) = false →
         run.(pathLen) = 0%nat ∧ run.(panel).(pathLength) = Infinity)
    ∧ ((4, 4) ∉ run.(trace) ↔ run.(exitKind) = FrontierEmpty).
Proof.
  apply (run_outcome (calculateGridSize 5 5 initialState) Dfs 127%nat).
  - unfold wellFormed. simpl.
    split_and!; try (unfold inBounds; simpl; lia); try reflexivity.
    apply wfGrid_createGrid.
  - vm_compute. lia.
Defined.

(** ** Shortest paths *)

Lemma chain_path g e s (d fuel : nat) p :
  (∀ fuel' acc, (d < fuel')%nat →
     ∃ l, reconstruct fuel' g (Some e) acc = Ok (l ++ acc)
          ∧ length l = S d ∧ head l = Some s) →
  reconstruct fuel g (Some e) [] = Ok p →
  length p = S d ∧ head p = Some s.
Proof.
  intros Hchain Hp.
  destruct (Hchain (fuel + S d)%nat [] ltac:(lia)) as (l & Hl & Hlen & Hhead).
  apply (reconstruct_mono g fuel (fuel + S d)) in Hp; [|lia].
  rewrite Hp in Hl. inversion Hl; subst p. by rewrite app_nil_r.
Qed.

Lemma connects_last_free rows cols g s t l :
  connects rows cols g s t l → freeCell rows cols g t.
Proof.
  intros (Hp & _ & Hl). revert Hp Hl. induction l as [|x l IH]; [done|].
  intros (Hx & _ & Hp) Hl. destruct l as [|y l].
  - simpl in Hl. by inversion Hl; subst.
  - apply IH; [done|]. by rewrite last_cons_cons in Hl.
Qed.

(** C1: when some path of free cells joins the start to the end, BFS
    succeeds and the number of steps of the path it rebuilds is the
    shortest-path distance between them under four-directional unit-cost
    movement. *)
Theorem bfs_shortest_path (st : State) (fuel : nat) :
  wellFormed st →
  (enoughFuel st.(ROWS) st.(COLS) ≤ fuel)%nat →
  (∃ l, connects st.(ROWS) st.(COLS) st.(gridArray) st.(startPos) st.(endPos) l) →
  ∃ st' run,
    startVisualization fuel Bfs st = Ok (st', Some run)
    ∧ run.(success) = true
    ∧ run.(pathLen) = length run.(path)
    ∧ shortestDistance st.(ROWS) st.(COLS) st.(gridArray) st.(startPos) st.(endPos)
        (run.(pathLen) - 1).
Proof.
  intros Hst Hfuel (q & Hq). pose proof Hst as (Hwf & Hs & He & Hidle).
  pose proof (connects_free _ _ _ _ _ _ Hq) as Hfree.
  pose proof (connects_last_free _ _ _ _ _ _ Hq) as [_ Hfree_e].
  pose proof (path_walk _ _ _ _ _ _ Hq) as Hwalk.
  destruct (bfs_summary _ _ _ _ (endPos st) fuel Hwf Hs Hfuel)
    as (res & Hres & Hpost & _ & Hexit).
  destruct (startVisualization_spec fuel Bfs st res Hst Hfuel Hres Hpost)
    as (run & Hrun & Htrace & Hexit' & Hpath & Hlast & Hsucc & Hlen & Hpanel).
  destruct Hpost as (Hwfh & Hwalls & _ & Hfound & Hempty).
  destruct (exit res) eqn:Hex.
  - destruct Hexit as (d & Hd & _ & Hchain).
    destruct (chain_path _ _ _ d fuel _ Hchain Hpath) as [Hplen Hhead].
    destruct (Hfound eq_refl) as [_ Hv].
    assert (Hs' : success run = true).
    { rewrite Hsucc, Hhead, Hfree_e, Hv. by rewrite bool_decide_eq_true_2. }
    eexists _, run. split; [exact Hrun|]. rewrite Hlen, Hs', Hplen.
    split_and!; [done|done|]. replace (S d - 1)%nat with d by lia.
    by apply dist_shortestDistance.
  - exfalso. destruct (Hempty eq_refl) as [Hne _]. apply Hne. by eapply Hexit.
Qed.

Lemma bfs_shortest_path_witness :
  ∃ st' run,
    startVisualization 127 Bfs
      (mkState 5 5 (createGrid 5 5) false false Pointer None (0, 0) (0, 2) 0)
      = Ok (st', Some run)
    ∧ run.(success) = true
    ∧ run.(pathLen) = length run.(path)
    ∧ shortestDistance 5 5 (createGrid 5 5) (0, 0) (0, 2) (run.(pathLen) - 1).
Proof.
  apply (bfs_shortest_path
           (mkState 5 5 (createGrid 5 5) false false Pointer None (0, 0) (0, 2) 0) 127%nat).
  - unfold wellFormed. cbn [ROWS COLS gridArray startPos endPos isRunning].
    split_and!; try (unfold inBounds; cbn [fst snd]; lia); try reflexivity.
    apply wfGrid_createGrid.
  - vm_compute. lia.
  - exists [(0, 0); (0, 1); (0, 2)].
    cbn [ROWS COLS gridArray startPos endPos].
    unfold connects. cbn [gridPath head last].
    unfold freeCell, inBounds, manhattan. cbn [fst snd].
    rewrite !wallAt_createGrid. repeat split; lia.
Defined.

(** ** A-star against BFS *)

Section Comparison.
Variables (st : State) (fuel : nat).
Hypothesis Hst : wellFormed st.
Hypothesis Hfuel : (enoughFuel st.(ROWS) st.(COLS) ≤ fuel)%nat.

Local Abbreviation E := (edge st.(ROWS) st.(COLS) (wallAt st.(gridArray))).

(** The runs of BFS and of A-star from one state, side by side. *)
Lemma both_runs :
  ∃ resB resA stB stA runB runA,
    startVisualization fuel Bfs st = Ok (stB, Some runB)
    ∧ startVisualization fuel Astar st = Ok (stA, Some runA)
    ∧ runB.(trace) = resB.(visitedNodes)
    ∧ runA.(trace) = resA.(visitedNodes)
    ∧ NoDup resA.(visitedNodes)
    ∧ (∀ x, x ∈ resA.(visitedNodes) → x ∈ resB.(visitedNodes))
    ∧ runA.(success) = runB.(success)
    ∧ runA.(pathLen) = runB.(pathLen).
Proof.
  pose proof Hst as (Hwf & Hs & He & Hidle).
  destruct (bfs_summary _ _ _ _ (endPos st) fuel Hwf Hs Hfuel)
    as (resB & HresB & HpostB & _ & HexB).
  destruct (astar_summary _ _ _ _ _ fuel Hwf Hs He Hfuel)
    as (resA & HresA & HpostA & HndA & HexA).
  destruct (startVisualization_spec fuel Bfs st resB Hst Hfuel HresB HpostB)
    as (runB & HrunB & HtrB & _ & HpathB & _ & HsuccB & HlenB & _).
  destruct (startVisualization_spec fuel Astar st resA Hst Hfuel HresA HpostA)
    as (runA & HrunA & HtrA & _ & HpathA & _ & HsuccA & HlenA & _).
  destruct HpostB as (_ & _ & _ & HfoundB & HemptyB).
  destruct HpostA as (_ & _ & _ & HfoundA & HemptyA).
  exists resB, resA. eexists _, _, runB, runA.
  split; [exact HrunB|]. split; [exact HrunA|].
  split; [done|]. split; [done|]. split; [done|].
  destruct (exit resB) eqn:HeB; destruct (exit resA) eqn:HeA.
  - destruct HexB as (d & Hd & Hlow & HchainB).
    destruct HexA as (d' & Hd' & Hnear & HchainA).
    pose proof (dist_unique E _ _ _ _ Hd Hd'). subst d'.
    destruct (chain_path _ _ _ d fuel _ HchainB HpathB) as [HplenB HheadB].
    destruct (chain_path _ _ _ d fuel _ HchainA HpathA) as [HplenA HheadA].
    destruct (HfoundB eq_refl) as [HeTB HvB].
    destruct (HfoundA eq_refl) as [HeTA HvA].
    assert (Hsucc : success runA = success runB).
    { by rewrite HsuccA, HsuccB, HheadA, HheadB, HvA, HvB. }
    split_and!; [|done|].
    + intros x Hx. destruct (Hnear x Hx) as [->|(dx & Hdx & Hlt)]; [done|].
      by eapply Hlow.
    + by rewrite HlenA, HlenB, Hsucc, HplenA, HplenB.
  - exfalso. destruct HexB as (d & [Hwalk _] & _).
    destruct HexA as [Hall _]. destruct (HemptyA eq_refl) as [Hne _].
    apply Hne. by eapply Hall.
  - exfalso. destruct HexA as (d & [Hwalk _] & _).
    destruct (HemptyB eq_refl) as [Hne _]. apply Hne. by eapply HexB.
  - destruct HexA as [_ Hreach].
    destruct (HemptyB eq_refl) as [_ HvB].
    destruct (HemptyA eq_refl) as [_ HvA].
    assert (HsA : success runA = false).
    { rewrite HsuccA, HvA. apply andb_false_r. }
    assert (HsB : success runB = false).
    { rewrite HsuccB, HvB. apply andb_false_r. }
    split_and!.
    + intros x Hx. destruct (Hreach x Hx) as (n & Hn). by eapply HexB.
    + by rewrite HsA, HsB.
    + by rewrite HlenA, HlenB, HsA, HsB.
Qed.
End Comparison.

(** C2: from every state of the page, A-star reports success exactly when
    BFS does, and when they succeed the two rebuilt paths have the same
    length. *)
Theorem astar_agrees_with_bfs (st : State) (fuel : nat) :
  wellFormed st →
  (enoughFuel st.(ROWS) st.(COLS) ≤ fuel)%nat →
  ∃ stB stA runB runA,
    startVisualization fuel Bfs st = Ok (stB, Some runB)
    ∧ startVisualization fuel Astar st = Ok (stA, Some runA)
    ∧ runA.(success) = runB.(success)
    ∧ (runB.(success) = true → runA.(pathLen) = runB.(pathLen)).
Proof.
  intros Hst Hfuel.
  destruct (both_runs st fuel Hst Hfuel)
    as (resB & resA & stB & stA & runB & runA & HB & HA & _ & _ & _ & _ & Hs & Hl).
  exists stB, stA, runB, runA. split_and!; done.
Qed.

Lemma astar_agrees_with_bfs_witness :
  ∃ stB stA runB runA,
    startVisualization 127 Bfs (calculateGridSize 5 5 initialState) = Ok (stB, Some runB)
    ∧ startVisualization 127 Astar (calculateGridSize 5 5 initialState) = Ok (stA, Some runA)
    ∧ runA.(success) = runB.(success)
    ∧ (runB.(success) = true → runA.(pathLen) = runB.(pathLen)).
Proof.
  apply (astar_agrees_with_bfs (calculateGridSize 5 5 initialState) 127%nat).
  - unfold wellFormed. simpl.
    split_and!; try (unfold inBounds; simpl; lia); try reflexivity.
    apply wfGrid_createGrid.
  - vm_compute. lia.
Defined.

(** C3: on every grid that contains at least one wall, the trace of A-star
    is not longer than the trace of BFS for the same start and end. *)
Theorem astar_visits_no_more_than_bfs (st : State) (fuel : nat) :
  wellFormed st →
  (enoughFuel st.(ROWS) st.(COLS) ≤ fuel)%nat →
  (∃ p, wallAt st.(gridArray) p = true) →
  ∃ stB stA runB runA,
    startVisualization fuel Bfs st = Ok (stB, Some runB)
    ∧ startVisualization fuel Astar st = Ok (stA, Some runA)
    ∧ (length runA.(trace) ≤ length runB.(trace))%nat.
Proof.
  intros Hst Hfuel _.
  destruct (both_runs st fuel Hst Hfuel)
    as (resB & resA & stB & stA & runB & runA & HB & HA & HtB & HtA & Hnd & Hsub & _).
  exists stB, stA, runB, runA. split_and!; [done|done|].
  rewrite HtA, HtB. by apply submseteq_length, NoDup_submseteq.
Qed.

Lemma astar_visits_no_more_than_bfs_witness :
  ∃ stB stA runB runA,
    startVisualization 127 Bfs
      (mkState 5 5 (<[(2, 2) := set_isWall true (newNode 2 2)]> (createGrid 5 5))
         false false Pointer None (0, 0) (4, 4) 0) = Ok (stB, Some runB)
    ∧ startVisualization 127 Astar
      (mkState 5 5 (<[(2, 2) := set_isWall true (newNode 2 2)]> (createGrid 5 5))
         false false Pointer None (0, 0) (4, 4) 0) = Ok (stA, Some runA)
    ∧ (length runA.(trace) ≤ length runB.(trace))%nat.
Proof.
  apply (astar_visits_no_more_than_bfs
           (mkState 5 5 (<[(2, 2) := set_isWall true (newNode 2 2)]> (createGrid 5 5))
              false false Pointer None (0, 0) (4, 4) 0) 127%nat).
  - unfold wellFormed. cbn [ROWS COLS gridArray startPos endPos isRunning].
    split_and!; try (unfold inBounds; cbn [fst snd]; lia); try reflexivity.
    eapply (wfGrid_insert 5 5 _ (2, 2) (newNode 2 2)); [apply wfGrid_createGrid| |done|done].
    rewrite createGrid_lookup. reflexivity.
  - vm_compute. lia.
  - exists (2, 2). cbn [gridArray]. unfold wallAt. by rewrite lookup_insert_eq.
Defined.

Lemma search_terminates_witness :
  (∃ res, search Astar 127 5 5 (createGrid 5 5) (0, 0) (4, 4) = Ok res)
  ∧ (∃ res, search Astar 127 5 5 (resetVisuals (createGrid 5 5)) (0, 0) (4, 4) = Ok res
            ∧ NoDup res.(visitedNodes)).
Proof.
  apply (search_terminates Astar 5 5 (createGrid 5 5) (0, 0) (4, 4) 127%nat).
  - apply wfGrid_createGrid.
  - unfold inBounds; simpl; lia.
  - unfold inBounds; simpl; lia.
  - vm_compute. lia.
Defined.

(** * Wall editing and the maze generators *)

Lemma elem_of_upTo lo hi x : x ∈ upTo lo hi ↔ lo ≤ x ≤ hi.
Proof. unfold upTo. rewrite elem_of_seqZ. lia. Qed.

Lemma elem_of_downTo hi lo x : x ∈ downTo hi lo ↔ lo ≤ x ≤ hi.
Proof. unfold downTo. rewrite elem_of_reverse, elem_of_seqZ. lia. Qed.

Lemma isStartOrEnd_true st i j :
  isStartOrEnd st i j = true ↔ (i, j) = st.(startPos) ∨ (i, j) = st.(endPos).
Proof.
  unfold isStartOrEnd.
  rewrite orb_true_iff, !andb_true_iff, !bool_decide_eq_true.
  destruct (startPos st) as [a b], (endPos st) as [a' b']. simpl.
  split; intros [H|H]; try (destruct H; subst; tauto); inversion H; tauto.
Qed.

Lemma isStartOrEnd_false st i j :
  isStartOrEnd st i j = false ↔ (i, j) ≠ st.(startPos) ∧ (i, j) ≠ st.(endPos).
Proof.
  destruct (isStartOrEnd st i j) eqn:H.
  - apply isStartOrEnd_true in H. split; [done|tauto].
  - split; [|done]. intros _. split; intros Hx;
      (assert (isStartOrEnd st i j = true) by (apply isStartOrEnd_true; tauto));
      congruence.
Qed.

Lemma sameSetting_refl st : sameSetting st st.
Proof. by unfold sameSetting. Qed.

Lemma keeps_refl st : invariant st → keeps st st.
Proof. intros H. split; [done|apply sameSetting_refl]. Qed.

Section Keeps.
Variable st0 : State.

Lemma keeps_bounds st p :
  keeps st0 st → inBounds st0.(ROWS) st0.(COLS) p ↔ inBounds st.(ROWS) st.(COLS) p.
Proof. intros (_ & -> & -> & _). done. Qed.

Lemma addWall_keeps st i j b :
  keeps st0 st → inBounds st0.(ROWS) st0.(COLS) (i, j) →
  ∃ st', addWall i j b st = Ok st' ∧ keeps st0 st'
         ∧ st'.(rngCalls) = st.(rngCalls).
Proof.
  intros Hk Hij. pose proof Hk as
    (((Hwf & Hs & He & Hidle) & HR & HC & Hws & Hwe) & HsR & HsC & Hss & Hse).
  unfold addWall. destruct (isStartOrEnd st i j) eqn:Hspecial.
  - exists st. done.
  - apply isStartOrEnd_false in Hspecial as [Hns Hne].
    rewrite <- HsR, <- HsC in Hij.
    destruct (wfGrid_lookup _ _ _ _ Hwf Hij) as (nd & Hnd & _).
    rewrite Hnd. cbn [deref mbind outcome_bind].
    eexists. split; [done|]. split; [|done].
    unfold keeps, invariant, wellFormed, sameSetting. simpl.
    split_and!; try done.
    + by eapply wfGrid_insert.
    + rewrite wallAt_insert. by rewrite decide_False.
    + rewrite wallAt_insert. by rewrite decide_False.
Qed.

Lemma wallUnlessSpecial_keeps st i j :
  keeps st0 st → inBounds st0.(ROWS) st0.(COLS) (i, j) →
  ∃ st', wallUnlessSpecial i j st = Ok st' ∧ keeps st0 st'
         ∧ st'.(rngCalls) = st.(rngCalls).
Proof.
  intros Hk Hij. unfold wallUnlessSpecial.
  destruct (negb (isStartOrEnd st i j)); [by apply addWall_keeps|].
  exists st. done.
Qed.

Lemma forEach_keeps {A : Type} (l : list A) (body : A → State → outcome State) st :
  (∀ x st, x ∈ l → keeps st0 st → ∃ st', body x st = Ok st' ∧ keeps st0 st') →
  keeps st0 st →
  ∃ st', forEach l body st = Ok st' ∧ keeps st0 st'.
Proof.
  revert st. induction l as [|x l IH]; intros st Hbody Hk.
  - exists st. done.
  - destruct (Hbody x st ltac:(by left) Hk) as (st1 & Hrun & Hk1).
    cbn [forEach]. rewrite Hrun. cbn [mbind outcome_bind].
    apply IH; [|done]. intros y st' Hy. apply Hbody. by right.
Qed.

Lemma randomInt_keeps (rnd : nat → Z) k st :
  keeps st0 st →
  keeps st0 (randomInt rnd k st).2
  ∧ (0 < k → 0 ≤ (randomInt rnd k st).1 < k).
Proof.
  intros Hk. split.
  - exact Hk.
  - intros Hpos. simpl. by apply Z.mod_pos_bound.
Qed.

(** ** Recursive division *)

Lemma recursiveDivision_keeps (rnd : nat → Z) (fuel : nat) rStart rEnd cStart cEnd st :
  keeps st0 st →
  1 ≤ rStart → rEnd ≤ st0.(ROWS) - 2 → 1 ≤ cStart → cEnd ≤ st0.(COLS) - 2 →
  (Z.to_nat (Z.max 0 (rEnd - rStart) + Z.max 0 (cEnd - cStart)) < fuel)%nat →
  ∃ st', recursiveDivision fuel rnd rStart rEnd cStart cEnd st = Ok st'
         ∧ keeps st0 st'.
Proof.
  revert rStart rEnd cStart cEnd st.
  induction fuel as [|fuel IH]; intros rStart rEnd cStart cEnd st Hk Hr1 Hr2 Hc1 Hc2 Hfuel;
    [lia|].
  cbn [recursiveDivision].
  destruct (decide (rEnd - rStart < 2 ∨ cEnd - cStart < 2)) as [Hsmall|Hbig].
  { exists st. done. }
  assert (2 ≤ rEnd - rStart ∧ 2 ≤ cEnd - cStart) as [Hrr Hcc] by lia.
  destruct (decide (rEnd - rStart > cEnd - cStart)) as [Hh|Hv].
  - destruct (randomInt rnd (rEnd - rStart - 1) st) as [x st1] eqn:Hx.
    destruct (randomInt rnd (cEnd - cStart + 1) st1) as [y st2] eqn:Hy.
    destruct (randomInt_keeps rnd (rEnd - rStart - 1) st Hk) as [Hk1 Hxb].
    rewrite Hx in Hk1, Hxb. simpl in Hk1, Hxb. specialize (Hxb ltac:(lia)).
    destruct (randomInt_keeps rnd (cEnd - cStart + 1) st1 Hk1) as [Hk2 Hyb].
    rewrite Hy in Hk2, Hyb. simpl in Hk2, Hyb. specialize (Hyb ltac:(lia)).
    destruct (forEach_keeps (upTo cStart cEnd)
                (λ j st, if bool_decide (j ≠ y + cStart)
                              && negb (isStartOrEnd st (x + rStart + 1) j)
                         then addWall (x + rStart + 1) j true st else Ok st) st2)
      as (st3 & Hrun3 & Hk3); [|done|].
    { intros j st' Hj Hk'. apply elem_of_upTo in Hj.
      destruct (bool_decide (j ≠ y + cStart) && negb (isStartOrEnd st' (x + rStart + 1) j)).
      - destruct (addWall_keeps st' (x + rStart + 1) j true Hk') as (st'' & ? & ? & _).
        + unfold inBounds; simpl; lia.
        + eauto.
      - eauto. }
    rewrite Hrun3. cbn [mbind outcome_bind].
    destruct (IH rStart (x + rStart + 1 - 1) cStart cEnd st3 Hk3)
      as (st4 & Hrun4 & Hk4); try lia.
    rewrite Hrun4. cbn [mbind outcome_bind].
    apply IH; try done; lia.
  - destruct (randomInt rnd (cEnd - cStart - 1) st) as [x st1] eqn:Hx.
    destruct (randomInt rnd (rEnd - rStart + 1) st1) as [y st2] eqn:Hy.
    destruct (randomInt_keeps rnd (cEnd - cStart - 1) st Hk) as [Hk1 Hxb].
    rewrite Hx in Hk1, Hxb. simpl in Hk1, Hxb. specialize (Hxb ltac:(lia)).
    destruct (randomInt_keeps rnd (rEnd - rStart + 1) st1 Hk1) as [Hk2 Hyb].
    rewrite Hy in Hk2, Hyb. simpl in Hk2, Hyb. specialize (Hyb ltac:(lia)).
    destruct (forEach_keeps (upTo rStart rEnd)
                (λ i st, if bool_decide (i ≠ y + rStart)
                              && negb (isStartOrEnd st i (x + cStart + 1))
                         then addWall i (x + cStart + 1) true st else Ok st) st2)
      as (st3 & Hrun3 & Hk3); [|done|].
    { intros i st' Hi Hk'. apply elem_of_upTo in Hi.
      destruct (bool_decide (i ≠ y + rStart) && negb (isStartOrEnd st' i (x + cStart + 1))).
      - destruct (addWall_keeps st' i (x + cStart + 1) true Hk') as (st'' & ? & ? & _).
        + unfold inBounds; simpl; lia.
        + eauto.
      - eauto. }
    rewrite Hrun3. cbn [mbind outcome_bind].
    destruct (IH rStart rEnd cStart (x + cStart + 1 - 1) st3 Hk3)
      as (st4 & Hrun4 & Hk4); try lia.
    rewrite Hrun4. cbn [mbind outcome_bind].
    apply IH; try done; lia.
Qed.

(** ** Spiral *)

Lemma wallLine_keeps (l : list Z) (cell : Z → Pos) st :
  keeps st0 st →
  (∀ x, x ∈ l → inBounds st0.(ROWS) st0.(COLS) (cell x)) →
  ∃ st', forEach l (λ x, wallUnlessSpecial (cell x).1 (cell x).2) st = Ok st'
         ∧ keeps st0 st'.
Proof.
  intros Hk Hl. apply forEach_keeps; [|done].
  intros x st' Hx Hk'.
  destruct (wallUnlessSpecial_keeps st' (cell x).1 (cell x).2 Hk') as (st'' & ? & ? & _).
  - specialize (Hl x Hx). by destruct (cell x).
  - eauto.
Qed.

Lemma spiralLoop_keeps (fuel : nat) rStart rEnd cStart cEnd st :
  keeps st0 st →
  1 ≤ rStart → rEnd ≤ st0.(ROWS) - 2 → 1 ≤ cStart → cEnd ≤ st0.(COLS) - 2 →
  (rStart = 1 ∧ rEnd = st0.(ROWS) - 2) ∨ rEnd ≤ st0.(ROWS) - 4 →
  (Z.to_nat (Z.max 0 (rEnd - rStart + 2)) < fuel)%nat →
  ∃ st', spiralLoop fuel rStart rEnd cStart cEnd st = Ok st' ∧ keeps st0 st'.
Proof.
  revert rStart rEnd cStart cEnd st.
  induction fuel as [|fuel IH];
    intros rStart rEnd cStart cEnd st Hk Hr1 Hr2 Hc1 Hc2 Hfirst Hfuel; [lia|].
  assert (HR : 5 ≤ st0.(ROWS)).
  { destruct Hk as ((_ & HR & _) & <- & _). done. }
  cbn [spiralLoop].
  destruct (decide (rStart ≤ rEnd ∧ cStart ≤ cEnd)) as [[Hr Hc]|Hstop].
  2:{ exists st. done. }
  destruct (wallLine_keeps (upTo cStart cEnd) (λ j, (rStart, j)) st Hk)
    as (st1 & Hrun1 & Hk1).
  { intros j Hj. apply elem_of_upTo in Hj. unfold inBounds; simpl; lia. }
  simpl in Hrun1. rewrite Hrun1. cbn [mbind outcome_bind].
  replace (rStart + 2 - 2) with rStart by lia.
  destruct (wallLine_keeps (upTo rStart rEnd) (λ i, (i, cEnd)) st1 Hk1)
    as (st2 & Hrun2 & Hk2).
  { intros i Hi. apply elem_of_upTo in Hi. unfold inBounds; simpl; lia. }
  simpl in Hrun2. rewrite Hrun2. cbn [mbind outcome_bind].
  destruct (decide (rStart + 2 ≤ rEnd)) as [Hthird|Hthird].
  - destruct (wallLine_keeps (downTo (cEnd - 2 + 2) cStart) (λ j, (rEnd, j)) st2 Hk2)
      as (st3 & Hrun3 & Hk3).
    { intros j Hj. apply elem_of_downTo in Hj. unfold inBounds; simpl; lia. }
    simpl in Hrun3. rewrite Hrun3. cbn [mbind outcome_bind].
    destruct (decide (cStart ≤ cEnd - 2)) as [Hfourth|Hfourth].
    + destruct (wallLine_keeps (downTo (rEnd - 2 + 2) (rStart + 2))
                  (λ i, (i, cStart)) st3 Hk3) as (st4 & Hrun4 & Hk4).
      { intros i Hi. apply elem_of_downTo in Hi. unfold inBounds; simpl; lia. }
      simpl in Hrun4. rewrite Hrun4. cbn [mbind outcome_bind].
      apply IH; try done; lia.
    + cbn [mbind outcome_bind]. apply IH; try done; lia.
  - cbn [mbind outcome_bind].
    destruct (decide (cStart ≤ cEnd - 2)) as [Hfourth|Hfourth].
    + destruct (wallLine_keeps (downTo (rEnd + 2) (rStart + 2))
                  (λ i, (i, cStart)) st2 Hk2) as (st4 & Hrun4 & Hk4).
      { intros i Hi. apply elem_of_downTo in Hi. unfold inBounds; simpl; lia. }
      simpl in Hrun4. rewrite Hrun4. cbn [mbind outcome_bind].
      apply IH; try done; lia.
    + cbn [mbind outcome_bind]. apply IH; try done; lia.
Qed.

Lemma clearNeighbors_keeps pos st :
  keeps st0 st → ∃ st', clearNeighbors pos st = Ok st' ∧ keeps st0 st'.
Proof.
  intros Hk. unfold clearNeighbors. apply forEach_keeps; [|done].
  intros [dr dc] st' _ Hk'.
  destruct (decide (pos.1 + dr >= 0 ∧ pos.1 + dr < ROWS st'
                    ∧ pos.2 + dc >= 0 ∧ pos.2 + dc < COLS st')) as [Hin|Hout].
  - destruct (addWall_keeps st' (pos.1 + dr) (pos.2 + dc) false Hk') as (st'' & ? & ? & _).
    + apply (keeps_bounds st' _ Hk'). unfold inBounds; simpl; lia.
    + eauto.
  - eauto.
Qed.

Lemma generateSpiralPattern_keeps (fuel : nat) st :
  keeps st0 st → (Z.to_nat st0.(ROWS) < fuel)%nat →
  ∃ st', generateSpiralPattern fuel st = Ok st' ∧ keeps st0 st'.
Proof.
  intros Hk Hfuel. pose proof Hk as ((_ & HR & HC & _) & HsR & HsC & _).
  unfold generateSpiralPattern.
  destruct (spiralLoop_keeps fuel 1 (ROWS st - 2) 1 (COLS st - 2) st Hk)
    as (st1 & Hrun1 & Hk1); try lia.
  rewrite Hrun1. cbn [mbind outcome_bind].
  destruct (clearNeighbors_keeps (startPos st1) st1 Hk1) as (st2 & Hrun2 & Hk2).
  rewrite Hrun2. cbn [mbind outcome_bind].
  by apply clearNeighbors_keeps.
Qed.

(** ** Randomized depth-first maze *)

Lemma getMazeNeighbors_fold (rows cols i j : Z) (visited : gset Pos)
    (dirs : list (Z * Z)) (acc : list Pos) (q : Pos) :
  q ∈ foldl (λ neighbors '(dr, dc),
               let nr := i + dr in
               let nc := j + dc in
               if decide (nr >= 0 ∧ nr < rows ∧ nc >= 0 ∧ nc < cols)
               then (if decide ((nr, nc) ∈ visited) then neighbors
                     else neighbors ++ [(nr, nc)])
               else neighbors) acc dirs →
  q ∈ acc ∨ ∃ d, d ∈ dirs ∧ q = (i + d.1, j + d.2)
                 ∧ inBounds rows cols q ∧ q ∉ visited.
Proof.
  revert acc. induction dirs as [|[dr dc] dirs IH]; intros acc Hq; [by left|].
  cbn [foldl] in Hq. apply IH in Hq as [Hq|(d & Hd & Hq)].
  - destruct (decide (i + dr >= 0 ∧ i + dr < rows ∧ j + dc >= 0 ∧ j + dc < cols))
      as [Hin|Hout]; [|by left].
    destruct (decide ((i + dr, j + dc) ∈ visited)) as [Hv|Hv]; [by left|].
    apply elem_of_app in Hq as [Hq|Hq]; [by left|].
    apply list_elem_of_singleton in Hq. subst q. right.
    exists (dr, dc). split_and!; [by left|done| |done].
    unfold inBounds; simpl; lia.
  - right. exists d. split; [by right|done].
Qed.

Lemma elem_of_getMazeNeighbors rows cols i j visited q :
  q ∈ getMazeNeighbors rows cols i j visited →
  inBounds rows cols q ∧ (q ∉ visited)
  ∧ ((q.1 = i ∧ (q.2 = j - 2 ∨ q.2 = j + 2))
     ∨ (q.2 = j ∧ (q.1 = i - 2 ∨ q.1 = i + 2))).
Proof.
  unfold getMazeNeighbors. intros Hq.
  apply getMazeNeighbors_fold in Hq as [Hq|(d & Hd & -> & Hb & Hv)];
    [by apply elem_of_nil in Hq|].
  split_and!; [done|done|].
  rewrite !elem_of_cons, elem_of_nil in Hd.
  destruct Hd as [-> | [-> | [-> | [-> | []]]]]; simpl; lia.
Qed.

Lemma half_even a d :
  d = 0 ∨ d = 2 ∨ d = -2 → half (a + (a + d)) = Some (a + d `div` 2).
Proof.
  intros Hd. unfold half.
  destruct Hd as [-> | [-> | ->]];
    (rewrite decide_True; [f_equal|]); Z.div_mod_to_equations; lia.
Qed.

Lemma mazeLoop_keeps (rnd : nat → Z) (fuel : nat) (stack : list Pos) (visited : gset Pos) st :
  keeps st0 st →
  (∀ p, p ∈ stack → inBounds st0.(ROWS) st0.(COLS) p) →
  visited ⊆ cellSet st0.(ROWS) st0.(COLS) →
  (2 * size (cellSet st0.(ROWS) st0.(COLS) ∖ visited) + length stack < fuel)%nat →
  ∃ st', mazeLoop fuel rnd stack visited st = Ok st' ∧ keeps st0 st'.
Proof.
  revert stack visited st.
  induction fuel as [|fuel IH]; intros stack visited st Hk Hstack Hvis Hfuel; [lia|].
  cbn [mazeLoop]. destruct (pop stack) as [[curr stack']|] eqn:Hpop.
  2:{ exists st. done. }
  apply pop_snoc in Hpop. subst stack.
  assert (Hcurr : inBounds st0.(ROWS) st0.(COLS) curr).
  { apply Hstack. apply elem_of_app. right. by left. }
  assert (Hstack' : ∀ p, p ∈ stack' → inBounds st0.(ROWS) st0.(COLS) p).
  { intros p Hp. apply Hstack. apply elem_of_app. by left. }
  rewrite length_app in Hfuel. cbn [length] in Hfuel.
  pose proof Hk as (_ & HsR & HsC & _). rewrite HsR, HsC.
  set (neighbors := getMazeNeighbors (ROWS st0) (COLS st0) curr.1 curr.2 visited).
  destruct (decide (0 < length neighbors)%nat) as [Hsome|Hnone].
  2:{ apply IH; try done. lia. }
  destruct (randomInt rnd (Z.of_nat (length neighbors)) st) as [k st1] eqn:Hrand.
  destruct (randomInt_keeps rnd (Z.of_nat (length neighbors)) st Hk) as [Hk1 Hkb].
  rewrite Hrand in Hk1, Hkb. simpl in Hk1, Hkb. specialize (Hkb ltac:(lia)).
  assert (Hlt : (Z.to_nat k < length neighbors)%nat) by lia.
  destruct (lookup_lt_is_Some_2 neighbors (Z.to_nat k) Hlt) as (next & Hnext).
  rewrite Hnext. cbn [deref mbind outcome_bind].
  assert (Hin : next ∈ neighbors) by (by eapply list_elem_of_lookup_2).
  apply elem_of_getMazeNeighbors in Hin as (Hnb & Hnv & Hshape).
  assert (∃ dr dc, next = (curr.1 + dr, curr.2 + dc)
                   ∧ ((dr = 0 ∧ (dc = 2 ∨ dc = -2)) ∨ (dc = 0 ∧ (dr = 2 ∨ dr = -2))))
    as (dr & dc & Hnexteq & Hd).
  { exists (next.1 - curr.1), (next.2 - curr.2). split; [|lia].
    destruct next. simpl. f_equal; lia. }
  subst next. simpl in *.
  rewrite (half_even curr.1 dr) by lia. cbn [deref mbind outcome_bind].
  rewrite (half_even curr.2 dc) by lia. cbn [deref mbind outcome_bind].
  destruct (addWall_keeps st1 (curr.1 + dr `div` 2) (curr.2 + dc `div` 2) false Hk1)
    as (st2 & Hrun2 & Hk2 & _).
  { unfold inBounds in *. simpl in *. Z.div_mod_to_equations. lia. }
  rewrite Hrun2. cbn [mbind outcome_bind].
  destruct (addWall_keeps st2 (curr.1 + dr) (curr.2 + dc) false Hk2)
    as (st3 & Hrun3 & Hk3 & _); [done|].
  rewrite Hrun3. cbn [mbind outcome_bind].
  apply IH; try done.
  - intros p. rewrite !elem_of_app, !elem_of_cons, !elem_of_nil.
    intros [[Hp | [-> | []]] | [-> | []]]; [by apply Hstack'|done|done].
  - apply union_subseteq. split; [done|].
    apply singleton_subseteq_l. unfold cellSet.
    apply elem_of_list_to_set. by apply elem_of_cellsOf.
  - assert (size (cellSet (ROWS st0) (COLS st0)
                  ∖ (visited ∪ {[((curr.1 + dr)%Z, (curr.2 + dc)%Z)]}))
            < size (cellSet (ROWS st0) (COLS st0) ∖ visited))%nat.
    { apply subset_size. apply strict_spec_alt. split.
      { intros y Hy. apply elem_of_difference in Hy as [Hy1 Hy2].
        apply elem_of_difference. split; [done|].
        intros Hy3. apply Hy2, elem_of_union. by left. }
      intros Heq. assert (Hx : (curr.1 + dr, curr.2 + dc)
                                 ∈ cellSet (ROWS st0) (COLS st0) ∖ visited).
      { apply elem_of_difference. split; [|done].
        unfold cellSet. apply elem_of_list_to_set. by apply elem_of_cellsOf. }
      rewrite <- Heq in Hx. apply elem_of_difference in Hx as [_ Hx].
      apply Hx, elem_of_union. right. by apply elem_of_singleton. }
    rewrite !length_app. simpl. lia.
Qed.

Lemma size_cellSet rows cols :
  size (cellSet rows cols) = (Z.to_nat rows * Z.to_nat cols)%nat.
Proof.
  unfold cellSet. rewrite size_list_to_set by apply NoDup_cellsOf.
  apply length_cellsOf.
Qed.

Lemma generateDFSMaze_keeps (rnd : nat → Z) (fuel : nat) st :
  keeps st0 st →
  (2 * (Z.to_nat st0.(ROWS) * Z.to_nat st0.(COLS)) + 1 < fuel)%nat →
  ∃ st', generateDFSMaze fuel rnd st = Ok st' ∧ keeps st0 st'.
Proof.
  intros Hk Hfuel. pose proof Hk as (((_ & Hs & He & _) & _) & HsR & HsC & Hss & Hse).
  unfold generateDFSMaze.
  destruct (forEach_keeps (upTo 0 (ROWS st - 1))
              (λ i st, forEach (upTo 0 (COLS st - 1)) (λ j, wallUnlessSpecial i j) st) st)
    as (st1 & Hrun1 & Hk1); [|done|].
  { intros i st' Hi Hk'. apply elem_of_upTo in Hi.
    pose proof Hk' as (_ & HsR' & HsC' & _).
    apply (wallLine_keeps (upTo 0 (COLS st' - 1)) (λ j, (i, j)) st' Hk').
    intros j Hj. apply elem_of_upTo in Hj. unfold inBounds; simpl; lia. }
  rewrite Hrun1. cbn [mbind outcome_bind].
  pose proof Hk1 as (((_ & Hs1 & He1 & _) & _) & HsR1 & HsC1 & Hss1 & Hse1).
  destruct (mazeLoop_keeps rnd fuel [startPos st1] {[startPos st1]} st1 Hk1)
    as (st2 & Hrun2 & Hk2).
  { intros p Hp. apply list_elem_of_singleton in Hp. subst. by rewrite <- HsR1, <- HsC1. }
  { apply singleton_subseteq_l. unfold cellSet. apply elem_of_list_to_set.
    apply elem_of_cellsOf. by rewrite <- HsR1, <- HsC1. }
  { assert (size (cellSet (ROWS st0) (COLS st0) ∖ {[startPos st1]})
            ≤ size (cellSet (ROWS st0) (COLS st0)))%nat.
    { apply subseteq_size. intros y Hy.
      by apply elem_of_difference in Hy as [? _]. }
    rewrite size_cellSet in H. simpl. lia. }
  rewrite Hrun2. cbn [mbind outcome_bind].
  pose proof Hk2 as (((_ & Hs2 & He2 & _) & _) & HsR2 & HsC2 & Hss2 & Hse2).
  destruct (addWall_keeps st2 (startPos st2).1 (startPos st2).2 false Hk2)
    as (st3 & Hrun3 & Hk3 & _).
  { rewrite <- HsR2, <- HsC2. by destruct (startPos st2). }
  rewrite Hrun3. cbn [mbind outcome_bind].
  pose proof Hk3 as (((_ & Hs3 & He3 & _) & _) & HsR3 & HsC3 & Hss3 & Hse3).
  destruct (addWall_keeps st3 (endPos st3).1 (endPos st3).2 false Hk3)
    as (st4 & Hrun4 & Hk4 & _).
  { rewrite <- HsR3, <- HsC3. by destruct (endPos st3). }
  eauto.
Qed.
End Keeps.

(** ** Reset and the maze entry point *)

Lemma resetBoard_keeps st :
  wellFormed st → 5 ≤ st.(ROWS) → 5 ≤ st.(COLS) → keeps st (resetBoard st).
Proof.
  intros (Hwf & Hs & He & Hidle) HR HC.
  unfold resetBoard. rewrite Hidle.
  assert (Hw : ∀ p, wallAt (set_isWall false <$> resetVisuals (gridArray st)) p = false).
  { intros p. unfold wallAt. rewrite lookup_fmap.
    by destruct (resetVisuals (gridArray st) !! p). }
  unfold keeps, invariant, wellFormed, sameSetting. simpl. split_and!; try done.
  apply wfGrid_fmap; [done|]. by apply wfGrid_resetVisuals.
Qed.

Lemma keeps_trans st0 st1 st2 : keeps st0 st1 → keeps st1 st2 → keeps st0 st2.
Proof.
  intros (_ & H1 & H2 & H3 & H4) (Hinv & H1' & H2' & H3' & H4').
  split; [done|]. unfold sameSetting. split_and!; congruence.
Qed.

Lemma enoughFuel_bounds rows cols :
  5 ≤ rows → 5 ≤ cols →
  (Z.to_nat rows < enoughFuel rows cols)%nat
  ∧ (2 * (Z.to_nat rows * Z.to_nat cols) + 1 < enoughFuel rows cols)%nat
  ∧ (Z.to_nat (Z.max 0 (rows - 2 - 1) + Z.max 0 (cols - 2 - 1)) < enoughFuel rows cols)%nat.
Proof.
  intros Hr Hc. unfold enoughFuel. rewrite Z2Nat.inj_mul by lia.
  assert (5 ≤ Z.to_nat rows)%nat by lia. assert (5 ≤ Z.to_nat cols)%nat by lia.
  split_and!; nia.
Qed.

Lemma handleMazeGen_some (fuel : nat) (rnd : nat → Z) type st :
  wellFormed st → 5 ≤ st.(ROWS) → 5 ≤ st.(COLS) →
  (enoughFuel st.(ROWS) st.(COLS) ≤ fuel)%nat →
  ∃ st', handleMazeGen fuel rnd (Some type) st = Ok st' ∧ keeps st st'.
Proof.
  intros Hwell HR HC Hfuel. pose proof Hwell as (Hwf & Hs & He & Hidle).
  unfold handleMazeGen. rewrite Hidle.
  pose proof (resetBoard_keeps st Hwell HR HC) as Hk.
  pose proof Hk as (_ & HsR & HsC & _).
  destruct (enoughFuel_bounds _ _ HR HC) as (Hf1 & Hf2 & Hf3).
  destruct type.
  - apply generateDFSMaze_keeps; [done|lia].
  - apply generateSpiralPattern_keeps; [done|lia].
  - rewrite HsR, HsC. apply recursiveDivision_keeps; try done; lia.
Qed.

Lemma handleMazeGen_keeps (fuel : nat) (rnd : nat → Z) type st :
  invariant st → (enoughFuel st.(ROWS) st.(COLS) ≤ fuel)%nat →
  ∃ st', handleMazeGen fuel rnd type st = Ok st' ∧ keeps st st'.
Proof.
  intros Hinv Hfuel. pose proof Hinv as (Hwell & HR & HC & _).
  destruct type as [type|]; [by apply handleMazeGen_some|].
  exists st. split; [|by apply keeps_refl].
  unfold handleMazeGen. by destruct (isRunning st).
Qed.

(** * Properties of the page: walls, special cells, generators *)

(** The invariant only reads the grid, its dimensions, the two special
    positions and the running flag. *)
Lemma invariant_ext st st' :
  st'.(ROWS) = st.(ROWS) → st'.(COLS) = st.(COLS) →
  st'.(gridArray) = st.(gridArray) →
  st'.(startPos) = st.(startPos) → st'.(endPos) = st.(endPos) →
  st'.(isRunning) = st.(isRunning) →
  invariant st → invariant st'.
Proof.
  unfold invariant, wellFormed. by intros -> -> -> -> -> ->.
Qed.

Lemma invariant_calculateGridSize vc vr st :
  0 ≤ st.(startPos).1 → 0 ≤ st.(startPos).2 →
  0 ≤ st.(endPos).1 → 0 ≤ st.(endPos).2 →
  st.(isRunning) = false →
  invariant (calculateGridSize vc vr st).
Proof.
  intros Hs1 Hs2 He1 He2 Hidle.
  unfold invariant, wellFormed, calculateGridSize, inBounds. simpl.
  rewrite !wallAt_createGrid.
  split_and!; try done; try apply wfGrid_createGrid;
    repeat case_decide; lia.
Qed.

Lemma addWall_special st b :
  addWall st.(startPos).1 st.(startPos).2 b st = Ok st
  ∧ addWall st.(endPos).1 st.(endPos).2 b st = Ok st.
Proof.
  unfold addWall.
  assert (H1 : isStartOrEnd st (startPos st).1 (startPos st).2 = true).
  { apply isStartOrEnd_true. left. by destruct (startPos st). }
  assert (H2 : isStartOrEnd st (endPos st).1 (endPos st).2 = true).
  { apply isStartOrEnd_true. right. by destruct (endPos st). }
  by rewrite H1, H2.
Qed.

Lemma drag_onto_wall st i j :
  wallAt st.(gridArray) (i, j) = true →
  st.(draggingNode) ≠ None →
  handleMouseEnter i j st = Ok st.
Proof.
  intros Hw Hd. unfold handleMouseEnter.
  destruct (negb (isMousePressed st) || isRunning st); [done|].
  unfold wallAt in Hw. destruct (gridArray st !! (i, j)) as [nd|] eqn:Hnd; [|done].
  destruct (draggingNode st) as [[]|]; [| |done].
  - destruct (bool_decide (i ≠ (endPos st).1) || bool_decide (j ≠ (endPos st).2)); [|done].
    cbn [deref mbind outcome_bind]. by rewrite Hw.
  - destruct (bool_decide (i ≠ (startPos st).1) || bool_decide (j ≠ (startPos st).2)); [|done].
    cbn [deref mbind outcome_bind]. by rewrite Hw.
Qed.

Lemma tool_keeps st i j :
  invariant st → inBounds st.(ROWS) st.(COLS) (i, j) →
  ∃ st', match st.(currentTool) with
         | Pencil => addWall i j true st
         | Eraser => addWall i j false st
         | Pointer => Ok st
         end = Ok st' ∧ invariant st'.
Proof.
  intros Hinv Hij. destruct (currentTool st).
  - eauto.
  - destruct (addWall_keeps st st i j true (keeps_refl st Hinv) Hij) as (st' & ? & [? _] & _).
    eauto.
  - destruct (addWall_keeps st st i j false (keeps_refl st Hinv) Hij) as (st' & ? & [? _] & _).
    eauto.
Qed.

Lemma handle_invariant (fuel : nat) (rnd : nat → Z) ev st :
  invariant st → eventInGrid st ev →
  (enoughFuel st.(ROWS) st.(COLS) ≤ fuel)%nat →
  ∃ st', handle fuel rnd ev st = Ok st' ∧ invariant st'.
Proof.
  intros Hinv Hev Hfuel.
  pose proof Hinv as ((Hwf & Hs & He & Hidle) & HR & HC & Hws & Hwe).
  destruct ev as [i j|i j| |tool|vc vr| |type|algo]; simpl in *.
  - unfold handleMouseDown. rewrite Hidle.
    assert (Hinv1 : invariant (set_isMousePressed true st)) by (by eapply invariant_ext).
    destruct (bool_decide _ && bool_decide _).
    { eexists. split; [done|]. by eapply invariant_ext. }
    destruct (bool_decide _ && bool_decide _).
    { eexists. split; [done|]. by eapply invariant_ext. }
    by apply (tool_keeps (set_isMousePressed true st)).
  - unfold handleMouseEnter. rewrite Hidle.
    destruct (negb (isMousePressed st) || false); [eauto|].
    destruct (wfGrid_lookup _ _ _ _ Hwf Hev) as (nd & Hnd & _).
    destruct (draggingNode st) as [[]|].
    + destruct (bool_decide (i ≠ (endPos st).1) || bool_decide (j ≠ (endPos st).2)); [|eauto].
      rewrite Hnd. cbn [deref mbind outcome_bind].
      destruct (isWall nd) eqn:Hw; simpl; [eauto|].
      eexists. split; [done|].
      unfold invariant, wellFormed. simpl. split_and!; try done.
      unfold wallAt. by rewrite Hnd.
    + destruct (bool_decide (i ≠ (startPos st).1) || bool_decide (j ≠ (startPos st).2)); [|eauto].
      rewrite Hnd. cbn [deref mbind outcome_bind].
      destruct (isWall nd) eqn:Hw; simpl; [eauto|].
      eexists. split; [done|].
      unfold invariant, wellFormed. simpl. split_and!; try done.
      unfold wallAt. by rewrite Hnd.
    + by apply tool_keeps.
  - eexists. split; [done|]. by eapply invariant_ext.
  - eexists. split; [done|]. by eapply invariant_ext.
  - eexists. split; [done|]. rewrite Hidle.
    apply invariant_calculateGridSize; try done; unfold inBounds in *; lia.
  - eexists. split; [done|]. by apply resetBoard_keeps.
  - destruct (handleMazeGen_keeps fuel rnd type st Hinv Hfuel) as (st' & ? & [? _]). eauto.
  - destruct (search_summary _ _ _ _ _ fuel Hwf Hs He Hfuel algo) as (res & Hres & Hpost).
    destruct (startVisualization_spec fuel algo st res (proj1 Hinv) Hfuel Hres Hpost)
      as (run & Hrun & _).
    rewrite Hrun. cbn [mbind outcome_bind]. eexists. split; [done|].
    destruct Hpost as (Hwfh & Hwalls & _).
    unfold invariant, wellFormed. simpl. rewrite !Hwalls. split_and!; done.
Qed.

(** While a run is being played back the handlers leave the grid and the
    two special positions as they are. *)
Lemma handle_running (fuel : nat) (rnd : nat → Z) ev st :
  st.(isRunning) = true →
  ∃ st', handle fuel rnd ev st = Ok st'
    ∧ st'.(ROWS) = st.(ROWS) ∧ st'.(COLS) = st.(COLS)
    ∧ st'.(gridArray) = st.(gridArray)
    ∧ st'.(startPos) = st.(startPos) ∧ st'.(endPos) = st.(endPos)
    ∧ st'.(isRunning) = true.
Proof.
  intros Hrun. destruct ev as [i j|i j| |tool|vc vr| |type|algo]; simpl.
  - unfold handleMouseDown. rewrite Hrun. eauto 10.
  - unfold handleMouseEnter. rewrite Hrun, orb_true_r. eauto 10.
  - eexists. split; [done|]. done.
  - eexists. split; [done|]. done.
  - rewrite Hrun. eauto 10.
  - unfold resetBoard. rewrite Hrun. eauto 10.
  - unfold handleMazeGen. rewrite Hrun. eauto 10.
  - unfold startVisualization. rewrite Hrun. cbn [mbind outcome_bind]. eauto 10.
Qed.

(** C6: the page keeps exactly one start cell and one end cell, both
    inside the grid and neither a wall.  The invariant holds when the page
    opens, whatever the viewport, and every event preserves it, the resize
    with its clamping of the two positions included; while a run is played
    back no event touches the grid or the two positions; setting a wall at
    the start or at the end leaves the state as it is, and so does dragging
    the start or the end onto a wall cell. *)
Theorem start_and_end_never_walls :
  (∀ vc vr, invariant (calculateGridSize vc vr initialState))
  ∧ (∀ (st : State) (ev : Event) (fuel : nat) (rnd : nat → Z),
       invariant st → eventInGrid st ev →
       (enoughFuel st.(ROWS) st.(COLS) ≤ fuel)%nat →
       ∃ st', handle fuel rnd ev st = Ok st' ∧ invariant st')
  ∧ (∀ (st : State) (ev : Event) (fuel : nat) (rnd : nat → Z),
       st.(isRunning) = true →
       ∃ st', handle fuel rnd ev st = Ok st'
         ∧ st'.(ROWS) = st.(ROWS) ∧ st'.(COLS) = st.(COLS)
         ∧ st'.(gridArray) = st.(gridArray)
         ∧ st'.(startPos) = st.(startPos) ∧ st'.(endPos) = st.(endPos)
         ∧ st'.(isRunning) = true)
  ∧ (∀ (st : State) (b : bool),
       addWall st.(startPos).1 st.(startPos).2 b st = Ok st
       ∧ addWall st.(endPos).1 st.(endPos).2 b st = Ok st)
  ∧ (∀ (st : State) (i j : Z),
       wallAt st.(gridArray) (i, j) = true → st.(draggingNode) ≠ None →
       handleMouseEnter i j st = Ok st).
Proof.
  split_and!.
  - intros vc vr. by apply invariant_calculateGridSize.
  - intros st ev fuel rnd. apply handle_invariant.
  - intros st ev fuel rnd. apply handle_running.
  - apply addWall_special.
  - apply drag_onto_wall.
Qed.

Lemma start_and_end_never_walls_witness :
  ∃ st', handle 127 (λ n, Z.of_nat n) (Resize 3 40)
           (calculateGridSize 5 5 initialState) = Ok st'
         ∧ invariant st'.
Proof.
  destruct start_and_end_never_walls as (Hinit & Hstep & _).
  apply (Hstep (calculateGridSize 5 5 initialState) (Resize 3 40) 127%nat).
  - apply Hinit.
  - exact I.
  - vm_compute. lia.
Defined.

(** C7: on every grid of at least five by five cells and for every
    sequence of random draws, each of the three maze generators, started
    from the maze selector, finishes with neither the start cell nor the
    end cell marked as a wall. *)
Theorem generators_spare_start_and_end (st : State) (rnd : nat → Z)
    (type : MazeType) (fuel : nat) :
  wellFormed st → 5 ≤ st.(ROWS) → 5 ≤ st.(COLS) →
  (enoughFuel st.(ROWS) st.(COLS) ≤ fuel)%nat →
  ∃ st',
    handleMazeGen fuel rnd (Some type) st = Ok st'
    ∧ st'.(startPos) = st.(startPos) ∧ st'.(endPos) = st.(endPos)
    ∧ wallAt st'.(gridArray) st.(startPos) = false
    ∧ wallAt st'.(gridArray) st.(endPos) = false.
Proof.
  intros Hwell HR HC Hfuel.
  destruct (handleMazeGen_some fuel rnd type st Hwell HR HC Hfuel)
    as (st' & Hrun & (_ & _ & _ & Hws & Hwe) & _ & _ & Hss & Hse).
  exists st'. rewrite <- Hss, <- Hse. split_and!; done.
Qed.

Lemma generators_spare_start_and_end_witness :
  ∃ st',
    handleMazeGen 127 (λ n, Z.of_nat n * 7 + 3) (Some MazeRandom)
      (calculateGridSize 5 5 initialState) = Ok st'
    ∧ st'.(startPos) = (4, 4) ∧ st'.(endPos) = (4, 4)
    ∧ wallAt st'.(gridArray) (4, 4) = false
    ∧ wallAt st'.(gridArray) (4, 4) = false.
Proof.
  apply (generators_spare_start_and_end (calculateGridSize 5 5 initialState)
           (λ n, Z.of_nat n * 7 + 3) MazeRandom 127%nat).
  - unfold wellFormed. simpl.
    split_and!; try (unfold inBounds; simpl; lia); try reflexivity.
    apply wfGrid_createGrid.
  - simpl. lia.
  - simpl. lia.
  - vm_compute. lia.
Defined.

(** C8: recursive division returns at once, placing no wall and drawing
    no random number, when either extent of the sub-rectangle it is given
    is below 2; and on every grid of the page no maze generator reads or
    writes a cell outside the grid: each one finishes without an exception
    and leaves a well-formed grid of the same dimensions. *)
Theorem generators_stay_in_grid :
  (∀ (fuel : nat) (rnd : nat → Z) (rStart rEnd cStart cEnd : Z) (st : State),
     rEnd - rStart < 2 ∨ cEnd - cStart < 2 →
     recursiveDivision (S fuel) rnd rStart rEnd cStart cEnd st = Ok st)
  ∧ (∀ (st : State) (rnd : nat → Z) (type : MazeType) (fuel : nat),
       wellFormed st → 5 ≤ st.(ROWS) → 5 ≤ st.(COLS) →
       (enoughFuel st.(ROWS) st.(COLS) ≤ fuel)%nat →
       ∃ st', handleMazeGen fuel rnd (Some type) st = Ok st'
              ∧ st'.(ROWS) = st.(ROWS) ∧ st'.(COLS) = st.(COLS)
              ∧ wfGrid st.(ROWS) st.(COLS) st'.(gridArray)).
Proof.
  split.
  - intros fuel rnd rStart rEnd cStart cEnd st Hsmall.
    cbn [recursiveDivision]. by rewrite decide_True.
  - intros st rnd type fuel Hwell HR HC Hfuel.
    destruct (handleMazeGen_some fuel rnd type st Hwell HR HC Hfuel)
      as (st' & Hrun & ((Hwf & _) & _) & HsR & HsC & _).
    rewrite HsR, HsC in Hwf. exists st'. split_and!; done.
Qed.

Lemma generators_stay_in_grid_witness :
  recursiveDivision 1 (λ n, Z.of_nat n) 1 2 1 7 (calculateGridSize 9 9 initialState)
    = Ok (calculateGridSize 9 9 initialState)
  ∧ ∃ st', handleMazeGen 407 (λ n, Z.of_nat n * 7 + 3) (Some MazeSpiral)
             (calculateGridSize 9 9 initialState) = Ok st'
           ∧ st'.(ROWS) = 9 ∧ st'.(COLS) = 9
           ∧ wfGrid 9 9 st'.(gridArray).
Proof.
  destruct generators_stay_in_grid as [Hbase Hall]. split.
  - apply Hbase. lia.
  - apply (Hall (calculateGridSize 9 9 initialState) (λ n, Z.of_nat n * 7 + 3)
             MazeSpiral 407%nat).
    + unfold wellFormed. simpl.
      split_and!; try (unfold inBounds; simpl; lia); try reflexivity.
      apply wfGrid_createGrid.
    + simpl. lia.
    + simpl. lia.
    + vm_compute. lia.
Defined.

(** The bound on the grid size matters for the spiral only: on a grid of
    four rows, which [calculateGridSize] never builds, its last edge loop
    starts one row below the grid. *)
Example spiral_on_four_rows :
  generateSpiralPattern 10
    (mkState 4 5 (createGrid 4 5) false false Pointer None (0, 0) (3, 4) 0)
  = TypeError.
Proof. vm_compute. reflexivity. Qed.

(** * The tree of backpointers that a search leaves *)

(** ** Chains of linked cells *)

Lemma manhattan_zero u v : manhattan u v = 0 → u = v.
Proof.
  destruct u as [a b], v as [a' b']. unfold manhattan. simpl. intros H.
  f_equal; lia.
Qed.

Lemma linked_snoc E l p x :
  linked E l → last l = Some p → E p x → linked E (l ++ [x]).
Proof.
  intros Hl Hlast Hpx i a b Ha Hb.
  assert (Hi : (S i < length l + 1)%nat).
  { apply lookup_lt_Some in Hb. rewrite length_app in Hb. simpl in Hb. lia. }
  destruct (decide (S i < length l)%nat) as [Hlt|Hge].
  - rewrite lookup_app_l in Ha by lia. rewrite lookup_app_l in Hb by lia.
    by eapply Hl.
  - rewrite lookup_app_l in Ha by lia. rewrite lookup_app_r in Hb by lia.
    replace (S i - length l)%nat with 0%nat in Hb by lia.
    simpl in Hb. inversion Hb; subst b.
    rewrite last_lookup in Hlast. replace (pred (length l)) with i in Hlast by lia.
    rewrite Ha in Hlast. by inversion Hlast; subst.
Qed.

Lemma linked_tail E x l : linked E (x :: l) → linked E l.
Proof. intros Hl i a b Ha Hb. by apply (Hl (S i) a b). Qed.

(** A chain of moves that starts on a free cell is a path. *)
Lemma linked_gridPath rows cols g l a :
  linked (edge rows cols (wallAt g)) l → head l = Some a →
  freeCell rows cols g a → gridPath rows cols g l.
Proof.
  revert a. induction l as [|x l IH]; intros a Hl Hh Ha; [done|].
  simpl in Hh. inversion Hh; subst x. cbn [gridPath]. split; [done|].
  destruct l as [|y l]; [done|].
  assert (Hay : edge rows cols (wallAt g) a y) by (by apply (Hl 0%nat a y)).
  apply edge_spec in Hay as (Hyb & Hm & Hyw); [|apply Ha].
  split; [done|]. apply (IH y); [by eapply linked_tail|done|by split].
Qed.

(** Following the backpointers from a cell of the trace collects a chain
    of moves without repetition, made of cells that occur in the trace no
    later than the cell one started from; the chain begins at a cell without
    backpointer. *)
Lemma reconstruct_chain E g T :
  backward g T → (∀ x p, prevAt g x = Some p → E p x) →
  ∀ (n j : nat) x acc l,
    T !! j = Some x → reconstruct n g (Some x) acc = Ok l →
    ∃ ch y, l = ch ++ acc ∧ head ch = Some y ∧ last ch = Some x
      ∧ prevAt g y = None ∧ linked E ch ∧ NoDup ch
      ∧ ∀ z, z ∈ ch → ∃ i, (i ≤ j)%nat ∧ T !! i = Some z.
Proof.
  intros Hback Hlink. induction n as [|n IH]; intros j x acc l Hj Hrun; [done|].
  cbn [reconstruct] in Hrun.
  destruct (g !! x) as [nd|] eqn:Hnd; [|done]. cbn [deref mbind outcome_bind] in Hrun.
  destruct (previousNode nd) as [p|] eqn:Hp.
  - assert (Hpx : prevAt g x = Some p) by (unfold prevAt; by rewrite Hnd).
    destruct (Hback x p Hpx) as (j' & Hj' & Hbefore).
    assert (Hlt : (j' < j)%nat).
    { destruct (decide (j' < j)%nat); [done|]. exfalso. apply (Hbefore j); [lia|done]. }
    destruct (IH j' p (x :: acc) l Hj' Hrun)
      as (ch & y & -> & Hhead & Hlast & Hy & Hch & Hnd' & Hidx).
    exists (ch ++ [x]), y. split_and!.
    + by rewrite <- app_assoc.
    + destruct ch; [done|done].
    + by rewrite last_snoc.
    + done.
    + eapply linked_snoc; [done|done|]. by apply Hlink.
    + apply NoDup_app. split_and!; [done| |apply NoDup_singleton].
      intros z Hz Hz'. apply list_elem_of_singleton in Hz'. subst z.
      destruct (Hidx x Hz) as (i & Hi & Hxi). by apply (Hbefore i).
    + intros z [Hz|Hz]%elem_of_app.
      * destruct (Hidx z Hz) as (i & Hi & Hzi). exists i. split; [lia|done].
      * apply list_elem_of_singleton in Hz. subst z. exists j. split; [lia|done].
  - rewrite reconstruct_None in Hrun. inversion Hrun; subst l.
    exists [x], x. split_and!; try done.
    + unfold prevAt. by rewrite Hnd.
    + apply NoDup_singleton.
    + intros z Hz. apply list_elem_of_singleton in Hz. subst z. exists j. done.
Qed.

(** ** The tree left by BFS and DFS *)

Section FrontierTree.
Variables (rows cols : Z) (g0 : gmap Pos Node) (s e : Pos).
Local Abbreviation E := (edge rows cols (wallAt g0)).

Lemma frontierInv_links g F T :
  frontierInv rows cols (wallAt g0) s e g F T → linkInv rows cols (wallAt g0) g.
Proof.
  intros (Hwf & Hwalls & Hvis & Hnd & He & Hback & Hps & Hvs & Hprev & Hnone & Hclosed)
    x p Hx.
  destruct (visitedAt g x) eqn:Hv.
  - destruct (decide (x = s)) as [->|Hxs]; [congruence|].
    destruct (Hprev x Hv Hxs) as (p' & Hp' & _ & Hedge). congruence.
  - rewrite (Hnone x Hv) in Hx. done.
Qed.

Lemma frontierInv_root g F T x :
  frontierInv rows cols (wallAt g0) s e g F T →
  visitedAt g x = true → prevAt g x = None → x = s.
Proof.
  intros (Hwf & Hwalls & Hvis & Hnd & He & Hback & Hps & Hvs & Hprev & Hnone & Hclosed)
    Hv Hx.
  destruct (decide (x = s)) as [->|Hxs]; [done|].
  destruct (Hprev x Hv Hxs) as (p' & Hp' & _). congruence.
Qed.

Lemma frontierInv_tree res :
  match res.(exit) with
  | FrontierEmpty =>
      frontierInv rows cols (wallAt g0) s e res.(heap) [] res.(visitedNodes)
  | FoundEnd =>
      ∃ F T, frontierInv rows cols (wallAt g0) s e res.(heap) F T
             ∧ e ∈ F ∧ res.(visitedNodes) = T ++ [e]
  end →
  searchTree rows cols g0 s res.
Proof.
  destruct (exit res) eqn:Hexit.
  - intros (F & T & HI & HeF & Htrace).
    pose proof HI as
      (Hwf & Hwalls & Hvis & Hnd & HeT & Hback & Hps & Hvs & Hprev & Hnone & Hclosed).
    assert (Hv : ∀ x, x ∈ visitedNodes res → visitedAt (heap res) x = true).
    { intros x. rewrite Htrace, elem_of_app, elem_of_cons, elem_of_nil.
      intros [Hx|[->|[]]]; apply Hvis; [by left|by right]. }
    unfold searchTree. rewrite Htrace. split_and!.
    + by apply backward_app.
    + by eapply frontierInv_links.
    + intros x Hx. rewrite <- Htrace in Hx. eapply frontierInv_root; [done|by apply Hv].
    + intros x Hx. rewrite <- Htrace in Hx. eapply frontierInv_reach; [done|by apply Hv].
    + intros Hx. congruence.
    + apply NoDup_app in Hnd as (HndT & Hdis & _).
      apply NoDup_app. split_and!; [done| |apply NoDup_singleton].
      intros x Hx Hx'. apply list_elem_of_singleton in Hx'. subst x.
      by apply (Hdis e).
  - intros HI.
    pose proof HI as
      (Hwf & Hwalls & Hvis & Hnd & HeT & Hback & Hps & Hvs & Hprev & Hnone & Hclosed).
    assert (Hv : ∀ x, x ∈ visitedNodes res → visitedAt (heap res) x = true).
    { intros x Hx. apply Hvis. by left. }
    unfold searchTree. split_and!.
    + done.
    + by eapply frontierInv_links.
    + intros x Hx. eapply frontierInv_root; [done|by apply Hv].
    + intros x Hx. eapply frontierInv_reach; [done|by apply Hv].
    + intros _. by destruct (frontierInv_exhausted rows cols (wallAt g0) s e _ _ HI).
    + by rewrite app_nil_r in Hnd.
Qed.
End FrontierTree.

(** ** The tree left by A-star *)

Section AstarTree.
Variables (rows cols : Z) (walls : Pos → bool) (e : Pos).

(** The relaxation loop links a cell to [cur] only across a move. *)
Lemma relaxNeighbors_links g cur nd g' O O' :
  wfGrid rows cols g → (∀ p, wallAt g p = walls p) → inBounds rows cols e →
  g !! cur = Some nd →
  linkInv rows cols walls g →
  relaxNeighbors cur e (getNeighbors rows cols nd)
    (<[cur := set_isVisited true nd]> g) O = Ok (g', O') →
  linkInv rows cols walls g'.
Proof.
  intros Hwf Hwalls He Hcur Hlink Hrun.
  set (g1 := <[cur := set_isVisited true nd]> g) in *.
  set (ns := getNeighbors rows cols nd) in *.
  destruct (wfGrid_inBounds _ _ _ _ _ Hwf Hcur) as [Hcurb Hrc].
  assert (Hwf1 : wfGrid rows cols g1) by (by eapply wfGrid_insert).
  assert (Hv1 : visitedAt g1 cur = true).
  { unfold g1. by rewrite visitedAt_insert, decide_True. }
  assert (Hns : ∀ n, n ∈ ns → inBounds rows cols n).
  { intros n Hn. eapply getNeighbors_inBounds; [|done]. by rewrite Hrc. }
  destruct (relaxNeighbors_spec rows cols cur e ns g1 O Hwf1 Hcurb He Hns Hv1)
    as (g2 & O2 & Hrun' & _ & _ & _ & Hupd & Hframe & _).
  rewrite Hrun in Hrun'. inversion Hrun'; subst g2 O2. clear Hrun'.
  assert (Hp1 : ∀ p, prevAt g1 p = prevAt g p).
  { intros p. unfold g1. rewrite prevAt_insert. case_decide; [|done].
    subst. unfold prevAt. by rewrite Hcur. }
  assert (Hwall1 : ∀ p, wallAt g1 p = wallAt g p).
  { intros p. unfold g1. rewrite wallAt_insert. case_decide; [|done].
    subst. unfold wallAt. by rewrite Hcur. }
  intros x p Hx.
  assert (Hdec : improves ns g1 cur x ∨ ¬ improves ns g1 cur x).
  { unfold improves.
    destruct (decide (x ∈ ns)); [|right; tauto].
    destruct (wallAt g1 x); [right; intros (_ & ? & _); done|].
    destruct (visitedAt g1 x); [right; intros (_ & _ & ? & _); done|].
    destruct (num_lt (num_add (gAt g1 cur) 1) (gAt g1 x));
      [left; done|right; intros (_ & _ & _ & ?); done]. }
  destruct Hdec as [Hi|Hi].
  - destruct (Hupd x Hi) as (_ & _ & Hpx & _).
    rewrite Hpx in Hx. inversion Hx; subst p.
    destruct Hi as (Hxn & Hw & _).
    apply (edge_node rows cols walls g cur x nd Hwf Hcur).
    split; [done|]. by rewrite <- Hwalls, <- Hwall1.
  - apply Hlink. rewrite <- Hp1. unfold prevAt in *. by rewrite <- (Hframe x Hi).
Qed.
End AstarTree.

Section AstarTreeRun.
Variables (rows cols : Z) (g0 : gmap Pos Node) (s e : Pos) (fuel : nat).
Hypothesis Hwf : wfGrid rows cols g0.
Hypothesis Hs : inBounds rows cols s.
Hypothesis He : inBounds rows cols e.
Hypothesis Hfuel : (enoughFuel rows cols ≤ fuel)%nat.

Local Abbreviation E := (edge rows cols (wallAt g0)).

(** Every backpointer that [astar] leaves is a move. *)
Lemma astar_links res :
  astar fuel rows cols (resetVisuals g0) s e = Ok res →
  linkInv rows cols (wallAt g0) res.(heap).
Proof.
  pose proof (wfGrid_resetVisuals _ _ _ Hwf) as Hwfr.
  destruct (wfGrid_lookup _ _ _ _ Hwfr Hs) as (sn & Hsn & Hsrc).
  set (ga := <[s := set_gCost (Fin 0) sn]> (resetVisuals g0)).
  assert (Hwfa : wfGrid rows cols ga) by (by eapply wfGrid_insert).
  destruct (wfGrid_lookup _ _ _ _ Hwfa He) as (en & Hen & Herc).
  assert (Hsa : ga !! s = Some (set_gCost (Fin 0) sn)) by apply lookup_insert_eq.
  unfold astar. rewrite Hsn. cbn [deref mbind outcome_bind].
  fold ga. rewrite Hsa. cbn [deref mbind outcome_bind].
  rewrite Hen. cbn [deref mbind outcome_bind].
  set (gb := <[s := _]> ga).
  assert (Hsw : sn.(isWall) = wallAt g0 s).
  { pose proof (wallAt_resetVisuals g0 s) as H3.
    unfold wallAt in H3 at 1. by rewrite Hsn in H3. }
  assert (Hsp : sn.(previousNode) = None).
  { pose proof (prevAt_resetVisuals g0 s) as H2.
    unfold prevAt in H2. by rewrite Hsn in H2. }
  destruct (astar_loop_rule rows cols e
              (λ h O T, (wfGrid rows cols h ∧ (∀ p, wallAt h p = wallAt g0 p)
                         ∧ inBounds rows cols e
                         ∧ ∀ p, p ∈ O → inBounds rows cols p)
                        ∧ linkInv rows cols (wallAt g0) h)) with
    (fuel := fuel) (g := gb) (O := [s]) (T := @nil Pos)
    as (res' & Hres' & Hexit).
  - intros h O T ((Hwfh & _ & _ & HO) & _). done.
  - intros h O T cur O' ((Hwfh & Hw & _ & HO) & Hl) Hsort _.
    destruct (sortOpenSet_spec rows cols h O Hwfh HO) as (S & Hsort' & Hperm & _).
    rewrite Hsort in Hsort'. inversion Hsort'; subst S.
    split_and!; try done. intros p Hp. apply HO. rewrite <- Hperm. by right.
  - intros h O T cur O' nd h' O'' ((Hwfh & Hw & _ & HO) & Hl) Hsort Hcur Hunv Hne Hrun.
    destruct (sortOpenSet_spec rows cols h O Hwfh HO) as (S & Hsort' & Hperm & _).
    rewrite Hsort in Hsort'. inversion Hsort'; subst S.
    destruct (wfGrid_inBounds _ _ _ _ _ Hwfh Hcur) as [Hcurb Hrc].
    assert (Hwf1 : wfGrid rows cols (<[cur := set_isVisited true nd]> h))
      by (by eapply wfGrid_insert).
    assert (Hns : ∀ n, n ∈ getNeighbors rows cols nd → inBounds rows cols n).
    { intros n Hn. eapply getNeighbors_inBounds; [|done]. by rewrite Hrc. }
    destruct (relaxNeighbors_spec rows cols cur e (getNeighbors rows cols nd)
                (<[cur := set_isVisited true nd]> h) O' Hwf1 Hcurb He Hns)
      as (h2 & O2 & Hrun' & Hwf2 & Hw2 & _ & _ & _ & _ & Hsup & _).
    { by rewrite visitedAt_insert, decide_True. }
    rewrite Hrun in Hrun'. inversion Hrun'; subst h2 O2.
    split_and!; try done.
    + intros p. rewrite Hw2, wallAt_insert. case_decide as Hp; [|apply Hw].
      subst. simpl. rewrite <- Hw. unfold wallAt. by rewrite Hcur.
    + intros p Hp. destruct (Hsup p Hp) as [Hp'|(Hp' & _)]; [|by apply Hns].
      apply HO. rewrite <- Hperm. by right.
    + exact (relaxNeighbors_links rows cols (wallAt g0) e h cur nd h' O' O''
               Hwfh Hw He Hcur Hl Hrun).
  - split_and!.
    + by eapply wfGrid_insert.
    + intros p. unfold gb, ga. rewrite !wallAt_insert.
      case_decide as Hp; [by subst|]. apply wallAt_resetVisuals.
    + done.
    + intros p Hp. apply list_elem_of_singleton in Hp. by subst.
    + intros x p. unfold gb, ga. rewrite !prevAt_insert.
      case_decide; [simpl; by rewrite Hsp|]. by rewrite prevAt_resetVisuals.
  - pose proof (unvisited_le_length gb (cellsOf rows cols)) as H.
    rewrite length_cellsOf in H. rewrite (enoughFuel_cells rows cols s Hs) in Hfuel.
    simpl. lia.
  - intros Hrun. rewrite Hres' in Hrun. inversion Hrun; subst res'.
    destruct (exit res).
    + destruct Hexit as (g' & O' & O'' & T' & nd & (_ & Hl) & _ & Hnd & _ & Hheap & _).
      intros x p. rewrite Hheap, prevAt_insert.
      case_decide as Hx; [|apply Hl]. subst x. simpl.
      intros Hp. apply Hl. unfold prevAt. by rewrite Hnd.
    + apply Hexit.
Qed.

(** The heap and the trace of [astar]: the tree of backpointers, and
    the [gCost] of every cell of the trace is its distance from the
    start. *)
Lemma astar_tree :
  ∃ res, astar fuel rows cols (resetVisuals g0) s e = Ok res
    ∧ searchTree rows cols g0 s res
    ∧ ∀ x, x ∈ res.(visitedNodes) →
        ∃ k : nat, gAt res.(heap) x = Fin (Z.of_nat k) ∧ dist E s x k
          ∧ ∀ d, dist E s e d → Z.of_nat k + manhattan x e ≤ Z.of_nat d.
Proof.
  destruct (astar_total rows cols g0 s e fuel Hwf Hs He Hfuel) as (res & Hrun & Hpost).
  pose proof (astar_links res Hrun) as Hlinks.
  exists res. split; [done|]. destruct (exit res) eqn:Hexit.
  - destruct Hpost as (g' & O' & O'' & T' & nd & HI & Hsort & Hnd & Hunv & Hheap & Htrace).
    pose proof HI as (Hwf' & _ & _ & Hwalls & Hvis & HndT & HeT & Hback & Hgs & Hps
                      & Hfin & Hclosed & Hrelax & HO).
    assert (Hprevh : ∀ x, prevAt (heap res) x = prevAt g' x).
    { intros x. rewrite Hheap, prevAt_insert. case_decide; [|done].
      subst. unfold prevAt. by rewrite Hnd. }
    assert (Hgh : ∀ x, gAt (heap res) x = gAt g' x).
    { intros x. rewrite Hheap, gAt_insert. case_decide; [|done].
      subst. unfold gAt. by rewrite Hnd. }
    destruct (astarInv_found rows cols (wallAt g0) s e g' O' T' O'' nd HI Hsort Hnd Hunv)
      as (k & Hk & Hd & Hlow).
    assert (Hg : ∀ x, x ∈ visitedNodes res →
              ∃ k : nat, gAt g' x = Fin (Z.of_nat k) ∧ dist E s x k
                ∧ ∀ d, dist E s e d → Z.of_nat k + manhattan x e ≤ Z.of_nat d).
    { intros x. rewrite Htrace, elem_of_app, elem_of_cons, elem_of_nil.
      intros [Hx|[->|[]]].
      - destruct (Hclosed x Hx) as (kx & Hkx & Hdx & Hb). eauto.
      - exists k. split_and!; [done|done|]. intros d Hd'.
        rewrite (dist_unique _ _ _ _ _ Hd' Hd), manhattan_self. lia. }
    split.
    + unfold searchTree. rewrite Hexit. split_and!.
      * rewrite Htrace. apply backward_app. intros x p Hx.
        rewrite Hprevh in Hx. by apply Hback.
      * done.
      * intros x Hx Hp. destruct (Hg x Hx) as (kx & Hkx & _ & _).
        destruct (decide (x = s)) as [Hxs|Hxs]; [done|].
        destruct (Hfin x _ Hkx) as (k0 & _ & _ & _ & _ & Hpx).
        destruct (Hpx Hxs) as (p & k' & Hp' & _). rewrite Hprevh in Hp. congruence.
      * intros x Hx. destruct (Hg x Hx) as (kx & _ & [Hw _] & _). eauto.
      * done.
      * rewrite Htrace. apply NoDup_app. split_and!; [done| |apply NoDup_singleton].
        intros x Hx Hx'. apply list_elem_of_singleton in Hx'. by subst.
    + intros x Hx. destruct (Hg x Hx) as (kx & Hkx & Hdx & Hb). exists kx.
      by rewrite Hgh.
  - pose proof Hpost as (Hwf' & _ & _ & Hwalls & Hvis & HndT & HeT & Hback & Hgs & Hps
                         & Hfin & Hclosed & Hrelax & HO).
    destruct (astarInv_exhausted rows cols (wallAt g0) s e _ _ Hpost) as [Hall Hev].
    split.
    + unfold searchTree. rewrite Hexit. split_and!; try done.
      * intros x Hx Hp. destruct (Hclosed x Hx) as (kx & Hkx & _).
        destruct (decide (x = s)) as [Hxs|Hxs]; [done|].
        destruct (Hfin x _ Hkx) as (k0 & _ & _ & _ & _ & Hpx).
        destruct (Hpx Hxs) as (p & k' & Hp' & _). congruence.
      * intros x Hx. by eapply astarInv_reach.
    + intros x Hx. destruct (Hclosed x Hx) as (kx & Hkx & Hdx & Hb). eauto.
Qed.
End AstarTreeRun.

(** ** The three searches *)

Section Trees.
Variables (rows cols : Z) (g0 : gmap Pos Node) (s e : Pos) (fuel : nat).
Hypothesis Hwf : wfGrid rows cols g0.
Hypothesis Hs : inBounds rows cols s.
Hypothesis He : inBounds rows cols e.
Hypothesis Hfuel : (enoughFuel rows cols ≤ fuel)%nat.

Local Abbreviation E := (edge rows cols (wallAt g0)).

Lemma search_tree algo :
  ∃ res, search algo fuel rows cols (resetVisuals g0) s e = Ok res
    ∧ searchPost rows cols g0 e res
    ∧ searchTree rows cols g0 s res.
Proof.
  destruct algo; simpl.
  - destruct (bfs_total rows cols g0 s e fuel Hwf Hs Hfuel) as (res & Hrun & Hpost).
    assert (Hshape : match res.(exit) with
      | FrontierEmpty =>
          frontierInv rows cols (wallAt g0) s e res.(heap) [] res.(visitedNodes)
      | FoundEnd =>
          ∃ F T, frontierInv rows cols (wallAt g0) s e res.(heap) F T
                 ∧ e ∈ F ∧ res.(visitedNodes) = T ++ [e]
      end).
    { destruct (exit res); [|apply Hpost].
      destruct Hpost as (Q & T & [HI _] & Htrace). exists (e :: Q), T.
      split_and!; [done|by left|done]. }
    exists res. split_and!; [done| |by eapply frontierInv_tree].
    eapply frontierInv_post. exact Hshape.
  - destruct (dfs_total rows cols g0 s e fuel Hwf Hs Hfuel) as (res & Hrun & Hpost).
    assert (Hshape : match res.(exit) with
      | FrontierEmpty =>
          frontierInv rows cols (wallAt g0) s e res.(heap) [] res.(visitedNodes)
      | FoundEnd =>
          ∃ F T, frontierInv rows cols (wallAt g0) s e res.(heap) F T
                 ∧ e ∈ F ∧ res.(visitedNodes) = T ++ [e]
      end).
    { destruct (exit res); [|apply Hpost].
      destruct Hpost as (S & T & HI & Htrace). exists (S ++ [e]), T.
      split_and!; [done| |done]. apply elem_of_app. right. by left. }
    exists res. split_and!; [done| |by eapply frontierInv_tree].
    eapply frontierInv_post. exact Hshape.
  - destruct (astar_summary rows cols g0 s e fuel Hwf Hs He Hfuel)
      as (res & Hrun & Hpost & _).
    destruct (astar_tree rows cols g0 s e fuel Hwf Hs He Hfuel)
      as (res' & Hrun' & Htree & _).
    rewrite Hrun in Hrun'. inversion Hrun'; subst res'. eauto.
Qed.

(** BFS finalises the cells in the order of their distance from the
    start. *)
Lemma bfs_sorted :
  ∃ res, bfs fuel rows cols (resetVisuals g0) s e = Ok res
    ∧ levelSorted rows cols (wallAt g0) s res.(visitedNodes)
    ∧ ∀ x, x ∈ res.(visitedNodes) → ∃ d, dist E s x d.
Proof.
  destruct (wfGrid_lookup _ _ _ _ (wfGrid_resetVisuals _ _ _ Hwf) Hs) as (sn & Hsn & _).
  unfold bfs. rewrite Hsn. cbn [deref mbind outcome_bind].
  destruct (bfs_loop_rule rows cols e
              (λ g Q T, bfsInv rows cols (wallAt g0) s e g Q T
                        ∧ levelSorted rows cols (wallAt g0) s T)) with
    (fuel := fuel) (g := <[s := set_isVisited true sn]> (resetVisuals g0))
    (Q := [s]) (T := @nil Pos) as (res & Hres & Hexit).
  - intros g F T [[HF _] _]. by eapply frontierInv_wf.
  - intros g cur Q T nd g' Q' [HI Hsorted] Hne Hcur Hrun. split.
    + by eapply bfsInv_step.
    + destruct HI as [_ (_ & _ & _ & Hbefore & _)].
      apply StronglySorted_app_2; [|done|repeat constructor].
      intros x y Hx Hy dx dy Hdx Hdy. apply list_elem_of_singleton in Hy. subst y.
      eapply (Hbefore x cur); [done|by left|done|done].
  - split; [split|constructor].
    + by apply frontierInv_init.
    + apply levelInv_init.
      * intros x. rewrite visitedAt_insert. case_decide; [done|].
        by rewrite visitedAt_resetVisuals.
      * intros x. rewrite prevAt_insert. case_decide as Hx; [|apply prevAt_resetVisuals].
        simpl. pose proof (prevAt_resetVisuals g0 s) as H.
        unfold prevAt in H. by rewrite Hsn in H.
  - by apply start_state.
  - exists res. split; [done|]. destruct (exit res).
    + destruct Hexit as (Q & T & [HI Hsorted] & ->).
      pose proof HI as [(_ & _ & Hvis & _) (Hd & _ & _ & Hbefore & _)]. split.
      * apply StronglySorted_app_2; [|done|repeat constructor].
        intros x y Hx Hy dx dy Hdx Hdy. apply list_elem_of_singleton in Hy. subst y.
        eapply (Hbefore x e); [done|by left|done|done].
      * intros x Hx. apply Hd, Hvis.
        rewrite elem_of_app, elem_of_cons, elem_of_nil in Hx.
        destruct Hx as [Hx|[->|[]]]; [by left|right; by left].
    + destruct Hexit as [[(_ & _ & Hvis & _) (Hd & _)] Hsorted]. split; [done|].
      intros x Hx. apply Hd, Hvis. by left.
Qed.
End Trees.

(** ** A whole run, taken apart *)

Section RunAnatomy.
Variables (st : State) (fuel : nat).
Hypothesis Hst : wellFormed st.
Hypothesis Hfuel : (enoughFuel st.(ROWS) st.(COLS) ≤ fuel)%nat.

Local Abbreviation E := (edge st.(ROWS) st.(COLS) (wallAt st.(gridArray))).

Lemma run_anatomy algo :
  ∃ res run,
    search algo fuel st.(ROWS) st.(COLS) (resetVisuals st.(gridArray))
      st.(startPos) st.(endPos) = Ok res
    ∧ startVisualization fuel algo st
        = Ok (set_isRunning false (set_gridArray res.(heap) st), Some run)
    ∧ run.(trace) = res.(visitedNodes)
    ∧ run.(exitKind) = res.(exit)
    ∧ run.(finalHeap) = res.(heap)
    ∧ searchPost st.(ROWS) st.(COLS) st.(gridArray) st.(endPos) res
    ∧ searchTree st.(ROWS) st.(COLS) st.(gridArray) st.(startPos) res
    ∧ run.(pathLen) = (if run.(success) then length run.(path) else 0%nat)
    ∧ run.(panel) = showResults (length run.(trace)) run.(pathLen) run.(success)
    ∧ reconstruct fuel res.(heap) (Some st.(endPos)) [] = Ok run.(path)
    ∧ last run.(path) = Some st.(endPos)
    ∧ match res.(exit) with
      | FoundEnd =>
          head run.(path) = Some st.(startPos)
          ∧ linked E run.(path) ∧ NoDup run.(path)
          ∧ (∀ z, z ∈ run.(path) → z ∈ run.(trace))
          ∧ run.(success) = negb (wallAt st.(gridArray) st.(endPos))
      | FrontierEmpty => run.(success) = false
      end.
Proof.
  pose proof Hst as (Hwf & Hs & He & Hidle).
  destruct (search_tree _ _ _ _ _ fuel Hwf Hs He Hfuel algo) as (res & Hres & Hpost & Htree).
  destruct (animate_after_search _ _ _ _ _ fuel Hs He Hfuel res Hpost)
    as (run & Hrun & Htrace & Hexit & Hheap & Hpath & Hlast & Hsucc & Hlen & Hpanel).
  exists res, run. split; [done|]. split.
  { unfold startVisualization. rewrite Hidle, Hres. cbn [mbind outcome_bind].
    rewrite Hrun. cbn [mbind outcome_bind]. by rewrite Hheap. }
  rewrite Htrace. split_and!; try done.
  pose proof Hpost as (_ & _ & _ & Hfound & Hempty).
  destruct Htree as (Hback & Hlinks & Hroot & _).
  destruct (exit res) eqn:Hex.
  - destruct (Hfound eq_refl) as [HeT Hv].
    apply list_elem_of_lookup in HeT as (j & Hj).
    destruct (reconstruct_chain E (heap res) (visitedNodes res) Hback Hlinks
                fuel j (endPos st) [] (path run) Hj Hpath)
      as (ch & y & Hch & Hhead & _ & Hy & Hlinked & Hnd & Hidx).
    rewrite app_nil_r in Hch. subst ch.
    assert (Hin : ∀ z, z ∈ path run → z ∈ visitedNodes res).
    { intros z Hz. destruct (Hidx z Hz) as (i & _ & Hi).
      by eapply list_elem_of_lookup_2. }
    assert (y = startPos st).
    { apply Hroot; [|done]. apply Hin. destruct (path run); [done|].
      simpl in Hhead. inversion Hhead. by left. }
    subst y. split_and!; try done.
    rewrite Hsucc, Hhead, Hv. rewrite bool_decide_eq_true_2 by done.
    by rewrite andb_true_r.
  - destruct (Hempty eq_refl) as [_ Hv]. rewrite Hsucc, Hv. apply andb_false_r.
Qed.
End RunAnatomy.

(** * Further properties of a run *)

(** ** Chains, walks and paths *)

Lemma linked_app_l E l k : linked E (l ++ k) → linked E l.
Proof.
  intros Hl i a b Ha Hb. apply (Hl i a b); by apply lookup_app_l_Some.
Qed.

Lemma linked_walk E l a b :
  linked E l → head l = Some a → last l = Some b → walk E a b (length l - 1).
Proof.
  revert b. induction l as [|x l IH] using rev_ind; intros b Hl Hh Hlast; [done|].
  rewrite last_snoc in Hlast. inversion Hlast; subst x.
  destruct l as [|y l].
  - simpl in Hh. inversion Hh; subst. constructor.
  - simpl in Hh. inversion Hh; subst y.
    destruct (last (a :: l)) as [p|] eqn:Hp.
    2:{ apply last_None in Hp. done. }
    replace (length ((a :: l) ++ [b]) - 1)%nat with (S (length (a :: l) - 1))
      by (rewrite length_app; simpl; lia).
    eapply walk_step.
    + apply IH; [by eapply linked_app_l|done|done].
    + apply (Hl (length l) p b).
      * rewrite lookup_app_l by (simpl; lia).
        rewrite last_lookup in Hp. done.
      * change (S (length l)) with (length (a :: l)).
        by rewrite lookup_app_r, Nat.sub_diag by lia.
Qed.

Lemma shortestDistance_dist rows cols g s t d :
  shortestDistance rows cols g s t d → dist (edge rows cols (wallAt g)) s t d.
Proof.
  intros [(l & Hl & Hlen) Hmin]. split.
  - apply path_walk in Hl as Hw. by replace d with (length l - 1)%nat by lia.
  - intros n Hn. pose proof (connects_free _ _ _ _ _ _ Hl) as Hs.
    destruct (walk_path rows cols g s t n Hs Hn) as (l' & Hl' & Hlen').
    apply Hmin in Hl'. lia.
Qed.

Lemma walk_connects rows cols g s t :
  freeCell rows cols g s →
  (∃ n, walk (edge rows cols (wallAt g)) s t n) ↔ ∃ l, connects rows cols g s t l.
Proof.
  intros Hs. split.
  - intros (n & Hn). destruct (walk_path rows cols g s t n Hs Hn) as (l & Hl & _). eauto.
  - intros (l & Hl). eexists. by eapply path_walk.
Qed.

Lemma StronglySorted_lookup_lt {A : Type} (R : A → A → Prop) (l : list A) (i j : nat) x y :
  StronglySorted R l → (i < j)%nat → l !! i = Some x → l !! j = Some y → R x y.
Proof.
  intros Hs. revert i j. induction Hs as [|a l Hs IH Ha]; intros i j Hij Hi Hj; [done|].
  destruct j as [|j]; [lia|]. simpl in Hj. destruct i as [|i].
  - simpl in Hi. inversion Hi; subst a. rewrite Forall_forall in Ha.
    apply Ha. by eapply list_elem_of_lookup_2.
  - simpl in Hi. apply (IH i j); [lia|done|done].
Qed.

(** The first cell of a trace is the start. *)
Lemma searchTree_head rows cols g0 s e res :
  searchPost rows cols g0 e res → searchTree rows cols g0 s res →
  head res.(visitedNodes) = Some s.
Proof.
  intros (_ & _ & _ & Hfound & _) (Hback & _ & Hroot & _ & Hall & _).
  destruct (visitedNodes res) as [|x T] eqn:HT.
  - exfalso. destruct (exit res) eqn:Hex.
    + destruct (Hfound eq_refl) as [HeT _]. by apply elem_of_nil in HeT.
    + specialize (Hall eq_refl s 0%nat (walk_here _ _)). by apply elem_of_nil in Hall.
  - simpl. f_equal. apply Hroot; [by left|].
    destruct (prevAt (heap res) x) as [p|] eqn:Hp; [|done].
    destruct (Hback x p Hp) as (j & _ & Hbefore).
    exfalso. apply (Hbefore 0%nat); [lia|done].
Qed.

(** ** Success means a path exists *)

(** X1: for each of the three algorithms, run from a state of the page
    whose start cell is not a wall, the run is reported successful exactly
    when some path of free cells joins the start to the end; so BFS, DFS
    and A-star always agree on whether the end can be reached. *)
Theorem success_iff_path (st : State) (algo : Algo) (fuel : nat) :
  wellFormed st →
  wallAt st.(gridArray) st.(startPos) = false →
  (enoughFuel st.(ROWS) st.(COLS) ≤ fuel)%nat →
  ∃ st' run,
    startVisualization fuel algo st = Ok (st', Some run)
    ∧ (run.(success) = true ↔
         ∃ l, connects st.(ROWS) st.(COLS) st.(gridArray) st.(startPos) st.(endPos) l).
Proof.
  intros Hst Hfree Hfuel. pose proof Hst as (Hwf & Hs & He & Hidle).
  destruct (run_anatomy st fuel Hst Hfuel algo)
    as (res & run & _ & Hrun & Htrace & _ & _ & Hpost & Htree & _ & _ & _ & Hlast & Hexit).
  eexists _, run. split; [exact Hrun|].
  destruct Hpost as (_ & _ & _ & Hfound & Hempty).
  destruct Htree as (_ & _ & _ & Hreach & Hall & _).
  destruct (exit res) eqn:Hex.
  - destruct Hexit as (Hhead & Hlinked & _ & _ & Hsucc). split.
    + intros Hok. exists (path run). split_and!; [|done|done].
      eapply linked_gridPath; [done|done|by split].
    + intros (l & Hl). destruct (connects_last_free _ _ _ _ _ _ Hl) as [_ Hw].
      by rewrite Hsucc, Hw.
  - rewrite Hexit. split; [done|]. intros (l & Hl). exfalso.
    destruct (Hempty eq_refl) as [Hne _]. apply Hne.
    eapply Hall; [done|]. by eapply path_walk.
Qed.

Lemma success_iff_path_witness :
  ∃ st' run,
    startVisualization 407 Dfs (calculateGridSize 9 9 initialState) = Ok (st', Some run)
    ∧ (run.(success) = true ↔
         ∃ l, connects 9 9 (createGrid 9 9) (5, 5) (5, 8) l).
Proof.
  apply (success_iff_path (calculateGridSize 9 9 initialState) Dfs 407%nat).
  - unfold wellFormed. simpl.
    split_and!; try (unfold inBounds; simpl; lia); try reflexivity.
    apply wfGrid_createGrid.
  - reflexivity.
  - vm_compute. lia.
Defined.

(** ** The path that is drawn *)

(** X2: when a run of any of the three algorithms is reported successful
    (from a state whose start cell is not a wall), the rebuilt path is a
    path of the grid: it starts at the start cell, ends at the end cell,
    consecutive cells are one step apart and none is a wall; no cell occurs
    twice in it; each of its cells is in the trace; and the reported path
    length is its number of cells, which is at most the reported number of
    visited cells. *)
Theorem path_is_simple_path (st : State) (algo : Algo) (fuel : nat) :
  wellFormed st →
  wallAt st.(gridArray) st.(startPos) = false →
  (enoughFuel st.(ROWS) st.(COLS) ≤ fuel)%nat →
  ∃ st' run,
    startVisualization fuel algo st = Ok (st', Some run)
    ∧ (run.(success) = true →
         connects st.(ROWS) st.(COLS) st.(gridArray) st.(startPos) st.(endPos) run.(path)
         ∧ NoDup run.(path)
         ∧ (∀ p, p ∈ run.(path) → p ∈ run.(trace))
         ∧ run.(pathLen) = length run.(path)
         ∧ (run.(pathLen) ≤ run.(panel).(visitedCount))%nat).
Proof.
  intros Hst Hfree Hfuel. pose proof Hst as (Hwf & Hs & He & Hidle).
  destruct (run_anatomy st fuel Hst Hfuel algo)
    as (res & run & _ & Hrun & Htrace & _ & _ & _ & _ & Hlen & Hpanel & _ & Hlast & Hexit).
  eexists _, run. split; [exact Hrun|]. intros Hok.
  destruct (exit res); [|congruence].
  destruct Hexit as (Hhead & Hlinked & Hnd & Hin & _).
  rewrite Hlen, Hpanel, Hok. simpl. split_and!; try done.
  - split_and!; [|done|done]. eapply linked_gridPath; [done|done|by split].
  - by apply submseteq_length, NoDup_submseteq.
Qed.

Lemma path_is_simple_path_witness :
  ∃ st' run,
    startVisualization 407 Dfs (calculateGridSize 9 9 initialState) = Ok (st', Some run)
    ∧ (run.(success) = true →
         connects 9 9 (createGrid 9 9) (5, 5) (5, 8) run.(path)
         ∧ NoDup run.(path)
         ∧ (∀ p, p ∈ run.(path) → p ∈ run.(trace))
         ∧ run.(pathLen) = length run.(path)
         ∧ (run.(pathLen) ≤ run.(panel).(visitedCount))%nat).
Proof.
  apply (path_is_simple_path (calculateGridSize 9 9 initialState) Dfs 407%nat).
  - unfold wellFormed. simpl.
    split_and!; try (unfold inBounds; simpl; lia); try reflexivity.
    apply wfGrid_createGrid.
  - reflexivity.
  - vm_compute. lia.
Defined.

(** ** The cells that are visited *)

(** X3: for each of the three algorithms, run from a state whose start
    cell is not a wall, the trace begins with the start cell, lists no cell
    twice, and every cell in it can be reached from the start by a path of
    free cells; the search exits with an exhausted frontier exactly when no
    path joins the start to the end, and then the trace holds every cell
    reachable from the start, so that the three algorithms report the same
    number of visited cells. *)
Theorem trace_is_reachable_set (st : State) (algo : Algo) (fuel : nat) :
  wellFormed st →
  wallAt st.(gridArray) st.(startPos) = false →
  (enoughFuel st.(ROWS) st.(COLS) ≤ fuel)%nat →
  ∃ st' run,
    startVisualization fuel algo st = Ok (st', Some run)
    ∧ head run.(trace) = Some st.(startPos)
    ∧ NoDup run.(trace)
    ∧ (∀ x, x ∈ run.(trace) →
         ∃ l, connects st.(ROWS) st.(COLS) st.(gridArray) st.(startPos) x l)
    ∧ (run.(exitKind) = FrontierEmpty ↔
         ¬ ∃ l, connects st.(ROWS) st.(COLS) st.(gridArray) st.(startPos) st.(endPos) l)
    ∧ (run.(exitKind) = FrontierEmpty →
         ∀ x, (∃ l, connects st.(ROWS) st.(COLS) st.(gridArray) st.(startPos) x l) →
              x ∈ run.(trace)).
Proof.
  intros Hst Hfree Hfuel. pose proof Hst as (Hwf & Hs & He & Hidle).
  assert (Hsfree : freeCell (ROWS st) (COLS st) (gridArray st) (startPos st)) by done.
  destruct (run_anatomy st fuel Hst Hfuel algo)
    as (res & run & _ & Hrun & Htrace & Hexit & _ & Hpost & Htree & _).
  eexists _, run. split; [exact Hrun|]. rewrite Htrace, Hexit.
  pose proof (searchTree_head _ _ _ _ _ _ Hpost Htree) as Hhead.
  destruct Hpost as (_ & _ & _ & Hfound & Hempty).
  destruct Htree as (_ & _ & _ & Hreach & Hall & Hnd).
  split_and!; try done.
  - intros x Hx. apply walk_connects; [done|]. by apply Hreach.
  - split.
    + intros Hex Hpath. apply (walk_connects _ _ _ _ _ Hsfree) in Hpath as (n & Hn).
      destruct (Hempty Hex) as [Hne _]. apply Hne. by eapply Hall.
    + intros Hno. destruct (exit res); [|done]. exfalso. apply Hno.
      apply walk_connects; [done|]. apply Hreach. by destruct (Hfound eq_refl).
  - intros Hex x Hx. apply (walk_connects _ _ _ _ _ Hsfree) in Hx as (n & Hn).
    by eapply Hall.
Qed.

Lemma trace_is_reachable_set_witness :
  ∃ st' run,
    startVisualization 407 Astar (calculateGridSize 9 9 initialState) = Ok (st', Some run)
    ∧ head run.(trace) = Some (5, 5)
    ∧ NoDup run.(trace)
    ∧ (∀ x, x ∈ run.(trace) → ∃ l, connects 9 9 (createGrid 9 9) (5, 5) x l)
    ∧ (run.(exitKind) = FrontierEmpty ↔
         ¬ ∃ l, connects 9 9 (createGrid 9 9) (5, 5) (5, 8) l)
    ∧ (run.(exitKind) = FrontierEmpty →
         ∀ x, (∃ l, connects 9 9 (createGrid 9 9) (5, 5) x l) → x ∈ run.(trace)).
Proof.
  apply (trace_is_reachable_set (calculateGridSize 9 9 initialState) Astar 407%nat).
  - unfold wellFormed. simpl.
    split_and!; try (unfold inBounds; simpl; lia); try reflexivity.
    apply wfGrid_createGrid.
  - reflexivity.
  - vm_compute. lia.
Defined.

(** X4: BFS visits the cells in the order of their distance from the
    start: every cell of its trace has a shortest-path distance from the
    start, and a cell that comes earlier in the trace is never farther from
    the start than one that comes later. *)
Theorem bfs_visits_by_distance (st : State) (fuel : nat) :
  wellFormed st →
  wallAt st.(gridArray) st.(startPos) = false →
  (enoughFuel st.(ROWS) st.(COLS) ≤ fuel)%nat →
  ∃ st' run,
    startVisualization fuel Bfs st = Ok (st', Some run)
    ∧ (∀ x, x ∈ run.(trace) →
         ∃ d, shortestDistance st.(ROWS) st.(COLS) st.(gridArray) st.(startPos) x d)
    ∧ ∀ (i j : nat) x y dx dy,
        (i ≤ j)%nat → run.(trace) !! i = Some x → run.(trace) !! j = Some y →
        shortestDistance st.(ROWS) st.(COLS) st.(gridArray) st.(startPos) x dx →
        shortestDistance st.(ROWS) st.(COLS) st.(gridArray) st.(startPos) y dy →
        (dx ≤ dy)%nat.
Proof.
  intros Hst Hfree Hfuel. pose proof Hst as (Hwf & Hs & He & Hidle).
  assert (Hsfree : freeCell (ROWS st) (COLS st) (gridArray st) (startPos st)) by done.
  destruct (run_anatomy st fuel Hst Hfuel Bfs) as (res & run & Hres & Hrun & Htrace & _).
  destruct (bfs_sorted _ _ _ _ (endPos st) fuel Hwf Hs Hfuel) as (res' & Hres' & Hsorted & Hd).
  simpl in Hres. rewrite Hres in Hres'. inversion Hres'; subst res'.
  eexists _, run. split; [exact Hrun|]. rewrite Htrace. split.
  - intros x Hx. destruct (Hd x Hx) as (d & Hdx). exists d.
    by apply dist_shortestDistance.
  - intros i j x y dx dy Hij Hi Hj Hdx Hdy.
    apply shortestDistance_dist in Hdx, Hdy.
    destruct (decide (i = j)) as [->|Hne].
    + rewrite Hi in Hj. inversion Hj; subst y.
      by rewrite (dist_unique _ _ _ _ _ Hdx Hdy).
    + eapply (StronglySorted_lookup_lt _ _ i j x y Hsorted); [lia|done..].
Qed.

Lemma bfs_visits_by_distance_witness :
  ∃ st' run,
    startVisualization 407 Bfs (calculateGridSize 9 9 initialState) = Ok (st', Some run)
    ∧ (∀ x, x ∈ run.(trace) → ∃ d, shortestDistance 9 9 (createGrid 9 9) (5, 5) x d)
    ∧ ∀ (i j : nat) x y dx dy,
        (i ≤ j)%nat → run.(trace) !! i = Some x → run.(trace) !! j = Some y →
        shortestDistance 9 9 (createGrid 9 9) (5, 5) x dx →
        shortestDistance 9 9 (createGrid 9 9) (5, 5) y dy →
        (dx ≤ dy)%nat.
Proof.
  apply (bfs_visits_by_distance (calculateGridSize 9 9 initialState) 407%nat).
  - unfold wellFormed. simpl.
    split_and!; try (unfold inBounds; simpl; lia); try reflexivity.
    apply wfGrid_createGrid.
  - reflexivity.
  - vm_compute. lia.
Defined.

(** ** The heuristic and the costs of A-star *)

(** X5: the heuristic of A-star is admissible: for two cells of a
    well-formed grid, its value is at most the number of steps of any path
    of free cells from the first to the second. *)
Theorem heuristic_admissible (rows cols : Z) (g : gmap Pos Node)
    (p q : Pos) (a b : Node) (l : list Pos) :
  wfGrid rows cols g → g !! p = Some a → g !! q = Some b →
  connects rows cols g p q l →
  heuristic a b ≤ Z.of_nat (length l) - 1.
Proof.
  intros Hwf Hp Hq Hl.
  rewrite (heuristic_manhattan rows cols g p q a b Hwf Hp Hq).
  pose proof (connects_length _ _ _ _ _ _ Hl) as Hlen.
  destruct (connects_free _ _ _ _ _ _ Hl) as [Hpb _].
  apply path_walk in Hl.
  pose proof (heuristic_consistent rows cols (wallAt g) q p q _ Hpb Hl) as H.
  rewrite manhattan_self in H. lia.
Qed.

Lemma heuristic_admissible_witness :
  heuristic (newNode 0 0) (newNode 1 1) ≤ Z.of_nat (length [(0, 0); (0, 1); (1, 1)]) - 1.
Proof.
  apply (heuristic_admissible 5 5 (createGrid 5 5) (0, 0) (1, 1)).
  - apply wfGrid_createGrid.
  - by rewrite createGrid_lookup.
  - by rewrite createGrid_lookup.
  - unfold connects. cbn [gridPath head last].
    unfold freeCell, inBounds, manhattan. cbn [fst snd].
    rewrite !wallAt_createGrid. repeat split; lia.
Defined.

(** X6: the three algorithms agree on success, and the path of BFS is
    never longer than the path of another algorithm: from one state of the
    page, a run of DFS or of A-star is successful exactly when the run of
    BFS is, and its reported path length is at least that of BFS. *)
Theorem bfs_path_never_longer (st : State) (algo : Algo) (fuel : nat) :
  wellFormed st →
  (enoughFuel st.(ROWS) st.(COLS) ≤ fuel)%nat →
  ∃ stB st' runB run,
    startVisualization fuel Bfs st = Ok (stB, Some runB)
    ∧ startVisualization fuel algo st = Ok (st', Some run)
    ∧ run.(success) = runB.(success)
    ∧ (runB.(pathLen) ≤ run.(pathLen))%nat.
Proof.
  intros Hst Hfuel. pose proof Hst as (Hwf & Hs & He & Hidle).
  destruct (run_anatomy st fuel Hst Hfuel Bfs)
    as (resB & runB & HresB & HrunB & _ & _ & _ & HpostB & HtreeB & HlenB & _ & HpathB & _ & HexB).
  destruct (run_anatomy st fuel Hst Hfuel algo)
    as (res & run & _ & Hrun & _ & _ & _ & Hpost & Htree & Hlen & _ & _ & Hlast & Hex).
  destruct (bfs_summary _ _ _ _ (endPos st) fuel Hwf Hs Hfuel)
    as (resB' & HresB' & _ & _ & Hsum).
  simpl in HresB. rewrite HresB in HresB'. inversion HresB'; subst resB'.
  eexists _, _, runB, run. split; [exact HrunB|]. split; [exact Hrun|].
  destruct HpostB as (_ & _ & _ & HfoundB & HemptyB).
  destruct Hpost as (_ & _ & _ & Hfound & Hempty).
  destruct HtreeB as (_ & _ & _ & HreachB & HallB & _).
  destruct Htree as (_ & _ & _ & Hreach & Hall & _).
  rewrite Hlen, HlenB.
  destruct (exit resB) eqn:HeB; destruct (exit res) eqn:HeA.
  - destruct HexB as (_ & _ & _ & _ & HsB). destruct Hex as (Hhead & Hlinked & _ & _ & HsA).
    rewrite HsA, HsB. split; [done|].
    destruct (negb (wallAt (gridArray st) (endPos st))); [|done].
    destruct Hsum as (d & [_ Hmin] & _ & Hchain).
    destruct (chain_path _ _ _ d fuel _ Hchain HpathB) as [HplenB _].
    pose proof (linked_walk _ _ _ _ Hlinked Hhead Hlast) as Hw.
    assert (1 ≤ length (path run))%nat by (destruct (path run); [done|simpl; lia]).
    apply Hmin in Hw. lia.
  - exfalso. destruct (Hempty eq_refl) as [Hne _]. apply Hne.
    destruct (HfoundB eq_refl) as [HeT _]. destruct (HreachB _ HeT) as (n & Hn).
    by eapply Hall.
  - exfalso. destruct (HemptyB eq_refl) as [Hne _]. apply Hne.
    destruct (Hfound eq_refl) as [HeT _]. destruct (Hreach _ HeT) as (n & Hn).
    by eapply HallB.
  - rewrite HexB, Hex. split; [done|lia].
Qed.

Lemma bfs_path_never_longer_witness :
  ∃ stB st' runB run,
    startVisualization 407 Bfs (calculateGridSize 9 9 initialState) = Ok (stB, Some runB)
    ∧ startVisualization 407 Dfs (calculateGridSize 9 9 initialState) = Ok (st', Some run)
    ∧ run.(success) = runB.(success)
    ∧ (runB.(pathLen) ≤ run.(pathLen))%nat.
Proof.
  apply (bfs_path_never_longer (calculateGridSize 9 9 initialState) Dfs 407%nat).
  - unfold wellFormed. simpl.
    split_and!; try (unfold inBounds; simpl; lia); try reflexivity.
    apply wfGrid_createGrid.
  - vm_compute. lia.
Defined.

(** X7: when A-star has run (from a state whose start cell is not a
    wall), the [gCost] stored in every cell of its trace is the
    shortest-path distance of that cell from the start. *)
Theorem astar_gcost_is_distance (st : State) (fuel : nat) :
  wellFormed st →
  wallAt st.(gridArray) st.(startPos) = false →
  (enoughFuel st.(ROWS) st.(COLS) ≤ fuel)%nat →
  ∃ st' run,
    startVisualization fuel Astar st = Ok (st', Some run)
    ∧ ∀ x, x ∈ run.(trace) →
        ∃ d : nat, gAt st'.(gridArray) x = Fin (Z.of_nat d)
          ∧ shortestDistance st.(ROWS) st.(COLS) st.(gridArray) st.(startPos) x d.
Proof.
  intros Hst Hfree Hfuel. pose proof Hst as (Hwf & Hs & He & Hidle).
  assert (Hsfree : freeCell (ROWS st) (COLS st) (gridArray st) (startPos st)) by done.
  destruct (run_anatomy st fuel Hst Hfuel Astar) as (res & run & Hres & Hrun & Htrace & _).
  destruct (astar_tree _ _ _ _ _ fuel Hwf Hs He Hfuel) as (res' & Hres' & _ & Hg).
  simpl in Hres. rewrite Hres in Hres'. inversion Hres'; subst res'.
  eexists _, run. split; [exact Hrun|]. rewrite Htrace. simpl.
  intros x Hx. destruct (Hg x Hx) as (k & Hk & Hd & _). exists k.
  split; [done|]. by apply dist_shortestDistance.
Qed.

Lemma astar_gcost_is_distance_witness :
  ∃ st' run,
    startVisualization 407 Astar (calculateGridSize 9 9 initialState) = Ok (st', Some run)
    ∧ ∀ x, x ∈ run.(trace) →
        ∃ d : nat, gAt st'.(gridArray) x = Fin (Z.of_nat d)
          ∧ shortestDistance 9 9 (createGrid 9 9) (5, 5) x d.
Proof.
  apply (astar_gcost_is_distance (calculateGridSize 9 9 initialState) 407%nat).
  - unfold wellFormed. simpl.
    split_and!; try (unfold inBounds; simpl; lia); try reflexivity.
    apply wfGrid_createGrid.
  - reflexivity.
  - vm_compute. lia.
Defined.

(** ** What a run leaves of the board *)

Lemma resetVisuals_same rows cols g h :
  wfGrid rows cols g → wfGrid rows cols h →
  (∀ p, wallAt h p = wallAt g p) →
  resetVisuals h = resetVisuals g.
Proof.
  intros Hg Hh Hw. apply map_eq. intros p. unfold resetVisuals.
  rewrite !lookup_fmap. specialize (Hg p). specialize (Hh p). specialize (Hw p).
  unfold wallAt in Hw.
  destruct (g !! p) as [n|], (h !! p) as [m|]; simpl; try done; try tauto.
  destruct Hg as [_ Hn], Hh as [_ Hm]. unfold resetNode. rewrite Hw.
  rewrite <- Hn in Hm. inversion Hm as [[Hr Hc]]. by rewrite Hr, Hc.
Qed.

(** X8: a run writes nothing but the per-run fields of the cells: after
    any of the three algorithms has run, the dimensions of the grid, the
    start and end positions, the tool and the drag state are as before,
    [isRunning] is cleared, every cell has the wall flag it had, and
    clearing the per-run fields gives the same grid as clearing them before
    the run. *)
Theorem run_keeps_board (st : State) (algo : Algo) (fuel : nat) :
  wellFormed st →
  (enoughFuel st.(ROWS) st.(COLS) ≤ fuel)%nat →
  ∃ st' run,
    startVisualization fuel algo st = Ok (st', Some run)
    ∧ st' = set_isRunning false (set_gridArray st'.(gridArray) st)
    ∧ wfGrid st.(ROWS) st.(COLS) st'.(gridArray)
    ∧ (∀ p, wallAt st'.(gridArray) p = wallAt st.(gridArray) p)
    ∧ resetVisuals st'.(gridArray) = resetVisuals st.(gridArray).
Proof.
  intros Hst Hfuel. pose proof Hst as (Hwf & Hs & He & Hidle).
  destruct (run_anatomy st fuel Hst Hfuel algo)
    as (res & run & _ & Hrun & _ & _ & _ & Hpost & _).
  destruct Hpost as (Hwfh & Hwalls & _).
  eexists _, run. split; [exact Hrun|]. simpl. split_and!; try done.
  by eapply resetVisuals_same.
Qed.

Lemma run_keeps_board_witness :
  ∃ st' run,
    startVisualization 407 Bfs (calculateGridSize 9 9 initialState) = Ok (st', Some run)
    ∧ st' = set_isRunning false
              (set_gridArray st'.(gridArray) (calculateGridSize 9 9 initialState))
    ∧ wfGrid 9 9 st'.(gridArray)
    ∧ (∀ p, wallAt st'.(gridArray) p = wallAt (createGrid 9 9) p)
    ∧ resetVisuals st'.(gridArray) = resetVisuals (createGrid 9 9).
Proof.
  apply (run_keeps_board (calculateGridSize 9 9 initialState) Bfs 407%nat).
  - unfold wellFormed. simpl.
    split_and!; try (unfold inBounds; simpl; lia); try reflexivity.
    apply wfGrid_createGrid.
  - vm_compute. lia.
Defined.

(** X9: a run can be repeated: starting the same algorithm again from
    the state that a run has left gives the same trace, the same path and
    the same result panel, and leaves the same state. *)
Theorem run_repeatable (st : State) (algo : Algo) (fuel : nat) :
  wellFormed st →
  (enoughFuel st.(ROWS) st.(COLS) ≤ fuel)%nat →
  ∃ st' run,
    startVisualization fuel algo st = Ok (st', Some run)
    ∧ startVisualization fuel algo st' = Ok (st', Some run).
Proof.
  intros Hst Hfuel. pose proof Hst as (Hwf & Hs & He & Hidle).
  destruct (run_anatomy st fuel Hst Hfuel algo)
    as (res & run & Hres & Hrun & _ & _ & Hheap & Hpost & _).
  destruct Hpost as (Hwfh & Hwalls & _).
  eexists _, run. split; [exact Hrun|].
  pose proof Hrun as Hrun'. unfold startVisualization in Hrun' |- *.
  rewrite Hidle in Hrun'. simpl.
  rewrite (resetVisuals_same _ _ _ _ Hwf Hwfh Hwalls).
  rewrite Hres in Hrun' |- *. cbn [mbind outcome_bind] in Hrun' |- *.
  destruct (animate fuel res (startPos st) (endPos st)) as [run0| |]; [|done|done].
  cbn [mbind outcome_bind] in Hrun' |- *. inversion Hrun'; subst run0.
  rewrite Hheap. done.
Qed.

Lemma run_repeatable_witness :
  ∃ st' run,
    startVisualization 407 Astar (calculateGridSize 9 9 initialState) = Ok (st', Some run)
    ∧ startVisualization 407 Astar st' = Ok (st', Some run).
Proof.
  apply (run_repeatable (calculateGridSize 9 9 initialState) Astar 407%nat).
  - unfold wellFormed. simpl.
    split_and!; try (unfold inBounds; simpl; lia); try reflexivity.
    apply wfGrid_createGrid.
  - vm_compute. lia.
Defined.

(** ** Grids without walls *)

(** On a grid without walls the cells are as far apart as the Manhattan
    distance says. *)
Lemma open_walk rows cols (walls : Pos → bool) u :
  (∀ p, walls p = false) → inBounds rows cols u →
  ∀ (n : nat) v, inBounds rows cols v → manhattan u v = Z.of_nat n →
    walk (edge rows cols walls) u v n.
Proof.
  intros Hopen Hu. induction n as [|n IH]; intros v Hv Hm.
  - apply manhattan_zero in Hm. subst v. constructor.
  - destruct u as [a b], v as [a' b']. unfold manhattan, inBounds in *. simpl in *.
    assert (Hstep : ∃ w : Pos, (0 ≤ w.1 < rows ∧ 0 ≤ w.2 < cols)
              ∧ Z.abs (a - w.1) + Z.abs (b - w.2) = Z.of_nat n
              ∧ Z.abs (w.1 - a') + Z.abs (w.2 - b') = 1).
    { destruct (decide (a' = a)) as [->|Ha].
      - destruct (decide (b < b')).
        + exists (a, b' - 1). simpl. lia.
        + exists (a, b' + 1). simpl. lia.
      - destruct (decide (a < a')).
        + exists (a' - 1, b'). simpl. lia.
        + exists (a' + 1, b'). simpl. lia. }
    destruct Hstep as (w & Hw & Hn & H1).
    eapply walk_step; [by apply IH|].
    apply edge_spec; [done|]. unfold manhattan, inBounds. simpl. split_and!; try done; lia.
Qed.

Lemma open_dist rows cols (walls : Pos → bool) u v :
  (∀ p, walls p = false) → inBounds rows cols u → inBounds rows cols v →
  dist (edge rows cols walls) u v (Z.to_nat (manhattan u v)).
Proof.
  intros Hopen Hu Hv. pose proof (manhattan_nonneg u v). split.
  - apply open_walk; try done. lia.
  - intros n Hn. pose proof (heuristic_consistent rows cols walls v u v n Hu Hn) as H'.
    rewrite manhattan_self in H'. lia.
Qed.

(** BFS and A-star rebuild a path with as many steps as the distance. *)
Lemma shortest_run (st : State) (fuel : nat) (algo : Algo) res p (d : nat) :
  wellFormed st → (enoughFuel st.(ROWS) st.(COLS) ≤ fuel)%nat →
  algo ≠ Dfs →
  search algo fuel st.(ROWS) st.(COLS) (resetVisuals st.(gridArray))
    st.(startPos) st.(endPos) = Ok res →
  res.(exit) = FoundEnd →
  reconstruct fuel res.(heap) (Some st.(endPos)) [] = Ok p →
  dist (edge st.(ROWS) st.(COLS) (wallAt st.(gridArray))) st.(startPos) st.(endPos) d →
  length p = S d.
Proof.
  intros (Hwf & Hs & He & Hidle) Hfuel Halgo Hres Hex Hp Hd.
  destruct algo; [|done|]; simpl in Hres.
  - destruct (bfs_summary _ _ _ _ (endPos st) fuel Hwf Hs Hfuel)
      as (res' & Hres' & _ & _ & Hsum).
    rewrite Hres in Hres'. inversion Hres'; subst res'. rewrite Hex in Hsum.
    destruct Hsum as (d' & Hd' & _ & Hchain).
    rewrite (dist_unique _ _ _ _ _ Hd Hd').
    by destruct (chain_path _ _ _ d' fuel _ Hchain Hp).
  - destruct (astar_summary _ _ _ _ _ fuel Hwf Hs He Hfuel)
      as (res' & Hres' & _ & _ & Hsum).
    rewrite Hres in Hres'. inversion Hres'; subst res'. rewrite Hex in Hsum.
    destruct Hsum as (d' & Hd' & _ & Hchain).
    rewrite (dist_unique _ _ _ _ _ Hd Hd').
    by destruct (chain_path _ _ _ d' fuel _ Hchain Hp).
Qed.

(** X10: on a board without walls (as after Reset or after a resize)
    every algorithm finds a path; the reported path length is at least the
    Manhattan distance between start and end plus one, and for BFS and
    A-star it is exactly that. *)
Theorem open_grid_path_length (st : State) (algo : Algo) (fuel : nat) :
  wellFormed st →
  (∀ p, wallAt st.(gridArray) p = false) →
  (enoughFuel st.(ROWS) st.(COLS) ≤ fuel)%nat →
  ∃ st' run,
    startVisualization fuel algo st = Ok (st', Some run)
    ∧ run.(success) = true
    ∧ manhattan st.(startPos) st.(endPos) + 1 ≤ Z.of_nat run.(pathLen)
    ∧ (algo ≠ Dfs →
         Z.of_nat run.(pathLen) = manhattan st.(startPos) st.(endPos) + 1).
Proof.
  intros Hst Hopen Hfuel. pose proof Hst as (Hwf & Hs & He & Hidle).
  pose proof (manhattan_nonneg (startPos st) (endPos st)) as Hnn.
  pose proof (open_dist _ _ _ _ _ Hopen Hs He) as Hd.
  destruct (run_anatomy st fuel Hst Hfuel algo)
    as (res & run & Hres & Hrun & _ & _ & _ & Hpost & Htree & Hlen & _ & Hpath & Hlast & Hex).
  eexists _, run. split; [exact Hrun|].
  destruct Hpost as (_ & _ & _ & _ & Hempty).
  destruct Htree as (_ & _ & _ & _ & Hall & _).
  destruct (exit res) eqn:Hexit.
  2:{ exfalso. destruct (Hempty eq_refl) as [Hne _]. apply Hne.
      eapply Hall; [done|]. apply Hd. }
  destruct Hex as (Hhead & Hlinked & _ & _ & Hsucc).
  rewrite Hopen in Hsucc. simpl in Hsucc. rewrite Hlen, Hsucc.
  split; [done|]. split.
  - pose proof (linked_walk _ _ _ _ Hlinked Hhead Hlast) as Hw.
    assert (1 ≤ length (path run))%nat by (destruct (path run); [done|simpl; lia]).
    apply Hd in Hw. lia.
  - intros Halgo.
    rewrite (shortest_run st fuel algo res (path run) _ Hst Hfuel Halgo Hres Hexit Hpath Hd).
    lia.
Qed.

Lemma open_grid_path_length_witness :
  ∃ st' run,
    startVisualization 407 Astar (calculateGridSize 9 9 initialState) = Ok (st', Some run)
    ∧ run.(success) = true
    ∧ manhattan (5, 5) (5, 8) + 1 ≤ Z.of_nat run.(pathLen)
    ∧ (Astar ≠ Dfs → Z.of_nat run.(pathLen) = manhattan (5, 5) (5, 8) + 1).
Proof.
  apply (open_grid_path_length (calculateGridSize 9 9 initialState) Astar 407%nat).
  - unfold wellFormed. simpl.
    split_and!; try (unfold inBounds; simpl; lia); try reflexivity.
    apply wfGrid_createGrid.
  - intros p. exact (wallAt_createGrid 9 9 p).
  - vm_compute. lia.
Defined.

(** ** Where A-star looks *)

(** X22: A-star visits only cells that the heuristic still allows on a
    shortest path: in a run from a state whose start cell is not a wall,
    for every cell of the trace, its distance from the start plus its
    Manhattan distance to the end is at most the shortest-path distance from
    the start to the end. *)
Theorem astar_visits_promising_cells (st : State) (fuel : nat) :
  wellFormed st →
  wallAt st.(gridArray) st.(startPos) = false →
  (enoughFuel st.(ROWS) st.(COLS) ≤ fuel)%nat →
  ∃ st' run,
    startVisualization fuel Astar st = Ok (st', Some run)
    ∧ ∀ x (dx d : nat),
        x ∈ run.(trace) →
        shortestDistance st.(ROWS) st.(COLS) st.(gridArray) st.(startPos) x dx →
        shortestDistance st.(ROWS) st.(COLS) st.(gridArray) st.(startPos) st.(endPos) d →
        Z.of_nat dx + manhattan x st.(endPos) ≤ Z.of_nat d.
Proof.
  intros Hst Hfree Hfuel. pose proof Hst as (Hwf & Hs & He & Hidle).
  destruct (run_anatomy st fuel Hst Hfuel Astar) as (res & run & Hres & Hrun & Htrace & _).
  destruct (astar_tree _ _ _ _ _ fuel Hwf Hs He Hfuel) as (res' & Hres' & _ & Hg).
  simpl in Hres. rewrite Hres in Hres'. inversion Hres'; subst res'.
  eexists _, run. split; [exact Hrun|]. rewrite Htrace.
  intros x dx d Hx Hdx Hd. apply shortestDistance_dist in Hdx, Hd.
  destruct (Hg x Hx) as (k & _ & Hk & Hb).
  rewrite (dist_unique _ _ _ _ _ Hdx Hk). by apply Hb.
Qed.

Lemma astar_visits_promising_cells_witness :
  ∃ st' run,
    startVisualization 407 Astar (calculateGridSize 9 9 initialState) = Ok (st', Some run)
    ∧ ∀ x (dx d : nat),
        x ∈ run.(trace) →
        shortestDistance 9 9 (createGrid 9 9) (5, 5) x dx →
        shortestDistance 9 9 (createGrid 9 9) (5, 5) (5, 8) d →
        Z.of_nat dx + manhattan x (5, 8) ≤ Z.of_nat d.
Proof.
  apply (astar_visits_promising_cells (calculateGridSize 9 9 initialState) 407%nat).
  - unfold wellFormed. simpl.
    split_and!; try (unfold inBounds; simpl; lia); try reflexivity.
    apply wfGrid_createGrid.
  - reflexivity.
  - vm_compute. lia.
Defined.

(** ** The order of the open set *)






(** ** The neighbour relation *)

(** X24: the neighbour relation of the grid is symmetric and irreflexive,
    and a cell has at most four neighbours, all different: for two cells
    inside the grid, the second is among the neighbours that [getNeighbors]
    returns for the first exactly when the first is among those it returns
    for the second, and no cell is its own neighbour. *)
Theorem getNeighbors_symmetric (rows cols : Z) (n m : Node) :
  inBounds rows cols (n.(r), n.(c)) → inBounds rows cols (m.(r), m.(c)) →
  ((m.(r), m.(c)) ∈ getNeighbors rows cols n ↔ (n.(r), n.(c)) ∈ getNeighbors rows cols m)
  ∧ ((n.(r), n.(c)) ∉ getNeighbors rows cols n)
  ∧ NoDup (getNeighbors rows cols n)
  ∧ (length (getNeighbors rows cols n) ≤ 4)%nat.
Proof.
  intros Hn Hm. split_and!.
  - rewrite !elem_of_getNeighbors by done. unfold manhattan. simpl.
    split; intros [_ H]; (split; [done|lia]).
  - rewrite elem_of_getNeighbors by done. unfold manhattan. simpl. lia.
  - apply NoDup_getNeighbors.
  - apply length_getNeighbors.
Qed.

Lemma getNeighbors_symmetric_witness :
  ((1, 4) ∈ getNeighbors 5 5 (newNode 0 4) ↔ (0, 4) ∈ getNeighbors 5 5 (newNode 1 4))
  ∧ ((0, 4) ∉ getNeighbors 5 5 (newNode 0 4))
  ∧ NoDup (getNeighbors 5 5 (newNode 0 4))
  ∧ (length (getNeighbors 5 5 (newNode 0 4)) ≤ 4)%nat.
Proof.
  apply (getNeighbors_symmetric 5 5 (newNode 0 4) (newNode 1 4)).
  - unfold inBounds; simpl; lia.
  - unfold inBounds; simpl; lia.
Defined.

(** * What the generators build *)

(** ** The effect of [addWall] on the walls *)

Lemma addWall_effect st0 st i j b :
  keeps st0 st → inBounds st0.(ROWS) st0.(COLS) (i, j) →
  ∃ st', addWall i j b st = Ok st' ∧ keeps st0 st'
    ∧ st'.(rngCalls) = st.(rngCalls)
    ∧ ∀ p, wallAt st'.(gridArray) p =
           if decide (p = (i, j) ∧ p ≠ st0.(startPos) ∧ p ≠ st0.(endPos))
           then b else wallAt st.(gridArray) p.
Proof.
  intros Hk Hij. pose proof Hk as
    (((Hwf & Hs & He & Hidle) & HR & HC & Hws & Hwe) & HsR & HsC & Hss & Hse).
  destruct (addWall_keeps st0 st i j b Hk Hij) as (st' & Hrun & Hk' & Hrng).
  exists st'. split_and!; try done.
  unfold addWall in Hrun. destruct (isStartOrEnd st i j) eqn:Hsp.
  - inversion Hrun; subst st'. intros p. case_decide as Hp; [|done].
    destruct Hp as (-> & Hp1 & Hp2). apply isStartOrEnd_true in Hsp.
    rewrite Hss, Hse in Hsp. tauto.
  - apply isStartOrEnd_false in Hsp as [Hns Hne]. rewrite Hss in Hns. rewrite Hse in Hne.
    destruct (gridArray st !! (i, j)) as [nd|] eqn:Hnd; [|done].
    cbn [deref mbind outcome_bind] in Hrun. inversion Hrun; subst st'. simpl.
    intros p. rewrite wallAt_insert.
    destruct (decide ((i, j) = p)) as [<-|Hp].
    + by rewrite decide_True.
    + rewrite decide_False; [done|]. intros (-> & _). done.
Qed.

(** ** Paths when walls go away *)

Lemma gridPath_mono rows cols g g' l :
  (∀ p, wallAt g p = false → wallAt g' p = false) →
  gridPath rows cols g l → gridPath rows cols g' l.
Proof.
  intros Hm. induction l as [|x l IH]; [done|].
  cbn [gridPath]. intros ([Hb Hw] & Hstep & Hp).
  split_and!; [by split; [|apply Hm]|done|by apply IH].
Qed.

Lemma connects_mono rows cols g g' s t l :
  (∀ p, wallAt g p = false → wallAt g' p = false) →
  connects rows cols g s t l → connects rows cols g' s t l.
Proof. intros Hm (Hp & Hh & Hl). split_and!; [by eapply gridPath_mono|done|done]. Qed.

Lemma connects_snoc rows cols g s t u l :
  connects rows cols g s t l → freeCell rows cols g u → manhattan t u = 1 →
  connects rows cols g s u (l ++ [u]).
Proof.
  intros (Hp & Hh & Hl) Hu Hm.
  destruct (last_Some l t) as [(l' & ->) _]; [done|].
  split_and!.
  - by apply gridPath_app.
  - rewrite <- app_assoc. by destruct l'.
  - by rewrite last_snoc.
Qed.

(** ** The neighbours of the maze *)

Lemma getMazeNeighbors_foldl (rows cols i j : Z) (visited : gset Pos)
    (dirs : list (Z * Z)) (acc : list Pos) :
  foldl (λ neighbors '(dr, dc),
           let nr := i + dr in
           let nc := j + dc in
           if decide (nr >= 0 ∧ nr < rows ∧ nc >= 0 ∧ nc < cols)
           then (if decide ((nr, nc) ∈ visited) then neighbors
                 else neighbors ++ [(nr, nc)])
           else neighbors) acc dirs
  = acc ++ filter (λ q, inBounds rows cols q ∧ q ∉ visited)
             ((λ d : Z * Z, (i + d.1, j + d.2)) <$> dirs).
Proof.
  revert acc. induction dirs as [|[dr dc] dirs IH]; intros acc.
  - simpl. by rewrite app_nil_r.
  - cbn [foldl]. rewrite IH, fmap_cons, filter_cons. cbn [fst snd].
    destruct (decide (i + dr >= 0 ∧ i + dr < rows ∧ j + dc >= 0 ∧ j + dc < cols))
      as [Hin|Hout].
    + destruct (decide ((i + dr, j + dc) ∈ visited)) as [Hv|Hv].
      * rewrite decide_False; [done|]. intros [_ Hx]. done.
      * rewrite decide_True; [by rewrite <- app_assoc|].
        split; [unfold inBounds; simpl; lia|done].
    + rewrite decide_False; [done|]. intros [Hb _]. apply Hout.
      unfold inBounds in Hb. simpl in Hb. lia.
Qed.

Lemma getMazeNeighbors_filter rows cols i j visited :
  getMazeNeighbors rows cols i j visited =
    filter (λ q, inBounds rows cols q ∧ q ∉ visited)
      [(i, j - 2); (i, j + 2); (i - 2, j); (i + 2, j)].
Proof.
  unfold getMazeNeighbors. rewrite getMazeNeighbors_foldl. simpl.
  by rewrite !Z.add_0_r.
Qed.

Lemma getMazeNeighbors_nil rows cols v visited q :
  getMazeNeighbors rows cols v.1 v.2 visited = [] →
  inBounds rows cols q → twoSteps v q → q ∈ visited.
Proof.
  intros Hnil Hq Hstep. destruct (decide (q ∈ visited)) as [|Hv]; [done|]. exfalso.
  assert (Hin : q ∈ getMazeNeighbors rows cols v.1 v.2 visited).
  { rewrite getMazeNeighbors_filter. apply list_elem_of_filter. split; [done|].
    destruct q as [a b]. unfold twoSteps in Hstep. simpl in Hstep.
    rewrite !elem_of_cons.
    destruct Hstep as [[-> [-> | ->]] | [-> [-> | ->]]]; tauto. }
  rewrite Hnil in Hin. by apply elem_of_nil in Hin.
Qed.

(** ** Loops with an invariant on the values already seen *)

Lemma forEach_inv {A S : Type} (P : list A → S → Prop) (l : list A)
    (body : A → S → outcome S) (s : S) :
  P [] s →
  (∀ pre x s, (∃ post, l = pre ++ x :: post) → P pre s →
     ∃ s', body x s = Ok s' ∧ P (pre ++ [x]) s') →
  ∃ s', forEach l body s = Ok s' ∧ P l s'.
Proof.
  intros H0 Hstep.
  assert (H : ∀ post pre s, l = pre ++ post → P pre s →
            ∃ s', forEach post body s = Ok s' ∧ P l s').
  { induction post as [|x post IH]; intros pre s1 Hl Hpre.
    - rewrite app_nil_r in Hl. subst pre. exists s1. done.
    - destruct (Hstep pre x s1 ltac:(eauto) Hpre) as (s2 & Hrun & Hpre').
      cbn [forEach]. rewrite Hrun. cbn [mbind outcome_bind].
      apply (IH (pre ++ [x])); [|done]. by rewrite <- app_assoc. }
  by apply (H l []).
Qed.

Section Walling.
Variable st0 : State.

(** One row of the walling pass of [generateDFSMaze]. *)
Lemma wallRow_spec i st :
  keeps st0 st → 0 ≤ i < st0.(ROWS) →
  ∃ st', forEach (upTo 0 (st0.(COLS) - 1)) (λ j, wallUnlessSpecial i j) st = Ok st'
    ∧ keeps st0 st'
    ∧ st'.(rngCalls) = st.(rngCalls)
    ∧ ∀ p, wallAt st'.(gridArray) p =
           if decide (p.1 = i ∧ inBounds st0.(ROWS) st0.(COLS) p
                      ∧ p ≠ st0.(startPos) ∧ p ≠ st0.(endPos))
           then true else wallAt st.(gridArray) p.
Proof.
  intros Hk Hi.
  destruct (forEach_inv
    (λ pre st', keeps st0 st' ∧ st'.(rngCalls) = st.(rngCalls)
       ∧ ∀ p, wallAt st'.(gridArray) p =
              if decide (p.1 = i ∧ p.2 ∈ pre
                         ∧ p ≠ st0.(startPos) ∧ p ≠ st0.(endPos))
              then true else wallAt st.(gridArray) p)
    (upTo 0 (st0.(COLS) - 1)) (λ j, wallUnlessSpecial i j) st)
    as (st' & Hrun & Hk' & Hrng & Hw).
  - split_and!; [done|done|]. intros p. rewrite decide_False; [done|].
    intros (_ & Hx & _). by apply elem_of_nil in Hx.
  - intros pre j st1 (post & Hl) (Hk1 & Hrng1 & Hw1).
    assert (Hj : 0 ≤ j ≤ st0.(COLS) - 1).
    { apply elem_of_upTo. rewrite Hl. apply elem_of_app. right. by left. }
    pose proof Hk1 as (_ & _ & _ & Hss & Hse).
    unfold wallUnlessSpecial. destruct (isStartOrEnd st1 i j) eqn:Hsp; simpl.
    + exists st1. split_and!; try done. intros p. rewrite Hw1.
      apply isStartOrEnd_true in Hsp. rewrite Hss, Hse in Hsp.
      destruct (decide (p.1 = i ∧ p.2 ∈ pre ∧ p ≠ startPos st0 ∧ p ≠ endPos st0))
        as [Hp|Hp].
      * rewrite decide_True; [done|]. rewrite elem_of_app. tauto.
      * rewrite decide_False; [done|].
        rewrite elem_of_app, elem_of_cons, elem_of_nil.
        intros (Hp1 & [Hp2|[Hp2|[]]] & Hp3 & Hp4); [tauto|].
        destruct p as [a b]. simpl in *. subst. tauto.
    + destruct (addWall_effect st0 st1 i j true Hk1) as (st2 & Hrun2 & Hk2 & Hrng2 & Hw2).
      { unfold inBounds. simpl. lia. }
      exists st2. split_and!; [done|done|congruence|].
      intros p. rewrite Hw2, Hw1.
      destruct (decide (p = (i, j) ∧ p ≠ startPos st0 ∧ p ≠ endPos st0)) as [Hp|Hp].
      * rewrite decide_True; [done|]. destruct Hp as (-> & ? & ?). simpl.
        rewrite elem_of_app, elem_of_cons. tauto.
      * destruct (decide (p.1 = i ∧ p.2 ∈ pre ∧ p ≠ startPos st0 ∧ p ≠ endPos st0))
          as [Hq|Hq].
        -- rewrite decide_True; [done|]. rewrite elem_of_app. tauto.
        -- rewrite decide_False; [done|].
           rewrite elem_of_app, elem_of_cons, elem_of_nil.
           intros (Hp1 & [Hp2|[Hp2|[]]] & Hp3 & Hp4); [tauto|].
           apply Hp. destruct p as [a b]. simpl in *. subst. tauto.
  - exists st'. split_and!; try done. intros p. rewrite Hw.
    destruct (decide (p.1 = i ∧ inBounds (ROWS st0) (COLS st0) p
                      ∧ p ≠ startPos st0 ∧ p ≠ endPos st0)) as [Hp|Hp].
    + rewrite decide_True; [done|]. destruct Hp as (? & [? ?] & ? & ?).
      split_and!; try done. apply elem_of_upTo. lia.
    + destruct (decide (p.1 = i ∧ p.2 ∈ upTo 0 (COLS st0 - 1)
                        ∧ p ≠ startPos st0 ∧ p ≠ endPos st0)) as [Hq|Hq]; [|done].
      exfalso. apply Hp. destruct Hq as (? & Hq & ? & ?). apply elem_of_upTo in Hq.
      split_and!; try done. unfold inBounds. lia.
Qed.

(** The walling pass of [generateDFSMaze]: every cell but the start and
    the end becomes a wall. *)
Lemma wallAll_spec st :
  keeps st0 st →
  ∃ st', forEach (upTo 0 (st.(ROWS) - 1))
           (λ i st, forEach (upTo 0 (st.(COLS) - 1)) (λ j, wallUnlessSpecial i j) st) st
         = Ok st'
    ∧ keeps st0 st'
    ∧ st'.(rngCalls) = st.(rngCalls)
    ∧ ∀ p, inBounds st0.(ROWS) st0.(COLS) p →
           p ≠ st0.(startPos) → p ≠ st0.(endPos) →
           wallAt st'.(gridArray) p = true.
Proof.
  intros Hk. pose proof Hk as (_ & HsR & HsC & _). rewrite HsR.
  destruct (forEach_inv
    (λ pre st', keeps st0 st' ∧ st'.(rngCalls) = st.(rngCalls)
       ∧ ∀ p, p.1 ∈ pre → inBounds st0.(ROWS) st0.(COLS) p →
              p ≠ st0.(startPos) → p ≠ st0.(endPos) →
              wallAt st'.(gridArray) p = true)
    (upTo 0 (st0.(ROWS) - 1))
    (λ i st, forEach (upTo 0 (st.(COLS) - 1)) (λ j, wallUnlessSpecial i j) st) st)
    as (st' & Hrun & Hk' & Hrng & Hw).
  - split_and!; [done|done|]. intros p Hp. by apply elem_of_nil in Hp.
  - intros pre i st1 (post & Hl) (Hk1 & Hrng1 & Hw1).
    assert (Hi : 0 ≤ i ≤ st0.(ROWS) - 1).
    { apply elem_of_upTo. rewrite Hl. apply elem_of_app. right. by left. }
    pose proof Hk1 as (_ & _ & HsC1 & _). rewrite HsC1.
    destruct (wallRow_spec i st1 Hk1 ltac:(lia)) as (st2 & Hrun2 & Hk2 & Hrng2 & Hw2).
    exists st2. split_and!; [done|done|congruence|].
    intros p Hp Hb Hns Hne. rewrite Hw2.
    destruct (decide (p.1 = i ∧ inBounds (ROWS st0) (COLS st0) p
                      ∧ p ≠ startPos st0 ∧ p ≠ endPos st0)) as [Hq|Hq]; [done|].
    apply Hw1; try done.
    rewrite elem_of_app, elem_of_cons, elem_of_nil in Hp. tauto.
  - exists st'. split_and!; try done. intros p Hb. apply Hw; [|done].
    apply elem_of_upTo. destruct Hb as [? _]. lia.
Qed.
End Walling.

(** ** The lattice of the depth-first maze *)

(** The lattice cells of the grid are joined to [s] by steps of two that
    stay inside the grid. *)
Lemma lattice_reach rows cols (s : Pos) (P : Pos → Prop) :
  inBounds rows cols s → P s →
  (∀ v q, P v → inBounds rows cols q → twoSteps v q → P q) →
  ∀ p, inBounds rows cols p → onLattice s p → P p.
Proof.
  intros Hs Hstart Hclosed.
  assert (H : ∀ (n : nat) p, inBounds rows cols p → onLattice s p →
            manhattan s p ≤ 2 * Z.of_nat n → P p).
  { induction n as [|n IH]; intros p Hp Hl Hm.
    - pose proof (manhattan_zero s p) as Hz.
      unfold manhattan in *. rewrite <- Hz; [done|lia].
    - destruct (decide (manhattan s p ≤ 2 * Z.of_nat n)) as [Hle|Hgt]; [by apply IH|].
      destruct s as [a b], p as [a' b'].
      unfold manhattan, inBounds, onLattice in *. simpl in *.
      destruct Hl as [Hl1 Hl2].
      assert (Hq : ∃ q : Pos, (0 ≤ q.1 < rows ∧ 0 ≤ q.2 < cols)
                ∧ ((q.1 - a) `mod` 2 = 0 ∧ (q.2 - b) `mod` 2 = 0)
                ∧ Z.abs (a - q.1) + Z.abs (b - q.2) ≤ 2 * Z.of_nat n
                ∧ twoSteps q (a', b')).
      { unfold twoSteps. simpl.
        destruct (decide (a' = a)) as [->|Ha].
        - destruct (decide (b < b')).
          + exists (a, b' - 2). simpl. split_and!; try lia;
              Z.div_mod_to_equations; lia.
          + exists (a, b' + 2). simpl. split_and!; try lia;
              Z.div_mod_to_equations; lia.
        - destruct (decide (a < a')).
          + exists (a' - 2, b'). simpl. split_and!; try lia;
              Z.div_mod_to_equations; lia.
          + exists (a' + 2, b'). simpl. split_and!; try lia;
              Z.div_mod_to_equations; lia. }
      destruct Hq as (q & Hqb & Hql & Hqm & Hstep).
      apply (Hclosed q (a', b')); [|done|done]. by apply IH. }
  intros p Hp Hl. apply (H (Z.to_nat (manhattan s p)) p Hp Hl).
  pose proof (manhattan_nonneg s p). lia.
Qed.

Section Maze.
Variable st0 : State.

Lemma addWall_clear st i j :
  keeps st0 st → inBounds st0.(ROWS) st0.(COLS) (i, j) →
  ∃ st', addWall i j false st = Ok st' ∧ keeps st0 st'
    ∧ st'.(rngCalls) = st.(rngCalls)
    ∧ wallAt st'.(gridArray) (i, j) = false
    ∧ (∀ p, wallAt st.(gridArray) p = false → wallAt st'.(gridArray) p = false)
    ∧ (∀ p, p ≠ (i, j) → wallAt st'.(gridArray) p = wallAt st.(gridArray) p).
Proof.
  intros Hk Hij.
  destruct (addWall_effect st0 st i j false Hk Hij) as (st' & Hrun & Hk' & Hrng & Hw).
  exists st'. split_and!; try done.
  - pose proof Hk' as ((_ & _ & _ & Hws & Hwe) & _ & _ & Hss & Hse).
    destruct (decide ((i, j) = startPos st0)) as [Heq|Hns]; [by rewrite Heq, <- Hss|].
    destruct (decide ((i, j) = endPos st0)) as [Heq|Hne]; [by rewrite Heq, <- Hse|].
    rewrite Hw. by rewrite decide_True.
  - intros p Hp. rewrite Hw. by case_decide.
  - intros p Hp. rewrite Hw. rewrite decide_False; [done|]. tauto.
Qed.

Lemma mazeLoop_spec (rnd : nat → Z) (walls1 : Pos → bool) (fuel : nat)
    (stack : list Pos) (visited : gset Pos) st :
  mazeInv st0 walls1 stack visited st →
  (2 * size (cellSet st0.(ROWS) st0.(COLS) ∖ visited) + length stack < fuel)%nat →
  ∃ st' visited',
    mazeLoop fuel rnd stack visited st = Ok st'
    ∧ mazeInv st0 walls1 [] visited' st'.
Proof.
  revert stack visited st.
  induction fuel as [|fuel IH]; intros stack visited st HI Hfuel; [lia|].
  cbn [mazeLoop]. destruct (pop stack) as [[curr stack']|] eqn:Hpop.
  2:{ apply pop_nil in Hpop. subst stack. exists st, visited. done. }
  apply pop_snoc in Hpop. subst stack.
  destruct HI as (Hk & Hstack & Hsv & Hvis & Hclosed & Hoff).
  assert (Hcv : curr ∈ visited).
  { apply Hstack. apply elem_of_app. right. by left. }
  destruct (Hvis curr Hcv) as (Hcurr & Hcl & lc & Hlc).
  rewrite length_app in Hfuel. cbn [length] in Hfuel.
  pose proof Hk as (_ & HsR & HsC & _). rewrite HsR, HsC.
  set (neighbors := getMazeNeighbors (ROWS st0) (COLS st0) curr.1 curr.2 visited).
  destruct (decide (0 < length neighbors)%nat) as [Hsome|Hnone].
  2:{ apply IH; [|lia].
      assert (Hnil : neighbors = []) by (destruct neighbors; [done|simpl in Hnone; lia]).
      unfold mazeInv. split_and!; try done.
      - intros p Hp. apply Hstack. apply elem_of_app. by left.
      - intros v Hv. destruct (Hclosed v Hv) as [Hs|Hc]; [|by right].
        apply elem_of_app in Hs as [Hs|Hs]; [by left|].
        apply list_elem_of_singleton in Hs. subst v. right.
        intros q Hq Hstep. by eapply getMazeNeighbors_nil. }
  destruct (randomInt rnd (Z.of_nat (length neighbors)) st) as [k st1] eqn:Hrand.
  destruct (randomInt_keeps st0 rnd (Z.of_nat (length neighbors)) st Hk) as [Hk1 Hkb].
  assert (Hg1 : gridArray st1 = gridArray st).
  { unfold randomInt in Hrand. by inversion Hrand. }
  rewrite Hrand in Hk1, Hkb. simpl in Hk1, Hkb. specialize (Hkb ltac:(lia)).
  assert (Hlt : (Z.to_nat k < length neighbors)%nat) by lia.
  destruct (lookup_lt_is_Some_2 neighbors (Z.to_nat k) Hlt) as (next & Hnext).
  rewrite Hnext. cbn [deref mbind outcome_bind].
  assert (Hin : next ∈ neighbors) by (by eapply list_elem_of_lookup_2).
  apply elem_of_getMazeNeighbors in Hin as (Hnb & Hnv & Hshape).
  assert (∃ dr dc, next = (curr.1 + dr, curr.2 + dc)
                   ∧ ((dr = 0 ∧ (dc = 2 ∨ dc = -2)) ∨ (dc = 0 ∧ (dr = 2 ∨ dr = -2))))
    as (dr & dc & Hnexteq & Hd).
  { exists (next.1 - curr.1), (next.2 - curr.2). split; [|lia].
    destruct next. simpl. f_equal; lia. }
  subst next. cbn [fst snd] in *.
  rewrite (half_even curr.1 dr) by lia. cbn [deref mbind outcome_bind].
  rewrite (half_even curr.2 dc) by lia. cbn [deref mbind outcome_bind].
  set (mid := (curr.1 + dr `div` 2, curr.2 + dc `div` 2)).
  set (next := (curr.1 + dr, curr.2 + dc)) in *.
  assert (Hmid : (dr = 0 ∧ dr `div` 2 = 0 ∧ (dc `div` 2 = 1 ∨ dc `div` 2 = -1)
                  ∧ dc = 2 * (dc `div` 2))
                 ∨ (dc = 0 ∧ dc `div` 2 = 0 ∧ (dr `div` 2 = 1 ∨ dr `div` 2 = -1)
                    ∧ dr = 2 * (dr `div` 2))).
  { destruct Hd as [[-> [-> | ->]] | [-> [-> | ->]]];
      [left|left|right|right]; split_and!; try done; auto. }
  assert (Hmidb : inBounds st0.(ROWS) st0.(COLS) mid).
  { unfold inBounds, mid, next in *. cbn [fst snd] in *. lia. }
  destruct (addWall_clear st1 mid.1 mid.2 Hk1 Hmidb)
    as (st2 & Hrun2 & Hk2 & _ & Hmid2 & Hmono2 & Hframe2).
  cbn [fst snd mid] in Hrun2. rewrite Hrun2. cbn [mbind outcome_bind].
  destruct (addWall_clear st2 next.1 next.2 Hk2 Hnb)
    as (st3 & Hrun3 & Hk3 & _ & Hnext3 & Hmono3 & Hframe3).
  cbn [fst snd next] in Hrun3. rewrite Hrun3. cbn [mbind outcome_bind].
  assert (Hmono : ∀ p, wallAt (gridArray st) p = false → wallAt (gridArray st3) p = false).
  { intros p Hp. apply Hmono3, Hmono2. by rewrite Hg1. }
  apply IH.
  - unfold mazeInv. split_and!.
    + done.
    + intros p. rewrite !elem_of_app, !elem_of_cons, !elem_of_nil, elem_of_union,
        elem_of_singleton.
      intros [[Hp | [-> | []]] | [-> | []]]; [left|by left|by right].
      apply Hstack. apply elem_of_app. by left.
    + apply elem_of_union. by left.
    + intros v [Hv|Hv]%elem_of_union.
      * destruct (Hvis v Hv) as (Hvb & Hvl & lv & Hlv).
        split_and!; [done|done|]. exists lv. by eapply connects_mono.
      * apply elem_of_singleton in Hv. subst v. split_and!.
        -- done.
        -- unfold onLattice, next in *. cbn [fst snd].
           destruct Hcl as [Hc1 Hc2]. split; Z.div_mod_to_equations; lia.
        -- exists ((lc ++ [mid]) ++ [next]).
           eapply connects_snoc; [eapply connects_snoc| |].
           ++ eapply connects_mono; [exact Hmono|exact Hlc].
           ++ split; [done|]. apply Hmono3. by destruct mid.
           ++ unfold manhattan, mid. cbn [fst snd]. lia.
           ++ split; [done|]. by destruct next.
           ++ unfold manhattan, mid, next. cbn [fst snd]. lia.
    + intros v [Hv|Hv]%elem_of_union.
      * destruct (Hclosed v Hv) as [Hs|Hc].
        -- left. apply elem_of_app. by left.
        -- right. intros q Hq Hstep. apply elem_of_union. left. by apply Hc.
      * apply elem_of_singleton in Hv. subst v. left.
        apply elem_of_app. right. by left.
    + intros p Hp. rewrite Hframe3, Hframe2, Hg1; [by apply Hoff| |].
      * intros ->. unfold offLattice, onLattice, mid in *. cbn [fst snd] in *.
        destruct Hcl as [Hc1 Hc2], Hp as [Hp1 Hp2].
        destruct Hmid as [(? & Hz & _)|(? & Hz & _)]; rewrite Hz in *;
          Z.div_mod_to_equations; lia.
      * intros ->. unfold offLattice, onLattice, next in *. cbn [fst snd] in *.
        destruct Hcl as [Hc1 Hc2], Hp as [Hp1 Hp2].
        Z.div_mod_to_equations; lia.
  - assert (Hsub : visited ⊆ cellSet (ROWS st0) (COLS st0)).
    { intros v Hv. destruct (Hvis v Hv) as (Hvb & _).
      unfold cellSet. apply elem_of_list_to_set. by apply elem_of_cellsOf. }
    assert (size (cellSet (ROWS st0) (COLS st0) ∖ (visited ∪ {[next]}))
            < size (cellSet (ROWS st0) (COLS st0) ∖ visited))%nat.
    { apply subset_size. apply strict_spec_alt. split.
      { intros y Hy. apply elem_of_difference in Hy as [Hy1 Hy2].
        apply elem_of_difference. split; [done|].
        intros Hy3. apply Hy2, elem_of_union. by left. }
      intros Heq. assert (Hx : next ∈ cellSet (ROWS st0) (COLS st0) ∖ visited).
      { apply elem_of_difference. split; [|done].
        unfold cellSet. apply elem_of_list_to_set. by apply elem_of_cellsOf. }
      rewrite <- Heq in Hx. apply elem_of_difference in Hx as [_ Hx].
      apply Hx, elem_of_union. right. by apply elem_of_singleton. }
    rewrite !length_app. simpl. lia.
Qed.
End Maze.

Lemma offLattice_ne o p : offLattice o p → p ≠ o.
Proof.
  intros [H1 _] ->. rewrite Z.sub_diag in H1. done.
Qed.

(** The depth-first maze: the lattice of the start is carved into one
    connected region, and the cells off the lattice in both coordinates
    stay walls. *)
Lemma generateDFSMaze_spec st0 (rnd : nat → Z) (fuel : nat) st :
  keeps st0 st →
  (2 * (Z.to_nat st0.(ROWS) * Z.to_nat st0.(COLS)) + 1 < fuel)%nat →
  ∃ st', generateDFSMaze fuel rnd st = Ok st' ∧ keeps st0 st'
    ∧ (∀ p, inBounds st0.(ROWS) st0.(COLS) p → onLattice st0.(startPos) p →
         ∃ l, connects st0.(ROWS) st0.(COLS) st'.(gridArray) st0.(startPos) p l)
    ∧ (∀ p, inBounds st0.(ROWS) st0.(COLS) p → offLattice st0.(startPos) p →
         p ≠ st0.(endPos) → wallAt st'.(gridArray) p = true).
Proof.
  intros Hk Hfuel. unfold generateDFSMaze.
  destruct (wallAll_spec st0 st Hk) as (st1 & Hrun1 & Hk1 & _ & Hwall1).
  rewrite Hrun1. cbn [mbind outcome_bind].
  pose proof Hk1 as (((_ & Hs1 & He1 & _) & _ & _ & Hws1 & _) & HsR1 & HsC1 & Hss1 & Hse1).
  rewrite Hss1.
  destruct (mazeLoop_spec st0 rnd (wallAt st1.(gridArray)) fuel
              [startPos st0] {[startPos st0]} st1)
    as (st2 & visited & Hrun2 & HI).
  { unfold mazeInv. split_and!.
    - done.
    - intros p Hp. apply list_elem_of_singleton in Hp. subst. by apply elem_of_singleton.
    - by apply elem_of_singleton.
    - intros v Hv. apply elem_of_singleton in Hv. subst v.
      rewrite HsR1, HsC1, Hss1 in *.
      split_and!; [done| |].
      + unfold onLattice. by rewrite !Z.sub_diag.
      + exists [startPos st0]. unfold connects. simpl. unfold freeCell. tauto.
    - intros v Hv. apply elem_of_singleton in Hv. subst v. left. by left.
    - done. }
  { assert (size (cellSet (ROWS st0) (COLS st0) ∖ {[startPos st0]})
            ≤ size (cellSet (ROWS st0) (COLS st0)))%nat.
    { apply subseteq_size. intros y Hy.
      by apply elem_of_difference in Hy as [? _]. }
    rewrite size_cellSet in H. simpl. lia. }
  rewrite Hrun2. cbn [mbind outcome_bind].
  destruct (addWall_special st2 false) as [Ha Hb].
  rewrite Ha. cbn [mbind outcome_bind]. rewrite Hb.
  destruct HI as (Hk2 & _ & Hsv & Hvis & Hclosed & Hoff).
  exists st2. split_and!; [done|done| |].
  - intros p Hp Hl. apply Hvis.
    apply (lattice_reach (ROWS st0) (COLS st0) (startPos st0) (λ q, q ∈ visited));
      try done.
    + by rewrite <- HsR1, <- HsC1, <- Hss1.
    + intros v q Hv Hq Hstep. destruct (Hclosed v Hv) as [Hx|Hc].
      * by apply elem_of_nil in Hx.
      * by apply Hc.
  - intros p Hp Hl Hne. rewrite Hoff by done. apply Hwall1; [done| |done].
    by apply offLattice_ne.
Qed.

(** ** Runs on a connected board *)

Lemma connected_run_succeeds (st : State) (algo : Algo) (fuel : nat) :
  wellFormed st →
  (enoughFuel st.(ROWS) st.(COLS) ≤ fuel)%nat →
  (∃ l, connects st.(ROWS) st.(COLS) st.(gridArray) st.(startPos) st.(endPos) l) →
  ∃ st' run,
    startVisualization fuel algo st = Ok (st', Some run) ∧ run.(success) = true.
Proof.
  intros Hst Hfuel (l & Hl).
  destruct (run_anatomy st fuel Hst Hfuel algo)
    as (res & run & _ & Hrun & _ & _ & _ & Hpost & Htree & _ & _ & _ & _ & Hexit).
  eexists _, run. split; [exact Hrun|].
  destruct Hpost as (_ & _ & _ & _ & Hempty).
  destruct Htree as (_ & _ & _ & _ & Hall & _).
  destruct (exit res) eqn:Hex.
  - destruct Hexit as (_ & _ & _ & _ & ->).
    assert (Hfree : freeCell (ROWS st) (COLS st) (gridArray st) (endPos st)).
    { clear -Hl. destruct Hl as (Hp & _ & Hlast). revert Hp Hlast.
      induction l as [|x l IH]; [done|]. intros (Hx & _ & Hp) Hlast.
      destruct l as [|y l].
      - simpl in Hlast. by inversion Hlast; subst.
      - apply IH; [done|]. by rewrite last_cons_cons in Hlast. }
    destruct Hfree as [_ ->]. done.
  - exfalso. destruct (Hempty eq_refl) as [Hne _]. apply Hne.
    eapply Hall; [done|]. by eapply path_walk.
Qed.

(** ** Generators that only add walls *)

Lemma addsWalls_refl A st : addsWalls A st st.
Proof. split; [apply sameSetting_refl|]. intros p. by left. Qed.

Lemma addsWalls_trans A st1 st2 st3 :
  addsWalls A st1 st2 → addsWalls A st2 st3 → addsWalls A st1 st3.
Proof.
  intros [(H1 & H2 & H3 & H4) Hg] [(H1' & H2' & H3' & H4') Hg']. split.
  - unfold sameSetting. split_and!; congruence.
  - intros p. destruct (Hg p) as [Hp|(Hp & n & Hn & Hn')];
      destruct (Hg' p) as [Hq|(Hq & m & Hm & Hm')].
    + left. congruence.
    + right. split; [done|]. exists m. split; congruence.
    + right. split; [done|]. exists n. split; congruence.
    + right. split; [done|]. exists n. split; [done|].
      rewrite Hm'. rewrite Hn' in Hm. by inversion Hm.
Qed.

Lemma addsWalls_weaken (A B : Pos → Prop) st st' :
  (∀ p, A p → B p) → addsWalls A st st' → addsWalls B st st'.
Proof.
  intros HAB [Hs Hg]. split; [done|]. intros p.
  destruct (Hg p) as [Hp|(Hp & Hn)]; [by left|right]. split; [by apply HAB|done].
Qed.

Lemma addsWalls_rng A st k : addsWalls A st (set_rngCalls k st).
Proof. split; [done|]. intros p. by left. Qed.

Lemma addsWalls_outside A st st' p :
  addsWalls A st st' → ¬ A p → st'.(gridArray) !! p = st.(gridArray) !! p.
Proof. intros [_ Hg] Hp. destruct (Hg p) as [?|[? _]]; done. Qed.

Lemma addsWalls_wallAt A st st' p :
  addsWalls A st st' → wallAt st.(gridArray) p = true → wallAt st'.(gridArray) p = true.
Proof.
  intros [_ Hg] Hp. unfold wallAt in *.
  destruct (Hg p) as [->|(_ & n & Hn & ->)]; done.
Qed.

Lemma addWall_adds i j st st' :
  addWall i j true st = Ok st' → addsWalls (λ p, p = (i, j)) st st'.
Proof.
  unfold addWall. destruct (isStartOrEnd st i j).
  - intros H. inversion H. apply addsWalls_refl.
  - destruct (gridArray st !! (i, j)) as [nd|] eqn:Hnd; [|done].
    cbn [deref mbind outcome_bind]. intros H. inversion H. split; [done|].
    intros p. simpl. destruct (decide (p = (i, j))) as [->|Hp].
    + right. split; [done|]. exists nd. by rewrite lookup_insert_eq.
    + left. by rewrite lookup_insert_ne.
Qed.

Lemma forEach_adds {X : Type} (A : Pos → Prop) (l : list X)
    (body : X → State → outcome State) st st' :
  (∀ x s s', x ∈ l → body x s = Ok s' → addsWalls A s s') →
  forEach l body st = Ok st' → addsWalls A st st'.
Proof.
  revert st. induction l as [|x l IH]; intros st Hbody Hrun.
  - simpl in Hrun. inversion Hrun. apply addsWalls_refl.
  - cbn [forEach] in Hrun. apply bind_Ok in Hrun as (s1 & H1 & Hrun).
    eapply addsWalls_trans.
    + eapply Hbody; [by left|done].
    + apply IH; [|done]. intros y s s' Hy. apply Hbody. by right.
Qed.

(** A line of walls, as the spiral draws them. *)
Lemma wallLine_adds (A : Pos → Prop) (l : list Z) (cell : Z → Pos) st st' :
  (∀ x, x ∈ l → A (cell x)) →
  forEach l (λ x, wallUnlessSpecial (cell x).1 (cell x).2) st = Ok st' →
  addsWalls A st st'.
Proof.
  intros Hl. apply forEach_adds. intros x s s' Hx Hrun.
  unfold wallUnlessSpecial in Hrun.
  destruct (negb (isStartOrEnd s (cell x).1 (cell x).2)).
  - apply addWall_adds in Hrun. eapply addsWalls_weaken; [|done].
    intros p ->. specialize (Hl x Hx). by destruct (cell x).
  - inversion Hrun. apply addsWalls_refl.
Qed.

(** Recursive division writes inside its rectangle only, and only to set
    walls. *)
Lemma recursiveDivision_adds (rnd : nat → Z) (fuel : nat) rStart rEnd cStart cEnd st st' :
  recursiveDivision fuel rnd rStart rEnd cStart cEnd st = Ok st' →
  addsWalls (inRect rStart rEnd cStart cEnd) st st'.
Proof.
  revert rStart rEnd cStart cEnd st st'.
  induction fuel as [|fuel IH]; intros rStart rEnd cStart cEnd st st' Hrun; [done|].
  cbn [recursiveDivision] in Hrun.
  destruct (decide (rEnd - rStart < 2 ∨ cEnd - cStart < 2)) as [Hsmall|Hbig].
  { inversion Hrun. apply addsWalls_refl. }
  assert (2 ≤ rEnd - rStart ∧ 2 ≤ cEnd - cStart) as [Hrr Hcc] by lia.
  destruct (decide (rEnd - rStart > cEnd - cStart)) as [Hh|Hv].
  - unfold randomInt in Hrun. cbn [rngCalls set_rngCalls] in Hrun.
    set (x := rnd (rngCalls st) `mod` (rEnd - rStart - 1)) in *.
    set (y := rnd (S (rngCalls st)) `mod` (cEnd - cStart + 1)) in *.
    assert (Hx : 0 ≤ x < rEnd - rStart - 1) by (apply Z.mod_pos_bound; lia).
    apply bind_Ok in Hrun as (s1 & H1 & Hrun).
    apply bind_Ok in Hrun as (s2 & H2 & Hrun).
    eapply addsWalls_trans; [apply (addsWalls_rng _ st (S (S (rngCalls st))))|].
    eapply addsWalls_trans; [|eapply addsWalls_trans].
    + eapply forEach_adds; [|exact H1]. intros j s s' Hj Hb.
      apply elem_of_upTo in Hj. cbv beta in Hb.
      destruct (bool_decide (j ≠ y + cStart) && negb (isStartOrEnd s (x + rStart + 1) j)).
      * apply addWall_adds in Hb. eapply addsWalls_weaken; [|done].
        intros p ->. unfold inRect. simpl. lia.
      * inversion Hb. apply addsWalls_refl.
    + eapply addsWalls_weaken; [|by eapply IH].
      intros p. unfold inRect. lia.
    + eapply addsWalls_weaken; [|by eapply IH].
      intros p. unfold inRect. lia.
  - unfold randomInt in Hrun. cbn [rngCalls set_rngCalls] in Hrun.
    set (x := rnd (rngCalls st) `mod` (cEnd - cStart - 1)) in *.
    set (y := rnd (S (rngCalls st)) `mod` (rEnd - rStart + 1)) in *.
    assert (Hx : 0 ≤ x < cEnd - cStart - 1) by (apply Z.mod_pos_bound; lia).
    apply bind_Ok in Hrun as (s1 & H1 & Hrun).
    apply bind_Ok in Hrun as (s2 & H2 & Hrun).
    eapply addsWalls_trans; [apply (addsWalls_rng _ st (S (S (rngCalls st))))|].
    eapply addsWalls_trans; [|eapply addsWalls_trans].
    + eapply forEach_adds; [|exact H1]. intros i s s' Hi Hb.
      apply elem_of_upTo in Hi. cbv beta in Hb.
      destruct (bool_decide (i ≠ y + rStart) && negb (isStartOrEnd s i (x + cStart + 1))).
      * apply addWall_adds in Hb. eapply addsWalls_weaken; [|done].
        intros p ->. unfold inRect. simpl. lia.
      * inversion Hb. apply addsWalls_refl.
    + eapply addsWalls_weaken; [|by eapply IH].
      intros p. unfold inRect. lia.
    + eapply addsWalls_weaken; [|by eapply IH].
      intros p. unfold inRect. lia.
Qed.

(** ** The spiral *)

Lemma rowLine_adds (A : Pos → Prop) (l : list Z) (i : Z) st st' :
  (∀ j, j ∈ l → A (i, j)) →
  forEach l (λ j, wallUnlessSpecial i j) st = Ok st' → addsWalls A st st'.
Proof. intros Hl. by apply (wallLine_adds A l (λ j, (i, j))). Qed.

Lemma colLine_adds (A : Pos → Prop) (l : list Z) (j : Z) st st' :
  (∀ i, i ∈ l → A (i, j)) →
  forEach l (λ i, wallUnlessSpecial i j) st = Ok st' → addsWalls A st st'.
Proof. intros Hl. by apply (wallLine_adds A l (λ i, (i, j))). Qed.

(** The spiral sets walls inside the outer ring only. *)
Lemma spiralLoop_adds (R C : Z) (fuel : nat) rStart rEnd cStart cEnd st st' :
  5 ≤ R →
  1 ≤ rStart → rEnd ≤ R - 2 → 1 ≤ cStart → cEnd ≤ C - 2 →
  (rStart = 1 ∧ rEnd = R - 2) ∨ rEnd ≤ R - 4 →
  spiralLoop fuel rStart rEnd cStart cEnd st = Ok st' →
  addsWalls (inRect 1 (R - 2) 1 (C - 2)) st st'.
Proof.
  intros HR. revert rStart rEnd cStart cEnd st.
  induction fuel as [|fuel IH];
    intros rStart rEnd cStart cEnd st Hr1 Hr2 Hc1 Hc2 Hfirst Hrun; [done|].
  cbn [spiralLoop] in Hrun.
  destruct (decide (rStart ≤ rEnd ∧ cStart ≤ cEnd)) as [[Hr Hc]|Hstop].
  2:{ inversion Hrun. apply addsWalls_refl. }
  apply bind_Ok in Hrun as (s1 & H1 & Hrun).
  apply bind_Ok in Hrun as (s2 & H2 & Hrun).
  apply rowLine_adds with (A := inRect 1 (R - 2) 1 (C - 2)) in H1.
  2:{ intros j Hj. apply elem_of_upTo in Hj. unfold inRect. simpl. lia. }
  apply colLine_adds with (A := inRect 1 (R - 2) 1 (C - 2)) in H2.
  2:{ intros i Hi. apply elem_of_upTo in Hi. unfold inRect. simpl. lia. }
  eapply addsWalls_trans; [exact H1|]. eapply addsWalls_trans; [exact H2|].
  apply bind_Ok in Hrun as ([s3 rEnd'] & H3 & Hrun).
  apply bind_Ok in Hrun as ([s4 cStart'] & H4 & Hrun).
  destruct (decide (rStart + 2 ≤ rEnd)) as [Hthird|Hthird].
  - apply bind_Ok in H3 as (s3' & H3 & Heq). inversion Heq; subst s3' rEnd'.
    apply rowLine_adds with (A := inRect 1 (R - 2) 1 (C - 2)) in H3.
    2:{ intros j Hj. apply elem_of_downTo in Hj. unfold inRect. simpl. lia. }
    eapply addsWalls_trans; [exact H3|].
    destruct (decide (cStart ≤ cEnd - 2)) as [Hfourth|Hfourth].
    + apply bind_Ok in H4 as (s4' & H4 & Heq'). inversion Heq'; subst s4' cStart'.
      apply colLine_adds with (A := inRect 1 (R - 2) 1 (C - 2)) in H4.
      2:{ intros i Hi. apply elem_of_downTo in Hi. unfold inRect. simpl. lia. }
      eapply addsWalls_trans; [exact H4|].
      eapply IH; [| | | | |exact Hrun]; lia.
    + inversion H4; subst s4 cStart'.
      eapply IH; [| | | | |exact Hrun]; lia.
  - inversion H3; subst s3 rEnd'.
    destruct (decide (cStart ≤ cEnd - 2)) as [Hfourth|Hfourth].
    + apply bind_Ok in H4 as (s4' & H4 & Heq'). inversion Heq'; subst s4' cStart'.
      apply colLine_adds with (A := inRect 1 (R - 2) 1 (C - 2)) in H4.
      2:{ intros i Hi. apply elem_of_downTo in Hi. unfold inRect. simpl. lia. }
      eapply addsWalls_trans; [exact H4|].
      eapply IH; [| | | | |exact Hrun]; lia.
    + inversion H4; subst s4 cStart'.
      eapply IH; [| | | | |exact Hrun]; lia.
Qed.

Section Clearing.
Variable st0 : State.

Lemma clearStep_spec st i j :
  keeps st0 st →
  ∃ st', (if decide (i >= 0 ∧ i < st.(ROWS) ∧ j >= 0 ∧ j < st.(COLS))
          then addWall i j false st else Ok st) = Ok st'
    ∧ keeps st0 st'
    ∧ (inBounds st0.(ROWS) st0.(COLS) (i, j) → wallAt st'.(gridArray) (i, j) = false)
    ∧ (∀ p, wallAt st.(gridArray) p = false → wallAt st'.(gridArray) p = false).
Proof.
  intros Hk. pose proof Hk as (_ & HsR & HsC & _).
  destruct (decide (i >= 0 ∧ i < ROWS st ∧ j >= 0 ∧ j < COLS st)) as [Hin|Hout].
  - destruct (addWall_clear st0 st i j Hk) as (st' & Hrun & Hk' & _ & Hw & Hmono & _).
    { unfold inBounds. simpl. lia. }
    exists st'. split_and!; done.
  - exists st. split_and!; try done. intros [? ?]. simpl in *. lia.
Qed.

(** [clearNeighbors]: the cells next to [pos] are free afterwards, and
    no wall is added. *)
Lemma clearNeighbors_spec pos st :
  keeps st0 st →
  ∃ st', clearNeighbors pos st = Ok st' ∧ keeps st0 st'
    ∧ (∀ q, inBounds st0.(ROWS) st0.(COLS) q → manhattan pos q = 1 →
         wallAt st'.(gridArray) q = false)
    ∧ (∀ p, wallAt st.(gridArray) p = false → wallAt st'.(gridArray) p = false).
Proof.
  intros Hk. unfold clearNeighbors. cbn [forEach].
  destruct (clearStep_spec st (pos.1 + 0) (pos.2 + 1) Hk) as (s1 & H1 & Hk1 & Hw1 & Hm1).
  rewrite H1. cbn [mbind outcome_bind].
  destruct (clearStep_spec s1 (pos.1 + 0) (pos.2 + -1) Hk1) as (s2 & H2 & Hk2 & Hw2 & Hm2).
  rewrite H2. cbn [mbind outcome_bind].
  destruct (clearStep_spec s2 (pos.1 + 1) (pos.2 + 0) Hk2) as (s3 & H3 & Hk3 & Hw3 & Hm3).
  rewrite H3. cbn [mbind outcome_bind].
  destruct (clearStep_spec s3 (pos.1 + -1) (pos.2 + 0) Hk3) as (s4 & H4 & Hk4 & Hw4 & Hm4).
  rewrite H4. cbn [mbind outcome_bind].
  exists s4. split_and!; try done.
  - intros [a b] Hq Hm. unfold manhattan in Hm. simpl in Hm.
    assert (Hcases : (a, b) = (pos.1 + 0, pos.2 + 1) ∨ (a, b) = (pos.1 + 0, pos.2 + -1)
                     ∨ (a, b) = (pos.1 + 1, pos.2 + 0)
                     ∨ (a, b) = (pos.1 + -1, pos.2 + 0)).
    { assert ((a = pos.1 ∧ b = pos.2 + 1) ∨ (a = pos.1 ∧ b = pos.2 - 1)
              ∨ (a = pos.1 + 1 ∧ b = pos.2) ∨ (a = pos.1 - 1 ∧ b = pos.2)) as Hc by lia.
      destruct Hc as [[-> ->]|[[-> ->]|[[-> ->]|[-> ->]]]];
        [left|right; left|right; right; left|right; right; right]; f_equal; lia. }
    destruct Hcases as [Heq|[Heq|[Heq|Heq]]]; rewrite Heq in Hq |- *.
    + apply Hm4, Hm3, Hm2. by apply Hw1.
    + apply Hm4, Hm3. by apply Hw2.
    + apply Hm4. by apply Hw3.
    + by apply Hw4.
  - intros p Hp. by apply Hm4, Hm3, Hm2, Hm1.
Qed.

Lemma generateSpiralPattern_spec (fuel : nat) st :
  keeps st0 st → (Z.to_nat st0.(ROWS) < fuel)%nat →
  ∃ st', generateSpiralPattern fuel st = Ok st' ∧ keeps st0 st'
    ∧ (∀ q, inBounds st0.(ROWS) st0.(COLS) q →
         manhattan st0.(startPos) q = 1 ∨ manhattan st0.(endPos) q = 1 →
         wallAt st'.(gridArray) q = false)
    ∧ (∀ p, ¬ inRect 1 (st0.(ROWS) - 2) 1 (st0.(COLS) - 2) p →
         wallAt st.(gridArray) p = false → wallAt st'.(gridArray) p = false).
Proof.
  intros Hk Hfuel. pose proof Hk as ((_ & HR & HC & _) & HsR & HsC & _).
  unfold generateSpiralPattern.
  destruct (spiralLoop_keeps st0 fuel 1 (ROWS st - 2) 1 (COLS st - 2) st Hk)
    as (st1 & Hrun1 & Hk1); try lia.
  rewrite Hrun1. cbn [mbind outcome_bind].
  apply (spiralLoop_adds (ROWS st0) (COLS st0)) in Hrun1 as Hadds; try lia.
  pose proof Hk1 as (_ & _ & _ & Hss1 & Hse1).
  destruct (clearNeighbors_spec (startPos st1) st1 Hk1) as (st2 & Hrun2 & Hk2 & Hn2 & Hm2).
  rewrite Hrun2. cbn [mbind outcome_bind].
  pose proof Hk2 as (_ & _ & _ & Hss2 & Hse2).
  destruct (clearNeighbors_spec (endPos st2) st2 Hk2) as (st3 & Hrun3 & Hk3 & Hn3 & Hm3).
  exists st3. split_and!; try done.
  - intros q Hq [Hs|He].
    + apply Hm3, Hn2; [done|]. by rewrite Hss1.
    + apply Hn3; [done|]. by rewrite Hse2.
  - intros p Hp Hw. apply Hm3, Hm2. unfold wallAt in *.
    by rewrite (addsWalls_outside _ _ _ p Hadds Hp).
Qed.
End Clearing.

(** ** The outer ring *)

Section Ring.
Variables (rows cols : Z) (walls : Pos → bool).
Hypothesis Hrows : 1 ≤ rows.
Hypothesis Hcols : 1 ≤ cols.
Hypothesis Hfree : ∀ p, onBorder rows cols p → walls p = false.

Local Abbreviation E := (edge rows cols walls).

(** Inside a rectangle of free cells one walks straight to any cell. *)
Lemma rect_walk rStart rEnd cStart cEnd u :
  (∀ p, inRect rStart rEnd cStart cEnd p → onBorder rows cols p) →
  inRect rStart rEnd cStart cEnd u →
  ∀ (n : nat) v, inRect rStart rEnd cStart cEnd v →
    manhattan u v = Z.of_nat n → walk E u v n.
Proof.
  intros Hrect Hu. induction n as [|n IH]; intros v Hv Hm.
  - apply manhattan_zero in Hm. subst v. constructor.
  - assert (Hstep : ∃ w : Pos, inRect rStart rEnd cStart cEnd w
              ∧ manhattan u w = Z.of_nat n ∧ manhattan w v = 1).
    { destruct u as [a b], v as [a' b']. unfold manhattan, inRect in *. simpl in *.
      destruct (decide (a' = a)) as [->|Ha].
      - destruct (decide (b < b')).
        + exists (a, b' - 1). simpl. lia.
        + exists (a, b' + 1). simpl. lia.
      - destruct (decide (a < a')).
        + exists (a' - 1, b'). simpl. lia.
        + exists (a' + 1, b'). simpl. lia. }
    destruct Hstep as (w & Hw & Hn & H1).
    eapply walk_step; [by apply IH|].
    apply edge_spec; [by apply Hrect|].
    split_and!; [by apply Hrect|done|by apply Hfree, Hrect].
Qed.

Lemma side_walk rStart rEnd cStart cEnd u v :
  (∀ p, inRect rStart rEnd cStart cEnd p → onBorder rows cols p) →
  inRect rStart rEnd cStart cEnd u → inRect rStart rEnd cStart cEnd v →
  ∃ n, walk E u v n.
Proof.
  intros Hrect Hu Hv. exists (Z.to_nat (manhattan u v)).
  eapply rect_walk; try done. pose proof (manhattan_nonneg u v). lia.
Qed.

Lemma top_side p : inRect 0 0 0 (cols - 1) p → onBorder rows cols p.
Proof. unfold inRect, onBorder, inBounds. lia. Qed.

Lemma bottom_side p : inRect (rows - 1) (rows - 1) 0 (cols - 1) p → onBorder rows cols p.
Proof. unfold inRect, onBorder, inBounds. lia. Qed.

Lemma left_side p : inRect 0 (rows - 1) 0 0 p → onBorder rows cols p.
Proof. unfold inRect, onBorder, inBounds. lia. Qed.

Lemma right_side p : inRect 0 (rows - 1) (cols - 1) (cols - 1) p → onBorder rows cols p.
Proof. unfold inRect, onBorder, inBounds. lia. Qed.

(** Along the ring every cell is joined to the corner [(0, 0)], both
    ways. *)
Lemma ring_to_corner u : onBorder rows cols u → ∃ n, walk E u (0, 0) n.
Proof.
  intros [[Hu1 Hu2] Hside].
  destruct (decide (u.1 = 0)) as [Htop|Hntop].
  { apply (side_walk 0 0 0 (cols - 1)); [apply top_side|..]; unfold inRect; simpl; lia. }
  destruct (decide (u.2 = 0)) as [Hleft|Hnleft].
  { apply (side_walk 0 (rows - 1) 0 0); [apply left_side|..]; unfold inRect; simpl; lia. }
  destruct (decide (u.1 = rows - 1)) as [Hbot|Hnbot].
  - destruct (side_walk (rows - 1) (rows - 1) 0 (cols - 1) u (rows - 1, 0))
      as (n1 & H1); [apply bottom_side|unfold inRect; simpl; lia..|].
    destruct (side_walk 0 (rows - 1) 0 0 (rows - 1, 0) (0, 0))
      as (n2 & H2); [apply left_side|unfold inRect; simpl; lia..|].
    exists (n1 + n2)%nat. by eapply walk_app.
  - destruct (side_walk 0 (rows - 1) (cols - 1) (cols - 1) u (0, cols - 1))
      as (n1 & H1); [apply right_side|unfold inRect; simpl; lia..|].
    destruct (side_walk 0 0 0 (cols - 1) (0, cols - 1) (0, 0))
      as (n2 & H2); [apply top_side|unfold inRect; simpl; lia..|].
    exists (n1 + n2)%nat. by eapply walk_app.
Qed.

Lemma ring_from_corner v : onBorder rows cols v → ∃ n, walk E (0, 0) v n.
Proof.
  intros [[Hv1 Hv2] Hside].
  destruct (decide (v.1 = 0)) as [Htop|Hntop].
  { apply (side_walk 0 0 0 (cols - 1)); [apply top_side|..]; unfold inRect; simpl; lia. }
  destruct (decide (v.2 = 0)) as [Hleft|Hnleft].
  { apply (side_walk 0 (rows - 1) 0 0); [apply left_side|..]; unfold inRect; simpl; lia. }
  destruct (decide (v.1 = rows - 1)) as [Hbot|Hnbot].
  - destruct (side_walk 0 (rows - 1) 0 0 (0, 0) (rows - 1, 0))
      as (n1 & H1); [apply left_side|unfold inRect; simpl; lia..|].
    destruct (side_walk (rows - 1) (rows - 1) 0 (cols - 1) (rows - 1, 0) v)
      as (n2 & H2); [apply bottom_side|unfold inRect; simpl; lia..|].
    exists (n1 + n2)%nat. by eapply walk_app.
  - destruct (side_walk 0 0 0 (cols - 1) (0, 0) (0, cols - 1))
      as (n1 & H1); [apply top_side|unfold inRect; simpl; lia..|].
    destruct (side_walk 0 (rows - 1) (cols - 1) (cols - 1) (0, cols - 1) v)
      as (n2 & H2); [apply right_side|unfold inRect; simpl; lia..|].
    exists (n1 + n2)%nat. by eapply walk_app.
Qed.

(** Two cells of a free outer ring are joined along it. *)
Lemma ring_walk u v :
  onBorder rows cols u → onBorder rows cols v → ∃ n, walk E u v n.
Proof.
  intros Hu Hv. destruct (ring_to_corner u Hu) as (n1 & H1).
  destruct (ring_from_corner v Hv) as (n2 & H2).
  exists (n1 + n2)%nat. by eapply walk_app.
Qed.
End Ring.

(** * Properties of the generated mazes *)

(** ** The depth-first maze *)

(** X11: [getMazeNeighbors] returns exactly the cells two columns to the
    left, two columns to the right, two rows up and two rows down, in that
    order, that lie inside the grid and are not in the visited set. *)
Theorem getMazeNeighbors_exact (rows cols i j : Z) (visited : gset Pos) :
  getMazeNeighbors rows cols i j visited =
    filter (λ q, inBounds rows cols q ∧ q ∉ visited)
      [(i, j - 2); (i, j + 2); (i - 2, j); (i + 2, j)].
Proof. apply getMazeNeighbors_filter. Qed.

Lemma handleMazeGen_random (fuel : nat) (rnd : nat → Z) st :
  wellFormed st → 5 ≤ st.(ROWS) → 5 ≤ st.(COLS) →
  (enoughFuel st.(ROWS) st.(COLS) ≤ fuel)%nat →
  ∃ st', handleMazeGen fuel rnd (Some MazeRandom) st = Ok st' ∧ keeps st st'
    ∧ (∀ p, inBounds st.(ROWS) st.(COLS) p → onLattice st.(startPos) p →
         ∃ l, connects st.(ROWS) st.(COLS) st'.(gridArray) st.(startPos) p l)
    ∧ (∀ p, inBounds st.(ROWS) st.(COLS) p → offLattice st.(startPos) p →
         p ≠ st.(endPos) → wallAt st'.(gridArray) p = true).
Proof.
  intros Hwell HR HC Hfuel. pose proof Hwell as (Hwf & Hs & He & Hidle).
  unfold handleMazeGen. rewrite Hidle.
  pose proof (resetBoard_keeps st Hwell HR HC) as Hk.
  destruct (enoughFuel_bounds _ _ HR HC) as (Hf1 & Hf2 & Hf3).
  apply generateDFSMaze_spec; [done|lia].
Qed.

(** X12: the depth-first maze joins the whole lattice of the start: on
    every grid of at least five by five cells and for every sequence of
    random draws, after the random maze has been generated each cell of the
    grid that is an even number of rows and an even number of columns away
    from the start is joined to the start by a path of free cells. *)
Theorem maze_joins_lattice (st : State) (rnd : nat → Z) (fuel : nat) :
  wellFormed st → 5 ≤ st.(ROWS) → 5 ≤ st.(COLS) →
  (enoughFuel st.(ROWS) st.(COLS) ≤ fuel)%nat →
  ∃ st',
    handleMazeGen fuel rnd (Some MazeRandom) st = Ok st'
    ∧ ∀ p, inBounds st.(ROWS) st.(COLS) p → onLattice st.(startPos) p →
        ∃ l, connects st.(ROWS) st.(COLS) st'.(gridArray) st.(startPos) p l.
Proof.
  intros Hwell HR HC Hfuel.
  destruct (handleMazeGen_random fuel rnd st Hwell HR HC Hfuel)
    as (st' & Hrun & _ & Hlat & _).
  eauto.
Qed.

Lemma maze_joins_lattice_witness :
  ∃ st',
    handleMazeGen 407 (λ n, Z.of_nat n * 7 + 3) (Some MazeRandom)
      (calculateGridSize 9 9 initialState) = Ok st'
    ∧ ∀ p, inBounds 9 9 p → onLattice (5, 5) p →
        ∃ l, connects 9 9 st'.(gridArray) (5, 5) p l.
Proof.
  apply (maze_joins_lattice (calculateGridSize 9 9 initialState)
           (λ n, Z.of_nat n * 7 + 3) 407%nat).
  - unfold wellFormed. simpl.
    split_and!; try (unfold inBounds; simpl; lia); try reflexivity.
    apply wfGrid_createGrid.
  - simpl. lia.
  - simpl. lia.
  - vm_compute. lia.
Defined.

(** X13: a depth-first maze can be solved unless the end lies an odd
    number of rows and an odd number of columns away from the start: when
    one of the two offsets is even, every algorithm run on the generated
    maze is reported successful. *)
Theorem maze_solvable (st : State) (rnd : nat → Z) (algo : Algo) (fuel : nat) :
  wellFormed st → 5 ≤ st.(ROWS) → 5 ≤ st.(COLS) →
  (enoughFuel st.(ROWS) st.(COLS) ≤ fuel)%nat →
  (st.(endPos).1 - st.(startPos).1) `mod` 2 = 0
  ∨ (st.(endPos).2 - st.(startPos).2) `mod` 2 = 0 →
  ∃ st' st'' run,
    handleMazeGen fuel rnd (Some MazeRandom) st = Ok st'
    ∧ startVisualization fuel algo st' = Ok (st'', Some run)
    ∧ run.(success) = true.
Proof.
  intros Hwell HR HC Hfuel Heven. pose proof Hwell as (Hwf & Hs & He & Hidle).
  destruct (handleMazeGen_random fuel rnd st Hwell HR HC Hfuel)
    as (st' & Hrun & Hk & Hlat & _).
  pose proof Hk as ((Hwell' & _ & _ & _ & Hwe) & HsR & HsC & Hss & Hse).
  assert (Hpath : ∃ l, connects (ROWS st) (COLS st) (gridArray st')
                         (startPos st) (endPos st) l).
  { destruct (decide (onLattice (startPos st) (endPos st))) as [Hon|Hoff].
    { by apply Hlat. }
    assert (Hnear : ∃ q, inBounds (ROWS st) (COLS st) q ∧ onLattice (startPos st) q
                         ∧ manhattan q (endPos st) = 1).
    { destruct (startPos st) as [a b], (endPos st) as [a' b'].
      unfold onLattice, inBounds, manhattan in *. simpl in *.
      destruct Heven as [H1|H2].
      - destruct (decide (1 ≤ b')).
        + exists (a', b' - 1). simpl. split_and!; try lia; Z.div_mod_to_equations; lia.
        + exists (a', b' + 1). simpl. split_and!; try lia; Z.div_mod_to_equations; lia.
      - destruct (decide (1 ≤ a')).
        + exists (a' - 1, b'). simpl. split_and!; try lia; Z.div_mod_to_equations; lia.
        + exists (a' + 1, b'). simpl. split_and!; try lia; Z.div_mod_to_equations; lia. }
    destruct Hnear as (q & Hq & Hql & Hqm).
    destruct (Hlat q Hq Hql) as (l & Hl).
    exists (l ++ [endPos st]). eapply connects_snoc; [done| |done].
    split; [done|]. by rewrite <- Hse. }
  destruct (connected_run_succeeds st' algo fuel Hwell') as (st'' & run & Hvis & Hok).
  { by rewrite HsR, HsC. }
  { by rewrite HsR, HsC, Hss, Hse. }
  exists st', st'', run. done.
Qed.

Lemma maze_solvable_witness :
  ∃ st' st'' run,
    handleMazeGen 407 (λ n, Z.of_nat n * 7 + 3) (Some MazeRandom)
      (calculateGridSize 9 9 initialState) = Ok st'
    ∧ startVisualization 407 Bfs st' = Ok (st'', Some run)
    ∧ run.(success) = true.
Proof.
  apply (maze_solvable (calculateGridSize 9 9 initialState)
           (λ n, Z.of_nat n * 7 + 3) Bfs 407%nat).
  - unfold wellFormed. simpl.
    split_and!; try (unfold inBounds; simpl; lia); try reflexivity.
    apply wfGrid_createGrid.
  - simpl. lia.
  - simpl. lia.
  - vm_compute. lia.
  - left. reflexivity.
Defined.

(** X14: the depth-first maze leaves the cells between its corridors as
    walls: after the random maze has been generated, every cell of the grid
    that is an odd number of rows and an odd number of columns away from the
    start is a wall, unless it is the end cell. *)
Theorem maze_keeps_odd_walls (st : State) (rnd : nat → Z) (fuel : nat) :
  wellFormed st → 5 ≤ st.(ROWS) → 5 ≤ st.(COLS) →
  (enoughFuel st.(ROWS) st.(COLS) ≤ fuel)%nat →
  ∃ st',
    handleMazeGen fuel rnd (Some MazeRandom) st = Ok st'
    ∧ ∀ p, inBounds st.(ROWS) st.(COLS) p → offLattice st.(startPos) p →
        p ≠ st.(endPos) → wallAt st'.(gridArray) p = true.
Proof.
  intros Hwell HR HC Hfuel.
  destruct (handleMazeGen_random fuel rnd st Hwell HR HC Hfuel)
    as (st' & Hrun & _ & _ & Hoff).
  eauto.
Qed.

Lemma maze_keeps_odd_walls_witness :
  ∃ st',
    handleMazeGen 407 (λ n, Z.of_nat n * 7 + 3) (Some MazeRandom)
      (calculateGridSize 9 9 initialState) = Ok st'
    ∧ ∀ p, inBounds 9 9 p → offLattice (5, 5) p → p ≠ (5, 8) →
        wallAt st'.(gridArray) p = true.
Proof.
  apply (maze_keeps_odd_walls (calculateGridSize 9 9 initialState)
           (λ n, Z.of_nat n * 7 + 3) 407%nat).
  - unfold wellFormed. simpl.
    split_and!; try (unfold inBounds; simpl; lia); try reflexivity.
    apply wfGrid_createGrid.
  - simpl. lia.
  - simpl. lia.
  - vm_compute. lia.
Defined.

(** ** The spiral and the recursive division *)

(** X15: the spiral leaves room around the two special cells: on every
    grid of at least five by five cells, after the spiral pattern has been
    generated no cell of the grid that is one step away from the start or
    from the end is a wall. *)
Theorem spiral_clears_around_start_and_end (st : State) (rnd : nat → Z) (fuel : nat) :
  wellFormed st → 5 ≤ st.(ROWS) → 5 ≤ st.(COLS) →
  (enoughFuel st.(ROWS) st.(COLS) ≤ fuel)%nat →
  ∃ st',
    handleMazeGen fuel rnd (Some MazeSpiral) st = Ok st'
    ∧ ∀ q, inBounds st.(ROWS) st.(COLS) q →
        manhattan st.(startPos) q = 1 ∨ manhattan st.(endPos) q = 1 →
        wallAt st'.(gridArray) q = false.
Proof.
  intros Hwell HR HC Hfuel. pose proof Hwell as (Hwf & Hs & He & Hidle).
  unfold handleMazeGen. rewrite Hidle.
  pose proof (resetBoard_keeps st Hwell HR HC) as Hk.
  destruct (enoughFuel_bounds _ _ HR HC) as (Hf1 & Hf2 & Hf3).
  destruct (generateSpiralPattern_spec st fuel (resetBoard st) Hk ltac:(lia))
    as (st' & Hrun & _ & Hnear & _).
  eauto.
Qed.

Lemma spiral_clears_around_start_and_end_witness :
  ∃ st',
    handleMazeGen 407 (λ n, Z.of_nat n) (Some MazeSpiral)
      (calculateGridSize 9 9 initialState) = Ok st'
    ∧ ∀ q, inBounds 9 9 q →
        manhattan (5, 5) q = 1 ∨ manhattan (5, 8) q = 1 →
        wallAt st'.(gridArray) q = false.
Proof.
  apply (spiral_clears_around_start_and_end (calculateGridSize 9 9 initialState)
           (λ n, Z.of_nat n) 407%nat).
  - unfold wellFormed. simpl.
    split_and!; try (unfold inBounds; simpl; lia); try reflexivity.
    apply wfGrid_createGrid.
  - simpl. lia.
  - simpl. lia.
  - vm_compute. lia.
Defined.

Lemma resetBoard_open st p :
  st.(isRunning) = false → wallAt (resetBoard st).(gridArray) p = false.
Proof.
  intros Hidle. unfold resetBoard. rewrite Hidle. simpl.
  unfold wallAt. rewrite lookup_fmap.
  by destruct (resetVisuals (gridArray st) !! p).
Qed.

Lemma onBorder_outside rows cols p :
  onBorder rows cols p → ¬ inRect 1 (rows - 2) 1 (cols - 2) p.
Proof. intros [_ Hb] [Hr Hc]. lia. Qed.

Lemma handleMazeGen_border (st : State) (rnd : nat → Z) (type : MazeType) (fuel : nat) :
  wellFormed st → 5 ≤ st.(ROWS) → 5 ≤ st.(COLS) →
  (enoughFuel st.(ROWS) st.(COLS) ≤ fuel)%nat →
  type ≠ MazeRandom →
  ∃ st',
    handleMazeGen fuel rnd (Some type) st = Ok st' ∧ keeps st st'
    ∧ ∀ p, onBorder st.(ROWS) st.(COLS) p → wallAt st'.(gridArray) p = false.
Proof.
  intros Hwell HR HC Hfuel Htype. pose proof Hwell as (Hwf & Hs & He & Hidle).
  pose proof (resetBoard_keeps st Hwell HR HC) as Hk.
  pose proof Hk as (_ & HsR & HsC & _).
  destruct (enoughFuel_bounds _ _ HR HC) as (Hf1 & Hf2 & Hf3).
  unfold handleMazeGen. rewrite Hidle. destruct type; [done| |].
  - destruct (generateSpiralPattern_spec st fuel (resetBoard st) Hk ltac:(lia))
      as (st' & Hrun & Hk' & _ & Hout).
    exists st'. split_and!; [done|done|]. intros p Hp.
    apply Hout; [by apply onBorder_outside|by apply resetBoard_open].
  - rewrite HsR, HsC.
    destruct (recursiveDivision_keeps st rnd fuel 1 (ROWS st - 2) 1 (COLS st - 2)
                (resetBoard st) Hk) as (st' & Hrun & Hk'); try lia.
    exists st'. split_and!; [done|done|]. intros p Hp.
    apply recursiveDivision_adds in Hrun.
    unfold wallAt. rewrite (addsWalls_outside _ _ _ p Hrun (onBorder_outside _ _ _ Hp)).
    by apply resetBoard_open.
Qed.

(** X16: the spiral and the recursive division keep the outer ring of the
    grid free: on every grid of at least five by five cells and for every
    sequence of random draws, after either pattern has been generated no
    cell of the first or last row or column is a wall. *)
Theorem border_stays_free (st : State) (rnd : nat → Z) (type : MazeType) (fuel : nat) :
  wellFormed st → 5 ≤ st.(ROWS) → 5 ≤ st.(COLS) →
  (enoughFuel st.(ROWS) st.(COLS) ≤ fuel)%nat →
  type ≠ MazeRandom →
  ∃ st',
    handleMazeGen fuel rnd (Some type) st = Ok st'
    ∧ ∀ p, onBorder st.(ROWS) st.(COLS) p → wallAt st'.(gridArray) p = false.
Proof.
  intros Hwell HR HC Hfuel Htype.
  destruct (handleMazeGen_border st rnd type fuel Hwell HR HC Hfuel Htype)
    as (st' & Hrun & _ & Hborder).
  eauto.
Qed.

Lemma border_stays_free_witness :
  ∃ st',
    handleMazeGen 407 (λ n, Z.of_nat n * 7 + 3) (Some MazeRecursive)
      (calculateGridSize 9 9 initialState) = Ok st'
    ∧ ∀ p, onBorder 9 9 p → wallAt st'.(gridArray) p = false.
Proof.
  apply (border_stays_free (calculateGridSize 9 9 initialState)
           (λ n, Z.of_nat n * 7 + 3) MazeRecursive 407%nat).
  - unfold wellFormed. simpl.
    split_and!; try (unfold inBounds; simpl; lia); try reflexivity.
    apply wfGrid_createGrid.
  - simpl. lia.
  - simpl. lia.
  - vm_compute. lia.
  - discriminate.
Defined.

(** X17: recursive division writes inside its rectangle only, and only to
    set walls: called on a rectangle that lies inside the outer ring of the
    grid, it returns a state with the same dimensions and special
    positions in which every cell is as it was, or is a cell of that
    rectangle whose wall flag has been set. *)
Theorem recursiveDivision_stays_in_rectangle (st : State) (rnd : nat → Z) (fuel : nat)
    (rStart rEnd cStart cEnd : Z) :
  invariant st →
  1 ≤ rStart → rEnd ≤ st.(ROWS) - 2 → 1 ≤ cStart → cEnd ≤ st.(COLS) - 2 →
  (enoughFuel st.(ROWS) st.(COLS) ≤ fuel)%nat →
  ∃ st',
    recursiveDivision fuel rnd rStart rEnd cStart cEnd st = Ok st'
    ∧ addsWalls (inRect rStart rEnd cStart cEnd) st st'.
Proof.
  intros Hinv Hr1 Hr2 Hc1 Hc2 Hfuel. pose proof Hinv as (_ & HR & HC & _).
  destruct (enoughFuel_bounds _ _ HR HC) as (Hf1 & Hf2 & Hf3).
  destruct (recursiveDivision_keeps st rnd fuel rStart rEnd cStart cEnd st
              (keeps_refl st Hinv)) as (st' & Hrun & _); try lia.
  exists st'. split; [done|]. by eapply recursiveDivision_adds.
Qed.

Lemma recursiveDivision_stays_in_rectangle_witness :
  ∃ st',
    recursiveDivision 407 (λ n, Z.of_nat n * 7 + 3) 1 7 1 3
      (calculateGridSize 9 9 initialState) = Ok st'
    ∧ addsWalls (inRect 1 7 1 3) (calculateGridSize 9 9 initialState) st'.
Proof.
  apply (recursiveDivision_stays_in_rectangle (calculateGridSize 9 9 initialState)
           (λ n, Z.of_nat n * 7 + 3) 407%nat 1 7 1 3).
  - unfold invariant, wellFormed. simpl.
    split_and!; try (unfold inBounds; simpl; lia); try reflexivity.
    apply wfGrid_createGrid.
  - lia.
  - simpl. lia.
  - lia.
  - simpl. lia.
  - vm_compute. lia.
Defined.

(** X26: with the start and the end on the outer ring, the spiral and the
    recursive division can always be solved: on every grid of at least five
    by five cells and for every sequence of random draws, when both special
    cells lie in the first or last row or column, every algorithm run on
    the generated pattern is reported successful. *)
Theorem border_endpoints_solvable (st : State) (rnd : nat → Z) (type : MazeType)
    (algo : Algo) (fuel : nat) :
  wellFormed st → 5 ≤ st.(ROWS) → 5 ≤ st.(COLS) →
  (enoughFuel st.(ROWS) st.(COLS) ≤ fuel)%nat →
  type ≠ MazeRandom →
  onBorder st.(ROWS) st.(COLS) st.(startPos) →
  onBorder st.(ROWS) st.(COLS) st.(endPos) →
  ∃ st' st'' run,
    handleMazeGen fuel rnd (Some type) st = Ok st'
    ∧ startVisualization fuel algo st' = Ok (st'', Some run)
    ∧ run.(success) = true.
Proof.
  intros Hwell HR HC Hfuel Htype Hsb Heb.
  destruct (handleMazeGen_border st rnd type fuel Hwell HR HC Hfuel Htype)
    as (st' & Hrun & Hk & Hborder).
  pose proof Hk as ((Hwell' & _ & _ & Hws & _) & HsR & HsC & Hss & Hse).
  destruct (ring_walk (ROWS st) (COLS st) (wallAt (gridArray st')) ltac:(lia) ltac:(lia)
              Hborder (startPos st) (endPos st) Hsb Heb) as (n & Hn).
  destruct (walk_path (ROWS st) (COLS st) (gridArray st') (startPos st) (endPos st) n)
    as (l & Hl & _); [|done|].
  { split; [by destruct Hsb|]. by rewrite <- Hss. }
  destruct (connected_run_succeeds st' algo fuel Hwell') as (st'' & run & Hvis & Hok).
  { by rewrite HsR, HsC. }
  { rewrite HsR, HsC, Hss, Hse. eauto. }
  exists st', st'', run. done.
Qed.

Lemma border_endpoints_solvable_witness :
  ∃ st' st'' run,
    handleMazeGen 407 (λ n, Z.of_nat n * 7 + 3) (Some MazeRecursive)
      (mkState 9 9 (createGrid 9 9) false false Pointer None (0, 2) (8, 5) 0) = Ok st'
    ∧ startVisualization 407 Dfs st' = Ok (st'', Some run)
    ∧ run.(success) = true.
Proof.
  apply (border_endpoints_solvable
           (mkState 9 9 (createGrid 9 9) false false Pointer None (0, 2) (8, 5) 0)
           (λ n, Z.of_nat n * 7 + 3) MazeRecursive Dfs 407%nat).
  - unfold wellFormed. cbn [ROWS COLS gridArray startPos endPos isRunning].
    split_and!; try (unfold inBounds; cbn [fst snd]; lia); try reflexivity.
    apply wfGrid_createGrid.
  - cbn [ROWS]. lia.
  - cbn [COLS]. lia.
  - vm_compute. lia.
  - discriminate.
  - unfold onBorder, inBounds. cbn [ROWS COLS startPos fst snd]. lia.
  - unfold onBorder, inBounds. cbn [ROWS COLS endPos fst snd]. lia.
Defined.

(** * Further properties of the page *)

(** ** Building the grid *)

Lemma dom_createGrid rows cols : dom (createGrid rows cols) = cellSet rows cols.
Proof.
  apply set_eq. intros p. rewrite elem_of_dom, createGrid_lookup.
  unfold cellSet. rewrite elem_of_list_to_set, elem_of_cellsOf.
  case_decide as Hp; split; done.
Qed.

Lemma size_createGrid rows cols :
  size (createGrid rows cols) = (Z.to_nat rows * Z.to_nat cols)%nat.
Proof. by rewrite <- size_dom, dom_createGrid, size_cellSet. Qed.

(** X18: a resize builds a fresh grid of at least five by five cells: the
    numbers of rows and of columns are those of the viewport, raised to 5
    when smaller; the grid holds one cell for each position of these
    dimensions and no other, each with its own coordinates, not a wall and
    without marks of a run; a start or end position that still fits is kept,
    and one that was not negative ends inside the new grid; resizing again
    to the same viewport changes nothing. *)
Theorem resize_builds_fresh_grid (vc vr : Z) (st : State) :
  let st' := calculateGridSize vc vr st in
  st'.(ROWS) = Z.max 5 vr ∧ st'.(COLS) = Z.max 5 vc
  ∧ (∀ p, st'.(gridArray) !! p =
          if decide (inBounds st'.(ROWS) st'.(COLS) p)
          then Some (newNode p.1 p.2) else None)
  ∧ size st'.(gridArray) = (Z.to_nat st'.(ROWS) * Z.to_nat st'.(COLS))%nat
  ∧ (inBounds st'.(ROWS) st'.(COLS) st.(startPos) → st'.(startPos) = st.(startPos))
  ∧ (inBounds st'.(ROWS) st'.(COLS) st.(endPos) → st'.(endPos) = st.(endPos))
  ∧ (0 ≤ st.(startPos).1 → 0 ≤ st.(startPos).2 →
       inBounds st'.(ROWS) st'.(COLS) st'.(startPos))
  ∧ (0 ≤ st.(endPos).1 → 0 ≤ st.(endPos).2 →
       inBounds st'.(ROWS) st'.(COLS) st'.(endPos))
  ∧ calculateGridSize vc vr st' = st'.
Proof.
  unfold calculateGridSize. cbn [ROWS COLS gridArray startPos endPos].
  set (R := if decide (vr < 5) then 5 else vr).
  set (C := if decide (vc < 5) then 5 else vc).
  assert (HR : R = Z.max 5 vr) by (unfold R; case_decide; lia).
  assert (HC : C = Z.max 5 vc) by (unfold C; case_decide; lia).
  split_and!.
  - done.
  - done.
  - apply createGrid_lookup.
  - apply size_createGrid.
  - intros [H1 H2]. destruct (startPos st) as [a b]. simpl in *. f_equal; lia.
  - intros [H1 H2]. destruct (endPos st) as [a b]. simpl in *. f_equal; lia.
  - intros H1 H2. unfold inBounds. simpl. lia.
  - intros H1 H2. unfold inBounds. simpl. lia.
  - cbn [isMousePressed isRunning currentTool draggingNode rngCalls fst snd].
    f_equal; f_equal; lia.
Qed.

Lemma resize_builds_fresh_grid_witness :
  let st' := calculateGridSize 3 40 initialState in
  st'.(ROWS) = 40 ∧ st'.(COLS) = 5 ∧ st'.(startPos) = (5, 4) ∧ st'.(endPos) = (5, 4).
Proof.
  destruct (resize_builds_fresh_grid 3 40 initialState) as (HR & HC & _).
  split_and!; [exact HR|exact HC|reflexivity|reflexivity].
Defined.

(** ** Editing walls *)

(** X19: [addWall] sets the wall flag of one cell and nothing else, and it
    does not check bounds: for a position that is neither the start nor the
    end, outside the grid it raises a [TypeError]; inside the grid it
    returns a state that differs from the given one in that cell only,
    which is the old cell with [isWall] set to the given value; and a second
    [addWall] on the same cell overrides the first. *)
Theorem addWall_sets_one_flag (st : State) (i j : Z) (b : bool) :
  wfGrid st.(ROWS) st.(COLS) st.(gridArray) →
  isStartOrEnd st i j = false →
  (¬ inBounds st.(ROWS) st.(COLS) (i, j) → addWall i j b st = TypeError)
  ∧ (inBounds st.(ROWS) st.(COLS) (i, j) →
       ∃ n st',
         addWall i j b st = Ok st'
         ∧ st' = set_gridArray st'.(gridArray) st
         ∧ st.(gridArray) !! (i, j) = Some n
         ∧ st'.(gridArray) !! (i, j) = Some (set_isWall b n)
         ∧ (∀ p, p ≠ (i, j) → st'.(gridArray) !! p = st.(gridArray) !! p)
         ∧ ∀ b', addWall i j b' st' = addWall i j b' st).
Proof.
  intros Hwf Hsp. unfold addWall. rewrite Hsp. split.
  - intros Hout. specialize (Hwf (i, j)).
    destruct (gridArray st !! (i, j)) as [n|]; [tauto|done].
  - intros Hin. destruct (wfGrid_lookup _ _ _ _ Hwf Hin) as (n & Hn & _).
    rewrite Hn. cbn [deref mbind outcome_bind].
    exists n. eexists. split; [done|]. simpl. split_and!.
    + done.
    + done.
    + by rewrite lookup_insert_eq.
    + intros p Hp. by rewrite lookup_insert_ne.
    + intros b'. unfold addWall.
      replace (isStartOrEnd (set_gridArray _ st) i j) with (isStartOrEnd st i j) by done.
      rewrite Hsp. simpl. rewrite lookup_insert_eq. cbn [deref mbind outcome_bind].
      by rewrite insert_insert_eq.
Qed.

Lemma addWall_sets_one_flag_witness :
  (¬ inBounds 9 9 (9, 0) → addWall 9 0 true (calculateGridSize 9 9 initialState) = TypeError)
  ∧ (inBounds 9 9 (9, 0) →
       ∃ n st',
         addWall 9 0 true (calculateGridSize 9 9 initialState) = Ok st'
         ∧ st' = set_gridArray st'.(gridArray) (calculateGridSize 9 9 initialState)
         ∧ createGrid 9 9 !! (9, 0) = Some n
         ∧ st'.(gridArray) !! (9, 0) = Some (set_isWall true n)
         ∧ (∀ p, p ≠ (9, 0) → st'.(gridArray) !! p = createGrid 9 9 !! p)
         ∧ ∀ b', addWall 9 0 b' st' = addWall 9 0 b' (calculateGridSize 9 9 initialState)).
Proof.
  apply (addWall_sets_one_flag (calculateGridSize 9 9 initialState) 9 0 true).
  - apply wfGrid_createGrid.
  - reflexivity.
Defined.

(** ** Dragging the special cells *)

(** X20: dragging moves a special cell and draws nothing: from a state of
    the page, pressing the mouse on the start cell, entering a cell of the
    grid that is not a wall and not the end, and releasing the mouse leaves
    the state as it was but for the start position, which is the entered
    cell, and the mouse flags, which are cleared; whatever tool is selected,
    no wall is set.  The same holds for the end cell. *)
Theorem drag_moves_special_cell (st : State) (i j : Z) :
  invariant st →
  inBounds st.(ROWS) st.(COLS) (i, j) →
  wallAt st.(gridArray) (i, j) = false →
  ((i, j) ≠ st.(endPos) →
     ∃ st1 st2,
       handleMouseDown st.(startPos).1 st.(startPos).2 st = Ok st1
       ∧ handleMouseEnter i j st1 = Ok st2
       ∧ handleMouseUp st2
         = set_draggingNode None (set_isMousePressed false (set_startPos (i, j) st)))
  ∧ (st.(startPos) ≠ st.(endPos) → (i, j) ≠ st.(startPos) →
     ∃ st1 st2,
       handleMouseDown st.(endPos).1 st.(endPos).2 st = Ok st1
       ∧ handleMouseEnter i j st1 = Ok st2
       ∧ handleMouseUp st2
         = set_draggingNode None (set_isMousePressed false (set_endPos (i, j) st))).
Proof.
  intros ((Hwf & Hs & He & Hidle) & _) Hij Hfree.
  destruct (wfGrid_lookup _ _ _ _ Hwf Hij) as (nd & Hnd & _).
  assert (Hw : isWall nd = false) by (unfold wallAt in Hfree; by rewrite Hnd in Hfree).
  split.
  - intros Hne. unfold handleMouseDown. rewrite Hidle. simpl.
    rewrite !bool_decide_eq_true_2 by done. simpl.
    eexists _, _. split; [done|].
    unfold handleMouseEnter. simpl. rewrite Hidle. simpl.
    assert (Hc : bool_decide (i ≠ (endPos st).1) || bool_decide (j ≠ (endPos st).2) = true).
    { destruct (endPos st) as [a b]. simpl.
      destruct (decide (i = a)) as [->|Hi].
      - rewrite (bool_decide_eq_true_2 (j ≠ b)); [apply orb_true_r|].
        intros ->. done.
      - by rewrite (bool_decide_eq_true_2 (i ≠ a)). }
    rewrite Hc, Hnd. cbn [deref mbind outcome_bind]. rewrite Hw. simpl.
    split; [done|]. done.
  - intros Hse Hne. unfold handleMouseDown. rewrite Hidle. simpl.
    assert (Hns : bool_decide ((endPos st).1 = (startPos st).1)
                  && bool_decide ((endPos st).2 = (startPos st).2) = false).
    { destruct (startPos st) as [a b], (endPos st) as [a' b']. simpl.
      destruct (decide (a' = a)) as [->|Ha].
      - rewrite (bool_decide_eq_false_2 (b' = b)); [apply andb_false_r|].
        intros ->. done.
      - by rewrite (bool_decide_eq_false_2 (a' = a)). }
    rewrite Hns. rewrite !bool_decide_eq_true_2 by done. simpl.
    eexists _, _. split; [done|].
    unfold handleMouseEnter. simpl. rewrite Hidle. simpl.
    assert (Hc : bool_decide (i ≠ (startPos st).1)
                 || bool_decide (j ≠ (startPos st).2) = true).
    { destruct (startPos st) as [a b]. simpl.
      destruct (decide (i = a)) as [->|Hi].
      - rewrite (bool_decide_eq_true_2 (j ≠ b)); [apply orb_true_r|].
        intros ->. done.
      - by rewrite (bool_decide_eq_true_2 (i ≠ a)). }
    rewrite Hc, Hnd. cbn [deref mbind outcome_bind]. rewrite Hw. simpl.
    split; [done|]. done.
Qed.

Lemma drag_moves_special_cell_witness :
  ∃ st1 st2,
    handleMouseDown 5 5 (calculateGridSize 9 9 initialState) = Ok st1
    ∧ handleMouseEnter 2 3 st1 = Ok st2
    ∧ handleMouseUp st2
      = set_draggingNode None
          (set_isMousePressed false
             (set_startPos (2, 3) (calculateGridSize 9 9 initialState))).
Proof.
  destruct (drag_moves_special_cell (calculateGridSize 9 9 initialState) 2 3) as [H _].
  - unfold invariant, wellFormed. simpl.
    split_and!; try (unfold inBounds; simpl; lia); try reflexivity.
    apply wfGrid_createGrid.
  - unfold inBounds; simpl; lia.
  - apply wallAt_createGrid.
  - apply H. discriminate.
Defined.

(** ** The theme *)

(** X21: the theme survives a reload: when the page has a theme switch
    and the user sets it, dark or light, then on the next load of the page,
    whatever the attribute and the switch are before [initTheme] runs,
    [initTheme] gives the root element the [data-theme] attribute of the
    chosen theme and the switch the chosen state, and leaves the storage as
    it is; and with no saved theme, or any saved value other than the dark
    one, [initTheme] selects the light theme. *)
Theorem theme_survives_reload (b : Browser) (checked : bool)
    (attr0 : option string) (switch0 : bool) :
  b.(themeSwitch) ≠ None →
  (let saved := (themeChange checked b).(localStorage) in
   let b' := initTheme (mkBrowser saved attr0 (Some switch0)) in
   b'.(dataTheme) = (if checked then Some "dark"%string else None)
   ∧ b'.(themeSwitch) = Some checked
   ∧ b'.(localStorage) = saved)
  ∧ (b.(localStorage) !! "ph-theme"%string ≠ Some "dark"%string →
     (initTheme b).(dataTheme) = None
     ∧ (initTheme b).(themeSwitch) = (λ _, false) <$> b.(themeSwitch)).
Proof.
  intros Hsw. split.
  - unfold themeChange. destruct (themeSwitch b) as [sw|]; [|done].
    destruct checked; unfold initTheme; simpl.
    + rewrite lookup_insert_eq. by rewrite decide_True.
    + rewrite lookup_insert_eq. by rewrite decide_False.
  - intros Hsaved. unfold initTheme. by rewrite decide_False.
Qed.

Lemma theme_survives_reload_witness :
  let b := mkBrowser ∅ None (Some false) in
  (let saved := (themeChange true b).(localStorage) in
   let b' := initTheme (mkBrowser saved None (Some false)) in
   b'.(dataTheme) = Some "dark"%string
   ∧ b'.(themeSwitch) = Some true
   ∧ b'.(localStorage) = saved)
  ∧ (b.(localStorage) !! "ph-theme"%string ≠ Some "dark"%string →
     (initTheme b).(dataTheme) = None
     ∧ (initTheme b).(themeSwitch) = (λ _, false) <$> b.(themeSwitch)).
Proof.
  apply (theme_survives_reload (mkBrowser ∅ None (Some false)) true None false).
  discriminate.
Defined.

(** ** Reset *)

Lemma resetBoard_fresh st :
  wellFormed st →
  resetBoard st = set_gridArray (createGrid st.(ROWS) st.(COLS)) st.
Proof.
  intros (Hwf & _ & _ & Hidle). unfold resetBoard. rewrite Hidle. f_equal.
  apply map_eq. intros p. unfold resetVisuals.
  rewrite !lookup_fmap, createGrid_lookup. specialize (Hwf p).
  destruct (gridArray st !! p) as [n|]; simpl.
  - destruct Hwf as [Hb Hrc]. rewrite decide_True by done.
    unfold set_isWall, resetNode, newNode. simpl. by rewrite <- Hrc.
  - by rewrite decide_False.
Qed.

(** X25: Reset gives back the grid of a fresh page: from a state of the
    page, [resetBoard] leaves a grid equal to the one that [createGrid]
    builds for the same dimensions (no wall, no mark of a run) and changes
    nothing else; resetting twice is resetting once; and since every maze
    generator starts with a reset, the maze it builds does not depend on the
    walls and marks that were on the board. *)
Theorem reset_gives_fresh_grid (st : State) :
  wellFormed st →
  resetBoard st = set_gridArray (createGrid st.(ROWS) st.(COLS)) st
  ∧ resetBoard (resetBoard st) = resetBoard st
  ∧ ∀ (fuel : nat) (rnd : nat → Z) (type : MazeType) (g : gmap Pos Node),
      wfGrid st.(ROWS) st.(COLS) g →
      handleMazeGen fuel rnd (Some type) (set_gridArray g st)
      = handleMazeGen fuel rnd (Some type) st.
Proof.
  intros Hst. pose proof Hst as (Hwf & Hs & He & Hidle).
  pose proof (resetBoard_fresh st Hst) as Hfresh. split_and!.
  - done.
  - rewrite Hfresh. rewrite resetBoard_fresh; [done|].
    split_and!; try done. apply wfGrid_createGrid.
  - intros fuel rnd type g Hg. unfold handleMazeGen. simpl. rewrite Hidle.
    rewrite Hfresh. rewrite (resetBoard_fresh (set_gridArray g st)); [done|].
    split_and!; done.
Qed.

Lemma reset_gives_fresh_grid_witness :
  resetBoard (calculateGridSize 9 9 initialState)
    = set_gridArray (createGrid 9 9) (calculateGridSize 9 9 initialState)
  ∧ resetBoard (resetBoard (calculateGridSize 9 9 initialState))
    = resetBoard (calculateGridSize 9 9 initialState)
  ∧ ∀ (fuel : nat) (rnd : nat → Z) (type : MazeType) (g : gmap Pos Node),
      wfGrid 9 9 g →
      handleMazeGen fuel rnd (Some type)
        (set_gridArray g (calculateGridSize 9 9 initialState))
      = handleMazeGen fuel rnd (Some type) (calculateGridSize 9 9 initialState).
Proof.
  apply (reset_gives_fresh_grid (calculateGridSize 9 9 initialState)).
  unfold wellFormed. simpl.
  split_and!; try (unfold inBounds; simpl; lia); try reflexivity.
  apply wfGrid_createGrid.
Defined.
